(** * Scrabble word generator: board state, pattern search and optimisers

    A shallow embedding of the Python sources

    - [utils/matrix/game_state.py]             (class [Game]),
    - [resources/rule_definitions.py]          (class [Rule]),
    - [utils/linear/simple_pattern_generator.py],
    - [utils/linear/dynamic_pattern_generator.py],
    - [utils/players/*.py]                     (the optimisers),

    followed by the properties of the specification stated over it.

    Conventions.  A Python [str] is a [list ascii]; the characters are
    ASCII, so [str.upper], [str.isalpha] and friends are the ASCII ones.
    A board position is a pair of integers [Z * Z]; a NumPy array is a
    list (of lists).  A Python exception is a value of [exn] carried by
    [Raise]; a normal return is [Ok]. *)

From Stdlib Require Import ZArith List Ascii String Bool Lia.
From stdpp Require Import base option list strings gmap pretty.
Import ListNotations.

Open Scope Z_scope.

(** ** Characters and strings *)

Definition str : Type := list ascii.

Definition s (x : string) : str := list_ascii_of_string x.

Definition code (ch : ascii) : nat := nat_of_ascii ch.

Definition char_isupper (ch : ascii) : bool :=
  ((65 <=? code ch) && (code ch <=? 90))%nat.

Definition char_islower (ch : ascii) : bool :=
  ((97 <=? code ch) && (code ch <=? 122))%nat.

Definition char_isalpha (ch : ascii) : bool :=
  char_isupper ch || char_islower ch.

Definition char_isdigit (ch : ascii) : bool :=
  ((48 <=? code ch) && (code ch <=? 57))%nat.

Definition char_upper (ch : ascii) : ascii :=
  if char_islower ch then ascii_of_nat (code ch - 32) else ch.

Definition char_lower (ch : ascii) : ascii :=
  if char_isupper ch then ascii_of_nat (code ch + 32) else ch.

Definition upper (x : str) : str := map char_upper x.
Definition lower (x : str) : str := map char_lower x.

Definition char_eqb (a b : ascii) : bool := Ascii.eqb a b.

(** [string.ascii_uppercase] *)
Definition ascii_uppercase : str := s "ABCDEFGHIJKLMNOPQRSTUVWXYZ".

(** ** Exceptions and results *)

(** The [ValueError]s the sources raise, one constructor per kind of
    message, with the data the message interpolates. *)
Inductive value_error : Type :=
  | NoLettersProvided
  | PositionOutOfBounds (row col : Z)
  | PositionOccupied (row col : Z)
  | NotSingleRowOrColumn
  | NotContinuous
  | FirstWordMustCoverStart
  | MustConnect
  | OccupiedBy (row col : Z) (ch : ascii)
  | InvalidWordsFormed (words : list str)
  | NoValidCombination (positions : list (Z * Z))
  | PatternEmpty
  | PatternBadCharacter
  | DeckBadCharacter
  | MissingLetters (missing num_blanks : nat)
  | InvalidRangeFormat
  | InvalidRange (n m : nat)
  | InvalidCharacter (ch : ascii)
  | SubstringNotFound
  | InvalidLiteral (text : str).

Inductive exn : Type :=
  | ValueError (e : value_error)
  | AttributeError (class_name attribute : string)
  | TypeError (what : string)
  | IndexError (what : string).

Inductive result (A : Type) : Type :=
  | Ok (a : A)
  | Raise (e : exn).
Arguments Ok {A} a.
Arguments Raise {A} e.

#[global] Instance result_ret : MRet result := fun A a => Ok a.
#[global] Instance result_bind : MBind result := fun A B k m =>
  match m with
  | Ok a => k a
  | Raise e => Raise e
  end.

(** [try: ... except Exception: <handler>] *)
Definition try_except {A} (m : result A) (handler : A) : A :=
  match m with Ok a => a | Raise _ => handler end.

(** ** NumPy helpers on one-dimensional arrays *)

Fixpoint insert_sorted (x : Z) (l : list Z) : list Z :=
  match l with
  | [] => [x]
  | y :: l' => if x <=? y then x :: l else y :: insert_sorted x l'
  end.

(** [np.sort] *)
Definition np_sort (l : list Z) : list Z := fold_right insert_sorted [] l.

Fixpoint insert_unique (x : Z) (l : list Z) : list Z :=
  match l with
  | [] => [x]
  | y :: l' =>
      if x <? y then x :: l
      else if x =? y then l
      else y :: insert_unique x l'
  end.

(** [np.unique]: the sorted distinct values. *)
Definition np_unique (l : list Z) : list Z := fold_right insert_unique [] l.

(** [arr.max()] and [arr.min()] of a non-empty array. *)
Definition np_max (l : list Z) : Z :=
  match l with [] => 0 | x :: l' => fold_left Z.max l' x end.
Definition np_min (l : list Z) : Z :=
  match l with [] => 0 | x :: l' => fold_left Z.min l' x end.

(** [np.ptp]: peak to peak, maximum minus minimum. *)
Definition np_ptp (l : list Z) : Z := np_max l - np_min l.

(** [np.arange(n)] and Python's [range(a, b)]. *)
Definition range (a b : Z) : list Z :=
  map (fun i => a + Z.of_nat i) (seq 0 (Z.to_nat (b - a))).
Definition np_arange (n : Z) : list Z := range 0 n.

(** [np.diff] of a boolean array: the exclusive or of neighbours. *)
Fixpoint np_diff (l : list bool) : list bool :=
  match l with
  | x :: ((y :: _) as l') => xorb y x :: np_diff l'
  | _ => []
  end.

(** [np.where(mask)[0]]: the indices where the mask holds. *)
Definition np_where (mask : list bool) : list Z :=
  map (fun p => Z.of_nat (fst p))
      (filter (fun p => snd p = true) (imap (fun i x => (i, x)) mask)).

(** [np.split(ary, indices)]: cut before each index (indices ascending). *)
Fixpoint np_split_from {A} (start : nat) (ary : list A) (indices : list nat)
  : list (list A) :=
  match indices with
  | [] => [ary]
  | i :: indices' =>
      take (i - start) ary :: np_split_from i (drop (i - start) ary) indices'
  end.
Definition np_split {A} (ary : list A) (indices : list Z) : list (list A) :=
  np_split_from 0 ary (map Z.to_nat indices).

(** [indices[:-1] + 1 == indices[1:]] *)
Fixpoint consecutive (indices : list Z) : list bool :=
  match indices with
  | x :: ((y :: _) as l') => (x + 1 =? y) :: consecutive l'
  | _ => []
  end.

(** [seg[0]] and [seg[-1]] of a non-empty segment. *)
Definition first_of (seg : list Z) : Z := hd 0 seg.
Definition last_of (seg : list Z) : Z := List.last seg 0.

(** ** The board *)

(** A cell of the ['U1'] array: [None] is the empty string. *)
Definition cell : Type := option ascii.
Definition board : Type := list (list cell).

Definition occupied (x : cell) : bool :=
  match x with Some _ => true | None => false end.

(** [np.full((15, 15), '', dtype='U1')] *)
Definition empty_board : board := replicate 15 (replicate 15 None).

Definition in_bounds (row col : Z) : bool :=
  (0 <=? row) && (row <? 15) && (0 <=? col) && (col <? 15).

(** [board[row, col]].  Outside the grid NumPy wraps a negative index
    and raises [IndexError] otherwise; neither is modelled, the cell
    reads as empty there.  The properties about functions that index
    the board without checking bounds are stated for placements inside
    the grid. *)
Definition cell_at (b : board) (row col : Z) : cell :=
  if in_bounds row col then
    match b !! Z.to_nat row with
    | Some line =>
        match line !! Z.to_nat col with
        | Some x => x
        | None => None
        end
    | None => None
    end
  else None.

(** [board[row, col] = ch] *)
Definition set_cell (b : board) (row col : Z) (x : cell) : board :=
  if in_bounds row col then
    alter (fun line => <[Z.to_nat col := x]> line) (Z.to_nat row) b
  else b.

(** [board[row] != ''] and [board[:, col] != ''] *)
Definition row_mask (b : board) (row : Z) : list bool :=
  map (fun col => occupied (cell_at b row col)) (np_arange 15).
Definition col_mask (b : board) (col : Z) : list bool :=
  map (fun row => occupied (cell_at b row col)) (np_arange 15).

(** [np.sum(board != '')] *)
Definition count_occupied (b : board) : nat :=
  list_sum (map (fun line => length (filter (fun x => occupied x = true) line)) b).

(** A placement: the new tiles [(letter, [row, col])] of one move; a
    letter is one character. *)
Definition addition : Type := ascii * (Z * Z).

Definition letter_of (a : addition) : ascii := fst a.
Definition pos_of (a : addition) : Z * Z := snd a.
Definition row_of (a : addition) : Z := fst (snd a).
Definition col_of (a : addition) : Z := snd (snd a).

(** [temp_board = board.copy()] then [temp_board[row, col] = letter]
    for every addition in turn. *)
Definition overlay (b : board) (additions : list addition) : board :=
  fold_left (fun t a => set_cell t (row_of a) (col_of a) (Some (letter_of a)))
            additions b.

(** ** Rules ([resources/rule_definitions.py]) *)

Record Rule : Type := {
  scrabble_dictionary : list str;
  letter_points : gmap ascii Z;
  (** [getattr(rule, 'word_multiplier', <ones>)]: the attribute may be absent *)
  word_multiplier : option (list (list Z));
  letter_multiplier : option (list (list Z));
}.

(** [np.ones((15, 15), dtype=np.int8)] *)
Definition np_ones : list (list Z) := replicate 15 (replicate 15 1).

(** [grid[row, col]] of a 15 x 15 integer grid, for a cell of the grid
    (see [cell_at]). *)
Definition grid_at (g : list (list Z)) (row col : Z) : Z :=
  if in_bounds row col then
    match g !! Z.to_nat row with
    | Some line => default 1 (line !! Z.to_nat col)
    | None => 1
    end
  else 1.

(** [for row, col in positions: grid[row, col] = v] *)
Definition set_all (g : list (list Z)) (positions : list (Z * Z)) (v : Z)
  : list (list Z) :=
  fold_left
    (fun g p => alter (fun line => <[Z.to_nat (snd p) := v]> line) (Z.to_nat (fst p)) g)
    positions g.

Definition tw_positions : list (Z * Z) :=
  [(0, 0); (0, 7); (0, 14); (7, 0); (7, 14); (14, 0); (14, 7); (14, 14)].

Definition dw_positions : list (Z * Z) :=
  [(1, 1); (1, 13); (2, 2); (2, 12); (3, 3); (3, 11);
   (4, 4); (4, 10); (7, 7);
   (10, 4); (10, 10); (11, 3); (11, 11);
   (12, 2); (12, 12); (13, 1); (13, 13)].

Definition tl_positions : list (Z * Z) :=
  [(1, 5); (1, 9); (5, 1); (5, 5); (5, 9); (5, 13);
   (9, 1); (9, 5); (9, 9); (9, 13); (13, 5); (13, 9)].

Definition dl_positions : list (Z * Z) :=
  [(0, 3); (0, 11); (2, 6); (2, 8); (3, 0); (3, 7); (3, 14);
   (6, 2); (6, 6); (6, 8); (6, 12);
   (7, 3); (7, 11);
   (8, 2); (8, 6); (8, 8); (8, 12);
   (11, 0); (11, 7); (11, 14); (12, 6); (12, 8);
   (14, 3); (14, 11)].

Definition standard_letter_points : gmap ascii Z :=
  list_to_map
    [("-", 0); ("A", 1); ("E", 1); ("I", 1); ("O", 1); ("U", 1);
     ("L", 1); ("N", 1); ("S", 1); ("T", 1); ("R", 1);
     ("D", 2); ("G", 2);
     ("B", 3); ("C", 3); ("M", 3); ("P", 3);
     ("F", 4); ("H", 4); ("V", 4); ("W", 4); ("Y", 4);
     ("K", 5);
     ("J", 8); ("X", 8);
     ("Q", 10); ("Z", 10)]%char.

(** [Rule.__init__]: [dictionary] is the list of the stripped, non-empty
    lines of the dictionary file. *)
Definition Rule_init (dictionary : list str) : Rule :=
  {| scrabble_dictionary := dictionary;
     letter_points := standard_letter_points;
     word_multiplier := Some (set_all (set_all np_ones tw_positions 3) dw_positions 2);
     letter_multiplier := Some (set_all (set_all np_ones tl_positions 3) dl_positions 2) |}.

(** ** The game ([utils/matrix/game_state.py]) *)

(** The outcome of the [k]-th call of [random.choice] on a sequence of
    length [n] is its element at index [draws k mod n]; the number of
    calls made so far is threaded through the functions that draw. *)
Definition random_choice {A} (draws : nat -> nat) (k : nat) (l : list A)
    (d : A) : A :=
  nth (draws k `mod` length l)%nat l d.

Definition start_pos : Z * Z := (7, 7).

Definition _verify_word_addition (b : board) (additions : list addition)
  : result bool :=
  match additions with
  | [] => Raise (ValueError NoLettersProvided)
  | _ =>
    (* Check boundaries *)
    match List.find (fun a => negb ((0 <=? row_of a) && (row_of a <? 15)
                                    && ((0 <=? col_of a) && (col_of a <? 15))))
                    additions with
    | Some a => Raise (ValueError (PositionOutOfBounds (row_of a) (col_of a)))
    | None =>
      (* Check for overlap with existing letters *)
      match List.find (fun a => occupied (cell_at b (row_of a) (col_of a)))
                      additions with
      | Some a => Raise (ValueError (PositionOccupied (row_of a) (col_of a)))
      | None =>
        let pos_array := map pos_of additions in
        let unique_rows := np_unique (map fst pos_array) in
        let unique_cols := np_unique (map snd pos_array) in
        if ((1 <? length unique_rows) && (1 <? length unique_cols))%nat
        then Raise (ValueError NotSingleRowOrColumn)
        else if (length unique_rows =? 1)%nat then
          let cols := np_sort (map snd pos_array) in
          if negb (np_ptp cols + 1 =? Z.of_nat (length additions))
          then Raise (ValueError NotContinuous)
          else Ok true
        else
          let rows := np_sort (map fst pos_array) in
          if negb (np_ptp rows + 1 =? Z.of_nat (length additions))
          then Raise (ValueError NotContinuous)
          else Ok true
      end
    end
  end.

Definition _touches_existing_word (b : board) (additions : list addition)
  : bool :=
  match additions with
  | [] => false
  | _ =>
    let pos_array := map pos_of additions in
    let adj := [(-1, 0); (1, 0); (0, -1); (0, 1)] in
    let all_adj :=
      flat_map (fun p => map (fun d => (fst p + fst d, snd p + snd d)) adj)
               pos_array in
    let valid_adj :=
      List.filter (fun q => (fst q >=? 0) && (fst q <? 15)
                            && (snd q >=? 0) && (snd q <? 15)) all_adj in
    match valid_adj with
    | [] => false
    | _ => existsb (fun q => occupied (cell_at b (fst q) (snd q))) valid_adj
    end
  end.

Definition _check_board_valid (b : board) (additions : list addition)
  : result bool :=
  let board_letter_count := count_occupied b in
  if (board_letter_count =? 0)%nat then
    let start_covered :=
      existsb (fun a => (row_of a =? fst start_pos) && (col_of a =? snd start_pos))
              additions in
    if negb start_covered
    then Raise (ValueError FirstWordMustCoverStart)
    else Ok true
  else
    (* Not the first move: must connect to existing words *)
    if negb (_touches_existing_word b additions)
    then Raise (ValueError MustConnect)
    else Ok true.

(** [mask[i]] *)
Definition mask_at (mask : list bool) (i : Z) : bool :=
  default false (mask !! Z.to_nat i).

(** The maximal runs of equal values of a line mask, as index arrays:
    [np.split(np.arange(15), np.where(np.diff(occupied))[0] + 1)] *)
Definition line_segments (occ : list bool) : list (list Z) :=
  np_split (np_arange 15) (map (fun i => i + 1) (np_where (np_diff occ))).

(** The main word of a line: the first occupied segment that overlaps
    the span of the additions; [mk] builds the position of an index. *)
Definition main_word (occ : list bool) (lo hi : Z) (mk : Z -> Z * Z)
  : list (list (Z * Z)) :=
  let segments := line_segments occ in
  let occupied_segments :=
    List.filter (fun seg => mask_at occ (first_of seg)) segments in
  match List.find (fun seg => (lo <=? last_of seg) && (hi >=? first_of seg))
                  occupied_segments with
  | Some seg =>
      let main_word_positions := map mk (range (first_of seg) (last_of seg + 1)) in
      if (1 <? length main_word_positions)%nat then [main_word_positions] else []
  | None => []
  end.

(** The cross word through index [at_] of a perpendicular line mask. *)
Definition cross_word (seg_line : list bool) (at_ : Z) (mk : Z -> Z * Z)
  : list (list (Z * Z)) :=
  if negb (mask_at seg_line at_) then []
  else
    let indices := np_where seg_line in
    let segment_idx := consecutive indices in
    let segment_boundaries :=
      np_split indices (map (fun i => i + 1) (np_where (map negb segment_idx))) in
    match List.find (fun seg => bool_decide (at_ ∈ seg)) segment_boundaries with
    | Some segment =>
        if (1 <? length segment)%nat
        then [map mk (range (first_of segment) (last_of segment + 1))]
        else []
    | None => []
    end.

Definition _extract_word_positions (temp_board : board)
    (additions : list addition) : list (list (Z * Z)) :=
  match additions with
  | [] => []
  | _ =>
    let positions := map pos_of additions in
    let unique_rows := np_unique (map fst positions) in
    let unique_cols := np_unique (map snd positions) in
    if (length unique_rows =? 1)%nat then
      (* Horizontal word *)
      let row := first_of unique_rows in
      let occ := row_mask temp_board row in
      let min_col := np_min (map snd positions) in
      let max_col := np_max (map snd positions) in
      main_word occ min_col max_col (fun c => (row, c))
      ++ flat_map
           (fun p => cross_word (col_mask temp_board (snd p)) row
                                (fun r => (r, snd p)))
           positions
    else
      (* Vertical word *)
      let col := first_of unique_cols in
      let occ := col_mask temp_board col in
      let min_row := np_min (map fst positions) in
      let max_row := np_max (map fst positions) in
      main_word occ min_row max_row (fun r => (r, col))
      ++ flat_map
           (fun p => cross_word (row_mask temp_board (fst p)) col
                                (fun c => (fst p, c)))
           positions
  end.

(** [''.join(temp_board[r, c] for r, c in pos_list)] *)
Definition word_of (temp_board : board) (pos_list : list (Z * Z)) : str :=
  flat_map (fun p => match cell_at temp_board (fst p) (snd p) with
                     | Some ch => [ch]
                     | None => []
                     end) pos_list.

Definition _get_all_affected_words (b : board) (additions : list addition)
  : gset str :=
  match additions with
  | [] => ∅
  | _ =>
    let temp_board := overlay b additions in
    let word_positions := _extract_word_positions temp_board additions in
    list_to_set (map (word_of temp_board) word_positions)
  end.

(** [itertools.product(choices, repeat=n)], first component slowest. *)
Fixpoint product {A} (choices : list A) (n : nat) : list (list A) :=
  match n with
  | O => [[]]
  | S n' => flat_map (fun x => map (cons x) (product choices n')) choices
  end.

(** [[i for i, (ch, _) in enumerate(additions) if ch == '-']] *)
Definition wildcard_indices_of (additions : list addition) : list nat :=
  map fst (List.filter (fun p => char_eqb (letter_of (snd p)) "-")
                       (imap (fun i a => (i, a)) additions)).

(** [for i, wc_idx in enumerate(wildcard_indices):
       additions[wc_idx] = (letters[i], additions[wc_idx][1])] *)
Definition assign_letters (additions : list addition)
    (wildcard_indices : list nat) (letters : list ascii) : list addition :=
  fold_left (fun adds p => alter (fun a => (snd p, pos_of a)) (fst p) adds)
            (zip wildcard_indices letters) additions.

(** The first addition whose cell is occupied, with the letter there. *)
Definition first_overlap (b : board) (additions : list addition)
  : option (Z * Z * ascii) :=
  head (omap (fun a => match cell_at b (row_of a) (col_of a) with
                       | Some ch => Some (row_of a, col_of a, ch)
                       | None => None
                       end) additions).

Section Game.

Context (rule : Rule) (draws : nat -> nat).

Definition in_dictionary (word : str) : bool :=
  bool_decide (lower word ∈ scrabble_dictionary rule).

(** The list [valid_combinations] when the loop over
    [product(all_letter_choices, repeat=len(wildcard_indices))] ends.
    Each iteration overwrites all the wildcard entries of
    [additions], so the additions tested at a combination are the
    original ones with that combination assigned. *)
Definition valid_combinations_of (b : board) (additions : list addition)
  : list (list ascii) :=
  let wildcard_indices := wildcard_indices_of additions in
  let all_letter_choices := ascii_uppercase in
  List.filter
    (fun letter_combo =>
       let all_words :=
         _get_all_affected_words b
           (assign_letters additions wildcard_indices letter_combo) in
       forallb in_dictionary (elements all_words))
    (product all_letter_choices (length wildcard_indices)).

(** Returns the additions as the call leaves them (the list is
    updated in place; an exception leaves it as it was) and the
    number of random draws made so far. *)
Definition _check_word_valid (k : nat) (b : board) (additions : list addition)
  : result (list addition * nat) :=
  match first_overlap b additions with
  | Some (row, col, ch) => Raise (ValueError (OccupiedBy row col ch))
  | None =>
    let wildcard_indices := wildcard_indices_of additions in
    match wildcard_indices with
    | [] =>
        (* No wildcards, simple dictionary check *)
        let all_words := _get_all_affected_words b additions in
        let invalid_words :=
          List.filter (fun word => negb (in_dictionary word))
                      (elements all_words) in
        if (0 <? length invalid_words)%nat
        then Raise (ValueError (InvalidWordsFormed invalid_words))
        else Ok (additions, k)
    | _ =>
        (* Wildcards present: exhaustively test all letter combinations *)
        let valid_combinations := valid_combinations_of b additions in
        match valid_combinations with
        | [] =>
            Raise (ValueError (NoValidCombination
                     (omap (fun i => pos_of <$> additions !! i) wildcard_indices)))
        | combo :: _ =>
            (* Randomly choose one valid combination *)
            let chosen_combo := random_choice draws k valid_combinations combo in
            (* Apply it with lowercase letters to signal blanks *)
            Ok (assign_letters additions wildcard_indices
                               (map char_lower chosen_combo), S k)
        end
    end
  end.

(** The multiplier grids, falling back to the identity. *)
Definition wm : list (list Z) := default np_ones (word_multiplier rule).
Definition lm : list (list Z) := default np_ones (letter_multiplier rule).

(** [int(rule.letter_points.get(ch.upper(), 0))] of the tile of a cell *)
Definition points_of (x : cell) : Z :=
  match x with
  | Some ch => default 0 (letter_points rule !! char_upper ch)
  | None => 0
  end.

(** The inner function [score_word] of [score_calculator]. *)
Definition score_word (temp_board : board)
    (blank_positions new_positions : gset (Z * Z))
    (pos_list : list (Z * Z)) : Z :=
  let '(letter_sum, word_mult) :=
    fold_left
      (fun acc p =>
         let '(letter_sum, word_mult) := acc in
         let ch := cell_at temp_board (fst p) (snd p) in
         let base := if bool_decide (p ∈ blank_positions) then 0
                     else points_of ch in
         if bool_decide (p ∈ new_positions)
         then (letter_sum + base * grid_at lm (fst p) (snd p),
               word_mult * Z.max 1 (grid_at wm (fst p) (snd p)))
         else (letter_sum + base, word_mult))
      pos_list (0, 1) in
  letter_sum * word_mult.

(** The state of [score_calculator] when it reaches
    [total = sum(score_word(w) for w in word_positions)]. *)
Definition blank_positions_of (additions : list addition) : gset (Z * Z) :=
  list_to_set
    (map pos_of
         (List.filter (fun a => char_isalpha (letter_of a)
                                && char_islower (letter_of a)) additions)).

Definition norm_additions_of (additions : list addition) : list addition :=
  map (fun a => (char_upper (letter_of a), pos_of a)) additions.

Definition words_total (b : board) (additions : list addition) : Z :=
  let blank_positions := blank_positions_of additions in
  let norm_additions := norm_additions_of additions in
  let temp_board := overlay b norm_additions in
  let new_positions : gset (Z * Z) := list_to_set (map pos_of norm_additions) in
  let word_positions := _extract_word_positions temp_board norm_additions in
  foldr Z.add 0
        (map (score_word temp_board blank_positions new_positions) word_positions).

Definition score_calculator (b : board) (additions : list addition)
    (bingo : bool) : Z :=
  match additions with
  | [] => 0
  | _ =>
    let norm_additions := norm_additions_of additions in
    let total := words_total b additions in
    if bingo || (length norm_additions =? 7)%nat then total + 50 else total
  end.

Definition _update (b : board) (additions : list addition) : board :=
  let additions := map (fun a => (char_upper (letter_of a), pos_of a)) additions in
  fold_left (fun b a => set_cell b (row_of a) (col_of a) (Some (letter_of a)))
            additions b.

(** [new_move]: the value returned or the exception raised, together
    with the board and the number of random draws the call leaves. *)
Definition new_move (k : nat) (b : board) (additions : list addition)
  : result Z * (board * nat) :=
  let additions := map (fun a => (char_upper (letter_of a), pos_of a)) additions in
  match _verify_word_addition b additions with
  | Raise e => (Raise e, (b, k))
  | Ok false => (Ok 0, (b, k))
  | Ok true =>
    match _check_board_valid b additions with
    | Raise e => (Raise e, (b, k))
    | Ok _ =>
      match _check_word_valid k b additions with
      | Raise e => (Raise e, (b, k))
      | Ok (additions, k) =>
          let score := score_calculator b additions false in
          (Ok score, (_update b additions, k))
      end
    end
  end.

End Game.

(** ** [collections.Counter] over characters

    A dictionary of counts in insertion order, as Python keeps it. *)

Definition Counter : Type := list (ascii * nat).

(** [counter[ch] += 1] *)
Fixpoint counter_incr (ch : ascii) (c : Counter) : Counter :=
  match c with
  | [] => [(ch, 1%nat)]
  | (key, n) :: c' =>
      if char_eqb key ch then (key, S n) :: c' else (key, n) :: counter_incr ch c'
  end.

(** [Counter(iterable)] *)
Definition Counter_of (l : list ascii) : Counter :=
  fold_left (fun c ch => counter_incr ch c) l [].

(** [counter.get(ch, 0)] *)
Fixpoint counter_get (c : Counter) (ch : ascii) : nat :=
  match c with
  | [] => 0%nat
  | (key, n) :: c' => if char_eqb key ch then n else counter_get c' ch
  end.

(** [text.count(ch)] *)
Definition str_count (ch : ascii) (text : str) : nat :=
  length (List.filter (char_eqb ch) text).

(** [ch in lst] *)
Definition str_contains (ch : ascii) (text : str) : bool :=
  existsb (char_eqb ch) text.

(** [lst.remove(ch)]: drops the first occurrence. *)
Fixpoint list_remove (ch : ascii) (l : list ascii) : list ascii :=
  match l with
  | [] => []
  | x :: l' => if char_eqb x ch then l' else x :: list_remove ch l'
  end.

(** [text[idx]] for an index inside the text. *)
Definition char_at (text : str) (idx : nat) : ascii :=
  nth idx text "000"%char.

(** [[i for i, c in enumerate(text) if test(c)]] *)
Definition indices_where (test : ascii -> bool) (text : str) : list nat :=
  map fst (List.filter (fun p => test (snd p)) (imap (fun i c => (i, c)) text)).

(** The loop [for letter, count in letter_counts.items(): have = ...;
    if have < count: missing += count - have] shared by the two
    generators. *)
Definition missing_letters (letter_counts deck_counts : Counter) : nat :=
  fold_left
    (fun missing item =>
       let have := counter_get deck_counts (fst item) in
       if (have <? snd item)%nat then (missing + (snd item - have))%nat else missing)
    letter_counts 0%nat.

(** ** The pattern matcher ([utils/linear/simple_pattern_generator.py]) *)

Module SimplePatternGenerator.

Definition __verify_pattern (pattern deck : str) : result unit :=
  match pattern with
  | [] => Raise (ValueError PatternEmpty)
  | _ =>
    let pattern := upper pattern in
    let deck := upper deck in
    if negb (forallb (fun char => char_isalpha char || char_eqb char "_") pattern)
    then Raise (ValueError PatternBadCharacter)
    else if negb (forallb (fun char => char_isalpha char || char_eqb char "-") deck)
    then Raise (ValueError DeckBadCharacter)
    else
      (* Count required letters *)
      let letter_counts := Counter_of (List.filter char_isalpha pattern) in
      let deck_counts := Counter_of (List.filter char_isalpha deck) in
      let num_blanks := str_count "-" deck in
      (* Check if deck (with blanks) can satisfy letter requirements *)
      let missing := missing_letters letter_counts deck_counts in
      if (num_blanks <? missing)%nat
      then Raise (ValueError (MissingLetters missing num_blanks))
      else Ok tt
  end.

Definition __calculate_implicit_deck (pattern deck : str) : str :=
  let deck_list := upper deck in
  let pattern := upper pattern in
  fold_left
    (fun deck_list char =>
       if char_isalpha char then
         if str_contains char deck_list then list_remove char deck_list
         else if str_contains "-" deck_list then list_remove "-" deck_list
         else deck_list
       else deck_list)
    pattern deck_list.

(** The loop over [needed.items()] with the running count of blanks;
    [None] is the early [return False]. *)
Definition use_blanks (implicit_deck_counter : Counter) (needed : Counter)
    (blanks : nat) : option nat :=
  fold_left
    (fun state item =>
       match state with
       | None => None
       | Some blanks =>
           let have := counter_get implicit_deck_counter (fst item) in
           if (have <? snd item)%nat then
             if (have + blanks <? snd item)%nat then None
             else Some (blanks - (snd item - have))%nat
           else Some blanks
       end)
    needed (Some blanks).

Definition __can_make_word (word : str) (fixed_indices : list nat)
    (fixed_letters : list ascii) (wildcard_indices : list nat)
    (implicit_deck_counter : Counter) : bool :=
  (* Fast fixed position check *)
  if negb (forallb (fun p => char_eqb (char_at word (fst p)) (snd p))
                   (zip fixed_indices fixed_letters))
  then false
  else
    (* Count needed letters for wildcards *)
    let needed := Counter_of (map (char_at word) wildcard_indices) in
    let blanks := counter_get implicit_deck_counter "-" in
    match use_blanks implicit_deck_counter needed blanks with
    | None => false
    | Some _ => true
    end.

Definition generate (pattern deck : str) (word_list : list str)
  : result (list str) :=
  _ ← __verify_pattern pattern deck;
  let implicit_deck := __calculate_implicit_deck pattern deck in
  let pattern := upper pattern in
  let deck := upper deck in
  let implicit_deck_counter := Counter_of implicit_deck in
  let pattern_length := length pattern in
  (* Precompute fixed and wildcard indices *)
  let fixed_indices := indices_where char_isalpha pattern in
  let fixed_letters := map (char_at pattern) fixed_indices in
  let wildcard_indices := indices_where (fun c => char_eqb c "_") pattern in
  (* Pre-filter by length only *)
  let candidates :=
    map upper (List.filter (fun word => (length word =? pattern_length)%nat)
                           word_list) in
  let matching_words :=
    List.filter
      (fun word => __can_make_word word fixed_indices fixed_letters
                                   wildcard_indices implicit_deck_counter)
      candidates in
  Ok matching_words.

End SimplePatternGenerator.

(** ** The pattern expander ([utils/linear/dynamic_pattern_generator.py]) *)

(** [int(digits)] *)
Definition int_of_digits (digits : list ascii) : nat :=
  fold_left (fun n d => (10 * n + (code d - 48))%nat) digits 0%nat.

(** The longest prefix of digits, and the rest. *)
Fixpoint span_digits (text : str) : list ascii * str :=
  match text with
  | ch :: text' =>
      if char_isdigit ch
      then let '(ds, rest) := span_digits text' in (ch :: ds, rest)
      else ([], text)
  | [] => ([], [])
  end.

(** One literal character of a regular expression. *)
Definition expect (ch : ascii) (text : str) : option str :=
  match text with
  | c :: rest => if char_eqb c ch then Some rest else None
  | [] => None
  end.

(** The group [(\d+)]: one digit or more, as a number. *)
Definition digits1 (text : str) : option (nat * str) :=
  match span_digits text with
  | ([], _) => None
  | (ds, rest) => Some (int_of_digits ds, rest)
  end.

(** [re.compile(r'\((\d+),(\d+)\)').match(pattern, i)] on the text from
    index [i] on: the two numbers and the text after the match. *)
Definition match_range (text : str) : option (nat * nat * str) :=
  text1 ← expect "(" text;
  '(n, text2) ← digits1 text1;
  text3 ← expect "," text2;
  '(m, text4) ← digits1 text3;
  text5 ← expect ")" text4;
  Some (n, m, text5).

(** The tokens of [__list_all_patterns]: a range [(n, m)] or one
    character. *)
Inductive token : Type :=
  | TRange (n m : nat)
  | TChar (ch : ascii).

Module DynamicPatternGenerator.

(** The [while i < len(pattern)] loop of [__verify_pattern], on the
    text from index [i] on; [skip] counts the characters that a match
    has already consumed ([i = match.end()]).  Returns the letters
    counted, in order. *)
Fixpoint scan_pattern (skip : nat) (text : str) : result (list ascii) :=
  match text with
  | [] => Ok []
  | ch :: text' =>
      match skip with
      | S skip' => scan_pattern skip' text'
      | O =>
          if char_eqb ch "(" then
            match match_range text with
            | None => Raise (ValueError InvalidRangeFormat)
            | Some (n, m, rest) =>
                if (m <=? n)%nat then Raise (ValueError (InvalidRange n m))
                else scan_pattern (length text' - length rest) text'
            end
          else if char_isalpha ch then
            letters ← scan_pattern O text';
            Ok (char_upper ch :: letters)
          else if negb (char_eqb ch "_") then
            Raise (ValueError (InvalidCharacter ch))
          else scan_pattern O text'
      end
  end.

Definition __verify_pattern (pattern deck : str) : result unit :=
  let pattern := upper pattern in
  let deck := upper deck in
  (* Single-pass validation and letter counting *)
  letters ← scan_pattern O pattern;
  let letter_counts := Counter_of letters in
  (* Allow '-' as blank in deck *)
  if negb (forallb (fun char => char_isalpha char || char_eqb char "-") deck)
  then Raise (ValueError DeckBadCharacter)
  else
    let deck_counts := Counter_of (List.filter char_isalpha deck) in
    let num_blanks := str_count "-" deck in
    let missing := missing_letters letter_counts deck_counts in
    if (num_blanks <? missing)%nat
    then Raise (ValueError (MissingLetters missing num_blanks))
    else Ok tt.

(** The inner function [expand] of [__list_all_patterns]. *)
Fixpoint expand (parts : list token) : list str :=
  match parts with
  | [] => [[]]
  | first :: rest =>
      let expanded_rest := expand rest in
      match first with
      | TRange n m =>
          flat_map
            (fun k =>
               let underscores := replicate k "_"%char in
               map (fun tail => underscores ++ tail) expanded_rest)
            (seq n (S m - n))
      | TChar ch => map (fun tail => ch :: tail) expanded_rest
      end
  end.

(** The tokenizing loop of [__list_all_patterns], with [skip] as in
    [scan_pattern] ([idx = match.end()]). *)
Fixpoint tokenize (skip : nat) (text : str) : list token :=
  match text with
  | [] => []
  | ch :: text' =>
      match skip with
      | S skip' => tokenize skip' text'
      | O =>
          match match_range text with
          | Some (n, m, rest) =>
              TRange n m :: tokenize (length text' - length rest) text'
          | None => TChar ch :: tokenize O text'
          end
      end
  end.

Definition __list_all_patterns (pattern : str) : list str :=
  expand (tokenize O pattern).

(** One turn of the loop [for pat in all_patterns] of [generate]:
    [matches = self.spg.generate(pat, deck, word_list)] then
    [valid_words.update(matches)]; an exception ends the loop. *)
Definition add_matches (deck : str) (word_list : list str)
    (acc : result (gset str)) (pat : str) : result (gset str) :=
  valid_words ← acc;
  matches ← SimplePatternGenerator.generate pat deck word_list;
  Ok (valid_words ∪ list_to_set matches).

Definition generate (pattern deck : str) (word_list : list str)
  : result (list str) :=
  _ ← __verify_pattern pattern deck;
  let all_patterns := __list_all_patterns pattern in
  valid_words ← foldl (add_matches deck word_list) (Ok ∅) all_patterns;
  Ok (elements valid_words).

End DynamicPatternGenerator.

(** ** The longest-word optimiser ([utils/players/longest_word.py]) *)

Inductive Axis : Type := H | V.
Inductive Direction : Type := left | right.

(** The dictionary [meta] of a pattern. *)
Record Meta : Type := {
  left_blocks : list str;
  left_gaps : list Z;
  left_tail : Z;
  right_blocks : list str;
  right_gaps : list Z;
  right_tail : Z;
}.

(** [str(n)] of an integer, as an f-string prints it. *)
Definition str_of_Z (n : Z) : str := s (pretty n).

(** ['_' * k] *)
Definition underscores (k : Z) : str := replicate (Z.to_nat k) "_"%char.

(** The white space [int] skips around a literal: tab, line feed,
    vertical tab, form feed, carriage return and space. *)
Definition int_space (ch : ascii) : bool :=
  ((9 <=? code ch) && (code ch <=? 13) || (code ch =? 32))%nat.

Fixpoint skip_space (text : str) : str :=
  match text with
  | ch :: text' => if int_space ch then skip_space text' else text
  | [] => []
  end.

(** The literal between the white space at both ends. *)
Definition int_literal (text : str) : str :=
  rev (skip_space (rev (skip_space text))).

(** [text.split(sep)] for a separator of one character *)
Fixpoint split_on (sep : ascii) (text : str) : list str :=
  match text with
  | [] => [[]]
  | ch :: text' =>
      if char_eqb ch sep then [] :: split_on sep text'
      else match split_on sep text' with
           | part :: parts => (ch :: part) :: parts
           | [] => [[ch]]
           end
  end.

(** The digits of a decimal literal as [int] accepts them: at least
    one digit, and an underscore only between two digits. *)
Fixpoint grouped_digits (after_digit : bool) (text : str) : bool :=
  match text with
  | [] => after_digit
  | ch :: text' =>
      if char_isdigit ch then grouped_digits true text'
      else if char_eqb ch "_" then
        after_digit
        && match text' with d :: _ => char_isdigit d | [] => false end
        && grouped_digits false text'
      else false
  end.

(** [int(text)]: white space around the literal is dropped, a sign may
    come first; [ValueError] on anything else. *)
Definition int_ (text : str) : result Z :=
  let literal := int_literal text in
  let '(negative, digits) :=
    match literal with
    | ch :: rest =>
        if char_eqb ch "-" then (true, rest)
        else if char_eqb ch "+" then (false, rest)
        else (false, literal)
    | [] => (false, [])
    end in
  if grouped_digits false digits then
    let n := Z.of_nat (int_of_digits (List.filter char_isdigit digits)) in
    Ok (if negative then - n else n)
  else Raise (ValueError (InvalidLiteral text)).

(** [parts[i]] *)
Definition list_index {A} (parts : list A) (i : nat) : result A :=
  match parts !! i with
  | Some part => Ok part
  | None => Raise (IndexError "list index out of range")
  end.

(** [sum(...)] of integers *)
Definition sum_Z (l : list Z) : Z := fold_left Z.add l 0.

(** [counter[ch] -= 1] *)
Fixpoint counter_decr (ch : ascii) (c : Counter) : Counter :=
  match c with
  | [] => []
  | (key, n) :: c' =>
      if char_eqb key ch then (key, Nat.pred n) :: c' else (key, n) :: counter_decr ch c'
  end.

(** [words.sort(key=len, reverse=True)]: stable, longest first. *)
Fixpoint insert_by_length (word : str) (sorted : list str) : list str :=
  match sorted with
  | [] => [word]
  | w :: sorted' =>
      if (length w <=? length word)%nat then word :: sorted
      else w :: insert_by_length word sorted'
  end.
Definition sort_by_length_desc (words : list str) : list str :=
  fold_right insert_by_length [] words.

(** The number of cells of a line of the board: no loop along a line
    runs longer. *)
Definition line_length : nat := 15.

Module OptimiserLength.

(** The attributes of an instance: what [__init__] sets and the methods
    of the class. *)
Definition attributes : list string :=
  ["rule"; "spg"; "dpg"; "game"; "__init__"; "_find_start_word";
   "recommend_next_move"; "_find_anchor_positions"; "_scan_side_for_blocks";
   "_build_pattern_from_selection"; "_simplify_pattern";
   "_build_all_dynamic_patterns"; "_calculate_anchor_index_in_word";
   "_materialize_additions_from_words"]%string.

(** [for length in range(upper_bound, 0, -1)] *)
Fixpoint try_lengths (rule : Rule) (deck_str : str) (length : nat)
  : result (list str) :=
  match length with
  | O => Ok []
  | S length' =>
      let pattern := replicate length "_"%char in
      matching_words ← SimplePatternGenerator.generate
                         pattern deck_str (scrabble_dictionary rule);
      match matching_words with
      | [] => try_lengths rule deck_str length'
      | _ => Ok matching_words
      end
  end.

Definition _find_start_word (rule : Rule) (deck : list ascii) (upper_bound : Z)
  : result (list str) :=
  let upper_bound :=
    if (upper_bound <? 1) || (upper_bound >? Z.of_nat (length deck))
    then Z.of_nat (length deck) else upper_bound in
  let deck_str := take (Z.to_nat upper_bound) deck in
  try_lengths rule deck_str (Z.to_nat upper_bound).

(** All the cells in row-major order, as [np.argwhere] lists them. *)
Definition all_cells : list (Z * Z) :=
  flat_map (fun r => map (fun c => (r, c)) (np_arange 15)) (np_arange 15).

Definition _find_anchor_positions (b : board) : list (Z * Z) :=
  let occ := fun r c => occupied (cell_at b r c) in
  (* a shifted mask is False on the border it leaves *)
  let up := fun r c => occ (r - 1) c in
  let down := fun r c => occ (r + 1) c in
  let left := fun r c => occ r (c - 1) in
  let right := fun r c => occ r (c + 1) in
  List.filter
    (fun p => let '(r, c) := p in
              negb (occ r c) && (up r c || down r c || left r c || right r c))
    all_cells.

(** [while 0 <= j < max_index and get_cell(j) == '': k += 1; j += step] *)
Fixpoint skip_gap (fuel : nat) (get_cell : Z -> cell) (max_index step j k : Z)
  : Z * Z :=
  match fuel with
  | O => (k, j)
  | S fuel' =>
      if (0 <=? j) && (j <? max_index) && negb (occupied (get_cell j))
      then skip_gap fuel' get_cell max_index step (j + step) (k + 1)
      else (k, j)
  end.

(** [while 0 <= j < max_index and get_cell(j) != '':
       blk.append(get_cell(j).upper()); j += step] *)
Fixpoint read_block (fuel : nat) (get_cell : Z -> cell) (max_index step j : Z)
    (blk : list ascii) : list ascii * Z :=
  match fuel with
  | O => (blk, j)
  | S fuel' =>
      if (0 <=? j) && (j <? max_index) then
        match get_cell j with
        | Some ch =>
            read_block fuel' get_cell max_index step (j + step)
                       (blk ++ [char_upper ch])
        | None => (blk, j)
        end
      else (blk, j)
  end.

(** The loop [while 0 <= j < max_index] that continues after the first
    block. *)
Fixpoint more_blocks (fuel : nat) (get_cell : Z -> cell) (max_index step : Z)
    (reverse_block : bool) (rack_len j cumulative_distance : Z)
    (blocks : list str) (gaps : list Z) : list str * list Z * Z :=
  match fuel with
  | O => (blocks, gaps, 0)
  | S fuel' =>
      if negb ((0 <=? j) && (j <? max_index)) then (blocks, gaps, 0)
      else
        let '(k, j) := skip_gap line_length get_cell max_index step j 0 in
        if negb ((0 <=? j) && (j <? max_index)) then
          (* Reached boundary *)
          let remaining := rack_len - cumulative_distance in
          (blocks, gaps, if remaining >? 0 then Z.min k remaining else 0)
        else
          (* Check next block reachability *)
          let cumulative_distance := cumulative_distance + k in
          if cumulative_distance >? rack_len then
            let remaining := rack_len - (cumulative_distance - k) in
            (blocks, gaps, if remaining >? 0 then Z.min k remaining else 0)
          else
            let '(blk, j) := read_block line_length get_cell max_index step j [] in
            let blk := if reverse_block then rev blk else blk in
            more_blocks fuel' get_cell max_index step reverse_block rack_len j
                        cumulative_distance (blocks ++ [blk]) (gaps ++ [k])
  end.

Definition _scan_side_for_blocks (b : board) (anchor : Z * Z) (axis : Axis)
    (direction : Direction) (rack_len : Z) : list str * list Z * Z :=
  let '(r, c) := anchor in
  let rows := 15 in
  let cols := 15 in
  let '(get_cell, max_index, start_idx, step, reverse_block) :=
    match axis, direction with
    | H, left => (fun j => cell_at b r j, cols, c - 1, -1, true)
    | H, right => (fun j => cell_at b r j, cols, c + 1, 1, false)
    | V, left => (fun i => cell_at b i c, rows, r - 1, -1, true)
    | V, right => (fun i => cell_at b i c, rows, r + 1, 1, false)
    end in
  (* First gap *)
  let '(k, j) := skip_gap line_length get_cell max_index step start_idx 0 in
  if negb ((0 <=? j) && (j <? max_index)) then
    (* Only empties, no blocks *)
    ([], [], Z.min k (rack_len - 1))
  else
    (* Found first block - check reachability *)
    let cumulative_distance := 1 + k in
    if cumulative_distance >? rack_len then
      ([], [], Z.min k (rack_len - 1))
    else
      let '(blk, j) := read_block line_length get_cell max_index step j [] in
      let blk := if reverse_block then rev blk else blk in
      more_blocks line_length get_cell max_index step reverse_block rack_len j
                  cumulative_distance [blk] [k].

(** The tokens of [_simplify_pattern], kept as the strings they are. *)

(** [j = pattern.index(')', i)] then [pattern[i:j+1]]: the text up to
    and with the first [')'], and the text after it. *)
Fixpoint up_to_close (text : str) : option (str * str) :=
  match text with
  | [] => None
  | ch :: text' =>
      if char_eqb ch ")" then Some ([ch], text')
      else '(token, rest) ← up_to_close text'; Some (ch :: token, rest)
  end.

(** The longest prefix whose characters pass [test], and the rest. *)
Fixpoint span_while {A} (test : A -> bool) (text : list A) : list A * list A :=
  match text with
  | ch :: text' =>
      if test ch
      then let '(run, rest) := span_while test text' in (ch :: run, rest)
      else ([], text)
  | [] => ([], [])
  end.

(** The first loop of [_simplify_pattern]. *)
Fixpoint simplify_tokens (fuel : nat) (text : str) : result (list str) :=
  match fuel, text with
  | _, [] => Ok []
  | O, _ => Ok []
  | S fuel', ch :: _ =>
      if char_eqb ch "(" then
        match up_to_close text with
        | None => Raise (ValueError SubstringNotFound)
        | Some (token, rest) =>
            tokens ← simplify_tokens fuel' rest; Ok (token :: tokens)
        end
      else if char_eqb ch "_" then
        let '(run, rest) := span_while (fun c => char_eqb c "_") text in
        tokens ← simplify_tokens fuel' rest; Ok (run :: tokens)
      else
        let '(run, rest) :=
          span_while (fun c => negb (char_eqb c "(" || char_eqb c "_")) text in
        tokens ← simplify_tokens fuel' rest; Ok (run :: tokens)
  end.

(** [token.startswith('(') or token.startswith('_')] *)
Definition is_flexible (token : str) : bool :=
  match token with
  | ch :: _ => char_eqb ch "(" || char_eqb ch "_"
  | [] => false
  end.

(** [parts = t[1:-1].split(','); int(parts[0]); int(parts[1])]: the
    two bounds of a range token. *)
Definition parse_range (t : str) : result (Z * Z) :=
  let parts := split_on "," (removelast (tl t)) in
  first ← list_index parts 0;
  n ← int_ first;
  second ← list_index parts 1;
  m ← int_ second;
  Ok (n, m).

(** The sums [min_sum] and [max_sum] over a sequence of adjacent range
    and underscore tokens. *)
Fixpoint sum_sequence (sequence : list str) (min_sum max_sum : Z)
  : result (Z * Z) :=
  match sequence with
  | [] => Ok (min_sum, max_sum)
  | t :: sequence' =>
      match t with
      | "("%char :: _ =>
          (* Parse (min,max) *)
          match parse_range t with
          | Ok (n, m) => sum_sequence sequence' (min_sum + n) (max_sum + m)
          | Raise e => Raise e
          end
      | _ =>
          let count := Z.of_nat (length t) in
          sum_sequence sequence' (min_sum + count) (max_sum + count)
      end
  end.

(** The second loop of [_simplify_pattern]. *)
Fixpoint combine_tokens (fuel : nat) (tokens : list str) : result (list str) :=
  match fuel, tokens with
  | _, [] => Ok []
  | O, _ => Ok []
  | S fuel', token :: tokens' =>
      if is_flexible token then
        (* Look ahead to collect all adjacent ranges/underscores *)
        let '(more, rest) := span_while is_flexible tokens' in
        match more with
        | [] =>
            simplified ← combine_tokens fuel' tokens'; Ok (token :: simplified)
        | _ =>
            '(min_sum, max_sum) ← sum_sequence (token :: more) 0 0;
            let combined :=
              if min_sum =? max_sum then underscores min_sum
              else s "(" ++ str_of_Z min_sum ++ s "," ++ str_of_Z max_sum ++ s ")" in
            simplified ← combine_tokens fuel' rest; Ok (combined :: simplified)
        end
      else
        simplified ← combine_tokens fuel' tokens'; Ok (token :: simplified)
  end.

Definition _simplify_pattern (pattern : str) : result str :=
  tokens ← simplify_tokens (length pattern) pattern;
  simplified ← combine_tokens (length tokens) tokens;
  Ok (concat simplified).

Definition _build_pattern_from_selection (left_blocks : list str)
    (left_gaps : list Z) (left_tail : Z) (right_blocks : list str)
    (right_gaps : list Z) (right_tail : Z) (rack_len : Z)
  : result (str * str * Meta) :=
  (* Calculate cost of selected blocks *)
  let cost := 1 + sum_Z left_gaps + sum_Z right_gaps in
  let remaining := rack_len - cost in
  (* Adjust tails to not exceed remaining capacity *)
  let left_tail_adj := if remaining >? 0 then Z.min left_tail remaining else 0 in
  let right_tail_adj := if remaining >? 0 then Z.min right_tail remaining else 0 in
  (* Build pattern *)
  let parts_left :=
    (if left_tail_adj >? 0 then [s "(0," ++ str_of_Z left_tail_adj ++ s ")"] else [])
    ++ flat_map (fun p => let '(blk, k) := p in
                          blk :: (if k >? 0 then [underscores k] else []))
                (zip (rev left_blocks) (rev left_gaps)) in
  let left_pattern := concat parts_left in
  let parts_right :=
    flat_map (fun p => let '(blk, k) := p in
                       (if k >? 0 then [underscores k] else []) ++ [blk])
             (zip right_blocks right_gaps)
    ++ (if right_tail_adj >? 0
        then [s "(0," ++ str_of_Z right_tail_adj ++ s ")"] else []) in
  let right_pattern := concat parts_right in
  let pattern := left_pattern ++ s "_" ++ right_pattern in
  let fixed_letters := concat left_blocks ++ concat right_blocks in
  (* Simplify the pattern *)
  pattern ← _simplify_pattern pattern;
  let meta := {| left_blocks := left_blocks; left_gaps := left_gaps;
                 left_tail := left_tail_adj;
                 right_blocks := right_blocks; right_gaps := right_gaps;
                 right_tail := right_tail_adj |} in
  Ok (pattern, fixed_letters, meta).

(** [unique_patterns[pattern] = ...] when the pattern is not yet a key. *)
Fixpoint unique_by_pattern (seen : list str) (patterns : list (str * str * Meta))
  : list (str * str * Meta) :=
  match patterns with
  | [] => []
  | p :: patterns' =>
      if bool_decide (fst (fst p) ∈ seen) then unique_by_pattern seen patterns'
      else p :: unique_by_pattern (fst (fst p) :: seen) patterns'
  end.

Definition _build_all_dynamic_patterns (b : board) (deck : list ascii)
    (anchor : Z * Z) (axis : Axis) : result (list (str * str * Meta)) :=
  let rack_len := Z.of_nat (length deck) in
  (* First, scan both sides to collect all reachable blocks *)
  let '(left_blocks_all, left_gaps_all, left_tail_max) :=
    _scan_side_for_blocks b anchor axis left rack_len in
  let '(right_blocks_all, right_gaps_all, right_tail_max) :=
    _scan_side_for_blocks b anchor axis right rack_len in
  let L := length left_blocks_all in
  let R := length right_blocks_all in
  (* left_cost[n] and right_cost[n]: the prefix sums of the gaps *)
  let left_cost := fun n => sum_Z (take n left_gaps_all) in
  let right_cost := fun n => sum_Z (take n right_gaps_all) in
  patterns ←
    mapM (fun sel =>
            let '(num_left, num_right) := sel in
            _build_pattern_from_selection
              (take num_left left_blocks_all) (take num_left left_gaps_all)
              left_tail_max
              (take num_right right_blocks_all) (take num_right right_gaps_all)
              right_tail_max rack_len)
         (List.filter
            (fun sel => negb (1 + left_cost (fst sel) + right_cost (snd sel)
                              >? rack_len))
            (flat_map (fun num_left => map (fun num_right => (num_left, num_right))
                                           (seq 0 (S R)))
                      (seq 0 (S L))));
  (* Deduplicate patterns *)
  Ok (unique_by_pattern [] patterns).

Definition _calculate_anchor_index_in_word (word : str) (meta : Meta)
  : option Z :=
  (* Minimum positions before anchor (fixed blocks + required gaps) *)
  let min_left_len :=
    sum_Z (map (fun blk => Z.of_nat (length blk)) (left_blocks meta))
    + sum_Z (left_gaps meta) in
  let max_left_len := min_left_len + left_tail meta in
  let min_right_len :=
    sum_Z (map (fun blk => Z.of_nat (length blk)) (right_blocks meta))
    + sum_Z (right_gaps meta) in
  let max_right_len := min_right_len + right_tail meta in
  let word_len := Z.of_nat (length word) in
  List.find
    (fun anchor_idx =>
       let right_len := word_len - anchor_idx - 1 in
       (min_right_len <=? right_len) && (right_len <=? max_right_len))
    (range min_left_len (max_left_len + 1)).

(** The loop that lays a word on the line: [None] when a cell falls
    off the board or holds another letter. *)
Fixpoint lay_word (b : board) (mk : Z -> Z * Z) (start : Z) (i : Z)
    (w : list ascii) (additions : list addition) : option (list addition) :=
  match w with
  | [] => Some additions
  | ch :: w' =>
      let at_ := start + i in
      if (at_ <? 0) || (at_ >=? 15) then None
      else
        let '(row, col) := mk at_ in
        match cell_at b row col with
        | None =>
            (* Empty - need to place this letter *)
            lay_word b mk start (i + 1) w' (additions ++ [(ch, (row, col))])
        | Some x =>
            if char_eqb (char_upper x) ch
            then lay_word b mk start (i + 1) w' additions
            else None
        end
  end.

(** Validate rack usage and assign blanks if needed; [None] when the
    rack does not hold the tiles. *)
Fixpoint use_rack (counts : Counter) (blanks_left : nat)
    (additions : list addition) (normalized_additions : list addition)
  : option (list addition) :=
  match additions with
  | [] => Some normalized_additions
  | (ch, pos) :: additions' =>
      if (0 <? counter_get counts ch)%nat then
        use_rack (counter_decr ch counts) blanks_left additions'
                 (normalized_additions ++ [(ch, pos)])
      else if (0 <? blanks_left)%nat then
        use_rack counts (Nat.pred blanks_left) additions'
                 (normalized_additions ++ [(char_lower ch, pos)])
      else None
  end.

Definition _materialize_additions_from_words (b : board) (axis : Axis)
    (anchor : Z * Z) (words : list str) (meta : Meta) (rack : list ascii)
  : list (list addition) :=
  let '(r, c) := anchor in
  let rack_counts := Counter_of rack in
  let blanks_total := counter_get rack_counts "-" in
  fst
    (fold_left
       (fun state word =>
          let '(results, seen) := state in
          let w := upper word in
          (* Find where anchor is in this word *)
          match _calculate_anchor_index_in_word w meta with
          | None => state
          | Some anchor_idx =>
              let laid :=
                match axis with
                | H => lay_word b (fun col => (r, col)) (c - anchor_idx) 0 w []
                | V => lay_word b (fun row => (row, c)) (r - anchor_idx) 0 w []
                end in
              match laid with
              | None | Some [] => state
              | Some additions =>
                  match use_rack rack_counts blanks_total additions [] with
                  | None | Some [] => state
                  | Some normalized_additions =>
                      (* Deduplicate *)
                      if bool_decide (normalized_additions ∈ seen) then state
                      else (results ++ [normalized_additions],
                            normalized_additions :: seen)
                  end
              end
          end)
       words ([], [])).

(** What [recommend_next_move] returns: the start words on an empty
    board, the best placements (without their scores) otherwise. *)
Inductive recommendation : Type :=
  | StartWords (words : list str)
  | BestMoves (best : list (list addition)).

(** The state of the search: the candidates collected, the keys seen
    and the number of random draws made; inside the loop over the
    words of a pattern, also the flag [found_valid]. *)
Definition candidates_state : Type :=
  list (list addition) * list (list addition) * nat.
Definition word_state : Type :=
  list (list addition) * list (list addition) * nat * bool.

Section Longest.

Context (rule : Rule) (draws : nat -> nat).

(** The loop [for adds in additions_sets] with its [break]: the last
    component tells whether a valid placement was found. *)
Definition try_placements (b : board) (state : word_state)
    (additions_sets : list (list addition)) : word_state :=
  fold_left
    (fun (state : word_state) adds =>
       let '(candidates, seen_additions, k, found_valid) := state in
       if found_valid then state
       else
         match _check_word_valid rule draws k b adds with
         | Raise _ => state
         | Ok (adds, k) =>
             if negb (bool_decide (adds ∈ seen_additions))
             then (candidates ++ [adds], adds :: seen_additions, k, true)
             else (candidates, seen_additions, k, false)
         end)
    additions_sets state.

(** The loop over the patterns of one anchor and axis. *)
Definition search_patterns (b : board) (deck_base : str) (anchor : Z * Z)
    (axis : Axis) (patterns : list (str * str * Meta))
    (state : candidates_state) : candidates_state :=
  fold_left
    (fun (state : candidates_state) p =>
       let '(pattern, fixed, meta) := p in
       (* include fixed board letters used by the pattern *)
       let deck := deck_base ++ fixed in
       let words :=
         try_except (DynamicPatternGenerator.generate
                       pattern deck (scrabble_dictionary rule)) [] in
       match words with
       | [] => state
       | _ =>
           (* Sort words by length descending - longest first *)
           let words := sort_by_length_desc words in
           let '(candidates, seen_additions, k) := state in
           let '(candidates, seen_additions, k, _) :=
             fold_left
               (fun (state : word_state) word =>
                  let '(_, _, _, found_valid) := state in
                  if found_valid then state
                  else
                    try_placements b state
                      (_materialize_additions_from_words
                         b axis anchor [word] meta deck_base))
               words (candidates, seen_additions, k, false) in
           (candidates, seen_additions, k)
       end)
    patterns state.

Definition recommend_next_move (k : nat) (b : board) (deck : list ascii)
  : result recommendation * nat :=
  (* Empty board check *)
  if (count_occupied b =? 0)%nat then
    (words ← _find_start_word rule deck (Z.of_nat (length deck));
     Ok (StartWords words), k)
  else
    let anchors := _find_anchor_positions b in
    let deck_base := upper deck in
    let searched :=
      fold_left
        (fun (state : result candidates_state) anchor =>
           state ← state;
           h_patterns ← _build_all_dynamic_patterns b deck anchor H;
           let state := search_patterns b deck_base anchor H h_patterns state in
           v_patterns ← _build_all_dynamic_patterns b deck anchor V;
           Ok (search_patterns b deck_base anchor V v_patterns state))
        anchors (Ok ([], [], k)) in
    match searched with
    | Raise e => (Raise e, k)
    | Ok (candidates, _, k) =>
        match candidates with
        | [] => (Ok (BestMoves []), k)
        | _ =>
            (* Score all candidates *)
            let scored :=
              map (fun adds => (score_calculator rule b adds false, adds))
                  candidates in
            let max_score := np_max (map fst scored) in
            (* Return only the highest-scoring additions (preserve ties) *)
            let best :=
              map snd (List.filter (fun p => fst p =? max_score) scored) in
            (Ok (BestMoves best), k)
        end
    end.

End Longest.

End OptimiserLength.

(** ** Attribute lookup

    What an attribute of an object can be, as far as the calls below
    go: a callable from a list of placements to a list of placements,
    or anything else. *)
Inductive pyobject : Type :=
  | PyDedup (f : list (list addition) -> list (list addition))
  | PyOther.

(** [getattr(obj, name)] on an [OptimiserLength]: none of its
    attributes is a callable on a list of placements, and a name that
    is no attribute raises [AttributeError]. *)
Definition getattr_OptimiserLength (name : string) : result pyobject :=
  if bool_decide (name ∈ OptimiserLength.attributes) then Ok PyOther
  else Raise (AttributeError "OptimiserLength" name).

(** [f(best_adds)] *)
Definition call (f : pyobject) (best_adds : list (list addition))
  : result (list (list addition)) :=
  match f with
  | PyDedup f => Ok (f best_adds)
  | PyOther => Raise (TypeError "object is not callable")
  end.

(** [max(score for score, _ in candidates)] of a non-empty list *)
Definition max_score_of {A} (candidates : list (Z * A)) : Z :=
  np_max (map fst candidates).

(** The end of [recommend_next_move] in the prize and the crossword
    optimisers, from [if not candidates] on; [candidates] holds
    [(score, adds)] pairs. *)
Definition best_candidates (candidates : list (Z * list addition))
  : result (list (list addition * Z)) :=
  match candidates with
  | [] => Ok []
  | _ =>
    let max_score := max_score_of candidates in
    let best :=
      map (fun p => (snd p, fst p))
          (List.filter (fun p => fst p =? max_score) candidates) in
    (* Final safeguard: deduplicate identical additions before returning *)
    let best_adds := map fst best in
    _dedup_additions_sets ← getattr_OptimiserLength "_dedup_additions_sets";
    deduped_adds ← call _dedup_additions_sets best_adds;
    (* Rebuild tuples with scores after dedup *)
    let best := map (fun adds => (adds, max_score)) deduped_adds in
    Ok best
  end.

(** The state of a search loop: the candidates collected, the keys
    seen, and the number of random draws made. *)
Definition search_state : Type :=
  list (Z * list addition) * list (list addition) * nat.

Section Optimisers.

Context (rule : Rule) (draws : nat -> nat).

(** The body shared by the loops over the materialized placements:
    validate (the call may rewrite the wildcards of [adds]), skip a key
    already seen, score, collect.  [keep] is the filter applied before
    validation. *)
Definition consider (b : board) (keep : list addition -> bool)
    (state : search_state) (adds : list addition) : search_state :=
  let '(candidates, seen, k) := state in
  if negb (keep adds) then state
  else
    match _check_word_valid rule draws k b adds with
    | Raise _ => state
    | Ok (adds, k) =>
        if bool_decide (adds ∈ seen) then (candidates, seen, k)
        else
          let score := score_calculator rule b adds false in
          (candidates ++ [(score, adds)], adds :: seen, k)
    end.

(** The loop [for pattern, fixed_letters, meta in patterns] of the
    prize and the crossword optimisers. *)
Definition search_patterns (b : board) (keep : list addition -> bool)
    (deck_base : str) (rack : list ascii) (anchor : Z * Z) (axis : Axis)
    (patterns : list (str * str * Meta)) (state : search_state)
  : search_state :=
  fold_left
    (fun state p =>
       let '(pattern, fixed_letters, meta) := p in
       (* Build combined deck string (deck + fixed letters) *)
       let deck_for_pattern := deck_base ++ fixed_letters in
       match DynamicPatternGenerator.generate
               pattern deck_for_pattern (scrabble_dictionary rule) with
       | Raise _ => state
       | Ok [] => state
       | Ok words =>
           let materialized_lists :=
             OptimiserLength._materialize_additions_from_words
               b axis anchor words meta rack in
           fold_left (consider b keep) materialized_lists state
       end)
    patterns state.

End Optimisers.

(** ** The prize optimiser ([utils/players/prized_cells.py]) *)

Module OptimiserPrize.

Section Prize.

Context (rule : Rule) (draws : nat -> nat).

(** The grids are those of a rule that has them, as [Rule.__init__]
    sets both; the lookup [self.rule.word_multiplier] on a rule whose
    grid was deleted, which raises in the source, is not followed:
    there the grid of ones stands in. *)
Definition _is_prized_cell (b : board) (r c : Z) : bool :=
  if occupied (cell_at b r c) then false
  else (grid_at (wm rule) r c >? 1) || (grid_at (lm rule) r c >? 1).

(** The candidates the loops collect, with the number of draws made. *)
Definition collect_candidates (k : nat) (b : board) (deck : list ascii)
  : list (Z * list addition) * nat :=
  let deck := map char_upper deck in
  (* Determine anchors *)
  let anchors :=
    if (count_occupied b =? 0)%nat then [(7, 7)]
    else OptimiserLength._find_anchor_positions b in
  let deck_base := deck in
  let '(candidates, _, k) :=
    fold_left
      (fun state anchor =>
         fold_left
           (fun state axis =>
              match OptimiserLength._build_all_dynamic_patterns
                      b deck anchor axis with
              | Raise _ => state
              | Ok patterns =>
                  search_patterns rule draws b
                    (fun adds =>
                       (* Require at least one prized cell among new placements *)
                       existsb (fun a => _is_prized_cell b (row_of a) (col_of a))
                               adds)
                    deck_base deck anchor axis patterns state
              end)
           [H; V] state)
      anchors ([], [], k) in
  (candidates, k).

Definition recommend_next_move (k : nat) (b : board) (deck : list ascii)
  : result (list (list addition * Z)) * nat :=
  let '(candidates, k) := collect_candidates k b deck in
  (best_candidates candidates, k).

End Prize.

End OptimiserPrize.

(** ** The crossword optimiser ([utils/players/crossword.py]) *)

Module OptimiserCrossword.

Section Crossword.

Context (rule : Rule) (draws : nat -> nat).

(** One of the two blocks [if has_vert_neighbor] / [if
    has_horiz_neighbor] of the loop over the anchors. *)
Definition search_axis (b : board) (deck_up : list ascii) (deck_base : str)
    (anchor : Z * Z) (axis : Axis) (state : search_state) : search_state :=
  let patterns :=
    try_except (OptimiserLength._build_all_dynamic_patterns b deck_up anchor axis)
               [] in
  search_patterns rule draws b (fun _ => true) deck_base deck_base anchor axis
                  patterns state.

Definition collect_candidates (k : nat) (b : board) (deck : list ascii)
  : list (Z * list addition) * nat :=
  (* Normalize deck *)
  let deck_up := map char_upper deck in
  let deck_base := deck_up in
  let anchors := OptimiserLength._find_anchor_positions b in
  let rows := 15 in
  let cols := 15 in
  let '(candidates, _, k) :=
    fold_left
      (fun state anchor =>
         let '(r, c) := anchor in
         (* Determine neighbor presence *)
         let has_vert_neighbor :=
           ((r >? 0) && occupied (cell_at b (r - 1) c))
           || ((r <? rows - 1) && occupied (cell_at b (r + 1) c)) in
         let has_horiz_neighbor :=
           ((c >? 0) && occupied (cell_at b r (c - 1)))
           || ((c <? cols - 1) && occupied (cell_at b r (c + 1))) in
         (* If vertical neighbor -> place horizontally to form a cross *)
         let state :=
           if has_vert_neighbor
           then search_axis b deck_up deck_base anchor H state else state in
         (* If horizontal neighbor -> place vertically to form a cross *)
         if has_horiz_neighbor
         then search_axis b deck_up deck_base anchor V state else state)
      anchors ([], [], k) in
  (candidates, k).

Definition recommend_next_move (k : nat) (b : board) (deck : list ascii)
  : result (list (list addition * Z)) * nat :=
  (* If empty board, do nothing *)
  if (count_occupied b =? 0)%nat then (Ok [], k)
  else
    let '(candidates, k) := collect_candidates k b deck in
    (best_candidates candidates, k).

End Crossword.

End OptimiserCrossword.

(** ** The aggregator ([utils/players/aggregate_recommender.py]) *)

(** An element of a list stored in the results dictionary. *)
Inductive entry : Type :=
  | ScoredMove (adds : list addition) (score : Z)   (* (adds, score) *)
  | BareMove (adds : list addition)                 (* adds *)
  | Word (word : str).

Module AggregateRecommender.

Section Aggregate.

Context (rule : Rule) (draws : nat -> nat).

Definition scored (moves : list (list addition * Z)) : list entry :=
  map (fun m => ScoredMove (fst m) (snd m)) moves.

Definition unscored (r : OptimiserLength.recommendation) : list entry :=
  match r with
  | OptimiserLength.StartWords words => map Word words
  | OptimiserLength.BestMoves best => map BareMove best
  end.

(** The dictionary returned, in insertion order, or the exception
    that escapes; with the number of random draws made. *)
Definition recommend_next_move (k : nat) (b : board) (deck : list ascii)
  : result (list (string * list entry)) * nat :=
  (* Detect empty board (no placed tiles) *)
  let board_empty := (count_occupied b =? 0)%nat in
  if board_empty then
    (* Only run OptimiserPrize per requirement *)
    let '(prize_moves, k) := OptimiserPrize.recommend_next_move rule draws k b deck in
    (prize_moves ← prize_moves; Ok [("PrizeCells"%string, scored prize_moves)], k)
  else
    (* Non-empty board: run all three *)
    let '(longest_moves, k1) :=
      OptimiserLength.recommend_next_move rule draws k b deck in
    match longest_moves with
    | Raise e => (Raise e, k1)
    | Ok longest_moves =>
      let '(prize_moves, k2) :=
        OptimiserPrize.recommend_next_move rule draws k1 b deck in
      match prize_moves with
      | Raise e => (Raise e, k2)
      | Ok prize_moves =>
        let '(cross_moves, k3) :=
          OptimiserCrossword.recommend_next_move rule draws k2 b deck in
        match cross_moves with
        | Raise e => (Raise e, k3)
        | Ok cross_moves =>
            (Ok [("LongestWord"%string, unscored longest_moves);
                 ("PrizeCells"%string, scored prize_moves);
                 ("Crossword"%string, scored cross_moves)], k3)
        end
      end
    end.

End Aggregate.

End AggregateRecommender.

(** ** Sample data *)

(** The tiles of [word] laid along row [row] from column [col]. *)
Definition tiles_in_row (word : string) (row col : Z) : list addition :=
  imap (fun i ch => (ch, (row, col + Z.of_nat i))) (s word).

(** The tiles of [word] laid along column [col] from row [row]. *)
Definition tiles_in_col (word : string) (row col : Z) : list addition :=
  imap (fun i ch => (ch, (row + Z.of_nat i, col))) (s word).

Definition sample_dictionary : list str :=
  map s ["quite"; "star"; "stars"; "as"; "at"; "ta"; "to"; "cat"; "cats"; "act";
         "infancy"]%string.

Definition sample_rule : Rule := Rule_init sample_dictionary.

(** The board after STAR went on row 7, columns 6 to 9. *)
Definition star_board : board := overlay empty_board (tiles_in_row "STAR" 7 6).

(** A random source that always draws index 0. *)
Definition first_draw : nat -> nat := fun _ => 0%nat.

(** A rule whose dictionary holds STAR and STARS only. *)
Definition star_rule : Rule := Rule_init (map s ["star"; "stars"]%string).

(** The tiles t (a blank) and O above the A and the R of STAR. *)
Definition to_above_star : list addition :=
  [("t"%char, (6, 8)); ("O"%char, (6, 9))].


(** Two tiles of row 7 with an empty cell between them, the second one
    next to the S of STAR. *)
Definition gapped_tiles : list addition :=
  [("X"%char, (7, 3)); ("Y"%char, (7, 5))].

(** * The specification's words, as definitions of their own *)

(** ** Placement geometry (spec 4.1, [verifyGeometry]) *)

Definition inside_grid (a : addition) : Prop :=
  0 <= row_of a < 15 /\ 0 <= col_of a < 15.

Definition on_occupied_cell (b : board) (a : addition) : Prop :=
  cell_at b (row_of a) (col_of a) <> None.

Definition spans_rows (additions : list addition) : Prop :=
  exists a a', a ∈ additions /\ a' ∈ additions /\ row_of a <> row_of a'.

Definition spans_cols (additions : list addition) : Prop :=
  exists a a', a ∈ additions /\ a' ∈ additions /\ col_of a <> col_of a'.

Definition is_least (m : Z) (l : list Z) : Prop :=
  m ∈ l /\ forall x, x ∈ l -> m <= x.

Definition is_greatest (m : Z) (l : list Z) : Prop :=
  m ∈ l /\ forall x, x ∈ l -> x <= m.

(** The coordinates that vary along the shared axis: the columns when
    the placement lies in one row, the rows otherwise. *)
Definition axis_coordinates (additions : list addition) (l : list Z) : Prop :=
  (~ spans_rows additions /\ l = map col_of additions)
  \/ (spans_rows additions /\ l = map row_of additions).

(** The coordinate span (max minus min plus 1) differs from the number
    of new tiles. *)
Definition discontinuous (additions : list addition) : Prop :=
  exists l lo hi,
    axis_coordinates additions l /\ is_least lo l /\ is_greatest hi l
    /\ hi - lo + 1 <> Z.of_nat (length additions).

(** What each geometry error reports. *)
Definition geometry_error (b : board) (additions : list addition)
    (e : exn) : Prop :=
  match e with
  | ValueError NoLettersProvided => additions = []
  | ValueError (PositionOutOfBounds row col) =>
      exists a, a ∈ additions /\ pos_of a = (row, col) /\ ~ inside_grid a
  | ValueError (PositionOccupied row col) =>
      exists a, a ∈ additions /\ pos_of a = (row, col) /\ on_occupied_cell b a
  | ValueError NotSingleRowOrColumn =>
      spans_rows additions /\ spans_cols additions
  | ValueError NotContinuous => discontinuous additions
  | _ => False
  end.

(** The five cases of rejection. *)
Definition geometry_rejected (b : board) (additions : list addition) : Prop :=
  additions = []
  \/ (exists a, a ∈ additions /\ ~ inside_grid a)
  \/ (exists a, a ∈ additions /\ on_occupied_cell b a)
  \/ (spans_rows additions /\ spans_cols additions)
  \/ discontinuous additions.

(** ** Board rule (spec 4.1, [verifyBoardRule]) *)

Definition orthogonal_neighbours (p : Z * Z) : list (Z * Z) :=
  [(fst p - 1, snd p); (fst p + 1, snd p); (fst p, snd p - 1); (fst p, snd p + 1)].

(** A new tile is orthogonally adjacent to an occupied cell of the grid. *)
Definition touches_occupied (b : board) (a : addition) : Prop :=
  exists q, q ∈ orthogonal_neighbours (pos_of a)
            /\ (0 <= fst q < 15 /\ 0 <= snd q < 15)
            /\ cell_at b (fst q) (snd q) <> None.

Definition covers_center (a : addition) : Prop := pos_of a = (7, 7).

(** ** Scoring (spec 4.4) *)

Section ScoringSpec.

Context (rule : Rule).

(** The cell receives a tile of this move. *)
Definition newly_placed (additions : list addition) (p : Z * Z) : bool :=
  existsb (fun a => bool_decide (pos_of a = p)) additions.

(** The tile this move puts on the cell is a resolved blank: its
    letter is lower-case. *)
Definition resolved_blank (additions : list addition) (p : Z * Z) : bool :=
  existsb (fun a => bool_decide (pos_of a = p) && char_islower (letter_of a))
          additions.

(** The board once the new tiles lie on it (stored in upper case). *)
Definition board_after (b : board) (additions : list addition) : board :=
  overlay b (map (fun a => (char_upper (letter_of a), pos_of a)) additions).

(** The per-letter point value, 0 for a letter the table lacks. *)
Definition letter_value (ch : ascii) : Z :=
  default 0 (letter_points rule !! char_upper ch).

Definition baseValue (b : board) (additions : list addition) (p : Z * Z) : Z :=
  if resolved_blank additions p then 0
  else match cell_at (board_after b additions) (fst p) (snd p) with
       | Some ch => letter_value ch
       | None => 0
       end.

Definition letterMultiplier (p : Z * Z) : Z :=
  grid_at (default np_ones (letter_multiplier rule)) (fst p) (snd p).

Definition wordMultiplier (p : Z * Z) : Z :=
  grid_at (default np_ones (word_multiplier rule)) (fst p) (snd p).

Definition letterSum (b : board) (additions : list addition)
    (word : list (Z * Z)) : Z :=
  foldr Z.add 0
    (map (fun p => if newly_placed additions p
                   then baseValue b additions p * letterMultiplier p
                   else baseValue b additions p) word).

Definition wordMult (additions : list addition) (word : list (Z * Z)) : Z :=
  foldr Z.mul 1
    (map (fun p => Z.max 1 (wordMultiplier p))
         (List.filter (newly_placed additions) word)).

Definition wordScore (b : board) (additions : list addition)
    (word : list (Z * Z)) : Z :=
  letterSum b additions word * wordMult additions word.

(** The words a move forms, as lists of cells: those the word
    extraction of the game finds on the board with the tiles laid. *)
Definition formed_words (b : board) (additions : list addition)
  : list (list (Z * Z)) :=
  _extract_word_positions (board_after b additions)
    (map (fun a => (char_upper (letter_of a), pos_of a)) additions).

Definition moveScore (b : board) (additions : list addition) : Z :=
  foldr Z.add 0 (map (wordScore b additions) (formed_words b additions)).

(** What the call adds on top of the words' scores. *)
Definition bonus_added (b : board) (additions : list addition)
    (bingo : bool) : Z :=
  score_calculator rule b additions bingo - moveScore b additions.

End ScoringSpec.

(** ** Wildcard resolution (spec 4.1, [resolveWildcards]) *)

Definition is_wildcard (a : addition) : bool := char_eqb (letter_of a) "-".

(** The placement with its wildcard tiles, in order, given [letters]. *)
Fixpoint fill_wildcards (additions : list addition) (letters : list ascii)
  : list addition :=
  match additions with
  | [] => []
  | a :: rest =>
      if is_wildcard a then
        match letters with
        | ch :: letters' => (ch, pos_of a) :: fill_wildcards rest letters'
        | [] => a :: fill_wildcards rest []
        end
      else a :: fill_wildcards rest letters
  end.





Definition free_cells (b : board) (additions : list addition) : Prop :=
  Forall (fun a => cell_at b (row_of a) (col_of a) = None) additions.




(** ** Pattern matching (spec 4.2) *)

(** The total shortfall of a supply against a demand, letter by letter
    over the alphabet. *)
Definition shortfall (demand supply : ascii -> nat) : nat :=
  list_sum (map (fun ch => demand ch - supply ch)%nat ascii_uppercase).

(** The pattern's fixed letters, and how many of each it demands. *)
Definition fixed_letters_of (pattern : str) : list ascii :=
  List.filter char_isalpha (upper pattern).

Definition fixed_demand (pattern : str) (ch : ascii) : nat :=
  str_count ch (fixed_letters_of pattern).

(** The rack: its letter tiles, counted per letter, and its blanks. *)
Definition rack_letters (deck : str) (ch : ascii) : nat :=
  if char_eqb ch "-" then 0%nat else str_count ch (upper deck).

Definition rack_blanks (deck : str) : nat := str_count "-" (upper deck).

(** The fixed letters the rack lacks. *)
Definition missing_count (pattern deck : str) : nat :=
  shortfall (fixed_demand pattern) (rack_letters deck).

(** The rack minus what the pattern's fixed letters consume: each
    letter loses its demand, and the blanks cover the missing ones. *)
Definition remaining_letters (pattern deck : str) (ch : ascii) : nat :=
  (rack_letters deck ch - fixed_demand pattern ch)%nat.

Definition remaining_blanks (pattern deck : str) : nat :=
  (rack_blanks deck - missing_count pattern deck)%nat.

(** The characters of a word at the pattern's wildcard positions. *)
Definition wildcard_chars (pattern word : str) : list ascii :=
  map snd (List.filter (fun p => char_eqb (fst p) "_") (zip pattern (upper word))).

Definition wildcard_demand (pattern word : str) (ch : ascii) : nat :=
  str_count ch (wildcard_chars pattern word).

(** At every letter of the pattern the word has that letter, up to case. *)
Definition fixed_positions_agree (pattern word : str) : bool :=
  forallb (fun p => if char_isalpha (fst p)
                    then char_eqb (char_upper (snd p)) (char_upper (fst p))
                    else true)
          (zip pattern word).

(** The remaining rack supplies the wildcard positions all at once,
    blanks covering the shortfall. *)
Definition rack_supplies (pattern deck word : str) : bool :=
  (shortfall (wildcard_demand pattern word) (remaining_letters pattern deck)
   <=? remaining_blanks pattern deck)%nat.

Definition pattern_matches (pattern deck word : str) : bool :=
  (length word =? length pattern)%nat
  && fixed_positions_agree pattern word
  && rack_supplies pattern deck word.

(** A well-formed fixed pattern and rack. *)
Definition fixed_pattern (pattern : str) : Prop :=
  pattern <> []
  /\ Forall (fun ch => char_isalpha ch = true \/ ch = "_"%char) pattern.

Definition rack_tiles (deck : str) : Prop :=
  Forall (fun ch => char_isalpha ch = true \/ ch = "-"%char) deck.

(** A lexicon holds words: letters only. *)
Definition lexicon (word_list : list str) : Prop :=
  Forall (fun word => Forall (fun ch => char_isalpha ch = true) word) word_list.

(** ** Pattern expansion (spec 4.3) *)

(** The fixed patterns of a pattern with ranges: each range [(n,m)]
    replaced by a run of [k] single-cell wildcards, [n <= k <= m],
    chosen independently for each range. *)
Inductive instance_of : list token -> str -> Prop :=
  | instance_nil : instance_of [] []
  | instance_char (ch : ascii) (tokens : list token) (p : str) :
      instance_of tokens p -> instance_of (TChar ch :: tokens) (ch :: p)
  | instance_range (n m k : nat) (tokens : list token) (p : str) :
      (n <= k <= m)%nat -> instance_of tokens p ->
      instance_of (TRange n m :: tokens) (replicate k "_"%char ++ p).

(** The tokens of a pattern, as the expander reads them. *)
Definition tokens_of (pattern : str) : list token :=
  DynamicPatternGenerator.tokenize 0 pattern.

(** A token that takes at least one cell in every fixed pattern. *)
Definition takes_a_cell (t : token) : Prop :=
  match t with
  | TChar _ => True
  | TRange n _ => (0 < n)%nat
  end.

(** A word is matched by one of the fixed patterns. *)
Definition matched_by_instance (pattern deck : str) (word_list : list str)
    (word : str) : Prop :=
  exists p matches,
    instance_of (tokens_of pattern) p
    /\ SimplePatternGenerator.generate p deck word_list = Ok matches
    /\ word ∈ matches.

(** * Further definitions *)

(** ** The board between moves *)

(** A board as [Game.__init__] and [Game.empty_board] create it and as
    the methods keep it: 15 rows of 15 cells. *)
Definition board_shape (b : board) : Prop :=
  length b = 15%nat /\ Forall (fun line => length line = 15%nat) b.

(** The letter of the last addition at a position, if there is one. *)
Definition last_letter_at (additions : list addition) (p : Z * Z)
  : option ascii :=
  letter_of <$> List.find (fun a => bool_decide (pos_of a = p)) (rev additions).

(** The cells of the placement lie in the grid and hold a tile. *)
Definition tiles_laid (t : board) (additions : list addition) : Prop :=
  Forall (fun a => inside_grid a /\ cell_at t (row_of a) (col_of a) <> None)
         additions.

(** The positions are pairwise distinct. *)
Definition distinct_positions (additions : list addition) : Prop :=
  NoDup (map pos_of additions).

(** ** The first version of the game ([utils/game_state.py])

    Its [_score_calculator] finds the words by walking from a tile to
    both ends of its run; the rest of the function is that of
    [utils/matrix/game_state.py]. *)

Module Legacy.

(** [while left > 0 and temp_board[r, left - 1] != '': left -= 1]
    along a line whose occupied cells [occ] tells; [fuel] is [left],
    the number of turns the guard [left > 0] allows. *)
Fixpoint scan_back (occ : Z -> bool) (fuel : nat) (left : Z) : Z :=
  match fuel with
  | O => left
  | S fuel' => if occ (left - 1) then scan_back occ fuel' (left - 1) else left
  end.

(** [while right < 14 and temp_board[r, right + 1] != '': right += 1];
    [fuel] is [14 - right]. *)
Fixpoint scan_forth (occ : Z -> bool) (fuel : nat) (right : Z) : Z :=
  match fuel with
  | O => right
  | S fuel' => if occ (right + 1) then scan_forth occ fuel' (right + 1) else right
  end.

Definition expand_horizontal (temp_board : board) (r c : Z) : list (Z * Z) :=
  let occ := fun j => occupied (cell_at temp_board r j) in
  let left := scan_back occ (Z.to_nat c) c in
  let right := scan_forth occ (Z.to_nat (14 - c)) c in
  map (fun cc => (r, cc)) (range left (right + 1)).

Definition expand_vertical (temp_board : board) (r c : Z) : list (Z * Z) :=
  let occ := fun i => occupied (cell_at temp_board i c) in
  let top := scan_back occ (Z.to_nat r) r in
  let bottom := scan_forth occ (Z.to_nat (14 - r)) r in
  map (fun rr => (rr, c)) (range top (bottom + 1)).

(** [if len(w) > 1: words.append(w)] *)
Definition longer_than_one (w : list (Z * Z)) : list (list (Z * Z)) :=
  if (1 <? length w)%nat then [w] else [].

(** The list [words] before deduplication.  [next(iter(rows))] takes
    an element of a set that holds one; [next(iter(cols))] in the
    other branch is modelled for a placement in one column, where the
    set holds one element too. *)
Definition words_of_move (temp_board : board) (norm_additions : list addition)
  : list (list (Z * Z)) :=
  let positions := map pos_of norm_additions in
  let rows : gset Z := list_to_set (map fst positions) in
  let cols : gset Z := list_to_set (map snd positions) in
  if (size rows =? 1)%nat then
    (* horizontal main word *)
    let r0 := hd 0 (elements rows) in
    let cmin := np_min (map snd positions) in
    longer_than_one (expand_horizontal temp_board r0 cmin)
    ++ flat_map (fun p => longer_than_one (expand_vertical temp_board (fst p) (snd p)))
                positions
  else
    (* vertical main word *)
    let c0 := hd 0 (elements cols) in
    let rmin := np_min (map fst positions) in
    longer_than_one (expand_vertical temp_board rmin c0)
    ++ flat_map (fun p => longer_than_one (expand_horizontal temp_board (fst p) (snd p)))
                positions.

(** Deduplicate identical words: [seen] holds the keys added so far. *)
Fixpoint dedup_words (seen words : list (list (Z * Z))) : list (list (Z * Z)) :=
  match words with
  | [] => []
  | w :: words' =>
      if bool_decide (w ∈ seen) then dedup_words seen words'
      else w :: dedup_words (w :: seen) words'
  end.

Definition _score_calculator (rule : Rule) (b : board)
    (additions : list addition) (bingo : bool) : Z :=
  match additions with
  | [] => 0
  | _ =>
    let blank_positions := blank_positions_of additions in
    let norm_additions := norm_additions_of additions in
    let temp_board := overlay b norm_additions in
    let new_positions : gset (Z * Z) := list_to_set (map pos_of norm_additions) in
    let words := words_of_move temp_board norm_additions in
    let dedup_words := dedup_words [] words in
    let total :=
      foldr Z.add 0
            (map (score_word rule temp_board blank_positions new_positions)
                 dedup_words) in
    if bingo || (length norm_additions =? 7)%nat then total + 50 else total
  end.

End Legacy.

(** All the occupancy masks of a line of [n] cells. *)
Fixpoint all_masks (n : nat) : list (list bool) :=
  match n with
  | O => [[]]
  | S n' => flat_map (fun m => [true :: m; false :: m]) (all_masks n')
  end.

(** The two ends of the run of occupied cells through index [at_] of a
    line of 15 cells. *)
Definition run_ends (occ : Z -> bool) (at_ : Z) : Z * Z :=
  (Legacy.scan_back occ (Z.to_nat at_) at_,
   Legacy.scan_forth occ (Z.to_nat (14 - at_)) at_).

(** The cells [lo] to [hi] of a line of 15 hold tiles, and the line
    has no tile next to them on either side. *)
Definition maximal_run (occ : Z -> bool) (lo hi : Z) : Prop :=
  0 <= lo /\ lo <= hi /\ hi < 15
  /\ (forall i, lo <= i <= hi -> occ i = true)
  /\ (lo = 0 \/ occ (lo - 1) = false)
  /\ (hi = 14 \/ occ (hi + 1) = false).

(** A word along row [r], and one along column [c]: the cells of a
    maximal run of at least two tiles. *)
Definition word_in_row (t : board) (r lo hi : Z) (w : list (Z * Z)) : Prop :=
  w = map (fun j => (r, j)) (range lo (hi + 1))
  /\ lo < hi
  /\ maximal_run (fun j => occupied (cell_at t r j)) lo hi.

Definition word_in_column (t : board) (c lo hi : Z) (w : list (Z * Z)) : Prop :=
  w = map (fun i => (i, c)) (range lo (hi + 1))
  /\ lo < hi
  /\ maximal_run (fun i => occupied (cell_at t i c)) lo hi.

(** A word the move forms: a maximal run of two tiles or more, along
    a row or along a column of the board with the new tiles laid, that
    runs through a cell of the placement. *)
Definition word_formed (b : board) (additions : list addition)
    (w : list (Z * Z)) : Prop :=
  exists a lo hi,
    a ∈ additions
    /\ ((lo <= col_of a <= hi
         /\ word_in_row (board_after b additions) (row_of a) lo hi w)
        \/ (lo <= row_of a <= hi
            /\ word_in_column (board_after b additions) (col_of a) lo hi w)).

(** No empty cell is left between the tiles of the placement: every
    cell from one of its tiles to another holds a tile once the new
    tiles are laid. *)
Definition tiles_joined (b : board) (additions : list addition) : Prop :=
  forall a a' r c,
    a ∈ additions -> a' ∈ additions ->
    row_of a <= r <= row_of a' -> col_of a <= c <= col_of a' ->
    cell_at (board_after b additions) r c <> None.

(** The first two cells of a word in a row share the row, those of a
    word in a column do not. *)
Definition starts_along_row (w : list (Z * Z)) : bool :=
  match w with
  | p :: q :: _ => fst p =? fst q
  | _ => false
  end.

(** The word of two cells or more that the run through [at_] makes. *)
Definition run_word (occ : Z -> bool) (at_ : Z) (mk : Z -> Z * Z)
  : list (list (Z * Z)) :=
  Legacy.longer_than_one
    (map mk (range (fst (run_ends occ at_)) (snd (run_ends occ at_) + 1))).

(** The cross word through every occupied index of a mask is the run
    through it. *)
Definition cross_word_is_run (m : list bool) : bool :=
  forallb
    (fun at_ =>
       implb (mask_at m at_)
             (bool_decide (cross_word m at_ (fun i => (i, 0))
                           = run_word (mask_at m) at_ (fun i => (i, 0)))))
    (np_arange 15).

(** The first occupied segment of a mask that ends at or after an
    occupied index is the run through that index. *)
Definition segment_is_run (m : list bool) : bool :=
  let segments :=
    List.filter (fun seg => mask_at m (first_of seg)) (line_segments m) in
  forallb
    (fun at_ =>
       implb (mask_at m at_)
             match List.find (fun seg => at_ <=? last_of seg) segments with
             | Some seg =>
                 (first_of seg <=? at_)
                 && bool_decide ((first_of seg, last_of seg)
                                 = run_ends (mask_at m) at_)
             | None => false
             end)
    (np_arange 15).

(** ** The window of a pattern

    The least and greatest number of cells a pattern with this [meta]
    takes on each side of the anchor cell. *)
Definition min_left_len (meta : Meta) : Z :=
  sum_Z (map (fun blk => Z.of_nat (length blk)) (left_blocks meta))
  + sum_Z (left_gaps meta).

Definition max_left_len (meta : Meta) : Z := min_left_len meta + left_tail meta.

Definition min_right_len (meta : Meta) : Z :=
  sum_Z (map (fun blk => Z.of_nat (length blk)) (right_blocks meta))
  + sum_Z (right_gaps meta).

Definition max_right_len (meta : Meta) : Z := min_right_len meta + right_tail meta.

(** The word is neither too short nor too long for the pattern. *)
Definition fits_window (meta : Meta) (word : str) : bool :=
  (min_left_len meta + 1 + min_right_len meta <=? Z.of_nat (length word))
  && (Z.of_nat (length word) <=? max_left_len meta + 1 + max_right_len meta).

(** ** What the materializer lays *)

(** The cell of index [at_] on the line through the anchor. *)
Definition line_cell (axis : Axis) (anchor : Z * Z) (at_ : Z) : Z * Z :=
  match axis with
  | H => (fst anchor, at_)
  | V => (at_, snd anchor)
  end.

(** The tiles a word needs along a line from index [at_]: one for each
    letter whose cell is empty. *)
Fixpoint new_tiles (b : board) (mk : Z -> Z * Z) (at_ : Z) (w : list ascii)
  : list addition :=
  match w with
  | [] => []
  | ch :: w' =>
      match cell_at b (fst (mk at_)) (snd (mk at_)) with
      | None => (ch, mk at_) :: new_tiles b mk (at_ + 1) w'
      | Some _ => new_tiles b mk (at_ + 1) w'
      end
  end.

(** The word fits the line from index [at_]: its cells are on the
    board, and a cell that holds a tile holds the letter of the word,
    up to case. *)
Fixpoint fits_line (b : board) (mk : Z -> Z * Z) (at_ : Z) (w : list ascii)
  : Prop :=
  match w with
  | [] => True
  | ch :: w' =>
      0 <= at_ < 15
      /\ match cell_at b (fst (mk at_)) (snd (mk at_)) with
         | None => True
         | Some x => char_upper x = ch
         end
      /\ fits_line b mk (at_ + 1) w'
  end.

(** A tile whose letter is in lower case stands for a blank. *)
Definition is_blank_tile (a : addition) : bool := char_islower (letter_of a).

(** The letters of the tiles that are not blanks. *)
Definition rack_letters_used (additions : list addition) : list ascii :=
  map letter_of (List.filter (fun a => negb (is_blank_tile a)) additions).

(** [sum(counter.values())] *)
Definition counter_total (c : Counter) : nat := list_sum (map snd c).

(** The coordinate of the anchor along the line. *)
Definition line_coordinate (axis : Axis) (anchor : Z * Z) : Z :=
  match axis with
  | H => snd anchor
  | V => fst anchor
  end.

(** The placement the materializer makes of one word: the anchor
    index found, the word laid from there, at least one tile needed,
    and the rack paying for the tiles. *)
Definition materialized_from (b : board) (axis : Axis) (anchor : Z * Z)
    (meta : Meta) (rack : list ascii) (word : str) (adds : list addition)
  : Prop :=
  exists anchor_idx laid,
    OptimiserLength._calculate_anchor_index_in_word (upper word) meta
    = Some anchor_idx
    /\ OptimiserLength.lay_word b (line_cell axis anchor)
         (line_coordinate axis anchor - anchor_idx) 0 (upper word) []
       = Some laid
    /\ laid <> []
    /\ OptimiserLength.use_rack (Counter_of rack)
         (counter_get (Counter_of rack) "-") laid []
       = Some adds
    /\ adds <> [].

(** The pattern data for the cell right of STAR on [star_board], with
    the block STAR selected on the left. *)
Definition after_star : Meta :=
  {| left_blocks := [s "STAR"]; left_gaps := [0]; left_tail := 0;
     right_blocks := []; right_gaps := []; right_tail := 0 |}.

(** ** Scanning a side of the anchor *)

(** What the scan keeps true of the blocks, the gaps and the tail. *)
Definition within_budget (rack_len : Z) (out : list str * list Z * Z) : Prop :=
  let '(blocks, gaps, tail_max) := out in
  length blocks = length gaps
  /\ Forall (fun k => 0 <= k) gaps
  /\ 0 <= tail_max
  /\ 1 + sum_Z gaps + tail_max <= rack_len
  /\ Forall (fun blk => blk <> [] /\ upper blk = blk) blocks.

(** ** The start word *)

(** The number of tiles [_find_start_word] takes from the deck. *)
Definition start_bound (deck : list ascii) (upper_bound : Z) : nat :=
  Z.to_nat (if (upper_bound <? 1) || (upper_bound >? Z.of_nat (length deck))
            then Z.of_nat (length deck) else upper_bound).

(** The words of the dictionary that the pattern matcher makes of
    [length] free cells. *)
Definition words_of_length (rule : Rule) (deck_str : str) (length : nat)
  : result (list str) :=
  SimplePatternGenerator.generate (replicate length "_"%char) deck_str
                                  (scrabble_dictionary rule).

(** ** Placements that are runs *)

(** The positions are, in some order, consecutive cells of one row or
    of one column. *)
Definition unbroken_run (additions : list addition) : Prop :=
  exists lo,
    (exists r, map pos_of additions
               ≡ₚ map (fun j => (r, j))
                      (range lo (lo + Z.of_nat (length additions))))
    \/ (exists c, map pos_of additions
                  ≡ₚ map (fun i => (i, c))
                         (range lo (lo + Z.of_nat (length additions)))).

(** ** Patterns as they are printed *)

(** A token as the pattern builder prints it: a range as ["(n,m)"]
    with the numbers in decimal, a character as itself. *)
Definition render_token (t : token) : str :=
  match t with
  | TRange n m =>
      s "(" ++ str_of_Z (Z.of_nat n) ++ s "," ++ str_of_Z (Z.of_nat m) ++ s ")"
  | TChar ch => [ch]
  end.

Definition render (tokens : list token) : str := flat_map render_token tokens.

(** Ranges that are not empty, and no character ['(']. *)
Definition plain_token (t : token) : Prop :=
  match t with
  | TRange n m => (n <= m)%nat
  | TChar ch => ch <> "("%char
  end.

Definition plain_tokens (tokens : list token) : Prop := Forall plain_token tokens.

(** A character token that passes a test on characters. *)
Definition tok_is (test : ascii -> bool) (t : token) : bool :=
  match t with
  | TChar ch => test ch
  | TRange _ _ => false
  end.

Definition is_underscore (ch : ascii) : bool := char_eqb ch "_".
Definition is_block_char (ch : ascii) : bool :=
  negb (char_eqb ch "(" || char_eqb ch "_").

(** The tokens behind one string token of [_simplify_pattern]: one
    range, a run of ['_'], or a block of other characters. *)
Definition range_group (g : list token) : Prop :=
  exists n m, g = [TRange n m] /\ (n <= m)%nat.
Definition underscore_group (g : list token) : Prop :=
  g <> [] /\ Forall (fun t => tok_is is_underscore t = true) g.
Definition block_group (g : list token) : Prop :=
  g <> [] /\ Forall (fun t => tok_is is_block_char t = true) g.
Definition group_ok (g : list token) : Prop :=
  range_group g \/ underscore_group g \/ block_group g.

(** [token.startswith('(') or token.startswith('_')], on the tokens. *)
Definition group_flex (g : list token) : bool :=
  match g with
  | TRange _ _ :: _ => true
  | TChar ch :: _ => char_eqb ch "(" || char_eqb ch "_"
  | [] => false
  end.

(** The least and the greatest number of cells of a sequence of ranges
    and runs of ['_']. *)
Definition group_bounds (g : list token) : nat * nat :=
  match g with
  | TRange n m :: _ => (n, m)
  | _ => (length g, length g)
  end.
Definition min_cells (groups : list (list token)) : nat :=
  list_sum (map (fun g => fst (group_bounds g)) groups).
Definition max_cells (groups : list (list token)) : nat :=
  list_sum (map (fun g => snd (group_bounds g)) groups).

(** What the simplifier writes for such a sequence. *)
Definition combined (a b : nat) : list token :=
  if (a =? b)%nat then replicate a (TChar "_") else [TRange a b].

(** ** What a built pattern stands for *)

(** The cells a pattern fixes on the two sides of the anchor: the
    blocks of the board and the gaps between them, read along the
    line. *)
Definition left_cells (meta : Meta) : str :=
  concat (map (fun p => fst p ++ underscores (snd p))
              (zip (rev (left_blocks meta)) (rev (left_gaps meta)))).
Definition right_cells (meta : Meta) : str :=
  concat (map (fun p => underscores (snd p) ++ fst p)
              (zip (right_blocks meta) (right_gaps meta))).

(** A line of cells that the pattern allows: some cells of the left
    tail, the left side, the anchor, the right side, some cells of the
    right tail. *)
Definition layout_of (meta : Meta) (p : str) : Prop :=
  exists a c : nat,
    Z.of_nat a <= left_tail meta /\ Z.of_nat c <= right_tail meta
    /\ p = replicate a "_"%char ++ left_cells meta
           ++ "_"%char :: right_cells meta ++ replicate c "_"%char.

Definition no_paren (blocks : list str) : Prop :=
  Forall (Forall (fun ch => ch <> "("%char)) blocks.

(** The tokens the builder prints before it simplifies. *)
Definition tail_tokens (t : Z) : list token :=
  if t >? 0 then [TRange 0 (Z.to_nat t)] else [].
Definition raw_tokens (meta : Meta) : list token :=
  tail_tokens (left_tail meta) ++ map TChar (left_cells meta)
  ++ [TChar "_"] ++ map TChar (right_cells meta)
  ++ tail_tokens (right_tail meta).

(** The tails the builder keeps for a selection. *)
Definition adjusted_tail (tail rack_len : Z) (left_gaps right_gaps : list Z) : Z :=
  let remaining := rack_len - (1 + sum_Z left_gaps + sum_Z right_gaps) in
  if remaining >? 0 then Z.min tail remaining else 0.
Definition meta_of (left_blocks : list str) (left_gaps : list Z) (left_tail : Z)
    (right_blocks : list str) (right_gaps : list Z) (right_tail rack_len : Z)
  : Meta :=
  {| left_blocks := left_blocks; left_gaps := left_gaps;
     left_tail := adjusted_tail left_tail rack_len left_gaps right_gaps;
     right_blocks := right_blocks; right_gaps := right_gaps;
     right_tail := adjusted_tail right_tail rack_len left_gaps right_gaps |}.

(** ** The patterns of an anchor *)

Definition tiles_are_letters (b : board) : Prop :=
  forall r c ch, cell_at b r c = Some ch -> char_isalpha ch = true.

(** The [meta] of a pattern comes from a selection: the first blocks
    and gaps of each side, as many as the rack reaches, and the tails
    the rack still allows. *)
Definition selection_of (b : board) (deck : list ascii) (anchor : Z * Z)
    (axis : Axis) (meta : Meta) : Prop :=
  let rack_len := Z.of_nat (length deck) in
  let '(left_blocks_all, left_gaps_all, left_tail_max) :=
    OptimiserLength._scan_side_for_blocks b anchor axis left rack_len in
  let '(right_blocks_all, right_gaps_all, right_tail_max) :=
    OptimiserLength._scan_side_for_blocks b anchor axis right rack_len in
  exists num_left num_right : nat,
    meta = meta_of (take num_left left_blocks_all) (take num_left left_gaps_all)
                   left_tail_max
                   (take num_right right_blocks_all)
                   (take num_right right_gaps_all)
                   right_tail_max rack_len
    /\ 1 + sum_Z (left_gaps meta) + sum_Z (right_gaps meta) <= rack_len.

(** ** What the longest-word optimiser collects *)










(** ** Placements through tiles of the board *)

(** The index of a tile along the line of the anchor. *)
Definition coordinate_of (axis : Axis) (a : addition) : Z :=
  match axis with
  | H => col_of a
  | V => row_of a
  end.

(** A tile of the board lies on the line of the anchor between two
    cells of the placement. *)
Definition tile_between (b : board) (axis : Axis) (anchor : Z * Z)
    (adds : list addition) : Prop :=
  exists i j k,
    i < j < k
    /\ line_cell axis anchor i ∈ map pos_of adds
    /\ line_cell axis anchor k ∈ map pos_of adds
    /\ cell_at b (fst (line_cell axis anchor j)) (snd (line_cell axis anchor j))
       <> None.

(** ** Patterns the expander accepts *)

(** The letters a list of tokens fixes, in order. *)
Definition letters_of (tokens : list token) : list ascii :=
  flat_map (fun t => match t with
                     | TChar ch => if char_isalpha ch then [ch] else []
                     | TRange _ _ => []
                     end) tokens.

(** What the expander's validation lets through: a range with
    [n < m], a letter, a ['_']. *)
Definition dpg_token (t : token) : Prop :=
  match t with
  | TRange n m => (n < m)%nat
  | TChar ch => char_isalpha ch = true \/ ch = "_"%char
  end.

Definition capital_blocks (blocks : list str) : Prop :=
  Forall (Forall (fun ch => char_isupper ch = true)) blocks.

(** The expander returns, for a pattern of the builder, the words that
    the matcher finds for the layouts of its [meta]. *)
Definition generates_layouts (pattern deck : str) (meta : Meta)
    (word_list : list str) : Prop :=
  exists words,
    DynamicPatternGenerator.generate pattern deck word_list = Ok words
    /\ NoDup words
    /\ forall w,
         w ∈ words
         <-> exists p matches,
               layout_of meta p
               /\ SimplePatternGenerator.generate p deck word_list = Ok matches
               /\ w ∈ matches.

(** * Properties *)

(** ** Lists, sorting and extrema *)

Lemma find_None_Forall {A} (f : A -> bool) (l : list A) :
  List.find f l = None <-> Forall (fun x => f x = false) l.
Proof.
  induction l as [|x l IH]; simpl.
  - split; [constructor | reflexivity].
  - destruct (f x) eqn:E.
    + split; [discriminate | inversion 1; congruence].
    + rewrite IH. split; [by constructor | by inversion 1].
Qed.

Lemma find_Some_elem {A} (f : A -> bool) (l : list A) (x : A) :
  List.find f l = Some x -> x ∈ l /\ f x = true.
Proof.
  intros H. apply List.find_some in H as [H1 H2].
  split; [by apply list_elem_of_In | done].
Qed.

Lemma elem_of_insert_unique (x y : Z) (l : list Z) :
  y ∈ insert_unique x l <-> y = x \/ y ∈ l.
Proof.
  induction l as [|z l IH]; simpl.
  - rewrite list_elem_of_singleton, elem_of_nil. tauto.
  - destruct (x <? z) eqn:E1; [by rewrite elem_of_cons|].
    destruct (x =? z) eqn:E2.
    + apply Z.eqb_eq in E2 as ->. rewrite elem_of_cons. tauto.
    + rewrite !elem_of_cons, IH. tauto.
Qed.

Lemma elem_of_np_unique (y : Z) (l : list Z) : y ∈ np_unique l <-> y ∈ l.
Proof.
  induction l as [|x l IH]; simpl; [done|].
  rewrite elem_of_insert_unique, IH, elem_of_cons. tauto.
Qed.

Lemma np_unique_all_eq (x : Z) (l : list Z) :
  l <> [] -> (forall y, y ∈ l -> y = x) -> np_unique l = [x].
Proof.
  induction l as [|z l IH]; [done|]. intros _ H. simpl.
  assert (z = x) as -> by (apply H; left).
  destruct l as [|z' l]; [done|].
  rewrite IH; [|done|intros y Hy; apply H; by right].
  simpl. rewrite Z.ltb_irrefl, Z.eqb_refl. done.
Qed.

Lemma np_unique_length_1 (l : list Z) :
  length (np_unique l) = 1%nat <->
  l <> [] /\ forall x y, x ∈ l -> y ∈ l -> x = y.
Proof.
  split.
  - intros H. split; [by intros ->|].
    destruct (np_unique l) as [|z [|? ?]] eqn:E; try discriminate.
    intros x y Hx Hy.
    apply elem_of_np_unique in Hx, Hy. rewrite E in Hx, Hy.
    apply list_elem_of_singleton in Hx, Hy. congruence.
  - intros [Hne H]. destruct l as [|z l]; [done|].
    rewrite (np_unique_all_eq z); [done|done|].
    intros y Hy. apply H; [done|left].
Qed.

Lemma np_unique_length_gt_1 (l : list Z) :
  (1 < length (np_unique l))%nat <->
  exists x y, x ∈ l /\ y ∈ l /\ x <> y.
Proof.
  split.
  - intros H. destruct l as [|z l]; [simpl in H; lia|].
    destruct (decide (Forall (fun y => y = z) l)) as [Hall|Hex].
    + rewrite (np_unique_all_eq z) in H; [simpl in H; lia|done|].
      intros y [->|Hy]%elem_of_cons; [done|].
      by eapply Forall_forall in Hall.
    + apply not_Forall_Exists in Hex; [|intros ?; apply _].
      apply Exists_exists in Hex as (y & Hy & Hne).
      exists y, z. split; [by right|]. split; [left|done].
  - intros (x & y & Hx & Hy & Hne).
    apply elem_of_np_unique in Hx, Hy.
    destruct (np_unique l) as [|a [|a' l']]; simpl; [|exfalso|lia].
    + by apply elem_of_nil in Hx.
    + apply list_elem_of_singleton in Hx, Hy. congruence.
Qed.

Lemma elem_of_insert_sorted (x y : Z) (l : list Z) :
  y ∈ insert_sorted x l <-> y = x \/ y ∈ l.
Proof.
  induction l as [|z l IH]; simpl.
  - rewrite list_elem_of_singleton, elem_of_nil. tauto.
  - destruct (x <=? z); [by rewrite elem_of_cons|].
    rewrite !elem_of_cons, IH. tauto.
Qed.

Lemma elem_of_np_sort (y : Z) (l : list Z) : y ∈ np_sort l <-> y ∈ l.
Proof.
  induction l as [|x l IH]; simpl; [done|].
  rewrite elem_of_insert_sorted, IH, elem_of_cons. tauto.
Qed.

Lemma fold_left_max_spec (l : list Z) (x : Z) :
  (fold_left Z.max l x = x \/ fold_left Z.max l x ∈ l)
  /\ x <= fold_left Z.max l x
  /\ forall y, y ∈ l -> y <= fold_left Z.max l x.
Proof.
  revert x. induction l as [|z l IH]; intros x; simpl.
  - split; [by left|]. split; [lia|]. by intros y ?%elem_of_nil.
  - destruct (IH (Z.max x z)) as (H1 & H2 & H3).
    split; [|split].
    + destruct H1 as [H1|H1]; [|right; by right].
      rewrite H1. destruct (Z.max_spec x z) as [[? E]|[? E]]; rewrite E.
      * right. left.
      * by left.
    + lia.
    + intros y [->|Hy]%elem_of_cons; [lia|by apply H3].
Qed.

Lemma fold_left_min_spec (l : list Z) (x : Z) :
  (fold_left Z.min l x = x \/ fold_left Z.min l x ∈ l)
  /\ fold_left Z.min l x <= x
  /\ forall y, y ∈ l -> fold_left Z.min l x <= y.
Proof.
  revert x. induction l as [|z l IH]; intros x; simpl.
  - split; [by left|]. split; [lia|]. by intros y ?%elem_of_nil.
  - destruct (IH (Z.min x z)) as (H1 & H2 & H3).
    split; [|split].
    + destruct H1 as [H1|H1]; [|right; by right].
      rewrite H1. destruct (Z.min_spec x z) as [[? E]|[? E]]; rewrite E.
      * by left.
      * right. left.
    + lia.
    + intros y [->|Hy]%elem_of_cons; [lia|by apply H3].
Qed.

Lemma np_max_greatest (l : list Z) : l <> [] -> is_greatest (np_max l) l.
Proof.
  destruct l as [|x l]; [done|]. intros _. unfold np_max.
  destruct (fold_left_max_spec l x) as (H1 & H2 & H3). split.
  - destruct H1 as [->|H1]; [left|by right].
  - intros y [->|Hy]%elem_of_cons; [done|by apply H3].
Qed.

Lemma np_min_least (l : list Z) : l <> [] -> is_least (np_min l) l.
Proof.
  destruct l as [|x l]; [done|]. intros _. unfold np_min.
  destruct (fold_left_min_spec l x) as (H1 & H2 & H3). split.
  - destruct H1 as [->|H1]; [left|by right].
  - intros y [->|Hy]%elem_of_cons; [done|by apply H3].
Qed.

Lemma is_greatest_unique (m m' : Z) (l : list Z) :
  is_greatest m l -> is_greatest m' l -> m = m'.
Proof. intros [H1 H2] [H3 H4]. apply H2 in H3. apply H4 in H1. lia. Qed.

Lemma is_least_unique (m m' : Z) (l : list Z) :
  is_least m l -> is_least m' l -> m = m'.
Proof. intros [H1 H2] [H3 H4]. apply H2 in H3. apply H4 in H1. lia. Qed.

Lemma np_sort_nonempty (l : list Z) : l <> [] -> np_sort l <> [].
Proof.
  destruct l as [|x l]; [done|]. intros _ E.
  assert (x ∈ np_sort (x :: l)) as H by (apply elem_of_np_sort; left).
  rewrite E in H. by apply elem_of_nil in H.
Qed.

(** Sorting first does not change the peak-to-peak value. *)
Lemma np_ptp_sort (l : list Z) : np_ptp (np_sort l) = np_ptp l.
Proof.
  destruct (decide (l = [])) as [->|Hne]; [done|].
  unfold np_ptp. f_equal.
  - apply (is_greatest_unique _ _ l); [|by apply np_max_greatest].
    destruct (np_max_greatest (np_sort l)) as [H1 H2]; [by apply np_sort_nonempty|].
    split; [by apply elem_of_np_sort|].
    intros x Hx. apply H2. by apply elem_of_np_sort.
  - apply (is_least_unique _ _ l); [|by apply np_min_least].
    destruct (np_min_least (np_sort l)) as [H1 H2]; [by apply np_sort_nonempty|].
    split; [by apply elem_of_np_sort|].
    intros x Hx. apply H2. by apply elem_of_np_sort.
Qed.

Lemma np_ptp_span (l : list Z) (lo hi : Z) :
  is_least lo l -> is_greatest hi l -> np_ptp l = hi - lo.
Proof.
  intros Hlo Hhi. assert (l <> []) as Hne.
  { intros ->. destruct Hlo as [H _]. by apply elem_of_nil in H. }
  unfold np_ptp.
  rewrite (is_greatest_unique _ _ _ (np_max_greatest l Hne) Hhi).
  by rewrite (is_least_unique _ _ _ (np_min_least l Hne) Hlo).
Qed.

(** ** Geometry check *)

Lemma rows_of_positions (additions : list addition) :
  map fst (map pos_of additions) = map row_of additions.
Proof. by rewrite map_map. Qed.

Lemma cols_of_positions (additions : list addition) :
  map snd (map pos_of additions) = map col_of additions.
Proof. by rewrite map_map. Qed.

Lemma spans_rows_unique (additions : list addition) :
  (1 < length (np_unique (map row_of additions)))%nat <-> spans_rows additions.
Proof.
  rewrite np_unique_length_gt_1. unfold spans_rows. split.
  - intros (x & y & Hx & Hy & Hne).
    apply list_elem_of_fmap in Hx as (a & -> & Ha).
    apply list_elem_of_fmap in Hy as (a' & -> & Ha'). eauto.
  - intros (a & a' & Ha & Ha' & Hne).
    exists (row_of a), (row_of a').
    split; [by apply list_elem_of_fmap_2|].
    split; [by apply list_elem_of_fmap_2|done].
Qed.

Lemma spans_cols_unique (additions : list addition) :
  (1 < length (np_unique (map col_of additions)))%nat <-> spans_cols additions.
Proof.
  rewrite np_unique_length_gt_1. unfold spans_cols. split.
  - intros (x & y & Hx & Hy & Hne).
    apply list_elem_of_fmap in Hx as (a & -> & Ha).
    apply list_elem_of_fmap in Hy as (a' & -> & Ha'). eauto.
  - intros (a & a' & Ha & Ha' & Hne).
    exists (col_of a), (col_of a').
    split; [by apply list_elem_of_fmap_2|].
    split; [by apply list_elem_of_fmap_2|done].
Qed.

Lemma np_unique_nonempty (l : list Z) : l <> [] -> np_unique l <> [].
Proof.
  destruct l as [|x l]; [done|]. intros _ E.
  assert (x ∈ np_unique (x :: l)) as H by (apply elem_of_np_unique; left).
  rewrite E in H. by apply elem_of_nil in H.
Qed.

Lemma one_row_or_many (additions : list addition) :
  additions <> [] ->
  (length (np_unique (map row_of additions)) =? 1)%nat = false ->
  spans_rows additions.
Proof.
  intros Hne H. apply spans_rows_unique. apply Nat.eqb_neq in H.
  assert (np_unique (map row_of additions) <> []) as H'.
  { apply np_unique_nonempty. by destruct additions. }
  destruct (np_unique (map row_of additions)) as [|? [|? ?]]; simpl in *; try done; lia.
Qed.

Lemma inside_grid_test (a : addition) :
  negb ((0 <=? row_of a) && (row_of a <? 15)
        && ((0 <=? col_of a) && (col_of a <? 15))) = false
  <-> inside_grid a.
Proof. unfold inside_grid. rewrite negb_false_iff, !andb_true_iff. lia. Qed.

Lemma occupied_test (x : cell) : occupied x = true <-> x <> None.
Proof. destruct x; simpl; split; congruence. Qed.

(** The span test of the code decides [discontinuous]. *)
Lemma span_test (additions : list addition) (l : list Z) :
  additions <> [] ->
  axis_coordinates additions l ->
  (forall l', axis_coordinates additions l' -> l' = l) ->
  negb (np_ptp (np_sort l) + 1 =? Z.of_nat (length additions)) = true
  <-> discontinuous additions.
Proof.
  intros Hne Hl Huniq.
  assert (l <> []) as Hlne.
  { destruct Hl as [[_ ->]|[_ ->]]; by destruct additions. }
  rewrite np_ptp_sort, negb_true_iff, Z.eqb_neq. split.
  - intros H. exists l, (np_min l), (np_max l).
    split; [done|]. split; [by apply np_min_least|].
    split; [by apply np_max_greatest|]. unfold np_ptp in H. lia.
  - intros (l' & lo & hi & Hl' & Hlo & Hhi & H).
    apply Huniq in Hl' as ->.
    rewrite (np_ptp_span l lo hi); done.
Qed.

Lemma axis_coordinates_cols (additions : list addition) :
  ~ spans_rows additions ->
  axis_coordinates additions (map col_of additions)
  /\ forall l', axis_coordinates additions l' -> l' = map col_of additions.
Proof.
  intros H. split; [by left|]. by intros l' [[_ ->]|[? _]].
Qed.

Lemma axis_coordinates_rows (additions : list addition) :
  spans_rows additions ->
  axis_coordinates additions (map row_of additions)
  /\ forall l', axis_coordinates additions l' -> l' = map row_of additions.
Proof.
  intros H. split; [by right|]. by intros l' [[? _]|[_ ->]].
Qed.

Lemma verify_raise_reports (b : board) (additions : list addition) (e : exn) :
  _verify_word_addition b additions = Raise e -> geometry_error b additions e.
Proof.
  unfold _verify_word_addition.
  destruct additions as [|a0 additions'] eqn:Eadd; [by intros [= <-]|].
  cbv beta iota. rewrite <- Eadd. assert (additions <> []) as Hne by (by rewrite Eadd).
  clear Eadd a0 additions'.
  destruct (List.find _ additions) as [a|] eqn:Eoob.
  { intros [= <-]. apply find_Some_elem in Eoob as [Ha Hoob].
    exists a. split; [done|]. split; [by destruct a as [? []]|].
    intros Hin. apply inside_grid_test in Hin. congruence. }
  destruct (List.find (fun a => occupied _) additions) as [a|] eqn:Eocc.
  { intros [= <-]. apply find_Some_elem in Eocc as [Ha Hocc].
    exists a. split; [done|]. split; [by destruct a as [? []]|].
    by apply occupied_test. }
  rewrite rows_of_positions, cols_of_positions.
  destruct (_ && _) eqn:Eline.
  { intros [= <-]. apply andb_true_iff in Eline as [H1 H2].
    apply Nat.ltb_lt in H1, H2.
    split; [by apply spans_rows_unique|by apply spans_cols_unique]. }
  destruct (length _ =? 1)%nat eqn:Eone.
  - destruct (negb _) eqn:Espan; [|done]. intros [= <-]. simpl.
    assert (~ spans_rows additions) as Hrows.
    { rewrite <- spans_rows_unique. apply Nat.eqb_eq in Eone. lia. }
    destruct (axis_coordinates_cols _ Hrows) as [H1 H2].
    by apply (span_test additions (map col_of additions)).
  - destruct (negb _) eqn:Espan; [|done]. intros [= <-]. simpl.
    assert (spans_rows additions) as Hrows by (by apply one_row_or_many).
    destruct (axis_coordinates_rows _ Hrows) as [H1 H2].
    by apply (span_test additions (map row_of additions)).
Qed.

Lemma geometry_error_rejected (b : board) (additions : list addition) (e : exn) :
  geometry_error b additions e -> geometry_rejected b additions.
Proof.
  unfold geometry_rejected.
  destruct e as [[]| | |]; simpl; try done.
  - by left.
  - intros (a & ? & ? & ?). right; left. eauto.
  - intros (a & ? & ? & ?). right; right; left. eauto.
  - intros ?. right; right; right; by left.
  - intros ?. right; right; right; by right.
Qed.

Lemma verify_ok_accepts (b : board) (additions : list addition) (v : bool) :
  _verify_word_addition b additions = Ok v ->
  v = true /\ ~ geometry_rejected b additions.
Proof.
  unfold _verify_word_addition.
  destruct additions as [|a0 additions'] eqn:Eadd; [done|].
  cbv beta iota. rewrite <- Eadd. assert (additions <> []) as Hne by (by rewrite Eadd).
  clear Eadd a0 additions'.
  destruct (List.find _ additions) as [a|] eqn:Eoob; [done|].
  destruct (List.find (fun a => occupied _) additions) as [a|] eqn:Eocc; [done|].
  rewrite rows_of_positions, cols_of_positions.
  destruct (_ && _) eqn:Eline; [done|].
  apply find_None_Forall in Eoob, Eocc.
  assert (~ (spans_rows additions /\ spans_cols additions)) as Hline.
  { intros [H1 H2]. apply spans_rows_unique in H1. apply spans_cols_unique in H2.
    apply Nat.ltb_lt in H1, H2. rewrite H1, H2 in Eline. done. }
  assert (forall a, a ∈ additions -> inside_grid a) as Hin.
  { intros a Ha. eapply Forall_forall in Eoob; [|done]. by apply inside_grid_test. }
  assert (forall a, a ∈ additions -> ~ on_occupied_cell b a) as Hfree.
  { intros a Ha Hocc. eapply Forall_forall in Eocc; [|done].
    apply occupied_test in Hocc. simpl in Eocc. congruence. }
  destruct (length _ =? 1)%nat eqn:Eone.
  - destruct (negb _) eqn:Espan; [done|]. intros [= <-]. split; [done|].
    assert (~ spans_rows additions) as Hrows.
    { rewrite <- spans_rows_unique. apply Nat.eqb_eq in Eone. lia. }
    destruct (axis_coordinates_cols _ Hrows) as [H1 H2].
    intros [?|[(a & ? & ?)|[(a & ? & ?)|[?|Hd]]]]; try done; [naive_solver..|].
    apply (span_test additions (map col_of additions)) in Hd; [|done..].
    congruence.
  - destruct (negb _) eqn:Espan; [done|]. intros [= <-]. split; [done|].
    assert (spans_rows additions) as Hrows by (by apply one_row_or_many).
    destruct (axis_coordinates_rows _ Hrows) as [H1 H2].
    intros [?|[(a & ? & ?)|[(a & ? & ?)|[?|Hd]]]]; try done; [naive_solver..|].
    apply (span_test additions (map row_of additions)) in Hd; [|done..].
    congruence.
Qed.

(** C7.  The geometry check accepts a placement exactly when none of
    the five cases holds: the placement is empty, a position is out of
    the 15 x 15 grid, a position is on an occupied cell, the positions
    span more than one row and more than one column, or the coordinate
    span along the shared axis (max minus min plus 1) differs from the
    number of new tiles.  It raises exactly in those cases, and the
    error raised reports a case that holds. *)
Theorem verify_word_addition_cases (b : board) (additions : list addition) :
  (_verify_word_addition b additions = Ok true
   <-> ~ geometry_rejected b additions)
  /\ ((exists e, _verify_word_addition b additions = Raise e)
      <-> geometry_rejected b additions)
  /\ (forall e, _verify_word_addition b additions = Raise e ->
                geometry_error b additions e).
Proof.
  split; [|split].
  - split.
    + intros H. by apply verify_ok_accepts in H as [_ H].
    + intros H. destruct (_verify_word_addition b additions) as [v|e] eqn:E.
      * apply verify_ok_accepts in E as [-> _]. done.
      * exfalso. apply H. eapply geometry_error_rejected.
        by apply verify_raise_reports.
  - split.
    + intros [e He]. eapply geometry_error_rejected.
      by apply verify_raise_reports.
    + intros H. destruct (_verify_word_addition b additions) as [v|e] eqn:E.
      * apply verify_ok_accepts in E as [_ E]. done.
      * eauto.
  - apply verify_raise_reports.
Qed.

(** ** Board rule *)

Lemma start_covered_test (additions : list addition) :
  existsb (fun a => (row_of a =? fst start_pos) && (col_of a =? snd start_pos))
          additions = true
  <-> exists a, a ∈ additions /\ covers_center a.
Proof.
  rewrite existsb_exists. unfold covers_center, start_pos. simpl.
  split; intros (a & Ha & H); exists a.
  - apply list_elem_of_In in Ha. split; [done|].
    apply andb_true_iff in H as [H1%Z.eqb_eq H2%Z.eqb_eq].
    destruct a as [? [r c]]. unfold row_of, col_of in *. simpl in *. congruence.
  - apply list_elem_of_In in Ha. split; [done|].
    destruct a as [? [r c]]. unfold row_of, col_of, pos_of in *. simpl in *.
    injection H as -> ->. done.
Qed.

Lemma touches_existing_word_spec (b : board) (additions : list addition) :
  _touches_existing_word b additions = true
  <-> exists a, a ∈ additions /\ touches_occupied b a.
Proof.
  unfold _touches_existing_word.
  set (nbs := fun p : Z * Z =>
                map (fun d : Z * Z => (fst p + fst d, snd p + snd d))
                    [(-1, 0); (1, 0); (0, -1); (0, 1)]).
  set (valid := fun q : Z * Z =>
                  (fst q >=? 0) && (fst q <? 15) && (snd q >=? 0) && (snd q <? 15)).
  set (occ := fun q : Z * Z => occupied (cell_at b (fst q) (snd q))).
  assert (forall l, match l with [] => false | _ => existsb occ l end
                    = existsb occ l) as Hmatch by (by intros []).
  assert (match additions with
          | [] => false
          | _ => match List.filter valid (flat_map nbs (map pos_of additions)) with
                 | [] => false
                 | _ => existsb occ (List.filter valid
                                       (flat_map nbs (map pos_of additions)))
                 end
          end
          = existsb occ (List.filter valid (flat_map nbs (map pos_of additions))))
    as -> by (rewrite Hmatch; by destruct additions).
  rewrite existsb_exists. unfold touches_occupied. split.
  - intros (q & Hq & Hocc).
    apply filter_In in Hq as [Hq Hvalid].
    apply in_flat_map in Hq as (p & Hp & Hq).
    apply in_map_iff in Hp as (a & <- & Ha).
    exists a. split; [by apply list_elem_of_In|].
    exists q. split; [|split].
    + unfold nbs in Hq. simpl in Hq. unfold orthogonal_neighbours.
      rewrite !elem_of_cons.
      destruct Hq as [<-|[<-|[<-|[<-|[]]]]]; simpl;
        [left|right; left|right; right; left|right; right; right; left];
        f_equal; lia.
    + unfold valid in Hvalid. rewrite !andb_true_iff in Hvalid. lia.
    + by apply occupied_test.
  - intros (a & Ha & q & Hq & Hvalid & Hocc).
    exists q. split; [|by apply occupied_test].
    apply filter_In. split.
    + apply in_flat_map. exists (pos_of a).
      split; [apply in_map; by apply list_elem_of_In|].
      unfold nbs. simpl. unfold orthogonal_neighbours in Hq.
      rewrite !elem_of_cons in Hq.
      destruct Hq as [->|[->|[->|[->|Hq]]]]; [| | | |by apply elem_of_nil in Hq];
        [left|right; left|right; right; left|right; right; right; left];
        f_equal; lia.
    + unfold valid. rewrite !andb_true_iff. lia.
Qed.

(** C8.  On a board with no occupied cell the board-rule check accepts
    exactly when some new tile covers the center cell (7,7), and raises
    the first-move error otherwise; on a board with an occupied cell it
    accepts exactly when some new tile is orthogonally adjacent, inside
    the grid, to an occupied cell, and raises the disconnected error
    otherwise. *)
Theorem check_board_valid_rule (b : board) (additions : list addition) :
  (count_occupied b = 0%nat ->
     (_check_board_valid b additions = Ok true
      <-> exists a, a ∈ additions /\ covers_center a)
     /\ (_check_board_valid b additions = Ok true
         \/ _check_board_valid b additions
            = Raise (ValueError FirstWordMustCoverStart)))
  /\ (count_occupied b <> 0%nat ->
     (_check_board_valid b additions = Ok true
      <-> exists a, a ∈ additions /\ touches_occupied b a)
     /\ (_check_board_valid b additions = Ok true
         \/ _check_board_valid b additions = Raise (ValueError MustConnect))).
Proof.
  unfold _check_board_valid. split; intros Hcount.
  - rewrite Hcount. simpl (0 =? 0)%nat. cbv iota.
    rewrite <- start_covered_test.
    destruct (existsb _ additions); simpl; split; try tauto; split; done.
  - apply Nat.eqb_neq in Hcount. rewrite Hcount.
    rewrite <- touches_existing_word_spec.
    destruct (_touches_existing_word b additions); simpl;
      split; try tauto; split; done.
Qed.

Example check_board_valid_first_move :
  _check_board_valid empty_board [("A"%char, (7, 7)); ("T"%char, (7, 8))] = Ok true
  /\ _check_board_valid empty_board [("A"%char, (6, 7)); ("T"%char, (6, 8))]
     = Raise (ValueError FirstWordMustCoverStart).
Proof. split; reflexivity. Qed.

Example check_board_valid_later_move :
  let b := set_cell empty_board 7 7 (Some "A"%char) in
  _check_board_valid b [("T"%char, (7, 8))] = Ok true
  /\ _check_board_valid b [("T"%char, (9, 9))] = Raise (ValueError MustConnect).
Proof. split; reflexivity. Qed.

(** ** Scoring *)

Section ScoringProofs.

Context (rule : Rule).

Lemma new_positions_spec (additions : list addition) (p : Z * Z) :
  bool_decide
    (p ∈ (list_to_set (map pos_of (norm_additions_of additions)) : gset (Z * Z)))
  = newly_placed additions p.
Proof.
  apply eq_true_iff_eq. rewrite bool_decide_eq_true.
  unfold newly_placed, norm_additions_of.
  rewrite elem_of_list_to_set, map_map, existsb_exists. simpl. split.
  - intros (a & -> & Ha)%list_elem_of_fmap. exists a.
    split; [by apply list_elem_of_In|]. by apply bool_decide_eq_true.
  - intros (a & Ha & H%bool_decide_eq_true). subst p.
    apply list_elem_of_fmap. exists a. split; [done|by apply list_elem_of_In].
Qed.

Lemma islower_isalpha (ch : ascii) :
  char_isalpha ch && char_islower ch = char_islower ch.
Proof. unfold char_isalpha. destruct (char_islower ch), (char_isupper ch); done. Qed.

Lemma blank_positions_spec (additions : list addition) (p : Z * Z) :
  bool_decide (p ∈ blank_positions_of additions) = resolved_blank additions p.
Proof.
  apply eq_true_iff_eq. rewrite bool_decide_eq_true.
  unfold resolved_blank, blank_positions_of.
  rewrite elem_of_list_to_set, existsb_exists. split.
  - intros (a & -> & Ha)%list_elem_of_fmap.
    apply list_elem_of_In, filter_In in Ha as [Ha Hlow].
    rewrite islower_isalpha in Hlow.
    exists a. split; [done|]. rewrite Hlow. by rewrite bool_decide_eq_true_2.
  - intros (a & Ha & [H%bool_decide_eq_true Hlow]%andb_true_iff). subst p.
    apply list_elem_of_fmap. exists a. split; [done|].
    apply list_elem_of_In, filter_In. by rewrite islower_isalpha.
Qed.

(** The loop of [score_word], started from any accumulators. *)
Lemma score_word_loop (b : board) (additions : list addition)
    (word : list (Z * Z)) (letter_sum word_mult : Z) :
  fold_left
    (fun acc p =>
       let '(letter_sum, word_mult) := acc in
       let ch := cell_at (overlay b (norm_additions_of additions)) (fst p) (snd p) in
       let base := if bool_decide (p ∈ blank_positions_of additions) then 0
                   else points_of rule ch in
       if bool_decide
            (p ∈ (list_to_set (map pos_of (norm_additions_of additions))
                  : gset (Z * Z)))
       then (letter_sum + base * grid_at (lm rule) (fst p) (snd p),
             word_mult * Z.max 1 (grid_at (wm rule) (fst p) (snd p)))
       else (letter_sum + base, word_mult))
    word (letter_sum, word_mult)
  = (letter_sum + letterSum rule b additions word,
     word_mult * wordMult rule additions word).
Proof.
  revert letter_sum word_mult.
  induction word as [|p word IH]; intros letter_sum word_mult.
  - unfold letterSum, wordMult. simpl. f_equal; lia.
  - cbn [fold_left]. cbv zeta.
    rewrite new_positions_spec, blank_positions_spec.
    assert ((if resolved_blank additions p then 0
             else points_of rule
                    (cell_at (overlay b (norm_additions_of additions))
                             (fst p) (snd p)))
            = baseValue rule b additions p) as ->.
    { unfold baseValue, board_after, norm_additions_of, points_of, letter_value.
      by destruct (resolved_blank additions p). }
    unfold letterSum, wordMult in *. cbn [map List.filter foldr].
    destruct (newly_placed additions p) eqn:Enew; rewrite IH.
    + cbn [map foldr]. unfold letterMultiplier, wordMultiplier, lm, wm.
      f_equal; lia.
    + f_equal; lia.
Qed.

Lemma score_word_spec (b : board) (additions : list addition)
    (word : list (Z * Z)) :
  score_word rule (overlay b (norm_additions_of additions))
             (blank_positions_of additions)
             (list_to_set (map pos_of (norm_additions_of additions)))
             word
  = wordScore rule b additions word.
Proof.
  unfold score_word. rewrite score_word_loop. unfold wordScore. lia.
Qed.

Lemma words_total_spec (b : board) (additions : list addition) :
  words_total rule b additions = moveScore rule b additions.
Proof.
  unfold words_total, moveScore, formed_words, board_after. cbv zeta.
  fold (norm_additions_of additions). f_equal.
  apply map_ext. intros word. apply score_word_spec.
Qed.

(** The calculator's total, word by word over the position lists its
    word extraction returns, and the bonus on top. *)
Lemma score_over_extracted_words (b : board) (additions : list addition)
    (bingo : bool) :
  score_calculator rule b additions bingo
  = foldr Z.add 0
      (map (wordScore rule b additions)
           (_extract_word_positions (board_after b additions)
                                    (norm_additions_of additions)))
    + match additions with
      | [] => 0
      | _ => if bingo || (length additions =? 7)%nat then 50 else 0
      end.
Proof.
  change (score_calculator rule b additions bingo
          = moveScore rule b additions
            + match additions with
              | [] => 0
              | _ => if bingo || (length additions =? 7)%nat
                     then 50 else 0
              end).
  unfold score_calculator. destruct additions as [|a additions']; [done|].
  rewrite words_total_spec. unfold norm_additions_of. rewrite length_map.
  destruct (bingo || _); lia.
Qed.

End ScoringProofs.

(** The two concrete scenarios of the specification. *)
Example score_quite :
  score_calculator sample_rule empty_board (tiles_in_row "QUITE" 7 3) false = 48.
Proof. reflexivity. Qed.

Example score_infancy_with_blank :
  score_calculator sample_rule empty_board (tiles_in_row "INFaNCY" 5 3) false = 80.
Proof. reflexivity. Qed.

(** A tile already on the board gets no multiplier: with QUIT on the
    board, Q on the double-letter cell (7,3) counts 10 when E is added
    on the double-word centre; with QUITE on the board, neither (7,3)
    nor the centre multiplies when S is added at (7,8). *)
Example score_through_old_premium_cells :
  score_calculator sample_rule
    (overlay empty_board (tiles_in_row "QUIT" 7 3)) [("E"%char, (7, 7))] false = 28
  /\ score_calculator sample_rule
       (overlay empty_board (tiles_in_row "QUITE" 7 3)) [("S"%char, (7, 8))] false
     = 15.
Proof. split; reflexivity. Qed.

(** *** The bonus *)

(** C10, as stated, fails on the empty placement: with the bonus flag
    forced the call returns 0 and adds nothing. *)
Lemma bonus_not_added_to_empty_move :
  score_calculator sample_rule empty_board [] true = 0
  /\ bonus_added sample_rule empty_board [] true = 0.
Proof. split; reflexivity. Qed.

(** C10, amended.  For every non-empty placement the scoring engine
    adds exactly 50 to the words' total iff the placement has exactly 7
    new tiles or the bonus flag is forced, and adds nothing otherwise;
    for the empty placement the score is 0 whatever the flag. *)
Theorem score_calculator_bonus (rule : Rule) (b : board)
    (additions : list addition) (bingo : bool) :
  Forall inside_grid additions ->
  (additions <> [] ->
     (bonus_added rule b additions bingo = 50
      <-> (length additions = 7%nat \/ bingo = true))
     /\ (bonus_added rule b additions bingo = 50
         \/ bonus_added rule b additions bingo = 0))
  /\ (additions = [] -> score_calculator rule b additions bingo = 0).
Proof.
  intros _. split; [|by intros ->].
  intros Hne. unfold bonus_added, score_calculator.
  destruct additions as [|a additions']; [done|].
  rewrite words_total_spec. unfold norm_additions_of. rewrite length_map.
  destruct (bingo || (length (a :: additions') =? 7)%nat) eqn:E.
  - apply orb_true_iff in E. rewrite Nat.eqb_eq in E.
    split; [|left; lia]. split; [tauto|lia].
  - apply orb_false_iff in E as [-> E%Nat.eqb_neq].
    split; [|right; lia]. split; [lia|]. intros [?|?]; [lia|done].
Qed.

Lemma score_calculator_bonus_witness :
  (tiles_in_row "INFaNCY" 5 3 <> [] ->
     (bonus_added sample_rule empty_board (tiles_in_row "INFaNCY" 5 3) false = 50
      <-> (length (tiles_in_row "INFaNCY" 5 3) = 7%nat \/ false = true))
     /\ (bonus_added sample_rule empty_board (tiles_in_row "INFaNCY" 5 3) false = 50
         \/ bonus_added sample_rule empty_board (tiles_in_row "INFaNCY" 5 3) false = 0))
  /\ (tiles_in_row "INFaNCY" 5 3 = [] ->
      score_calculator sample_rule empty_board (tiles_in_row "INFaNCY" 5 3) false = 0).
Proof.
  apply (score_calculator_bonus sample_rule empty_board
           (tiles_in_row "INFaNCY" 5 3) false).
  repeat constructor; unfold row_of, col_of; simpl; lia.
Defined.

Example bonus_examples :
  bonus_added sample_rule empty_board (tiles_in_row "INFaNCY" 5 3) false = 50
  /\ bonus_added sample_rule empty_board (tiles_in_row "QUITE" 7 3) true = 50
  /\ bonus_added sample_rule empty_board (tiles_in_row "QUITE" 7 3) false = 0.
Proof. repeat split; reflexivity. Qed.

(** ** The stages of a move *)

Section NewMove.

Context (rule : Rule) (draws : nat -> nat).

(** C2.  [new_move] runs the geometry check, then the board rule,
    then dictionary validation with wildcard resolution, then scores,
    then commits: the first stage to raise decides the outcome, the
    later stages do not run, and the score is taken before the
    commit, on the board as it was.  Whenever an error comes out, the
    board is the one the call started with. *)
Theorem new_move_stages (k : nat) (b : board) (additions : list addition) :
  let placed := map (fun a => (char_upper (letter_of a), pos_of a)) additions in
  (forall e, _verify_word_addition b placed = Raise e ->
             new_move rule draws k b additions = (Raise e, (b, k)))
  /\ (forall e, _verify_word_addition b placed = Ok true ->
                _check_board_valid b placed = Raise e ->
                new_move rule draws k b additions = (Raise e, (b, k)))
  /\ (forall e v, _verify_word_addition b placed = Ok true ->
                  _check_board_valid b placed = Ok v ->
                  _check_word_valid rule draws k b placed = Raise e ->
                  new_move rule draws k b additions = (Raise e, (b, k)))
  /\ (forall v resolved k',
        _verify_word_addition b placed = Ok true ->
        _check_board_valid b placed = Ok v ->
        _check_word_valid rule draws k b placed = Ok (resolved, k') ->
        new_move rule draws k b additions
        = (Ok (score_calculator rule b resolved false),
           (_update b resolved, k')))
  /\ (forall e b' k', new_move rule draws k b additions = (Raise e, (b', k')) ->
                      b' = b /\ k' = k).
Proof.
  intros placed. unfold new_move. fold placed.
  repeat split.
  - by intros e ->.
  - by intros e -> ->.
  - by intros e v -> -> ->.
  - by intros v resolved k' -> -> ->.
  - destruct (_verify_word_addition b placed) as [[]|]; [| |congruence].
    + destruct (_check_board_valid b placed); [|congruence].
      destruct (_check_word_valid rule draws k b placed) as [[]|]; congruence.
    + congruence.
  - destruct (_verify_word_addition b placed) as [[]|]; [| |congruence].
    + destruct (_check_board_valid b placed); [|congruence].
      destruct (_check_word_valid rule draws k b placed) as [[]|]; congruence.
    + congruence.
Qed.

End NewMove.

(** A move rejected at each stage, and an accepted one: the board comes
    back untouched from the first four and with the tiles from the
    last. *)
Example new_move_examples :
  new_move sample_rule first_draw 0 star_board [("S"%char, (7, 15))]
  = (Raise (ValueError (PositionOutOfBounds 7 15)), (star_board, 0%nat))
  /\ new_move sample_rule first_draw 0 star_board [("S"%char, (9, 9))]
     = (Raise (ValueError MustConnect), (star_board, 0%nat))
  /\ new_move sample_rule first_draw 0 star_board [("X"%char, (7, 10))]
     = (Raise (ValueError (InvalidWordsFormed [s "STARX"])), (star_board, 0%nat))
  /\ new_move sample_rule first_draw 0 star_board [("-"%char, (7, 5))]
     = (Raise (ValueError (NoValidCombination [(7, 5)])), (star_board, 0%nat))
  /\ new_move sample_rule first_draw 0 star_board [("-"%char, (7, 10))]
     = (Ok 4, (overlay star_board [("S"%char, (7, 10))], 1%nat)).
Proof. repeat split; vm_compute; reflexivity. Qed.

(** ** Wildcard resolution *)


Lemma char_lower_upper (ch : ascii) : char_lower (char_upper ch) = char_lower ch.
Proof. destruct ch as [[] [] [] [] [] [] [] []]; reflexivity. Qed.


Lemma ascii_uppercase_spec (ch : ascii) :
  ch ∈ ascii_uppercase <-> char_isupper ch = true.
Proof.
  rewrite <- (bool_decide_eq_true (ch ∈ ascii_uppercase)).
  assert (bool_decide (ch ∈ ascii_uppercase) = char_isupper ch) as ->; [|done].
  destruct ch as [[] [] [] [] [] [] [] []]; vm_compute; reflexivity.
Qed.


Lemma indices_shift {A} (test : A -> bool) (g : nat -> nat) (l : list A) :
  map fst (List.filter (fun p => test (snd p)) (imap (fun i a => (g i, a)) l))
  = map g (map fst (List.filter (fun p => test (snd p))
                                (imap (fun i a => (i, a)) l))).
Proof.
  revert g. induction l as [|a l IH]; intros g; [done|].
  assert (map fst (List.filter (fun p => test (snd p))
                               (imap ((fun i a => (g i, a)) ∘ S) l))
          = map g (map fst (List.filter (fun p => test (snd p))
                                        (imap ((fun i a => (i, a)) ∘ S) l))))
    as Htail.
  { trans (map g (map S (map fst (List.filter (fun p => test (snd p))
                                    (imap (fun i a => (i, a)) l))))).
    - rewrite map_map. exact (IH (g ∘ S)).
    - f_equal. symmetry. exact (IH S). }
  cbn [imap List.filter snd]. destruct (test a); cbn [map fst]; by rewrite Htail.
Qed.

Lemma wildcard_indices_cons (a : addition) (rest : list addition) :
  wildcard_indices_of (a :: rest)
  = (if is_wildcard a then [0%nat] else [])
    ++ map S (wildcard_indices_of rest).
Proof.
  unfold wildcard_indices_of, is_wildcard.
  cbn [imap List.filter snd].
  pose proof (indices_shift (fun a => char_eqb (letter_of a) "-") S rest) as H.
  change (imap ((fun i a => (i, a)) ∘ S) rest)
    with (imap (fun i (a : addition) => (S i, a)) rest).
  destruct (char_eqb (letter_of a) "-"); cbn [map fst app]; by rewrite H.
Qed.



Lemma assign_letters_shift (a : addition) (rest : list addition)
    (indices : list nat) (letters : list ascii) :
  assign_letters (a :: rest) (map S indices) letters
  = a :: assign_letters rest indices letters.
Proof.
  unfold assign_letters. revert rest letters.
  induction indices as [|i indices IH]; intros rest letters; [done|].
  destruct letters as [|ch letters]; [done|]. simpl. apply IH.
Qed.

Lemma assign_letters_cons (additions : list addition) (i : nat)
    (indices : list nat) (ch : ascii) (letters : list ascii) :
  assign_letters additions (i :: indices) (ch :: letters)
  = assign_letters (alter (fun a => (ch, pos_of a)) i additions) indices letters.
Proof. reflexivity. Qed.

Lemma fill_wildcards_nil (additions : list addition) :
  fill_wildcards additions [] = additions.
Proof.
  induction additions as [|a rest IH]; [done|]. simpl.
  rewrite IH. by destruct (is_wildcard a).
Qed.

(** Updating the list in place at the wildcard indices yields the
    placement with its wildcards filled in order. *)
Lemma assign_letters_fill (additions : list addition) (letters : list ascii) :
  assign_letters additions (wildcard_indices_of additions) letters
  = fill_wildcards additions letters.
Proof.
  revert letters. induction additions as [|a rest IH]; intros letters.
  - unfold assign_letters. by destruct letters.
  - rewrite wildcard_indices_cons. simpl fill_wildcards.
    destruct (is_wildcard a); cbn [app].
    + destruct letters as [|ch letters].
      * unfold assign_letters. simpl. by rewrite fill_wildcards_nil.
      * rewrite assign_letters_cons. cbn [alter list_alter].
        by rewrite assign_letters_shift, IH.
    + by rewrite assign_letters_shift, IH.
Qed.

Lemma fill_wildcards_positions (additions : list addition) (letters : list ascii) :
  map pos_of (fill_wildcards additions letters) = map pos_of additions.
Proof.
  revert letters. induction additions as [|a rest IH]; intros letters; [done|].
  simpl. destruct (is_wildcard a); [destruct letters|]; simpl; by rewrite IH.
Qed.


(** *** Words do not depend on the case of the tiles *)













(** *** The check itself *)

Section Wildcards.

Context (rule : Rule).






Lemma random_choice_elem {A} (draws : nat -> nat) (k : nat) (l : list A) (d : A) :
  l <> [] -> random_choice draws k l d ∈ l.
Proof.
  intros Hne. unfold random_choice. apply list_elem_of_In, nth_In.
  apply Nat.mod_upper_bound. by destruct l.
Qed.


End Wildcards.



(** After STAR, a blank at its end resolves to S and nothing else; a
    blank before it has no letter that makes a word. *)
Example wildcard_examples :
  valid_combinations_of sample_rule star_board [("-"%char, (7, 10))] = [s "S"]
  /\ _check_word_valid sample_rule first_draw 0 star_board [("-"%char, (7, 10))]
     = Ok ([("s"%char, (7, 10))], 1%nat)
  /\ _check_word_valid sample_rule first_draw 5 star_board [("s"%char, (7, 10))]
     = Ok ([("s"%char, (7, 10))], 5%nat)
  /\ _check_word_valid sample_rule first_draw 0 star_board [("-"%char, (7, 5))]
     = Raise (ValueError (NoValidCombination [(7, 5)])).
Proof. repeat split; vm_compute; reflexivity. Qed.

(** ** Counters *)

Lemma char_eqb_eq (a b : ascii) : char_eqb a b = true <-> a = b.
Proof. apply Ascii.eqb_eq. Qed.

Lemma char_eqb_dec (a b : ascii) : char_eqb a b = bool_decide (a = b).
Proof.
  destruct (char_eqb a b) eqn:E; symmetry.
  - apply bool_decide_eq_true, char_eqb_eq, E.
  - apply bool_decide_eq_false. intros H%char_eqb_eq. congruence.
Qed.

Lemma counter_get_incr (ch x : ascii) (c : Counter) :
  counter_get (counter_incr ch c) x
  = (counter_get c x + if char_eqb ch x then 1 else 0)%nat.
Proof.
  induction c as [|[key n] c IH]; simpl.
  - destruct (char_eqb ch x); lia.
  - destruct (char_eqb key ch) eqn:E1; simpl.
    + apply char_eqb_eq in E1 as ->. destruct (char_eqb ch x); lia.
    + destruct (char_eqb key x) eqn:E2; [|done].
      apply char_eqb_eq in E2 as ->.
      rewrite char_eqb_dec, bool_decide_eq_false_2; [lia|].
      intros ->. rewrite char_eqb_dec, bool_decide_eq_true_2 in E1; done.
Qed.

Lemma str_count_cons (x ch : ascii) (l : str) :
  str_count x (ch :: l) = ((if char_eqb x ch then 1 else 0) + str_count x l)%nat.
Proof. unfold str_count. simpl. by destruct (char_eqb x ch). Qed.

Lemma str_count_app (x : ascii) (l1 l2 : str) :
  str_count x (l1 ++ l2) = (str_count x l1 + str_count x l2)%nat.
Proof. unfold str_count. by rewrite List.filter_app, length_app. Qed.

Lemma char_eqb_sym (a b : ascii) : char_eqb a b = char_eqb b a.
Proof. rewrite !char_eqb_dec. apply bool_decide_ext. split; congruence. Qed.

Lemma counter_get_fold (l : list ascii) (c : Counter) (x : ascii) :
  counter_get (fold_left (fun c ch => counter_incr ch c) l c) x
  = (counter_get c x + str_count x l)%nat.
Proof.
  revert c. induction l as [|ch l IH]; intros c; simpl.
  - unfold str_count. simpl. lia.
  - rewrite IH, counter_get_incr, str_count_cons, (char_eqb_sym x ch). lia.
Qed.

Lemma counter_get_of (l : list ascii) (x : ascii) :
  counter_get (Counter_of l) x = str_count x l.
Proof. unfold Counter_of. by rewrite counter_get_fold. Qed.

Lemma counter_incr_keys (ch x : ascii) (c : Counter) :
  x ∈ map fst (counter_incr ch c) <-> x = ch \/ x ∈ map fst c.
Proof.
  induction c as [|[key n] c IH]; simpl.
  - rewrite list_elem_of_singleton, elem_of_nil. tauto.
  - destruct (char_eqb key ch) eqn:E; simpl.
    + apply char_eqb_eq in E as ->. rewrite elem_of_cons. tauto.
    + rewrite !elem_of_cons, IH. tauto.
Qed.

Lemma counter_incr_NoDup (ch : ascii) (c : Counter) :
  NoDup (map fst c) -> NoDup (map fst (counter_incr ch c)).
Proof.
  induction c as [|[key n] c IH]; simpl; intros H.
  - apply NoDup_singleton.
  - apply NoDup_cons in H as [Hkey H].
    destruct (char_eqb key ch) eqn:E; simpl.
    + by apply NoDup_cons.
    + apply NoDup_cons. split; [|by apply IH].
      rewrite counter_incr_keys. intros [->|?]; [|done].
      rewrite char_eqb_dec, bool_decide_eq_true_2 in E; done.
Qed.

Lemma Counter_of_NoDup (l : list ascii) : NoDup (map fst (Counter_of l)).
Proof.
  unfold Counter_of.
  assert (forall c, NoDup (map fst c) ->
            NoDup (map fst (fold_left (fun c ch => counter_incr ch c) l c))) as H.
  { induction l as [|ch l IH]; intros c Hc; [done|].
    simpl. by apply IH, counter_incr_NoDup. }
  apply H. constructor.
Qed.

Lemma Counter_of_keys (l : list ascii) (x : ascii) :
  x ∈ map fst (Counter_of l) -> x ∈ l.
Proof.
  unfold Counter_of.
  assert (forall c, x ∈ map fst (fold_left (fun c ch => counter_incr ch c) l c) ->
                    x ∈ map fst c \/ x ∈ l) as H.
  { induction l as [|ch l IH]; intros c Hx; [by left|].
    simpl in Hx. apply IH in Hx as [Hx|Hx]; [|right; by right].
    apply counter_incr_keys in Hx as [->|Hx]; [right; left|by left]. }
  intros Hx. apply H in Hx as [Hx|Hx]; [|done]. by apply elem_of_nil in Hx.
Qed.

(** *** Sums over the items of a counter and over an alphabet *)

Lemma list_sum_update (U : list ascii) (g h : ascii -> nat) (k : ascii) :
  NoDup U -> k ∈ U -> (forall x, x <> k -> g x = h x) ->
  (list_sum (map g U) + h k = list_sum (map h U) + g k)%nat.
Proof.
  intros Hnd Hk Hagree. induction U as [|u U IH]; [by apply elem_of_nil in Hk|].
  apply NoDup_cons in Hnd as [Hu Hnd]. simpl.
  apply elem_of_cons in Hk as [->|Hk].
  - assert (map g U = map h U) as ->; [|lia].
    apply map_ext_in. intros x Hx%list_elem_of_In. apply Hagree. by intros ->.
  - rewrite (Hagree u) by (by intros ->). specialize (IH Hnd Hk). lia.
Qed.

Lemma counter_get_not_key (c : Counter) (x : ascii) :
  x ∉ map fst c -> counter_get c x = 0%nat.
Proof.
  induction c as [|[key n] c IH]; [done|]. simpl. intros H.
  apply not_elem_of_cons in H as [Hne H].
  rewrite char_eqb_dec, bool_decide_eq_false_2; [by apply IH|congruence].
Qed.

(** The sum over the items of a counter is the sum over any alphabet
    that holds its keys. *)
Lemma counter_items_sum (U : list ascii) (c : Counter) (f : ascii -> nat -> nat) :
  NoDup U -> NoDup (map fst c) ->
  (forall x, x ∈ map fst c -> x ∈ U) ->
  (forall x, f x 0%nat = 0%nat) ->
  list_sum (map (fun item => f (fst item) (snd item)) c)
  = list_sum (map (fun x => f x (counter_get c x)) U).
Proof.
  intros HU Hc Hsub Hf0. induction c as [|[key n] c IH].
  - simpl. clear HU Hsub. induction U as [|u U IHU]; [done|]. simpl.
    by rewrite Hf0, <- IHU.
  - simpl in *. apply NoDup_cons in Hc as [Hkey Hc].
    rewrite IH; [|done|intros x Hx; apply Hsub; by right].
    pose proof (list_sum_update U
                  (fun x => f x (if char_eqb key x then n else counter_get c x))
                  (fun x => f x (counter_get c x)) key HU) as H.
    simpl in H. rewrite (counter_get_not_key c key Hkey), Hf0 in H.
    rewrite char_eqb_dec, bool_decide_eq_true_2 in H by done.
    assert (key ∈ U) as HkU by (apply Hsub; left).
    assert (forall x, x <> key ->
              f x (if char_eqb key x then n else counter_get c x)
              = f x (counter_get c x)) as Hag.
    { intros x Hne.
      rewrite char_eqb_dec, bool_decide_eq_false_2; [done|congruence]. }
    specialize (H HkU Hag). lia.
Qed.

Lemma missing_letters_sum (letter_counts deck_counts : Counter) :
  missing_letters letter_counts deck_counts
  = list_sum (map (fun item => (snd item - counter_get deck_counts (fst item))%nat)
                  letter_counts).
Proof.
  unfold missing_letters.
  assert (forall acc,
            fold_left
              (fun missing item =>
                 let have := counter_get deck_counts (fst item) in
                 if (have <? snd item)%nat
                 then (missing + (snd item - have))%nat else missing)
              letter_counts acc
            = (acc + list_sum (map (fun item =>
                                      (snd item - counter_get deck_counts (fst item))%nat)
                                   letter_counts))%nat) as H.
  { induction letter_counts as [|[key n] c IH]; intros acc; simpl; [lia|].
    rewrite IH. destruct (counter_get deck_counts key <? n)%nat eqn:E.
    - lia.
    - apply Nat.ltb_ge in E. lia. }
  by rewrite H.
Qed.

Lemma use_blanks_None (counter needed : Counter) :
  fold_left
    (fun state item =>
       match state with
       | None => None
       | Some blanks =>
           let have := counter_get counter (fst item) in
           if (have <? snd item)%nat then
             if (have + blanks <? snd item)%nat then None
             else Some (blanks - (snd item - have))%nat
           else Some blanks
       end)
    needed None = None.
Proof. induction needed as [|item needed IH]; [done|]. simpl. exact IH. Qed.

(** The running count of blanks never goes short exactly when the
    total shortfall is at most the blanks at hand. *)
Lemma use_blanks_spec (counter needed : Counter) (blanks : nat) :
  is_Some (SimplePatternGenerator.use_blanks counter needed blanks)
  <-> (list_sum (map (fun item => (snd item - counter_get counter (fst item))%nat)
                     needed) <= blanks)%nat.
Proof.
  unfold SimplePatternGenerator.use_blanks. revert blanks.
  induction needed as [|[key n] needed IH]; intros blanks; simpl.
  - split; [lia|by eexists].
  - destruct (counter_get counter key <? n)%nat eqn:E1.
    + apply Nat.ltb_lt in E1.
      destruct (counter_get counter key + blanks <? n)%nat eqn:E2.
      * apply Nat.ltb_lt in E2. rewrite use_blanks_None. split.
        -- by intros [? ?].
        -- lia.
      * apply Nat.ltb_ge in E2. rewrite IH. lia.
    + apply Nat.ltb_ge in E1. rewrite IH. lia.
Qed.

(** ** The pattern matcher *)

Lemma char_isalpha_upper (ch : ascii) :
  char_isalpha (char_upper ch) = char_isalpha ch.
Proof. destruct ch as [[] [] [] [] [] [] [] []]; reflexivity. Qed.

Lemma char_upper_underscore (ch : ascii) :
  char_eqb (char_upper ch) "_" = char_eqb ch "_".
Proof. destruct ch as [[] [] [] [] [] [] [] []]; reflexivity. Qed.

Lemma char_upper_dash (ch : ascii) :
  char_eqb (char_upper ch) "-" = char_eqb ch "-".
Proof. destruct ch as [[] [] [] [] [] [] [] []]; reflexivity. Qed.

Lemma char_upper_capital (ch : ascii) :
  char_isalpha ch = true -> char_upper ch ∈ ascii_uppercase.
Proof.
  intros H. apply ascii_uppercase_spec. revert H.
  destruct ch as [[] [] [] [] [] [] [] []]; vm_compute; congruence.
Qed.

Lemma capital_not_dash (ch : ascii) : ch ∈ ascii_uppercase -> ch <> "-"%char.
Proof. intros H%ascii_uppercase_spec ->. vm_compute in H. congruence. Qed.

Lemma capital_isalpha (ch : ascii) : ch ∈ ascii_uppercase -> char_isalpha ch = true.
Proof. intros H%ascii_uppercase_spec. unfold char_isalpha. by rewrite H. Qed.

Lemma ascii_uppercase_NoDup : NoDup ascii_uppercase.
Proof. apply (proj1 (bool_decide_eq_true _)). vm_compute. reflexivity. Qed.

Lemma str_contains_count (ch : ascii) (l : str) :
  str_contains ch l = true <-> (0 < str_count ch l)%nat.
Proof.
  unfold str_contains. induction l as [|x l IH]; simpl.
  - unfold str_count. simpl. split; [done|lia].
  - rewrite str_count_cons, orb_true_iff, IH. destruct (char_eqb ch x); split; auto; lia.
Qed.

Lemma str_count_remove (x ch : ascii) (l : str) :
  str_contains ch l = true ->
  str_count x (list_remove ch l)
  = (str_count x l - if char_eqb x ch then 1 else 0)%nat.
Proof.
  unfold str_contains. induction l as [|y l IH]; [done|]. simpl.
  rewrite str_count_cons. destruct (char_eqb y ch) eqn:E.
  - intros _. rewrite (char_eqb_sym y ch) in E. apply char_eqb_eq in E as ->.
    destruct (char_eqb x y); lia.
  - rewrite (char_eqb_sym ch y), E. simpl. intros H.
    rewrite str_count_cons, IH by done.
    destruct (char_eqb x y) eqn:E1, (char_eqb x ch) eqn:E2; try lia.
    apply char_eqb_eq in E1 as ->. congruence.
Qed.

Lemma str_count_filter_alpha (x : ascii) (l : str) :
  char_isalpha x = true ->
  str_count x (List.filter char_isalpha l) = str_count x l.
Proof.
  intros Hx. induction l as [|y l IH]; [done|]. simpl.
  destruct (char_isalpha y) eqn:Ey; rewrite !str_count_cons, ?IH; [done|].
  destruct (char_eqb x y) eqn:E; [|done].
  apply char_eqb_eq in E as ->. congruence.
Qed.

Lemma list_sum_zero {A} (l : list A) : list_sum (map (fun _ => 0%nat) l) = 0%nat.
Proof. induction l; simpl; lia. Qed.

(** What is left of the deck once the pattern's letters took their
    tiles, count by count. *)
Lemma implicit_deck_counts (P D : str) :
  Forall (fun c => char_isalpha c = true -> c ∈ ascii_uppercase) P ->
  let F :=
    fold_left
      (fun deck_list char =>
         if char_isalpha char then
           if str_contains char deck_list then list_remove char deck_list
           else if str_contains "-" deck_list then list_remove "-" deck_list
           else deck_list
         else deck_list) P D in
  (forall x, x <> "-"%char ->
     str_count x F = (str_count x D - str_count x (List.filter char_isalpha P))%nat)
  /\ str_count "-" F
     = (str_count "-" D
        - list_sum (map (fun x => (str_count x (List.filter char_isalpha P)
                                   - str_count x D)%nat) ascii_uppercase))%nat.
Proof.
  intros HP. revert D. induction HP as [|ch P Hch HP IH]; intros D.
  - simpl. split.
    + intros x _. change (str_count x []) with 0%nat. lia.
    + lia.
  - cbn [fold_left List.filter]. destruct (char_isalpha ch) eqn:Ealpha; [|apply IH].
    specialize (Hch eq_refl).
    pose proof (capital_not_dash ch Hch) as Hnd.
    destruct (str_contains ch D) eqn:Ech; [|destruct (str_contains "-" D) eqn:Eb].
    + destruct (IH (list_remove ch D)) as [IH1 IH2]. cbv zeta in *.
      pose proof (proj1 (str_contains_count _ _) Ech) as Hpos.
      split.
      * intros x Hx. rewrite IH1, str_count_remove, str_count_cons by done.
        destruct (char_eqb x ch); lia.
      * rewrite IH2, str_count_remove by done.
        rewrite (char_eqb_dec "-" ch), bool_decide_eq_false_2 by congruence.
        f_equal; [lia|]. f_equal. apply map_ext. intros x.
        rewrite str_count_remove, str_count_cons by done.
        destruct (char_eqb x ch) eqn:E; [|lia].
        apply char_eqb_eq in E as ->. lia.
    + destruct (IH (list_remove "-" D)) as [IH1 IH2]. cbv zeta in *.
      assert (str_count ch D = 0%nat) as Hzero.
      { destruct (str_count ch D) eqn:E; [done|].
        assert (str_contains ch D = true) by (apply str_contains_count; lia).
        congruence. }
      pose proof (proj1 (str_contains_count _ _) Eb) as Hpos.
      split.
      * intros x Hx. rewrite IH1, str_count_remove, str_count_cons by done.
        rewrite (char_eqb_dec x "-"), bool_decide_eq_false_2 by done.
        destruct (char_eqb x ch) eqn:E; [|lia].
        apply char_eqb_eq in E as ->. lia.
      * rewrite IH2, str_count_remove by done.
        change (char_eqb "-" "-") with true. cbv iota.
        pose proof (list_sum_update ascii_uppercase
                      (fun x => (str_count x (ch :: List.filter char_isalpha P)
                                 - str_count x D)%nat)
                      (fun x => (str_count x (List.filter char_isalpha P)
                                 - str_count x (list_remove "-" D))%nat)
                      ch ascii_uppercase_NoDup Hch) as Hsum.
        cbv beta in Hsum.
        assert (str_count ch (list_remove "-" D) = 0%nat) as E1.
        { rewrite str_count_remove by done. lia. }
        assert (str_count ch (ch :: List.filter char_isalpha P)
                = S (str_count ch (List.filter char_isalpha P))) as E2.
        { rewrite str_count_cons, char_eqb_dec, bool_decide_eq_true_2; done. }
        assert (forall x, x <> ch ->
                  (str_count x (ch :: List.filter char_isalpha P) - str_count x D
                   = str_count x (List.filter char_isalpha P)
                     - str_count x (list_remove "-" D))%nat) as Hag.
        { intros x Hne. rewrite str_count_cons, str_count_remove by done.
          rewrite (char_eqb_dec x ch), bool_decide_eq_false_2 by done.
          destruct (char_eqb x "-") eqn:E; [|lia].
          apply char_eqb_eq in E as ->.
          assert (str_count "-" (List.filter char_isalpha P) = 0%nat) as ->; [|lia].
          clear. induction P as [|y P IHP]; [done|]. simpl.
          destruct (char_isalpha y) eqn:Ey; [|done].
          rewrite str_count_cons, IHP.
          destruct (char_eqb "-" y) eqn:E; [|done].
          apply char_eqb_eq in E as <-. vm_compute in Ey. congruence. }
        specialize (Hsum Hag). lia.
    + destruct (IH D) as [IH1 IH2]. cbv zeta in *.
      assert (str_count ch D = 0%nat) as Hzero.
      { destruct (str_count ch D) eqn:E; [done|].
        assert (str_contains ch D = true) by (apply str_contains_count; lia).
        congruence. }
      assert (str_count "-" D = 0%nat) as Hzero'.
      { destruct (str_count "-" D) eqn:E; [done|].
        assert (str_contains "-" D = true) by (apply str_contains_count; lia).
        congruence. }
      split.
      * intros x Hx. rewrite IH1, str_count_cons by done.
        destruct (char_eqb x ch) eqn:E; [|lia].
        apply char_eqb_eq in E as ->. lia.
      * rewrite IH2, Hzero'. lia.
Qed.

(** *** Indices and positions *)

Lemma indices_where_cons (test : ascii -> bool) (c : ascii) (l : str) :
  indices_where test (c :: l)
  = (if test c then [0%nat] else []) ++ map S (indices_where test l).
Proof.
  unfold indices_where. cbn [imap List.filter snd].
  pose proof (indices_shift test S l) as H.
  change (imap ((fun i c => (i, c)) ∘ S) l)
    with (imap (fun i (c : ascii) => (S i, c)) l).
  destruct (test c); cbn [map fst app]; by rewrite H.
Qed.

(** Reading a text at the indices where the pattern passes a test is
    reading along the pattern. *)
Lemma char_at_indices (test : ascii -> bool) (P W : str) :
  length W = length P ->
  map (char_at W) (indices_where test P)
  = map snd (List.filter (fun p => test (fst p)) (zip P W)).
Proof.
  revert W. induction P as [|c P IH]; intros W Hlen; [done|].
  destruct W as [|w W]; [done|]. simpl in Hlen.
  rewrite indices_where_cons, map_app, map_map. cbn [zip zip_with List.filter fst].
  change (map (fun x => char_at (w :: W) (S x)) (indices_where test P))
    with (map (char_at W) (indices_where test P)).
  rewrite IH by lia. by destruct (test c).
Qed.

Lemma fixed_check_zip (P W : str) :
  length W = length P ->
  forallb (fun p => char_eqb (char_at W (fst p)) (snd p))
          (zip (indices_where char_isalpha P)
               (map (char_at P) (indices_where char_isalpha P)))
  = forallb (fun p => if char_isalpha (fst p) then char_eqb (snd p) (fst p) else true)
            (zip P W).
Proof.
  intros Hlen.
  assert (forall idxs,
            forallb (fun p => char_eqb (char_at W (fst p)) (snd p))
                    (zip idxs (map (char_at P) idxs))
            = forallb (fun i => char_eqb (char_at W i) (char_at P i)) idxs) as ->.
  { induction idxs as [|i idxs IH]; [done|]. simpl. by rewrite IH. }
  revert W Hlen. induction P as [|c P IH]; intros W Hlen; [done|].
  destruct W as [|w W]; [done|]. simpl in Hlen.
  rewrite indices_where_cons, forallb_app. cbn [zip zip_with forallb fst snd].
  assert (forallb (fun i => char_eqb (char_at (w :: W) i) (char_at (c :: P) i))
                  (map S (indices_where char_isalpha P))
          = forallb (fun i => char_eqb (char_at W i) (char_at P i))
                    (indices_where char_isalpha P)) as ->.
  { generalize (indices_where char_isalpha P). intros idxs.
    induction idxs as [|i idxs IHi]; [done|]. simpl. by rewrite IHi. }
  rewrite IH by lia.
  destruct (char_isalpha c); simpl; [|done].
  unfold char_at. simpl. by rewrite andb_true_r.
Qed.

Lemma zip_upper (P W : str) :
  zip (upper P) (upper W)
  = map (fun p => (char_upper (fst p), char_upper (snd p))) (zip P W).
Proof.
  revert W. induction P as [|c P IH]; intros W; [done|].
  destruct W as [|w W]; [done|]. simpl. by rewrite <- IH.
Qed.

Lemma zip_upper_l (P W : str) :
  zip (upper P) W = map (fun p => (char_upper (fst p), snd p)) (zip P W).
Proof.
  revert W. induction P as [|c P IH]; intros W; [done|].
  destruct W as [|w W]; [done|]. simpl. by rewrite <- IH.
Qed.

Lemma forallb_map {A B} (f : B -> bool) (g : A -> B) (l : list A) :
  forallb f (map g l) = forallb (fun x => f (g x)) l.
Proof. induction l as [|x l IH]; [done|]. simpl. by rewrite IH. Qed.

Lemma forallb_pointwise {A} (f g : A -> bool) (l : list A) :
  (forall x, f x = g x) -> forallb f l = forallb g l.
Proof. intros H. induction l as [|x l IH]; [done|]. simpl. by rewrite H, IH. Qed.

Lemma filter_map_comm {A B} (f : B -> bool) (g : A -> B) (l : list A) :
  List.filter f (map g l) = map g (List.filter (fun x => f (g x)) l).
Proof.
  induction l as [|x l IH]; [done|]. simpl.
  destruct (f (g x)); simpl; by rewrite IH.
Qed.

Lemma filter_filter_and {A} (f g : A -> bool) (l : list A) :
  List.filter f (List.filter g l) = List.filter (fun x => g x && f x) l.
Proof.
  induction l as [|x l IH]; [done|]. simpl.
  destruct (g x); simpl; [destruct (f x)|]; by rewrite IH.
Qed.

Lemma length_upper (text : str) : length (upper text) = length text.
Proof. apply length_map. Qed.

(** *** Validation *)

Lemma fixed_letters_capital (pattern : str) (x : ascii) :
  x ∈ fixed_letters_of pattern -> x ∈ ascii_uppercase.
Proof.
  unfold fixed_letters_of, upper.
  intros [Hx Halpha]%list_elem_of_In%filter_In.
  apply in_map_iff in Hx as (c & <- & _).
  apply char_upper_capital. by rewrite <- char_isalpha_upper.
Qed.

Lemma rack_letters_count (deck : str) (x : ascii) :
  x ∈ ascii_uppercase ->
  str_count x (List.filter char_isalpha (upper deck)) = rack_letters deck x.
Proof.
  intros Hx. unfold rack_letters.
  rewrite (char_eqb_dec x "-"), bool_decide_eq_false_2 by (by apply capital_not_dash).
  apply str_count_filter_alpha. by apply capital_isalpha.
Qed.

Lemma missing_letters_count (pattern deck : str) :
  missing_letters (Counter_of (fixed_letters_of pattern))
                  (Counter_of (List.filter char_isalpha (upper deck)))
  = missing_count pattern deck.
Proof.
  rewrite missing_letters_sum. unfold missing_count, shortfall.
  rewrite (counter_items_sum ascii_uppercase _
             (fun x n => (n - counter_get
                                (Counter_of (List.filter char_isalpha (upper deck))) x)%nat)).
  - f_equal. apply map_ext_in. intros x Hx%list_elem_of_In.
    rewrite !counter_get_of, rack_letters_count by done. done.
  - apply ascii_uppercase_NoDup.
  - apply Counter_of_NoDup.
  - intros x Hx%Counter_of_keys. by eapply fixed_letters_capital.
  - done.
Qed.

Lemma verify_pattern_spec (pattern deck : str) :
  fixed_pattern pattern -> rack_tiles deck ->
  SimplePatternGenerator.__verify_pattern pattern deck
  = if (rack_blanks deck <? missing_count pattern deck)%nat
    then Raise (ValueError (MissingLetters (missing_count pattern deck)
                                           (rack_blanks deck)))
    else Ok tt.
Proof.
  intros [Hne Hpat] Hdeck. unfold SimplePatternGenerator.__verify_pattern.
  destruct pattern as [|c0 pattern0] eqn:E; [done|]. rewrite <- E in *. clear E.
  assert (forallb (fun char => char_isalpha char || char_eqb char "_")
                  (upper pattern) = true) as ->.
  { unfold upper. rewrite forallb_map. apply forallb_forall.
    intros c Hc%list_elem_of_In. rewrite char_isalpha_upper, char_upper_underscore.
    eapply Forall_forall in Hpat; [|done].
    destruct Hpat as [->| ->]; [done|]. apply orb_true_r. }
  assert (forallb (fun char => char_isalpha char || char_eqb char "-")
                  (upper deck) = true) as ->.
  { unfold upper. rewrite forallb_map. apply forallb_forall.
    intros c Hc%list_elem_of_In. rewrite char_isalpha_upper, char_upper_dash.
    eapply Forall_forall in Hdeck; [|done].
    destruct Hdeck as [->| ->]; [done|]. apply orb_true_r. }
  cbn [negb]. cbv zeta.
  fold (fixed_letters_of pattern). rewrite missing_letters_count.
  done.
Qed.

(** *** Matching one word *)

Lemma implicit_deck_remaining (pattern deck : str) :
  (forall x, x ∈ ascii_uppercase ->
     counter_get (Counter_of (SimplePatternGenerator.__calculate_implicit_deck
                                pattern deck)) x
     = remaining_letters pattern deck x)
  /\ counter_get (Counter_of (SimplePatternGenerator.__calculate_implicit_deck
                                pattern deck)) "-"
     = remaining_blanks pattern deck.
Proof.
  unfold SimplePatternGenerator.__calculate_implicit_deck. cbv zeta.
  destruct (implicit_deck_counts (upper pattern) (upper deck)) as [H1 H2].
  { apply Forall_forall. intros c Hc Halpha.
    apply list_elem_of_In, in_map_iff in Hc as (c' & <- & _).
    apply char_upper_capital. by rewrite <- char_isalpha_upper. }
  cbv zeta in H1, H2. split.
  - intros x Hx. rewrite counter_get_of, H1 by (by apply capital_not_dash).
    unfold remaining_letters, rack_letters, fixed_demand, fixed_letters_of.
    rewrite (char_eqb_dec x "-"), bool_decide_eq_false_2; [done|].
    by apply capital_not_dash.
  - rewrite counter_get_of, H2.
    (* over the 26 capitals the two sums are the same by computation *)
    reflexivity.
Qed.

Lemma needed_chars (pattern word : str) :
  length word = length pattern ->
  map (char_at (upper word))
      (indices_where (fun c => char_eqb c "_") (upper pattern))
  = wildcard_chars pattern word.
Proof.
  intros Hlen. rewrite char_at_indices by (by rewrite !length_upper).
  unfold wildcard_chars. rewrite zip_upper_l, filter_map_comm, map_map. simpl.
  f_equal. apply filter_ext. intros p. apply char_upper_underscore.
Qed.

Lemma wildcard_chars_capital (pattern word : str) (x : ascii) :
  Forall (fun ch => char_isalpha ch = true) word ->
  x ∈ wildcard_chars pattern word -> x ∈ ascii_uppercase.
Proof.
  intros Hword Hx. unfold wildcard_chars in Hx.
  apply list_elem_of_fmap in Hx as ([c w] & -> & Hp).
  apply list_elem_of_In, filter_In in Hp as [Hp _].
  apply in_combine_r in Hp. simpl.
  apply in_map_iff in Hp as (w' & <- & Hw').
  apply char_upper_capital. eapply Forall_forall in Hword; [done|].
  by apply list_elem_of_In.
Qed.

Lemma fixed_check_agree (pattern word : str) :
  length word = length pattern ->
  forallb (fun p => char_eqb (char_at (upper word) (fst p)) (snd p))
          (zip (indices_where char_isalpha (upper pattern))
               (map (char_at (upper pattern))
                    (indices_where char_isalpha (upper pattern))))
  = fixed_positions_agree pattern word.
Proof.
  intros Hlen. rewrite fixed_check_zip by (by rewrite !length_upper).
  rewrite zip_upper, forallb_map. unfold fixed_positions_agree.
  apply forallb_pointwise. intros [c w]. simpl. by rewrite char_isalpha_upper.
Qed.

Lemma can_make_word_spec (pattern deck word : str) :
  Forall (fun ch => char_isalpha ch = true) word ->
  length word = length pattern ->
  SimplePatternGenerator.__can_make_word (upper word)
    (indices_where char_isalpha (upper pattern))
    (map (char_at (upper pattern)) (indices_where char_isalpha (upper pattern)))
    (indices_where (fun c => char_eqb c "_") (upper pattern))
    (Counter_of (SimplePatternGenerator.__calculate_implicit_deck pattern deck))
  = fixed_positions_agree pattern word && rack_supplies pattern deck word.
Proof.
  intros Hword Hlen. unfold SimplePatternGenerator.__can_make_word.
  rewrite fixed_check_agree by done.
  destruct (fixed_positions_agree pattern word); [|done]. cbn [negb andb].
  rewrite needed_chars by done.
  destruct (implicit_deck_remaining pattern deck) as [Hletters Hblanks].
  set (counter := Counter_of (SimplePatternGenerator.__calculate_implicit_deck
                                pattern deck)) in *.
  pose proof (use_blanks_spec counter (Counter_of (wildcard_chars pattern word))
                (counter_get counter "-")) as Hspec.
  rewrite (counter_items_sum ascii_uppercase _
             (fun x n => (n - counter_get counter x)%nat)) in Hspec.
  - assert (list_sum
              (map (fun x => (counter_get (Counter_of (wildcard_chars pattern word)) x
                              - counter_get counter x)%nat) ascii_uppercase)
            = shortfall (wildcard_demand pattern word)
                        (remaining_letters pattern deck)) as Hsum.
    { unfold shortfall. f_equal. apply map_ext_in. intros x Hx%list_elem_of_In.
      by rewrite counter_get_of, Hletters. }
    rewrite Hsum, Hblanks in Hspec. rewrite Hblanks. unfold rack_supplies.
    destruct (SimplePatternGenerator.use_blanks _ _ _) as [n|].
    + symmetry. apply Nat.leb_le, Hspec. by eexists.
    + symmetry. apply Nat.leb_gt. apply Nat.nle_gt. intros H.
      apply Hspec in H as [? ?]. done.
  - apply ascii_uppercase_NoDup.
  - apply Counter_of_NoDup.
  - intros x Hx%Counter_of_keys. by eapply wildcard_chars_capital.
  - done.
Qed.

(** C5.  For a non-empty pattern of letters and '_', a rack of letters
    and blanks and a lexicon of words: when the blanks cover the fixed
    letters the rack lacks, the matcher returns exactly the lexicon
    words, in upper case, whose length is the pattern's, whose
    characters at the pattern's letters are those letters, and whose
    characters at the wildcards are supplied all at once by the rack
    minus what the fixed letters consumed, blanks covering the
    shortfall, all up to case; when the blanks do not cover, it raises
    the error that reports the number of missing letters and of blanks. *)
Theorem generate_matches (pattern deck : str) (word_list : list str) :
  fixed_pattern pattern -> rack_tiles deck -> lexicon word_list ->
  ((missing_count pattern deck <= rack_blanks deck)%nat ->
     SimplePatternGenerator.generate pattern deck word_list
     = Ok (map upper (List.filter (pattern_matches pattern deck) word_list)))
  /\ ((rack_blanks deck < missing_count pattern deck)%nat ->
        SimplePatternGenerator.generate pattern deck word_list
        = Raise (ValueError (MissingLetters (missing_count pattern deck)
                                            (rack_blanks deck)))).
Proof.
  intros Hpat Hdeck Hlex. unfold SimplePatternGenerator.generate.
  rewrite verify_pattern_spec by done. split; intros Hcmp.
  - apply Nat.ltb_ge in Hcmp. rewrite Hcmp. cbn [mbind result_bind]. cbv zeta.
    f_equal. rewrite filter_map_comm, filter_filter_and. f_equal.
    apply filter_ext_in. intros word Hw. unfold pattern_matches.
    rewrite length_upper.
    destruct (length word =? length pattern)%nat eqn:Elen; [|done].
    apply Nat.eqb_eq in Elen. cbn [andb].
    apply can_make_word_spec; [|done].
    eapply Forall_forall in Hlex; [done|by apply list_elem_of_In].
  - apply Nat.ltb_lt in Hcmp. by rewrite Hcmp.
Qed.

Lemma generate_matches_witness :
  ((missing_count (s "_A_") (s "c-") <= rack_blanks (s "c-"))%nat ->
     SimplePatternGenerator.generate (s "_A_") (s "c-") sample_dictionary
     = Ok (map upper (List.filter (pattern_matches (s "_A_") (s "c-"))
                                  sample_dictionary)))
  /\ ((rack_blanks (s "c-") < missing_count (s "_A_") (s "c-"))%nat ->
        SimplePatternGenerator.generate (s "_A_") (s "c-") sample_dictionary
        = Raise (ValueError (MissingLetters (missing_count (s "_A_") (s "c-"))
                                            (rack_blanks (s "c-"))))).
Proof.
  apply (generate_matches (s "_A_") (s "c-") sample_dictionary).
  - split; [discriminate|].
    repeat (constructor; [first [left; reflexivity | right; reflexivity]|]).
    constructor.
  - repeat (constructor; [first [left; reflexivity | right; reflexivity]|]).
    constructor.
  - repeat (constructor; [repeat (constructor; [reflexivity|]); constructor|]).
    constructor.
Defined.

(** The blank stands for the fixed A, leaving C alone for two cells:
    nothing fits; with a T or a second blank, CAT does.  A pattern
    that asks for more letters than rack and blanks hold is refused
    with both counts. *)
Example generate_examples :
  SimplePatternGenerator.generate (s "_A_") (s "c-") sample_dictionary = Ok []
  /\ SimplePatternGenerator.generate (s "_A_") (s "c-t") sample_dictionary
     = Ok [s "CAT"]
  /\ SimplePatternGenerator.generate (s "_a_") (s "C--") sample_dictionary
     = Ok [s "CAT"]
  /\ SimplePatternGenerator.generate (s "ST__") (s "ars") sample_dictionary
     = Raise (ValueError (MissingLetters 1 0)).
Proof. repeat split; reflexivity. Qed.

(** ** The pattern expander *)

Lemma expand_instances (tokens : list token) (p : str) :
  p ∈ DynamicPatternGenerator.expand tokens <-> instance_of tokens p.
Proof.
  revert p. induction tokens as [|t tokens IH]; intros p; simpl.
  - rewrite list_elem_of_singleton. split; [intros ->; constructor|by inversion 1].
  - destruct t as [n m|ch].
    + rewrite list_elem_of_In, in_flat_map. split.
      * intros (k & Hk & Hp). apply in_seq in Hk.
        apply in_map_iff in Hp as (tail & <- & Htail).
        constructor; [lia|]. by apply IH, list_elem_of_In.
      * inversion 1 as [| |? ? k ? tail Hk Htail]; subst.
        exists k. split; [apply in_seq; lia|].
        apply in_map. by apply list_elem_of_In, IH.
    + rewrite list_elem_of_fmap. split.
      * intros (tail & -> & Htail). constructor. by apply IH.
      * inversion 1 as [|? ? tail Htail|]; subst. exists tail. split; [done|by apply IH].
Qed.

(** *** The regular expression on an upper-cased text *)

Lemma char_upper_paren (ch c : ascii) :
  c = "("%char \/ c = ","%char \/ c = ")"%char ->
  char_eqb (char_upper ch) c = char_eqb ch c.
Proof.
  intros [->|[->| ->]]; destruct ch as [[] [] [] [] [] [] [] []]; reflexivity.
Qed.

Lemma expect_upper (c : ascii) (text : str) :
  c = "("%char \/ c = ","%char \/ c = ")"%char ->
  expect c (upper text) = upper <$> expect c text.
Proof.
  intros Hc. destruct text as [|ch text]; [done|]. simpl.
  rewrite char_upper_paren by done. by destruct (char_eqb ch c).
Qed.

Lemma char_upper_digit (ch : ascii) :
  char_isdigit (char_upper ch) = char_isdigit ch
  /\ (char_isdigit ch = true -> char_upper ch = ch).
Proof. destruct ch as [[] [] [] [] [] [] [] []]; split; vm_compute; congruence. Qed.

Lemma span_digits_upper (text : str) :
  span_digits (upper text)
  = (fst (span_digits text), upper (snd (span_digits text))).
Proof.
  induction text as [|ch text IH]; [done|]. simpl.
  destruct (char_upper_digit ch) as [-> Hfix].
  destruct (char_isdigit ch) eqn:E; [|done].
  rewrite IH, Hfix by done. by destruct (span_digits text).
Qed.

Lemma digits1_upper (text : str) :
  digits1 (upper text)
  = (fun r => (fst r, upper (snd r))) <$> digits1 text.
Proof.
  unfold digits1. rewrite span_digits_upper.
  destruct (span_digits text) as [[|d ds] rest]; done.
Qed.

Lemma match_range_upper (text : str) :
  match_range (upper text)
  = (fun r => (fst (fst r), snd (fst r), upper (snd r))) <$> match_range text.
Proof.
  unfold match_range.
  rewrite expect_upper by auto.
  destruct (expect "(" text) as [text1|]; [|done]. simpl.
  rewrite digits1_upper.
  destruct (digits1 text1) as [[n text2]|]; [|done]. simpl.
  rewrite expect_upper by auto.
  destruct (expect "," text2) as [text3|]; [|done]. simpl.
  rewrite digits1_upper.
  destruct (digits1 text3) as [[m text4]|]; [|done]. simpl.
  rewrite expect_upper by auto.
  destruct (expect ")" text4) as [text5|]; done.
Qed.

Lemma match_range_paren (ch : ascii) (text : str) :
  char_eqb ch "(" = false -> match_range (ch :: text) = None.
Proof. intros H. unfold match_range. simpl. by rewrite H. Qed.

(** *** Validation and tokens read the pattern alike *)

Lemma filter_alpha_underscores (k : nat) (p : str) :
  List.filter char_isalpha (upper (replicate k "_"%char ++ p))
  = List.filter char_isalpha (upper p).
Proof. induction k as [|k IH]; [done|]. simpl. exact IH. Qed.

(** When the validating scan accepts the upper-cased text, every fixed
    pattern of its tokens is made of letters and '_' and holds exactly
    the letters the scan counted. *)
Lemma scan_tokens (text : str) (skip : nat) (letters : list ascii) :
  DynamicPatternGenerator.scan_pattern skip (upper text) = Ok letters ->
  forall p, instance_of (DynamicPatternGenerator.tokenize skip text) p ->
    Forall (fun ch => char_isalpha ch = true \/ ch = "_"%char) p
    /\ List.filter char_isalpha (upper p) = letters.
Proof.
  revert skip letters. induction text as [|ch text IH]; intros skip letters.
  - simpl. intros [= <-] p Hp. inversion Hp. by split.
  - destruct skip as [|skip]; [|apply IH].
    cbn [upper map DynamicPatternGenerator.scan_pattern
         DynamicPatternGenerator.tokenize].
    fold (upper text). rewrite (char_upper_paren ch "(") by auto.
    destruct (char_eqb ch "(") eqn:Eparen.
    + change (char_upper ch :: upper text) with (upper (ch :: text)).
      rewrite match_range_upper.
      destruct (match_range (ch :: text)) as [[[n m] rest]|]; [|done]. simpl.
      destruct (m <=? n)%nat; [done|].
      rewrite !length_upper. intros Hscan p Hp.
      inversion Hp as [| |? ? k ? tail Hk Htail]; subst.
      destruct (IH _ _ Hscan tail Htail) as [Hall Hletters]. split.
      * apply Forall_app. split; [|done].
        apply Forall_forall. intros c Hc%elem_of_replicate. right. apply Hc.
      * by rewrite filter_alpha_underscores.
    + rewrite match_range_paren by done.
      rewrite char_isalpha_upper.
      destruct (char_isalpha ch) eqn:Ealpha.
      * destruct (DynamicPatternGenerator.scan_pattern 0 (upper text))
          as [letters'|] eqn:Escan; [|done].
        cbn [mbind result_bind]. intros [= <-] p Hp.
        inversion Hp as [|? ? tail Htail|]; subst.
        destruct (IH _ _ Escan tail Htail) as [Hall Hletters]. split.
        -- constructor; [by left|done].
        -- simpl. rewrite char_isalpha_upper, Ealpha, Hletters.
           f_equal. clear. destruct ch as [[] [] [] [] [] [] [] []]; reflexivity.
      * rewrite char_upper_underscore.
        destruct (char_eqb ch "_") eqn:Eunder; [|done]. cbn [negb].
        intros Hscan p Hp.
        inversion Hp as [|? ? tail Htail|]; subst.
        destruct (IH _ _ Hscan tail Htail) as [Hall Hletters]. split.
        -- constructor; [right; by apply char_eqb_eq|done].
        -- simpl. by rewrite char_isalpha_upper, Ealpha.
Qed.

(** *** Each fixed pattern passes the matcher's validation *)

Lemma dynamic_verify_ok (pattern deck : str) :
  DynamicPatternGenerator.__verify_pattern pattern deck = Ok tt ->
  exists letters,
    DynamicPatternGenerator.scan_pattern 0 (upper pattern) = Ok letters
    /\ forallb (fun char => char_isalpha char || char_eqb char "-") (upper deck)
       = true
    /\ (str_count "-" (upper deck)
        <? missing_letters (Counter_of letters)
             (Counter_of (List.filter char_isalpha (upper deck))))%nat = false.
Proof.
  unfold DynamicPatternGenerator.__verify_pattern. cbv zeta.
  destruct (DynamicPatternGenerator.scan_pattern 0 (upper pattern))
    as [letters|]; [|done].
  cbn [mbind result_bind].
  destruct (forallb _ (upper deck)); [|done]. cbn [negb].
  destruct (_ <? _)%nat eqn:E; [done|]. intros _. eauto.
Qed.

Lemma simple_verify_instance (pattern deck p : str) :
  DynamicPatternGenerator.__verify_pattern pattern deck = Ok tt ->
  instance_of (tokens_of pattern) p -> p <> [] ->
  SimplePatternGenerator.__verify_pattern p deck = Ok tt.
Proof.
  intros (letters & Hscan & Hdeck & Hcmp)%dynamic_verify_ok Hp Hne.
  destruct (scan_tokens pattern 0 letters Hscan p Hp) as [Hall Hletters].
  unfold SimplePatternGenerator.__verify_pattern.
  destruct p as [|c0 p0] eqn:E; [done|]. rewrite <- E in *. clear E.
  assert (forallb (fun char => char_isalpha char || char_eqb char "_") (upper p)
          = true) as ->.
  { unfold upper. rewrite forallb_map. apply forallb_forall.
    intros c Hc%list_elem_of_In. rewrite char_isalpha_upper, char_upper_underscore.
    eapply Forall_forall in Hall; [|done].
    destruct Hall as [->| ->]; [done|]. apply orb_true_r. }
  rewrite Hdeck. cbn [negb]. cbv zeta. by rewrite Hletters, Hcmp.
Qed.

Lemma simple_generate_ok (p deck : str) (word_list : list str) :
  SimplePatternGenerator.__verify_pattern p deck = Ok tt ->
  exists matches, SimplePatternGenerator.generate p deck word_list = Ok matches.
Proof.
  intros H. unfold SimplePatternGenerator.generate. rewrite H.
  cbn [mbind result_bind]. eauto.
Qed.

Lemma instance_nonempty (tokens : list token) (p : str) :
  Exists takes_a_cell tokens -> instance_of tokens p -> p <> [].
Proof.
  intros Hex Hp. induction Hp as [|ch tokens p Hp IH|n m k tokens p Hk Hp IH].
  - by apply Exists_nil in Hex.
  - done.
  - apply Exists_cons in Hex as [Hn|Hex].
    + simpl in Hn. destruct k; [lia|done].
    + intros [_ ->]%app_eq_nil. by apply IH.
Qed.

Lemma expand_first_empty (tokens : list token) :
  Forall (fun t => ~ takes_a_cell t) tokens ->
  exists rest, DynamicPatternGenerator.expand tokens = [] :: rest.
Proof.
  induction 1 as [|t tokens Ht _ [rest IH]]; [by exists []|].
  destruct t as [n m|ch]; [|by destruct Ht].
  simpl in Ht. assert (n = 0%nat) as -> by lia. simpl. rewrite IH. simpl. eauto.
Qed.

(** *** The loop over the fixed patterns *)

Section Union.

Context (deck : str) (word_list : list str).

Let step := DynamicPatternGenerator.add_matches deck word_list.

Lemma union_loop_raise (pats : list str) (e : exn) :
  foldl step (Raise e) pats = Raise e.
Proof. induction pats as [|p pats IH]; [done|]. simpl. exact IH. Qed.

Lemma union_loop_ok (pats : list str) (acc : gset str) :
  (forall p, p ∈ pats ->
     exists matches, SimplePatternGenerator.generate p deck word_list = Ok matches) ->
  exists valid_words,
    foldl step (Ok acc) pats = Ok valid_words
    /\ forall w, w ∈ valid_words
                 <-> w ∈ acc
                     \/ exists p matches,
                          p ∈ pats
                          /\ SimplePatternGenerator.generate p deck word_list
                             = Ok matches
                          /\ w ∈ matches.
Proof.
  revert acc. induction pats as [|p pats IH]; intros acc Hall.
  - exists acc. split; [done|]. intros w. split; [by left|].
    intros [?|(p & ? & Hp & _)]; [done|]. by apply elem_of_nil in Hp.
  - destruct (Hall p) as [matches Hgen]; [left|].
    cbn [foldl]. unfold step at 2, DynamicPatternGenerator.add_matches.
    cbn [mbind result_bind]. rewrite Hgen. cbn [mbind result_bind].
    destruct (IH (acc ∪ list_to_set matches)) as (vw & Hfold & Hvw).
    { intros q Hq. apply Hall. by right. }
    exists vw. split; [done|]. intros w. rewrite Hvw, elem_of_union.
    rewrite elem_of_list_to_set. split.
    + intros [[?|Hw]|(q & ms & Hq & Hg & Hw)].
      * by left.
      * right. exists p, matches. split; [left|done].
      * right. exists q, ms. split; [by right|done].
    + intros [?|(q & ms & [->|Hq]%elem_of_cons & Hg & Hw)].
      * left; by left.
      * left; right. congruence.
      * right. eauto.
Qed.

End Union.

(** C6, as stated, fails on a pattern whose ranges all start at 0 and
    that has no other cell: "(0,2)" passes validation, its fixed
    pattern "__" has matches, yet the expander raises the matcher's
    empty-pattern error instead of returning them. *)
Lemma expander_raises_on_empty_instance :
  DynamicPatternGenerator.__verify_pattern (s "(0,2)") (s "at") = Ok tt
  /\ SimplePatternGenerator.generate (s "__") (s "at") sample_dictionary
     = Ok [s "AT"; s "TA"]
  /\ DynamicPatternGenerator.generate (s "(0,2)") (s "at") sample_dictionary
     = Raise (ValueError PatternEmpty).
Proof. repeat split; vm_compute; reflexivity. Qed.

(** C6, amended.  For every pattern that passes validation and holds a
    letter, a '_' or a range [(n,m)] with [n >= 1], the expander
    returns, without duplicates, exactly the words matched by some
    fixed pattern obtained by replacing each range by a run of [k]
    wildcards, [n <= k <= m], chosen independently for each range;
    when the pattern holds nothing but ranges from 0, the expander
    raises the matcher's empty-pattern error. *)
Theorem generate_union (pattern deck : str) (word_list : list str) :
  DynamicPatternGenerator.__verify_pattern pattern deck = Ok tt ->
  (Exists takes_a_cell (tokens_of pattern) ->
     exists words,
       DynamicPatternGenerator.generate pattern deck word_list = Ok words
       /\ NoDup words
       /\ forall w, w ∈ words <-> matched_by_instance pattern deck word_list w)
  /\ (Forall (fun t => ~ takes_a_cell t) (tokens_of pattern) ->
      DynamicPatternGenerator.generate pattern deck word_list
      = Raise (ValueError PatternEmpty)).
Proof.
  intros Hverify. unfold DynamicPatternGenerator.generate. rewrite Hverify.
  cbn [mbind result_bind]. cbv zeta.
  unfold DynamicPatternGenerator.__list_all_patterns. fold (tokens_of pattern).
  split.
  - intros Hcell.
    destruct (union_loop_ok deck word_list
                (DynamicPatternGenerator.expand (tokens_of pattern)) ∅)
      as (vw & Hfold & Hvw).
    { intros p Hp%expand_instances. apply simple_generate_ok.
      eapply simple_verify_instance; [done..|]. by eapply instance_nonempty. }
    rewrite Hfold. cbn [mbind result_bind].
    exists (elements vw). split; [done|]. split; [apply NoDup_elements|].
    intros w. rewrite elem_of_elements, Hvw. unfold matched_by_instance. split.
    + intros [?%elem_of_empty|(p & ms & Hp%expand_instances & Hg & Hw)]; [done|].
      eauto.
    + intros (p & ms & Hp & Hg & Hw). right. exists p, ms.
      split; [by apply expand_instances|done].
  - intros Hnone. destruct (expand_first_empty _ Hnone) as [rest ->].
    simpl. by rewrite union_loop_raise.
Qed.

Lemma generate_union_witness :
  (Exists takes_a_cell (tokens_of (s "(0,1)ST(1,2)")) ->
     exists words,
       DynamicPatternGenerator.generate (s "(0,1)ST(1,2)") (s "STARS")
         sample_dictionary = Ok words
       /\ NoDup words
       /\ forall w, w ∈ words
                    <-> matched_by_instance (s "(0,1)ST(1,2)") (s "STARS")
                          sample_dictionary w)
  /\ (Forall (fun t => ~ takes_a_cell t) (tokens_of (s "(0,1)ST(1,2)")) ->
      DynamicPatternGenerator.generate (s "(0,1)ST(1,2)") (s "STARS")
        sample_dictionary
      = Raise (ValueError PatternEmpty)).
Proof.
  apply (generate_union (s "(0,1)ST(1,2)") (s "STARS") sample_dictionary).
  vm_compute. reflexivity.
Defined.

Example expander_examples :
  DynamicPatternGenerator.__list_all_patterns (s "(0,1)ST(1,2)")
  = [s "ST_"; s "ST__"; s "_ST_"; s "_ST__"]
  /\ DynamicPatternGenerator.generate (s "ST(1,2)") (s "STARS") sample_dictionary
     = Ok [s "STAR"]
  /\ DynamicPatternGenerator.generate (s "ST(1,3)") (s "STARS") sample_dictionary
     = Ok [s "STARS"; s "STAR"]
  /\ DynamicPatternGenerator.generate (s "ST(2,1)") (s "STARS") sample_dictionary
     = Raise (ValueError (InvalidRange 2 1)).
Proof. repeat split; vm_compute; reflexivity. Qed.

(** ** The optimisers *)

Lemma dedup_is_no_attribute :
  getattr_OptimiserLength "_dedup_additions_sets"
  = Raise (AttributeError "OptimiserLength" "_dedup_additions_sets").
Proof. reflexivity. Qed.

(** From a non-empty list of candidates on, the end of
    [recommend_next_move] looks up [_dedup_additions_sets] and raises. *)
Lemma best_candidates_raises (candidates : list (Z * list addition)) :
  best_candidates candidates
  = match candidates with
    | [] => Ok []
    | _ => Raise (AttributeError "OptimiserLength" "_dedup_additions_sets")
    end.
Proof.
  unfold best_candidates. destruct candidates as [|c candidates]; [done|].
  by rewrite dedup_is_no_attribute.
Qed.

(** C3.  [_dedup_additions_sets] is no attribute of an
    [OptimiserLength].  Whenever the prize optimiser has collected at
    least one candidate, [recommend_next_move] raises [AttributeError]
    for that name, and so does the crossword optimiser on a non-empty
    board; either returns normally only with an empty candidate list
    (the crossword optimiser also at once on an empty board), and what
    it returns then is the empty list. *)
Theorem recommend_next_move_attribute_error (rule : Rule) (draws : nat -> nat)
    (k : nat) (b : board) (deck : list ascii) :
  ("_dedup_additions_sets"%string ∉ OptimiserLength.attributes)
  /\ (fst (OptimiserPrize.collect_candidates rule draws k b deck) <> [] ->
      fst (OptimiserPrize.recommend_next_move rule draws k b deck)
      = Raise (AttributeError "OptimiserLength" "_dedup_additions_sets"))
  /\ (count_occupied b <> 0%nat ->
      fst (OptimiserCrossword.collect_candidates rule draws k b deck) <> [] ->
      fst (OptimiserCrossword.recommend_next_move rule draws k b deck)
      = Raise (AttributeError "OptimiserLength" "_dedup_additions_sets"))
  /\ (forall moves,
        fst (OptimiserPrize.recommend_next_move rule draws k b deck) = Ok moves ->
        moves = []
        /\ fst (OptimiserPrize.collect_candidates rule draws k b deck) = [])
  /\ (forall moves,
        fst (OptimiserCrossword.recommend_next_move rule draws k b deck) = Ok moves ->
        moves = []
        /\ (count_occupied b = 0%nat
            \/ fst (OptimiserCrossword.collect_candidates rule draws k b deck) = [])).
Proof.
  split; [|split; [|split; [|split]]].
  - apply (bool_decide_eq_false_1 _). reflexivity.
  - unfold OptimiserPrize.recommend_next_move.
    destruct (OptimiserPrize.collect_candidates rule draws k b deck)
      as [candidates k']. simpl. rewrite best_candidates_raises.
    by destruct candidates.
  - intros Hboard. apply Nat.eqb_neq in Hboard.
    unfold OptimiserCrossword.recommend_next_move. rewrite Hboard.
    destruct (OptimiserCrossword.collect_candidates rule draws k b deck)
      as [candidates k']. simpl. rewrite best_candidates_raises.
    by destruct candidates.
  - intros moves. unfold OptimiserPrize.recommend_next_move.
    destruct (OptimiserPrize.collect_candidates rule draws k b deck)
      as [candidates k']. simpl. rewrite best_candidates_raises.
    destruct candidates; [|done]. by intros [= <-].
  - intros moves. unfold OptimiserCrossword.recommend_next_move.
    destruct (count_occupied b =? 0)%nat eqn:Hboard.
    + simpl. intros [= <-]. split; [done|]. left. by apply Nat.eqb_eq.
    + destruct (OptimiserCrossword.collect_candidates rule draws k b deck)
        as [candidates k']. simpl. rewrite best_candidates_raises.
      destruct candidates; [|done]. intros [= <-]. split; [done|by right].
Qed.

(** Racks for which candidates exist, and racks for which none does. *)
Example prize_examples :
  fst (OptimiserPrize.collect_candidates sample_rule first_draw 0 star_board (s "S"))
  = [(3, [("S"%char, (8, 8))])]
  /\ fst (OptimiserPrize.recommend_next_move sample_rule first_draw 0 star_board (s "S"))
     = Raise (AttributeError "OptimiserLength" "_dedup_additions_sets")
  /\ fst (OptimiserPrize.recommend_next_move sample_rule first_draw 0 empty_board (s "CAT"))
     = Raise (AttributeError "OptimiserLength" "_dedup_additions_sets")
  /\ fst (OptimiserPrize.recommend_next_move sample_rule first_draw 0 empty_board (s "XYZ"))
     = Ok [].
Proof. repeat split; vm_compute; reflexivity. Qed.

Example crossword_examples :
  (fst (OptimiserCrossword.collect_candidates sample_rule first_draw 0 star_board
          (s "AT")) <> [])
  /\ fst (OptimiserCrossword.recommend_next_move sample_rule first_draw 0 star_board (s "AT"))
     = Raise (AttributeError "OptimiserLength" "_dedup_additions_sets")
  /\ fst (OptimiserCrossword.recommend_next_move sample_rule first_draw 0 star_board (s "S"))
     = Ok []
  /\ fst (OptimiserCrossword.recommend_next_move sample_rule first_draw 0 empty_board (s "CAT"))
     = Ok [].
Proof. repeat split; vm_compute; (reflexivity || discriminate). Qed.

(** ** The aggregator *)

(** C4 fails on the code in two ways.  On the empty board with the
    rack C, A, T the prize optimiser has candidates, so the aggregator
    raises [AttributeError] instead of returning the mapping.  With
    STAR on the board, the rack S and a dictionary of STAR and STARS,
    the mapping comes back, and the value under LongestWord holds the
    bare placement of S at (7,10), with no score. *)
Theorem aggregate_recommender_failures :
  AggregateRecommender.recommend_next_move sample_rule first_draw 0
    empty_board (s "CAT")
  = (Raise (AttributeError "OptimiserLength" "_dedup_additions_sets"), 0%nat)
  /\ AggregateRecommender.recommend_next_move star_rule first_draw 0
       star_board (s "S")
     = (Ok [("LongestWord"%string, [BareMove [("S"%char, (7, 10))]]);
            ("PrizeCells"%string, []);
            ("Crossword"%string, [])], 0%nat).
Proof. split; vm_compute; reflexivity. Qed.

(** What does hold: the keys of the mapping, whenever one is returned. *)
Lemma aggregate_recommender_keys (rule : Rule) (draws : nat -> nat) (k : nat)
    (b : board) (deck : list ascii) (results : list (string * list entry)) :
  fst (AggregateRecommender.recommend_next_move rule draws k b deck) = Ok results ->
  map fst results
  = if (count_occupied b =? 0)%nat then ["PrizeCells"%string]
    else ["LongestWord"; "PrizeCells"; "Crossword"]%string.
Proof.
  unfold AggregateRecommender.recommend_next_move.
  destruct (count_occupied b =? 0)%nat.
  - destruct (OptimiserPrize.recommend_next_move rule draws k b deck) as [[?|?] ?];
      simpl; [|done]. by intros [= <-].
  - destruct (OptimiserLength.recommend_next_move rule draws k b deck) as [[?|?] ?];
      simpl; [|done].
    destruct (OptimiserPrize.recommend_next_move rule draws n b deck) as [[?|?] ?];
      simpl; [|done].
    destruct (OptimiserCrossword.recommend_next_move rule draws n0 b deck)
      as [[?|?] ?]; simpl; [|done].
    by intros [= <-].
Qed.

(** * Further properties of the code *)

(** ** Writing to the board *)

Lemma in_bounds_spec (row col : Z) :
  in_bounds row col = true <-> 0 <= row < 15 /\ 0 <= col < 15.
Proof. unfold in_bounds. rewrite !andb_true_iff. lia. Qed.

Lemma inside_grid_in_bounds (a : addition) :
  inside_grid a <-> in_bounds (row_of a) (col_of a) = true.
Proof. by rewrite in_bounds_spec. Qed.

Lemma set_cell_shape (b : board) (row col : Z) (x : cell) :
  board_shape b -> board_shape (set_cell b row col x).
Proof.
  intros [Hlen Hrows]. unfold set_cell, board. destruct (in_bounds row col); [|done].
  split; [by rewrite length_alter|].
  apply Forall_alter; [done|]. intros line Hline. by rewrite length_insert.
Qed.

Lemma cell_at_set_cell (b : list (list cell)) (row col : Z) (x : cell) (r c : Z) :
  board_shape b -> in_bounds row col = true ->
  cell_at (set_cell b row col x) r c
  = if bool_decide ((r, c) = (row, col)) then x else cell_at b r c.
Proof.
  intros [Hlen Hrows] Hin. unfold cell_at, set_cell, board. rewrite Hin.
  apply in_bounds_spec in Hin.
  destruct (in_bounds r c) eqn:Hrc.
  - apply in_bounds_spec in Hrc.
    destruct (decide (r = row)) as [->|Hr].
    + rewrite list_lookup_alter_eq.
      destruct (b !! Z.to_nat row) as [line|] eqn:Hline; simpl.
      * assert (length line = 15%nat) as Hl.
        { eapply Forall_forall in Hrows; [exact Hrows|].
          by eapply list_elem_of_lookup_2. }
        destruct (decide (c = col)) as [->|Hc].
        -- rewrite bool_decide_eq_true_2 by done.
           rewrite list_lookup_insert_eq by lia. done.
        -- rewrite bool_decide_eq_false_2 by congruence.
           rewrite list_lookup_insert_ne by lia. done.
      * apply lookup_ge_None in Hline. lia.
    + rewrite bool_decide_eq_false_2 by congruence.
      rewrite list_lookup_alter_ne by lia. done.
  - rewrite bool_decide_eq_false_2; [done|].
    intros [= -> ->]. apply in_bounds_spec in Hin. congruence.
Qed.

Lemma update_snoc (b : board) (additions : list addition) (a : addition) :
  _update b (additions ++ [a])
  = set_cell (_update b additions) (row_of a) (col_of a)
             (Some (char_upper (letter_of a))).
Proof. unfold _update. by rewrite map_app, fold_left_app. Qed.

Lemma last_letter_at_snoc (additions : list addition) (a : addition) (p : Z * Z) :
  last_letter_at (additions ++ [a]) p
  = if bool_decide (p = pos_of a) then Some (letter_of a)
    else last_letter_at additions p.
Proof.
  unfold last_letter_at. rewrite rev_app_distr. simpl.
  destruct (decide (p = pos_of a)) as [->|Hne].
  - by rewrite !bool_decide_eq_true_2.
  - rewrite !bool_decide_eq_false_2 by congruence. done.
Qed.

Lemma update_shape (b : board) (additions : list addition) :
  board_shape b -> board_shape (_update b additions).
Proof.
  intros Hb. induction additions as [|a rest IH] using rev_ind; [done|].
  rewrite update_snoc. by apply set_cell_shape.
Qed.

Lemma update_cell (b : board) (additions : list addition) (r c : Z) :
  board_shape b -> Forall inside_grid additions ->
  cell_at (_update b additions) r c
  = match last_letter_at additions (r, c) with
    | Some ch => Some (char_upper ch)
    | None => cell_at b r c
    end.
Proof.
  intros Hb. induction additions as [|a rest IH] using rev_ind; [done|].
  intros [Hrest Ha]%Forall_app. apply Forall_cons in Ha as [Ha _].
  rewrite update_snoc, last_letter_at_snoc.
  rewrite cell_at_set_cell;
    [|by apply update_shape|by apply inside_grid_in_bounds].
  destruct a as [ch [row col]]. unfold pos_of, row_of, col_of. simpl.
  destruct (bool_decide _); [done|]. by apply IH.
Qed.

(** X1.  [_update] on a 15 x 15 board, for tiles inside the grid: the
    board keeps its shape; a cell named by the placement ends up with
    the letter of the last tile placed there, in upper case; every
    other cell keeps what it held. *)
Theorem update_writes_the_tiles (b : board) (additions : list addition) :
  board_shape b -> Forall inside_grid additions ->
  board_shape (_update b additions)
  /\ forall r c,
       cell_at (_update b additions) r c
       = match last_letter_at additions (r, c) with
         | Some ch => Some (char_upper ch)
         | None => cell_at b r c
         end.
Proof.
  intros Hb Hin. split; [by apply update_shape|].
  intros r c. by apply update_cell.
Qed.

Lemma update_writes_the_tiles_witness :
  board_shape star_board
  /\ Forall inside_grid [("s"%char, (7, 10)); ("x"%char, (7, 10))]
  /\ cell_at (_update star_board [("s"%char, (7, 10)); ("x"%char, (7, 10))]) 7 10
     = Some "X"%char
  /\ cell_at (_update star_board [("s"%char, (7, 10)); ("x"%char, (7, 10))]) 7 9
     = Some "R"%char.
Proof.
  assert (board_shape star_board) as Hb.
  { split; [reflexivity|]. repeat constructor. }
  assert (Forall inside_grid [("s"%char, (7, 10)); ("x"%char, (7, 10))]) as Hin.
  { repeat constructor; vm_compute; congruence. }
  split; [exact Hb|]. split; [exact Hin|].
  destruct (update_writes_the_tiles star_board _ Hb Hin) as [_ H].
  split; rewrite H; reflexivity.
Defined.

(** ** What a successful move leaves on the board *)

Lemma char_upper_idem (ch : ascii) : char_upper (char_upper ch) = char_upper ch.
Proof. destruct ch as [[] [] [] [] [] [] [] []]; reflexivity. Qed.

Lemma last_letter_at_None (additions : list addition) (p : Z * Z) :
  last_letter_at additions p = None <-> p ∉ map pos_of additions.
Proof.
  induction additions as [|a rest IH] using rev_ind.
  - split; [|done]. intros _ H. by apply elem_of_nil in H.
  - rewrite last_letter_at_snoc, map_app, elem_of_app. simpl.
    rewrite list_elem_of_singleton.
    destruct (decide (p = pos_of a)) as [->|Hne].
    + rewrite bool_decide_eq_true_2 by done. split; [done|]. intros H. tauto.
    + rewrite bool_decide_eq_false_2 by done. rewrite IH. tauto.
Qed.

Lemma empty_board_shape : board_shape empty_board.
Proof. split; [reflexivity|]. repeat constructor. Qed.

Section Moves.

Context (rule : Rule) (draws : nat -> nat).

(** The dictionary check may rewrite letters, never positions. *)
Lemma check_word_valid_positions (k k' : nat) (b : board)
    (additions resolved : list addition) :
  _check_word_valid rule draws k b additions = Ok (resolved, k') ->
  map pos_of resolved = map pos_of additions.
Proof.
  unfold _check_word_valid.
  destruct (first_overlap b additions) as [[[? ?] ?]|]; [done|].
  destruct (wildcard_indices_of additions) eqn:Ew.
  - destruct (_ <? _)%nat; [done|]. by intros [= <- <-].
  - destruct (valid_combinations_of rule b additions); [done|].
    intros [= <- <-]. rewrite <- Ew, assign_letters_fill.
    apply fill_wildcards_positions.
Qed.

(** What a successful call went through. *)
Lemma new_move_ok (k k' : nat) (b b' : board) (additions : list addition)
    (score : Z) :
  new_move rule draws k b additions = (Ok score, (b', k')) ->
  let placed := map (fun a => (char_upper (letter_of a), pos_of a)) additions in
  exists resolved,
    _verify_word_addition b placed = Ok true
    /\ _check_word_valid rule draws k b placed = Ok (resolved, k')
    /\ score = score_calculator rule b resolved false
    /\ b' = _update b resolved.
Proof.
  intros H placed. unfold new_move in H. fold placed in H.
  destruct (_verify_word_addition b placed) as [v|] eqn:Ev; [|done].
  destruct (verify_ok_accepts _ _ _ Ev) as [-> _].
  destruct (_check_board_valid b placed); [|done].
  destruct (_check_word_valid rule draws k b placed) as [[resolved k1]|] eqn:Ew;
    [|done].
  injection H as <- <- <-. by exists resolved.
Qed.

Lemma verify_ok_cells (b : board) (additions : list addition) :
  _verify_word_addition b additions = Ok true ->
  Forall inside_grid additions /\ free_cells b additions.
Proof.
  intros [_ H]%verify_ok_accepts. unfold free_cells.
  split; apply Forall_forall; intros a Ha.
  - destruct (decide (inside_grid a)) as [|Hn]; [done|].
    exfalso. apply H. right; left. eauto.
  - destruct (cell_at b (row_of a) (col_of a)) eqn:E; [|done].
    exfalso. apply H. right; right; left. exists a. split; [done|].
    unfold on_occupied_cell. congruence.
Qed.

Lemma positions_inside_grid (l1 l2 : list addition) :
  map pos_of l1 = map pos_of l2 -> Forall inside_grid l2 -> Forall inside_grid l1.
Proof.
  intros Hpos H2. apply Forall_forall. intros a Ha.
  assert (pos_of a ∈ map pos_of l2) as Hp.
  { rewrite <- Hpos. by apply list_elem_of_fmap_2. }
  apply list_elem_of_fmap in Hp as (a' & Hpos' & Ha').
  eapply Forall_forall in H2; [|exact Ha'].
  unfold inside_grid, row_of, col_of in *. fold (pos_of a) (pos_of a') in *.
  by rewrite Hpos'.
Qed.

Lemma new_move_frame (k k' : nat) (b b' : board)
    (additions : list addition) (score : Z) :
  board_shape b ->
  new_move rule draws k b additions = (Ok score, (b', k')) ->
  board_shape b'
  /\ (forall a, a ∈ additions ->
        inside_grid a
        /\ cell_at b (row_of a) (col_of a) = None
        /\ cell_at b' (row_of a) (col_of a) <> None)
  /\ (forall r c, (r, c) ∉ map pos_of additions -> cell_at b' r c = cell_at b r c)
  /\ (forall r c, cell_at b r c <> None -> cell_at b' r c = cell_at b r c)
  /\ (forall r c ch, cell_at b r c = None -> cell_at b' r c = Some ch ->
                     char_upper ch = ch).
Proof.
  intros Hb H. apply new_move_ok in H as (resolved & Hv & Hw & _ & ->).
  apply verify_ok_cells in Hv as [Hin Hfree].
  apply check_word_valid_positions in Hw as Hpos.
  rewrite map_map in Hpos. simpl in Hpos.
  assert (Forall inside_grid resolved) as Hin'.
  { eapply positions_inside_grid; [|exact Hin]. by rewrite map_map. }
  assert (forall a, a ∈ additions ->
            inside_grid a /\ cell_at b (row_of a) (col_of a) = None) as Hcells.
  { intros a Ha.
    assert ((char_upper (letter_of a), pos_of a)
            ∈ map (fun a => (char_upper (letter_of a), pos_of a)) additions) as Hp.
    { by apply (list_elem_of_fmap_2 (fun a => (char_upper (letter_of a), pos_of a))). }
    split.
    - eapply Forall_forall in Hin; [|exact Hp]. exact Hin.
    - eapply Forall_forall in Hfree; [|exact Hp]. exact Hfree. }
  split; [by apply update_shape|].
  split; [|split; [|split]].
  - intros a Ha. destruct (Hcells a Ha) as [H1 H2]. split; [done|]. split; [done|].
    rewrite update_cell by done.
    destruct (last_letter_at resolved (row_of a, col_of a)) eqn:E; [done|].
    apply last_letter_at_None in E. exfalso. apply E. rewrite Hpos.
    destruct a as [ch [row col]]. by apply (list_elem_of_fmap_2 pos_of) in Ha.
  - intros r c Hrc. rewrite update_cell by done.
    destruct (last_letter_at resolved (r, c)) eqn:E; [|done].
    assert (last_letter_at resolved (r, c) <> None) as Hn by congruence.
    rewrite last_letter_at_None, Hpos in Hn. tauto.
  - intros r c Hocc. rewrite update_cell by done.
    destruct (last_letter_at resolved (r, c)) eqn:E; [|done].
    assert (last_letter_at resolved (r, c) <> None) as Hn by congruence.
    rewrite last_letter_at_None, Hpos in Hn.
    destruct (decide ((r, c) ∈ map pos_of additions)) as [Hp|]; [|tauto].
    apply list_elem_of_fmap in Hp as (a' & Hpa & Ha).
    destruct (Hcells a' Ha) as [_ Hfree']. unfold row_of, col_of in Hfree'.
    fold (pos_of a') in Hfree'. rewrite <- Hpa in Hfree'. simpl in Hfree'. done.
  - intros r c ch Hfree' Hnew. rewrite update_cell in Hnew by done.
    destruct (last_letter_at resolved (r, c)); [|congruence].
    injection Hnew as <-. apply char_upper_idem.
Qed.

(** X2.  A successful [new_move] on a 15 x 15 board only adds tiles:
    every position of the placement was an empty cell of the grid and
    holds a tile afterwards; every other cell, and so every tile that
    lay on the board, is as before; a new tile is stored in upper
    case. *)
Theorem new_move_only_adds_tiles (k k' : nat) (b b' : board)
    (additions : list addition) (score : Z) :
  board_shape b ->
  new_move rule draws k b additions = (Ok score, (b', k')) ->
  board_shape b'
  /\ (forall a, a ∈ additions ->
        inside_grid a
        /\ cell_at b (row_of a) (col_of a) = None
        /\ cell_at b' (row_of a) (col_of a) <> None)
  /\ (forall r c, (r, c) ∉ map pos_of additions -> cell_at b' r c = cell_at b r c)
  /\ (forall r c, cell_at b r c <> None -> cell_at b' r c = cell_at b r c)
  /\ (forall r c ch, cell_at b r c = None -> cell_at b' r c = Some ch ->
                     char_upper ch = ch).
Proof. apply new_move_frame. Qed.

Lemma find_exists {A} (f : A -> bool) (l : list A) (x : A) :
  x ∈ l -> f x = true -> exists y, List.find f l = Some y.
Proof.
  intros Hx Hf. destruct (List.find f l) eqn:E; [eauto|].
  apply find_None_Forall in E. eapply Forall_forall in E; [|exact Hx]. congruence.
Qed.

(** X3.  Two moves in a row: once a move has succeeded, a later
    placement inside the grid that names one of the cells just played
    is rejected with the error for an occupied position, and the board
    stays as the first move left it. *)
Theorem played_cell_is_taken (k k' k2 : nat) (b b' : board)
    (additions later : list addition) (score : Z) :
  board_shape b ->
  new_move rule draws k b additions = (Ok score, (b', k')) ->
  Forall inside_grid later ->
  (exists a a2, a ∈ additions /\ a2 ∈ later /\ pos_of a2 = pos_of a) ->
  exists r c,
    cell_at b' r c <> None
    /\ new_move rule draws k2 b' later
       = (Raise (ValueError (PositionOccupied r c)), (b', k2)).
Proof.
  intros Hb Hmove Hin (a & a2 & Ha & Ha2 & Hpos).
  destruct (new_move_frame _ _ _ _ _ _ Hb Hmove) as (_ & Hcells & _).
  destruct (Hcells a Ha) as (_ & _ & Hocc).
  set (placed := map (fun a => (char_upper (letter_of a), pos_of a)) later).
  assert (Forall inside_grid placed) as Hin'.
  { eapply positions_inside_grid; [|exact Hin]. unfold placed. by rewrite map_map. }
  assert ((char_upper (letter_of a2), pos_of a2) ∈ placed) as Hp.
  { by apply (list_elem_of_fmap_2 (fun a => (char_upper (letter_of a), pos_of a))). }
  destruct (find_exists
              (fun a => occupied (cell_at b' (row_of a) (col_of a))) placed _ Hp)
    as [y Hy].
  { unfold row_of, col_of. simpl. rewrite Hpos. by apply occupied_test. }
  exists (row_of y), (col_of y).
  apply find_Some_elem in Hy as Hy'. destruct Hy' as [_ Hy'].
  split; [by apply occupied_test|].
  unfold new_move. fold placed. unfold _verify_word_addition.
  destruct placed as [|a0 rest] eqn:E; [by apply elem_of_nil in Hp|].
  rewrite <- E in *.
  assert (List.find (fun a => negb ((0 <=? row_of a) && (row_of a <? 15)
                                   && ((0 <=? col_of a) && (col_of a <? 15))))
                    placed = None) as ->.
  { apply find_None_Forall. eapply Forall_impl; [exact Hin'|].
    intros x. apply inside_grid_test. }
  by rewrite Hy.
Qed.

End Moves.

Lemma new_move_only_adds_tiles_witness :
  board_shape star_board
  /\ new_move sample_rule first_draw 0 star_board [("s"%char, (7, 10))]
     = (Ok 5, (overlay star_board [("S"%char, (7, 10))], 0%nat))
  /\ board_shape (overlay star_board [("S"%char, (7, 10))]).
Proof.
  assert (board_shape star_board) as Hb.
  { split; [reflexivity|]. repeat constructor. }
  assert (new_move sample_rule first_draw 0 star_board [("s"%char, (7, 10))]
          = (Ok 5, (overlay star_board [("S"%char, (7, 10))], 0%nat))) as Hm.
  { vm_compute. reflexivity. }
  split; [exact Hb|]. split; [exact Hm|].
  exact (proj1 (new_move_only_adds_tiles sample_rule first_draw _ _ _ _ _ _ Hb Hm)).
Defined.

Lemma played_cell_is_taken_witness :
  exists r c,
    cell_at (overlay star_board [("S"%char, (7, 10))]) r c <> None
    /\ new_move sample_rule first_draw 0 (overlay star_board [("S"%char, (7, 10))])
                [("A"%char, (7, 10)); ("T"%char, (7, 11))]
       = (Raise (ValueError (PositionOccupied r c)),
          (overlay star_board [("S"%char, (7, 10))], 0%nat)).
Proof.
  apply (played_cell_is_taken sample_rule first_draw 0 0 0 star_board _
           [("s"%char, (7, 10))] _ 5).
  - split; [reflexivity|]. repeat constructor.
  - vm_compute. reflexivity.
  - repeat constructor; vm_compute; congruence.
  - exists ("s"%char, (7, 10)), ("A"%char, (7, 10)).
    split; [apply list_elem_of_here|]. split; [apply list_elem_of_here|done].
Defined.

(** ** The first move with a single tile *)

Lemma verify_single_tile (x : ascii) :
  _verify_word_addition empty_board [(x, (7, 7))] = Ok true.
Proof. reflexivity. Qed.

Lemma board_valid_single_tile (x : ascii) :
  _check_board_valid empty_board [(x, (7, 7))] = Ok true.
Proof. reflexivity. Qed.

Lemma words_of_single_tile (x : ascii) :
  elements (_get_all_affected_words empty_board [(x, (7, 7))]) = [].
Proof. reflexivity. Qed.

Lemma score_of_single_tile (rule : Rule) (x : ascii) :
  score_calculator rule empty_board [(x, (7, 7))] false = 0.
Proof. reflexivity. Qed.

Lemma combinations_of_single_wildcard (rule : Rule) :
  valid_combinations_of rule empty_board [("-"%char, (7, 7))]
  = map (fun x => [x]) ascii_uppercase.
Proof. reflexivity. Qed.

Lemma check_single_tile (rule : Rule) (draws : nat -> nat) (k : nat) (x : ascii) :
  x <> "-"%char ->
  _check_word_valid rule draws k empty_board [(x, (7, 7))]
  = Ok ([(x, (7, 7))], k).
Proof.
  intros Hx. unfold _check_word_valid.
  assert (wildcard_indices_of [(x, (7, 7))] = []) as ->.
  { unfold wildcard_indices_of. simpl. unfold letter_of. simpl.
    destruct (char_eqb x "-") eqn:E; [|done]. by apply char_eqb_eq in E. }
  change (first_overlap empty_board [(x, (7, 7))]) with (@None (Z * Z * ascii)).
  cbv beta iota. by rewrite words_of_single_tile.
Qed.

Lemma check_single_wildcard (rule : Rule) (draws : nat -> nat) (k : nat) :
  exists x, x ∈ ascii_uppercase
    /\ _check_word_valid rule draws k empty_board [("-"%char, (7, 7))]
       = Ok ([(char_lower x, (7, 7))], S k).
Proof.
  set (chosen := random_choice draws k (map (fun x => [x]) ascii_uppercase)
                               [ "A"%char ]).
  assert (chosen ∈ map (fun x => [x]) ascii_uppercase) as Hc.
  { by apply random_choice_elem. }
  apply list_elem_of_fmap in Hc as (x & Hx & Hin).
  exists x. split; [done|].
  unfold _check_word_valid.
  change (first_overlap empty_board [("-"%char, (7, 7))]) with (@None (Z * Z * ascii)).
  change (wildcard_indices_of [("-"%char, (7, 7))]) with [0%nat].
  cbv beta iota. rewrite combinations_of_single_wildcard.
  change (map (fun x => [x]) ascii_uppercase)
    with ([ "A"%char ] :: map (fun x => [x]) (tl ascii_uppercase)) at 1.
  cbv beta iota.
  change ([ "A"%char ] :: map (fun x => [x]) (tl ascii_uppercase))
    with (map (fun x => [x]) ascii_uppercase).
  fold chosen. by rewrite Hx.
Qed.

(** X4.  On the empty board a single tile on the centre square is
    always accepted, whatever the letter and the dictionary: no word of
    two letters or more is formed, so nothing is looked up.  The move
    scores 0 and the tile is committed in upper case; a blank (['-'])
    becomes one of the 26 letters, drawn at random. *)
Theorem single_tile_opens_the_game (rule : Rule) (draws : nat -> nat) (k : nat)
    (ch : ascii) :
  exists x k',
    new_move rule draws k empty_board [(ch, (7, 7))]
    = (Ok 0, (set_cell empty_board 7 7 (Some x), k'))
    /\ (ch <> "-"%char -> x = char_upper ch /\ k' = k)
    /\ (ch = "-"%char -> x ∈ ascii_uppercase /\ k' = S k).
Proof.
  destruct (char_eqb ch "-") eqn:E.
  - apply char_eqb_eq in E as ->.
    destruct (check_single_wildcard rule draws k) as (x & Hin & Hw).
    exists x, (S k). split; [|split; [done|by intros _]].
    unfold new_move. simpl map. change (char_upper "-") with "-"%char.
    rewrite verify_single_tile, board_valid_single_tile, Hw.
    rewrite score_of_single_tile. unfold _update. simpl.
    apply ascii_uppercase_spec in Hin.
    assert (char_upper (char_lower x) = x) as ->; [|done].
    revert Hin. destruct x as [[] [] [] [] [] [] [] []]; vm_compute; congruence.
  - exists (char_upper ch), k.
    split; [|split; [done|]].
    + unfold new_move. simpl map. unfold letter_of, pos_of. cbn [fst snd].
      rewrite verify_single_tile, board_valid_single_tile, check_single_tile.
      * rewrite score_of_single_tile. unfold _update. simpl.
        by rewrite char_upper_idem.
      * intros Hu. rewrite <- char_upper_dash in E. rewrite Hu in E.
        vm_compute in E. congruence.
    + intros ->. vm_compute in E. congruence.
Qed.

(** ** The words a placement forms *)

Lemma all_masks_complete (m : list bool) : m ∈ all_masks (length m).
Proof.
  induction m as [|x m IH]; simpl; [apply list_elem_of_here|].
  apply list_elem_of_In, in_flat_map. exists m.
  split; [by apply list_elem_of_In|].
  destruct x; simpl; tauto.
Qed.

(** The two facts hold of each of the 32768 masks of a line. *)
Lemma cross_word_is_run_all : forallb cross_word_is_run (all_masks 15) = true.
Proof. vm_compute. reflexivity. Qed.

Lemma segment_is_run_all : forallb segment_is_run (all_masks 15) = true.
Proof. vm_compute. reflexivity. Qed.

Lemma index_in_arange (i : Z) : 0 <= i < 15 -> In i (np_arange 15).
Proof.
  intros H. apply in_map_iff. exists (Z.to_nat i).
  split; [lia|]. apply in_seq. simpl. lia.
Qed.

Lemma cross_word_mk (m : list bool) (at_ : Z) (mk : Z -> Z * Z) :
  cross_word m at_ mk
  = map (map (fun p => mk (fst p))) (cross_word m at_ (fun i => (i, 0))).
Proof.
  unfold cross_word. destruct (negb (mask_at m at_)); [done|].
  destruct (List.find _ _) as [segment|]; [|done].
  destruct (1 <? length segment)%nat; [|done].
  simpl. by rewrite map_map.
Qed.

Lemma run_word_mk (occ : Z -> bool) (at_ : Z) (mk : Z -> Z * Z) :
  run_word occ at_ mk
  = map (map (fun p => mk (fst p))) (run_word occ at_ (fun i => (i, 0))).
Proof.
  unfold run_word, Legacy.longer_than_one. rewrite !length_map.
  destruct (1 <? _)%nat; [|done]. simpl. by rewrite map_map.
Qed.

Lemma cross_word_run (m : list bool) (at_ : Z) (mk : Z -> Z * Z) :
  length m = 15%nat -> 0 <= at_ < 15 -> mask_at m at_ = true ->
  cross_word m at_ mk = run_word (mask_at m) at_ mk.
Proof.
  intros Hlen Hat Hocc.
  rewrite cross_word_mk, run_word_mk. f_equal.
  pose proof cross_word_is_run_all as H.
  rewrite forallb_forall in H.
  specialize (H m). rewrite <- Hlen in H at 1.
  specialize (H (proj1 (list_elem_of_In _ _) (all_masks_complete m))).
  unfold cross_word_is_run in H. rewrite forallb_forall in H.
  specialize (H at_ (index_in_arange _ Hat)). rewrite Hocc in H.
  by apply bool_decide_eq_true in H.
Qed.

Lemma find_andb {A} (P Q : A -> bool) (l : list A) (x : A) :
  List.find P l = Some x -> Q x = true ->
  List.find (fun y => P y && Q y) l = Some x.
Proof.
  induction l as [|y l IH]; [done|]. simpl.
  destruct (P y) eqn:E.
  - intros [= ->] HQ. by rewrite HQ.
  - simpl. apply IH.
Qed.

Lemma main_word_run (m : list bool) (lo hi : Z) (mk : Z -> Z * Z) :
  length m = 15%nat -> 0 <= lo < 15 -> lo <= hi -> mask_at m lo = true ->
  main_word m lo hi mk = run_word (mask_at m) lo mk.
Proof.
  intros Hlen Hlo Hhi Hocc.
  pose proof segment_is_run_all as H.
  rewrite forallb_forall in H.
  specialize (H m). rewrite <- Hlen in H at 1.
  specialize (H (proj1 (list_elem_of_In _ _) (all_masks_complete m))).
  unfold segment_is_run in H. cbv zeta in H. rewrite forallb_forall in H.
  specialize (H lo (index_in_arange _ Hlo)). rewrite Hocc in H. simpl in H.
  destruct (List.find _ _) as [seg|] eqn:Efind; [|done].
  apply andb_true_iff in H as [H1 H2].
  apply bool_decide_eq_true in H2. apply Z.leb_le in H1.
  unfold main_word. cbv zeta.
  rewrite (find_andb _ (fun seg => hi >=? first_of seg) _ seg Efind).
  - unfold run_word. rewrite <- H2. done.
  - apply Z.geb_le. lia.
Qed.

Lemma scan_back_ext (occ occ' : Z -> bool) (fuel : nat) (left : Z) :
  (forall i, left - Z.of_nat fuel <= i < left -> occ i = occ' i) ->
  Legacy.scan_back occ fuel left = Legacy.scan_back occ' fuel left.
Proof.
  revert left. induction fuel as [|fuel IH]; intros left H; [done|]. simpl.
  rewrite <- (H (left - 1)) by lia.
  destruct (occ (left - 1)); [|done]. apply IH. intros i Hi. apply H. lia.
Qed.

Lemma scan_forth_ext (occ occ' : Z -> bool) (fuel : nat) (right : Z) :
  (forall i, right < i <= right + Z.of_nat fuel -> occ i = occ' i) ->
  Legacy.scan_forth occ fuel right = Legacy.scan_forth occ' fuel right.
Proof.
  revert right. induction fuel as [|fuel IH]; intros right H; [done|]. simpl.
  rewrite <- (H (right + 1)) by lia.
  destruct (occ (right + 1)); [|done]. apply IH. intros i Hi. apply H. lia.
Qed.

Lemma run_ends_ext (occ occ' : Z -> bool) (at_ : Z) :
  0 <= at_ < 15 -> (forall i, 0 <= i < 15 -> occ i = occ' i) ->
  run_ends occ at_ = run_ends occ' at_.
Proof.
  intros Hat H. unfold run_ends. f_equal.
  - apply scan_back_ext. intros i Hi. apply H. lia.
  - apply scan_forth_ext. intros i Hi. apply H. lia.
Qed.

Lemma mask_at_map (f : Z -> bool) (i : Z) :
  0 <= i < 15 -> mask_at (map f (np_arange 15)) i = f i.
Proof.
  intros Hi. unfold mask_at, np_arange, range.
  rewrite !list_lookup_fmap, lookup_seq_lt by (simpl; lia). simpl.
  f_equal. lia.
Qed.

Lemma row_mask_length (t : board) (r : Z) : length (row_mask t r) = 15%nat.
Proof. reflexivity. Qed.

Lemma col_mask_length (t : board) (c : Z) : length (col_mask t c) = 15%nat.
Proof. reflexivity. Qed.

(** The cross word and the main word of the NumPy code are the runs
    that walking from the tile finds. *)
Lemma cross_word_expand_vertical (t : board) (r c : Z) :
  0 <= r < 15 -> occupied (cell_at t r c) = true ->
  cross_word (col_mask t c) r (fun i => (i, c))
  = Legacy.longer_than_one (Legacy.expand_vertical t r c).
Proof.
  intros Hr Hocc. rewrite cross_word_run; [|done|done|].
  - unfold run_word, Legacy.expand_vertical.
    by rewrite (run_ends_ext _ (fun i => occupied (cell_at t i c)))
      by (done || apply mask_at_map).
  - unfold col_mask. by rewrite mask_at_map.
Qed.

Lemma cross_word_expand_horizontal (t : board) (r c : Z) :
  0 <= c < 15 -> occupied (cell_at t r c) = true ->
  cross_word (row_mask t r) c (fun j => (r, j))
  = Legacy.longer_than_one (Legacy.expand_horizontal t r c).
Proof.
  intros Hc Hocc. rewrite cross_word_run; [|done|done|].
  - unfold run_word, Legacy.expand_horizontal.
    by rewrite (run_ends_ext _ (fun j => occupied (cell_at t r j)))
      by (done || apply mask_at_map).
  - unfold row_mask. by rewrite mask_at_map.
Qed.

Lemma main_word_expand_horizontal (t : board) (r lo hi : Z) :
  0 <= lo < 15 -> lo <= hi -> occupied (cell_at t r lo) = true ->
  main_word (row_mask t r) lo hi (fun j => (r, j))
  = Legacy.longer_than_one (Legacy.expand_horizontal t r lo).
Proof.
  intros Hlo Hhi Hocc. rewrite main_word_run; [|done|done|done|].
  - unfold run_word, Legacy.expand_horizontal.
    by rewrite (run_ends_ext _ (fun j => occupied (cell_at t r j)))
      by (done || apply mask_at_map).
  - unfold row_mask. by rewrite mask_at_map.
Qed.

Lemma main_word_expand_vertical (t : board) (c lo hi : Z) :
  0 <= lo < 15 -> lo <= hi -> occupied (cell_at t lo c) = true ->
  main_word (col_mask t c) lo hi (fun i => (i, c))
  = Legacy.longer_than_one (Legacy.expand_vertical t lo c).
Proof.
  intros Hlo Hhi Hocc. rewrite main_word_run; [|done|done|done|].
  - unfold run_word, Legacy.expand_vertical.
    by rewrite (run_ends_ext _ (fun i => occupied (cell_at t i c)))
      by (done || apply mask_at_map).
  - unfold col_mask. by rewrite mask_at_map.
Qed.

Lemma flat_map_pointwise {A B} (f g : A -> list B) (l : list A) :
  (forall x, x ∈ l -> f x = g x) -> flat_map f l = flat_map g l.
Proof.
  induction l as [|x l IH]; [done|]. intros H. simpl.
  rewrite (H x) by left. rewrite IH; [done|]. intros y Hy. apply H. by right.
Qed.

Lemma size_one_all_eq (l : list Z) (x : Z) :
  l <> [] -> (forall y, y ∈ l -> y = x) ->
  (list_to_set l : gset Z) = {[ x ]}.
Proof.
  intros Hne H. apply set_eq. intros y.
  rewrite elem_of_list_to_set, elem_of_singleton. split; [apply H|].
  intros ->. destruct l as [|z l]; [done|].
  rewrite <- (H z) by left. left.
Qed.

Lemma size_one_rows (l : list Z) :
  (size (list_to_set l : gset Z) =? 1)%nat = (length (np_unique l) =? 1)%nat.
Proof.
  destruct (length (np_unique l) =? 1)%nat eqn:E.
  - apply Nat.eqb_eq in E. apply np_unique_length_1 in E as [Hne H].
    destruct l as [|x l]; [done|].
    rewrite (size_one_all_eq _ x); [by rewrite size_singleton|done|].
    intros y Hy. apply H; [done|left].
  - apply Nat.eqb_neq. intros Hs. apply Nat.eqb_neq in E. apply E.
    apply np_unique_length_1.
    apply size_1_elem_of in Hs as [x Hx].
    split.
    + intros ->. assert (x ∈ (∅ : gset Z)) as H; [|by apply not_elem_of_empty in H].
      change (list_to_set [] : gset Z) with (∅ : gset Z) in Hx.
      rewrite Hx. by apply elem_of_singleton.
    + intros y z Hy Hz.
      assert (y ∈ (list_to_set l : gset Z)) as Hy' by (by apply elem_of_list_to_set).
      assert (z ∈ (list_to_set l : gset Z)) as Hz' by (by apply elem_of_list_to_set).
      rewrite Hx in Hy', Hz'. apply elem_of_singleton in Hy', Hz'. congruence.
Qed.

Lemma min_is_a_coordinate (additions : list addition) (f : addition -> Z) :
  additions <> [] ->
  exists a, a ∈ additions /\ f a = np_min (map f additions)
            /\ np_min (map f additions) <= np_max (map f additions).
Proof.
  intros nonempty.
  assert (map f additions <> []) as Hne by (by destruct additions).
  destruct (np_min_least _ Hne) as [Hmin _].
  destruct (np_max_greatest _ Hne) as [_ Hmax].
  pose proof (Hmax _ Hmin) as Hle.
  apply list_elem_of_fmap in Hmin as (a & Hfa & Ha).
  exists a. by split.
Qed.

(** The words of a placement in row [r], and of one in column [c]:
    the main word from the first tile, then the cross word of each
    tile. *)
Lemma extract_one_row (t : board) (additions : list addition) (r : Z) :
  additions <> [] -> tiles_laid t additions ->
  (forall a, a ∈ additions -> row_of a = r) ->
  _extract_word_positions t additions
  = Legacy.longer_than_one
      (Legacy.expand_horizontal t r (np_min (map col_of additions)))
    ++ flat_map (fun a => Legacy.longer_than_one
                            (Legacy.expand_vertical t (row_of a) (col_of a)))
                additions.
Proof.
  intros nonempty Hlaid Hrow.
  assert (map row_of additions <> []) as Hne by (by destruct additions).
  assert (forall y, y ∈ map row_of additions -> y = r) as Hall.
  { intros y (a & -> & Ha)%list_elem_of_fmap. by apply Hrow. }
  destruct (min_is_a_coordinate additions col_of nonempty) as (a & Ha & Hmin & Hle).
  unfold _extract_word_positions.
  destruct additions as [|a0 rest] eqn:Eadd; [done|]. rewrite <- Eadd in *.
  cbv zeta. rewrite rows_of_positions, cols_of_positions.
  rewrite (np_unique_all_eq r) by done.
  simpl Nat.eqb. cbv iota. unfold first_of. simpl hd.
  rewrite flat_map_concat_map, map_map, <- flat_map_concat_map.
  f_equal.
  - apply main_word_expand_horizontal; [|done|].
    + rewrite <- Hmin. eapply Forall_forall in Hlaid; [|exact Ha].
      apply Hlaid.
    + rewrite <- Hmin, <- (Hrow a Ha). apply occupied_test.
      eapply Forall_forall in Hlaid; [|exact Ha]. apply Hlaid.
  - apply flat_map_pointwise. intros a' Ha'.
    unfold pos_of. fold (row_of a') (col_of a').
    rewrite (Hrow a' Ha').
    apply cross_word_expand_vertical.
    + rewrite <- (Hrow a' Ha'). eapply Forall_forall in Hlaid; [|exact Ha'].
      apply Hlaid.
    + rewrite <- (Hrow a' Ha'). apply occupied_test.
      eapply Forall_forall in Hlaid; [|exact Ha']. apply Hlaid.
Qed.

Lemma extract_one_column (t : board) (additions : list addition) (c : Z) :
  additions <> [] -> tiles_laid t additions ->
  spans_rows additions ->
  (forall a, a ∈ additions -> col_of a = c) ->
  _extract_word_positions t additions
  = Legacy.longer_than_one
      (Legacy.expand_vertical t (np_min (map row_of additions)) c)
    ++ flat_map (fun a => Legacy.longer_than_one
                            (Legacy.expand_horizontal t (row_of a) (col_of a)))
                additions.
Proof.
  intros nonempty Hlaid Hrows Hcol.
  assert (map col_of additions <> []) as Hne by (by destruct additions).
  assert (forall y, y ∈ map col_of additions -> y = c) as Hall.
  { intros y (a & -> & Ha)%list_elem_of_fmap. by apply Hcol. }
  assert ((length (np_unique (map row_of additions)) =? 1)%nat = false) as Hmany.
  { apply Nat.eqb_neq. apply spans_rows_unique in Hrows. lia. }
  destruct (min_is_a_coordinate additions row_of nonempty) as (a & Ha & Hmin & Hle).
  unfold _extract_word_positions.
  destruct additions as [|a0 rest] eqn:Eadd; [done|]. rewrite <- Eadd in *.
  cbv zeta. rewrite rows_of_positions, cols_of_positions.
  rewrite Hmany.
  rewrite (np_unique_all_eq c) by done.
  unfold first_of. simpl hd.
  rewrite flat_map_concat_map, map_map, <- flat_map_concat_map.
  f_equal.
  - apply main_word_expand_vertical; [|done|].
    + rewrite <- Hmin. eapply Forall_forall in Hlaid; [|exact Ha].
      apply Hlaid.
    + rewrite <- Hmin, <- (Hcol a Ha). apply occupied_test.
      eapply Forall_forall in Hlaid; [|exact Ha]. apply Hlaid.
  - apply flat_map_pointwise. intros a' Ha'.
    unfold pos_of. fold (row_of a') (col_of a').
    rewrite (Hcol a' Ha').
    apply cross_word_expand_horizontal.
    + rewrite <- (Hcol a' Ha'). eapply Forall_forall in Hlaid; [|exact Ha'].
      apply Hlaid.
    + rewrite <- (Hcol a' Ha'). apply occupied_test.
      eapply Forall_forall in Hlaid; [|exact Ha']. apply Hlaid.
Qed.

Lemma legacy_one_row (t : board) (additions : list addition) (r : Z) :
  additions <> [] ->
  (forall a, a ∈ additions -> row_of a = r) ->
  Legacy.words_of_move t additions
  = Legacy.longer_than_one
      (Legacy.expand_horizontal t r (np_min (map col_of additions)))
    ++ flat_map (fun a => Legacy.longer_than_one
                            (Legacy.expand_vertical t (row_of a) (col_of a)))
                additions.
Proof.
  intros nonempty Hrow.
  assert (map row_of additions <> []) as Hne by (by destruct additions).
  assert (forall y, y ∈ map row_of additions -> y = r) as Hall.
  { intros y (a & -> & Ha)%list_elem_of_fmap. by apply Hrow. }
  unfold Legacy.words_of_move.
  cbv zeta. rewrite rows_of_positions, cols_of_positions.
  rewrite (size_one_all_eq _ r) by done.
  rewrite size_singleton, elements_singleton. simpl hd. simpl Nat.eqb. cbv iota.
  by rewrite flat_map_concat_map, map_map, <- flat_map_concat_map.
Qed.

Lemma legacy_one_column (t : board) (additions : list addition) (c : Z) :
  additions <> [] ->
  spans_rows additions ->
  (forall a, a ∈ additions -> col_of a = c) ->
  Legacy.words_of_move t additions
  = Legacy.longer_than_one
      (Legacy.expand_vertical t (np_min (map row_of additions)) c)
    ++ flat_map (fun a => Legacy.longer_than_one
                            (Legacy.expand_horizontal t (row_of a) (col_of a)))
                additions.
Proof.
  intros nonempty Hrows Hcol.
  assert (map col_of additions <> []) as Hne by (by destruct additions).
  assert (forall y, y ∈ map col_of additions -> y = c) as Hall.
  { intros y (a & -> & Ha)%list_elem_of_fmap. by apply Hcol. }
  assert ((length (np_unique (map row_of additions)) =? 1)%nat = false) as Hmany.
  { apply Nat.eqb_neq. apply spans_rows_unique in Hrows. lia. }
  unfold Legacy.words_of_move.
  cbv zeta. rewrite rows_of_positions, cols_of_positions.
  rewrite size_one_rows, Hmany.
  rewrite (size_one_all_eq _ c) by done.
  rewrite elements_singleton. simpl hd.
  by rewrite flat_map_concat_map, map_map, <- flat_map_concat_map.
Qed.

(** A placement in one line lies in one row, or spans rows in one
    column. *)
Lemma one_line_cases (additions : list addition) :
  additions <> [] ->
  ~ spans_rows additions \/ ~ spans_cols additions ->
  (exists r, forall a, a ∈ additions -> row_of a = r)
  \/ (spans_rows additions /\ exists c, forall a, a ∈ additions -> col_of a = c).
Proof.
  intros nonempty Hline.
  assert (exists a0, a0 ∈ additions) as [a0 Ha0].
  { destruct additions as [|a0 ?]; [done|]. exists a0. left. }
  destruct (length (np_unique (map row_of additions)) =? 1)%nat eqn:Eone.
  - left. exists (row_of a0).
    apply Nat.eqb_eq, np_unique_length_1 in Eone as [_ Hall].
    intros a Ha. apply Hall; by apply list_elem_of_fmap_2.
  - right. apply one_row_or_many in Eone as Hrows; [|done].
    split; [done|]. destruct Hline as [?|Hcols]; [done|].
    exists (col_of a0).
    intros a Ha. destruct (decide (col_of a = col_of a0)) as [|Hne]; [done|].
    exfalso. apply Hcols. exists a, a0. eauto.
Qed.

Lemma words_by_scanning (t : board) (additions : list addition) :
  additions <> [] -> tiles_laid t additions ->
  ~ spans_rows additions \/ ~ spans_cols additions ->
  _extract_word_positions t additions = Legacy.words_of_move t additions.
Proof.
  intros nonempty Hlaid Hline.
  destruct (one_line_cases additions nonempty Hline) as [[r Hr]|[Hrows [c Hc]]].
  - by rewrite (extract_one_row t additions r), (legacy_one_row t additions r).
  - by rewrite (extract_one_column t additions c), (legacy_one_column t additions c).
Qed.

(** X5.  The word extraction on a board with the tiles laid, for a
    non-empty placement inside the grid that lies in one row or in one
    column: the NumPy segment search returns what walking from the
    tiles returns in the first version of the game, before it drops
    duplicates.  The words are, in this order, the run of tiles
    along the line through the cell of the placement with the least
    column (in a row) or the least row (in a column), then for each
    tile in turn the run through it across the line; a run of one cell
    is left out. *)
Theorem extract_word_positions_by_scanning (t : board)
    (additions : list addition) :
  additions <> [] -> tiles_laid t additions ->
  ~ spans_rows additions \/ ~ spans_cols additions ->
  _extract_word_positions t additions = Legacy.words_of_move t additions
  /\ ((exists r,
         (forall a, a ∈ additions -> row_of a = r)
         /\ _extract_word_positions t additions
            = Legacy.longer_than_one
                (Legacy.expand_horizontal t r (np_min (map col_of additions)))
              ++ flat_map
                   (fun a => Legacy.longer_than_one
                               (Legacy.expand_vertical t (row_of a) (col_of a)))
                   additions)
      \/ (exists c,
            (forall a, a ∈ additions -> col_of a = c)
            /\ _extract_word_positions t additions
               = Legacy.longer_than_one
                   (Legacy.expand_vertical t (np_min (map row_of additions)) c)
                 ++ flat_map
                      (fun a => Legacy.longer_than_one
                                  (Legacy.expand_horizontal t (row_of a) (col_of a)))
                      additions)).
Proof.
  intros nonempty Hlaid Hline. split; [by apply words_by_scanning|].
  destruct (one_line_cases additions nonempty Hline) as [[r Hr]|[Hrows [c Hc]]].
  - left. exists r. split; [done|]. by apply extract_one_row.
  - right. exists c. split; [done|]. by apply extract_one_column.
Qed.

(** *** The words are maximal runs of tiles *)

Lemma scan_back_spec (occ : Z -> bool) (fuel : nat) (left : Z) :
  let lo := Legacy.scan_back occ fuel left in
  left - Z.of_nat fuel <= lo <= left
  /\ (forall i, lo <= i < left -> occ i = true)
  /\ (lo = left - Z.of_nat fuel \/ occ (lo - 1) = false).
Proof.
  revert left. induction fuel as [|fuel IH]; intros left; simpl.
  - split; [lia|]. split; [intros; lia|left; lia].
  - destruct (occ (left - 1)) eqn:E.
    + destruct (IH (left - 1)) as (H1 & H2 & H3).
      split; [lia|]. split.
      * intros i Hi. destruct (decide (i = left - 1)) as [->|]; [done|].
        apply H2. lia.
      * destruct H3 as [H3|H3]; [left; lia|by right].
    + split; [lia|]. split; [intros; lia|by right].
Qed.

Lemma scan_forth_spec (occ : Z -> bool) (fuel : nat) (right : Z) :
  let hi := Legacy.scan_forth occ fuel right in
  right <= hi <= right + Z.of_nat fuel
  /\ (forall i, right < i <= hi -> occ i = true)
  /\ (hi = right + Z.of_nat fuel \/ occ (hi + 1) = false).
Proof.
  revert right. induction fuel as [|fuel IH]; intros right; simpl.
  - split; [lia|]. split; [intros; lia|left; lia].
  - destruct (occ (right + 1)) eqn:E.
    + destruct (IH (right + 1)) as (H1 & H2 & H3).
      split; [lia|]. split.
      * intros i Hi. destruct (decide (i = right + 1)) as [->|]; [done|].
        apply H2. lia.
      * destruct H3 as [H3|H3]; [left; lia|by right].
    + split; [lia|]. split; [intros; lia|by right].
Qed.

Lemma run_ends_spec (occ : Z -> bool) (at_ : Z) :
  0 <= at_ < 15 -> occ at_ = true ->
  fst (run_ends occ at_) <= at_ <= snd (run_ends occ at_)
  /\ maximal_run occ (fst (run_ends occ at_)) (snd (run_ends occ at_)).
Proof.
  intros Hat Hocc. unfold run_ends, maximal_run. simpl.
  destruct (scan_back_spec occ (Z.to_nat at_) at_) as (B1 & B2 & B3).
  destruct (scan_forth_spec occ (Z.to_nat (14 - at_)) at_) as (F1 & F2 & F3).
  cbv zeta in *.
  split; [lia|]. split; [lia|]. split; [lia|]. split; [lia|]. split; [|split].
  - intros i Hi. destruct (decide (i < at_)); [apply B2; lia|].
    destruct (decide (i = at_)) as [->|]; [done|]. apply F2. lia.
  - destruct B3 as [B3|B3]; [left; lia|by right].
  - destruct F3 as [F3|F3]; [left; lia|by right].
Qed.

Lemma range_length (lo hi : Z) : length (range lo hi) = Z.to_nat (hi - lo).
Proof. unfold range. by rewrite length_map, length_seq. Qed.

Lemma horizontal_run (t : board) (r c : Z) (w : list (Z * Z)) :
  0 <= c < 15 -> occupied (cell_at t r c) = true ->
  w ∈ Legacy.longer_than_one (Legacy.expand_horizontal t r c) ->
  exists lo hi, lo <= c <= hi /\ word_in_row t r lo hi w.
Proof.
  intros Hc Hocc. unfold Legacy.longer_than_one.
  destruct (1 <? _)%nat eqn:E; [|by intros ?%elem_of_nil].
  intros ->%list_elem_of_singleton.
  destruct (run_ends_spec (fun j => occupied (cell_at t r j)) c Hc Hocc)
    as [Hin Hrun].
  eexists _, _. split; [exact Hin|]. split; [reflexivity|]. split; [|exact Hrun].
  apply Nat.ltb_lt in E. unfold Legacy.expand_horizontal in E.
  rewrite length_map, range_length in E. unfold run_ends. simpl. lia.
Qed.

Lemma vertical_run (t : board) (r c : Z) (w : list (Z * Z)) :
  0 <= r < 15 -> occupied (cell_at t r c) = true ->
  w ∈ Legacy.longer_than_one (Legacy.expand_vertical t r c) ->
  exists lo hi, lo <= r <= hi /\ word_in_column t c lo hi w.
Proof.
  intros Hr Hocc. unfold Legacy.longer_than_one.
  destruct (1 <? _)%nat eqn:E; [|by intros ?%elem_of_nil].
  intros ->%list_elem_of_singleton.
  destruct (run_ends_spec (fun i => occupied (cell_at t i c)) r Hr Hocc)
    as [Hin Hrun].
  eexists _, _. split; [exact Hin|]. split; [reflexivity|]. split; [|exact Hrun].
  apply Nat.ltb_lt in E. unfold Legacy.expand_vertical in E.
  rewrite length_map, range_length in E. unfold run_ends. simpl. lia.
Qed.

Lemma longer_than_one_length (w : list (Z * Z)) :
  (length (Legacy.longer_than_one w) <= 1)%nat.
Proof. unfold Legacy.longer_than_one. destruct (1 <? _)%nat; simpl; lia. Qed.

Lemma flat_map_length_le {A B} (f : A -> list B) (l : list A) :
  (forall x, (length (f x) <= 1)%nat) ->
  (length (flat_map f l) <= length l)%nat.
Proof.
  intros H. induction l as [|x l IH]; [done|]. simpl.
  rewrite length_app. specialize (H x). lia.
Qed.

(** X6.  Under the conditions of X5, every word the extraction
    returns is a maximal run of tiles through a tile of the placement:
    two cells or more in a row or in a column of the grid, all
    occupied, with no tile next to either end, listed from the lowest
    index up.  There are at most as many words as tiles plus one. *)
Theorem formed_words_are_maximal_runs (t : board) (additions : list addition) :
  additions <> [] -> tiles_laid t additions ->
  ~ spans_rows additions \/ ~ spans_cols additions ->
  (forall w, w ∈ _extract_word_positions t additions ->
     exists a lo hi,
       a ∈ additions
       /\ ((lo <= col_of a <= hi /\ word_in_row t (row_of a) lo hi w)
           \/ (lo <= row_of a <= hi /\ word_in_column t (col_of a) lo hi w)))
  /\ (length (_extract_word_positions t additions) <= S (length additions))%nat.
Proof.
  intros nonempty Hlaid Hline.
  assert (forall a, a ∈ additions ->
            (0 <= row_of a < 15 /\ 0 <= col_of a < 15)
            /\ occupied (cell_at t (row_of a) (col_of a)) = true) as Hcell.
  { intros a Ha. eapply Forall_forall in Hlaid; [|exact Ha].
    destruct Hlaid as [H1 H2]. split; [exact H1|by apply occupied_test]. }
  destruct (one_line_cases additions nonempty Hline) as [[r Hr]|[Hrows [c Hc]]].
  - rewrite (extract_one_row t additions r) by done. split.
    + intros w [Hw|Hw]%elem_of_app.
      * destruct (min_is_a_coordinate additions col_of nonempty)
          as (a & Ha & Hmin & _).
        destruct (Hcell a Ha) as [[_ H1] H2].
        rewrite <- Hmin, <- (Hr a Ha) in Hw.
        apply horizontal_run in Hw as (lo & hi & Hin & Hword); [|done..].
        exists a, lo, hi. split; [done|]. by left.
      * apply list_elem_of_In, in_flat_map in Hw as (a & Ha & Hw).
        apply list_elem_of_In in Ha, Hw.
        destruct (Hcell a Ha) as [[H1 _] H2].
        apply vertical_run in Hw as (lo & hi & Hin & Hword); [|done..].
        exists a, lo, hi. split; [done|]. by right.
    + rewrite length_app.
      pose proof (longer_than_one_length
                    (Legacy.expand_horizontal t r (np_min (map col_of additions)))).
      pose proof (flat_map_length_le
                    (fun a => Legacy.longer_than_one
                                (Legacy.expand_vertical t (row_of a) (col_of a)))
                    additions
                    (fun a => longer_than_one_length _)).
      lia.
  - rewrite (extract_one_column t additions c) by done. split.
    + intros w [Hw|Hw]%elem_of_app.
      * destruct (min_is_a_coordinate additions row_of nonempty)
          as (a & Ha & Hmin & _).
        destruct (Hcell a Ha) as [[H1 _] H2].
        rewrite <- Hmin, <- (Hc a Ha) in Hw.
        apply vertical_run in Hw as (lo & hi & Hin & Hword); [|done..].
        exists a, lo, hi. split; [done|]. by right.
      * apply list_elem_of_In, in_flat_map in Hw as (a & Ha & Hw).
        apply list_elem_of_In in Ha, Hw.
        destruct (Hcell a Ha) as [[_ H1] H2].
        apply horizontal_run in Hw as (lo & hi & Hin & Hword); [|done..].
        exists a, lo, hi. split; [done|]. by left.
    + rewrite length_app.
      pose proof (longer_than_one_length
                    (Legacy.expand_vertical t (np_min (map row_of additions)) c)).
      pose proof (flat_map_length_le
                    (fun a => Legacy.longer_than_one
                                (Legacy.expand_horizontal t (row_of a) (col_of a)))
                    additions
                    (fun a => longer_than_one_length _)).
      lia.
Qed.

Lemma one_tile_is_one_line (a : addition) : ~ spans_rows [a] \/ ~ spans_cols [a].
Proof.
  left. intros (x & y & Hx & Hy & Hne).
  apply list_elem_of_singleton in Hx, Hy. congruence.
Qed.

Lemma tiles_laid_example :
  tiles_laid (overlay star_board [("S"%char, (6, 9))]) [("S"%char, (6, 9))].
Proof. repeat constructor; vm_compute; congruence. Qed.

Lemma extract_word_positions_by_scanning_witness :
  _extract_word_positions (overlay star_board [("S"%char, (6, 9))])
                          [("S"%char, (6, 9))]
  = Legacy.words_of_move (overlay star_board [("S"%char, (6, 9))])
                         [("S"%char, (6, 9))].
Proof.
  apply (extract_word_positions_by_scanning
           (overlay star_board [("S"%char, (6, 9))]) [("S"%char, (6, 9))]).
  - done.
  - apply tiles_laid_example.
  - apply one_tile_is_one_line.
Defined.

Lemma formed_words_are_maximal_runs_witness :
  Nat.le (length (_extract_word_positions (overlay star_board [("S"%char, (6, 9))])
                                          [("S"%char, (6, 9))])) 2.
Proof.
  apply (formed_words_are_maximal_runs
           (overlay star_board [("S"%char, (6, 9))]) [("S"%char, (6, 9))]).
  - done.
  - apply tiles_laid_example.
  - apply one_tile_is_one_line.
Defined.

(** The tile S above the R of STAR: no word along row 6, the word SR
    down column 9. *)
Example extract_word_positions_example :
  _extract_word_positions (overlay star_board [("S"%char, (6, 9))])
                          [("S"%char, (6, 9))]
  = [[(6, 9); (7, 9)]].
Proof. vm_compute. reflexivity. Qed.

(** ** The two score calculators *)

Lemma range_two (lo hi : Z) :
  lo < hi -> exists rest, range lo (hi + 1) = lo :: (lo + 1) :: rest.
Proof.
  intros H. unfold range.
  assert (Z.to_nat (hi + 1 - lo) = S (S (Z.to_nat (hi - lo - 1)))) as -> by lia.
  simpl. eexists. rewrite Z.add_0_r. reflexivity.
Qed.

Lemma word_in_row_starts (t : board) (r lo hi : Z) (w : list (Z * Z)) :
  word_in_row t r lo hi w -> starts_along_row w = true /\ fst (hd (0, 0) w) = r.
Proof.
  intros (-> & Hlt & _). destruct (range_two lo hi Hlt) as [rest ->].
  simpl. split; [apply Z.eqb_refl|done].
Qed.

Lemma word_in_column_starts (t : board) (c lo hi : Z) (w : list (Z * Z)) :
  word_in_column t c lo hi w ->
  starts_along_row w = false /\ snd (hd (0, 0) w) = c.
Proof.
  intros (-> & Hlt & _). destruct (range_two lo hi Hlt) as [rest ->].
  simpl. split; [apply Z.eqb_neq; lia|done].
Qed.

Lemma NoDup_flat_map_keys {A B K} (f : A -> list B) (g : A -> K) (key : B -> K)
    (l : list A) :
  NoDup (map g l) ->
  (forall x w, x ∈ l -> w ∈ f x -> key w = g x) ->
  (forall x, NoDup (f x)) ->
  NoDup (flat_map f l).
Proof.
  intros Hnd Hkey Hf. induction l as [|x l IH]; simpl; [constructor|].
  apply NoDup_cons in Hnd as [Hx Hnd].
  apply NoDup_app. split; [apply Hf|]. split.
  - intros w Hw Hw'. apply list_elem_of_In, in_flat_map in Hw' as (y & Hy & Hw').
    apply list_elem_of_In in Hy, Hw'.
    apply Hx. rewrite <- (Hkey x w) by (done || left).
    rewrite (Hkey y w) by (done || by right).
    by apply list_elem_of_fmap_2.
  - apply IH; [done|]. intros y w Hy. apply Hkey. by right.
Qed.

Lemma longer_than_one_NoDup (w : list (Z * Z)) :
  NoDup (Legacy.longer_than_one w).
Proof.
  unfold Legacy.longer_than_one. destruct (1 <? _)%nat; [|constructor].
  apply NoDup_singleton.
Qed.

Lemma dedup_words_NoDup (seen words : list (list (Z * Z))) :
  NoDup words -> (forall w, w ∈ words -> w ∉ seen) ->
  Legacy.dedup_words seen words = words.
Proof.
  revert seen. induction words as [|w words IH]; intros seen Hnd Hseen; [done|].
  apply NoDup_cons in Hnd as [Hw Hnd]. simpl.
  rewrite bool_decide_eq_false_2 by (apply Hseen; left).
  f_equal. apply IH; [done|].
  intros w' Hw' [->|Hs]%elem_of_cons; [done|].
  by apply (Hseen w'); [right|].
Qed.

Lemma distinct_in_row (additions : list addition) (r : Z) :
  distinct_positions additions ->
  (forall a, a ∈ additions -> row_of a = r) ->
  NoDup (map col_of additions).
Proof.
  unfold distinct_positions. intros Hnd Hrow.
  induction additions as [|a rest IH]; [constructor|].
  simpl in *. apply NoDup_cons in Hnd as [Ha Hnd].
  apply NoDup_cons. split.
  - intros (a' & Hc & Ha')%list_elem_of_fmap. apply Ha.
    assert (pos_of a = pos_of a') as ->; [|by apply list_elem_of_fmap_2].
    destruct a as [? [ra ca]], a' as [? [ra' ca']].
    pose proof (Hrow _ (list_elem_of_here _ _)) as H1.
    pose proof (Hrow (a0, (ra', ca')) ltac:(by right)) as H2.
    unfold pos_of, row_of, col_of in *. simpl in *. congruence.
  - apply IH; [done|]. intros a' Ha'. apply Hrow. by right.
Qed.

Lemma distinct_in_column (additions : list addition) (c : Z) :
  distinct_positions additions ->
  (forall a, a ∈ additions -> col_of a = c) ->
  NoDup (map row_of additions).
Proof.
  unfold distinct_positions. intros Hnd Hcol.
  induction additions as [|a rest IH]; [constructor|].
  simpl in *. apply NoDup_cons in Hnd as [Ha Hnd].
  apply NoDup_cons. split.
  - intros (a' & Hc & Ha')%list_elem_of_fmap. apply Ha.
    assert (pos_of a = pos_of a') as ->; [|by apply list_elem_of_fmap_2].
    destruct a as [? [ra ca]], a' as [? [ra' ca']].
    pose proof (Hcol _ (list_elem_of_here _ _)) as H1.
    pose proof (Hcol (a0, (ra', ca')) ltac:(by right)) as H2.
    unfold pos_of, row_of, col_of in *. simpl in *. congruence.
  - apply IH; [done|]. intros a' Ha'. apply Hcol. by right.
Qed.

(** With pairwise distinct positions no word is found twice. *)
Lemma words_of_move_NoDup (t : board) (additions : list addition) :
  additions <> [] -> tiles_laid t additions ->
  ~ spans_rows additions \/ ~ spans_cols additions ->
  distinct_positions additions ->
  NoDup (Legacy.words_of_move t additions).
Proof.
  intros nonempty Hlaid Hline Hnd.
  assert (forall a, a ∈ additions ->
            (0 <= row_of a < 15 /\ 0 <= col_of a < 15)
            /\ occupied (cell_at t (row_of a) (col_of a)) = true) as Hcell.
  { intros a Ha. eapply Forall_forall in Hlaid; [|exact Ha].
    destruct Hlaid as [H1 H2]. split; [exact H1|by apply occupied_test]. }
  destruct (one_line_cases additions nonempty Hline) as [[r Hr]|[Hrows [c Hc]]].
  - rewrite (legacy_one_row t additions r) by done.
    apply NoDup_app. split; [apply longer_than_one_NoDup|]. split.
    + intros w Hw Hw'.
      destruct (min_is_a_coordinate additions col_of nonempty)
        as (a & Ha & Hmin & _).
      destruct (Hcell a Ha) as [[_ H1] H2].
      rewrite <- Hmin, <- (Hr a Ha) in Hw.
      apply horizontal_run in Hw as (lo & hi & _ & Hword); [|done..].
      apply word_in_row_starts in Hword as [Hs _].
      apply list_elem_of_In, in_flat_map in Hw' as (a' & Ha' & Hw').
      apply list_elem_of_In in Ha', Hw'.
      destruct (Hcell a' Ha') as [[H1' _] H2'].
      apply vertical_run in Hw' as (lo' & hi' & _ & Hword'); [|done..].
      apply word_in_column_starts in Hword' as [Hs' _]. congruence.
    + apply (NoDup_flat_map_keys _ col_of (fun w => snd (hd (0, 0) w))).
      * by apply (distinct_in_row additions r).
      * intros a w Ha Hw. destruct (Hcell a Ha) as [[H1 _] H2].
        apply vertical_run in Hw as (lo & hi & _ & Hword); [|done..].
        by apply word_in_column_starts in Hword as [_ ?].
      * intros a. apply longer_than_one_NoDup.
  - rewrite (legacy_one_column t additions c) by done.
    apply NoDup_app. split; [apply longer_than_one_NoDup|]. split.
    + intros w Hw Hw'.
      destruct (min_is_a_coordinate additions row_of nonempty)
        as (a & Ha & Hmin & _).
      destruct (Hcell a Ha) as [[H1 _] H2].
      rewrite <- Hmin, <- (Hc a Ha) in Hw.
      apply vertical_run in Hw as (lo & hi & _ & Hword); [|done..].
      apply word_in_column_starts in Hword as [Hs _].
      apply list_elem_of_In, in_flat_map in Hw' as (a' & Ha' & Hw').
      apply list_elem_of_In in Ha', Hw'.
      destruct (Hcell a' Ha') as [[_ H1'] H2'].
      apply horizontal_run in Hw' as (lo' & hi' & _ & Hword'); [|done..].
      apply word_in_row_starts in Hword' as [Hs' _]. congruence.
    + apply (NoDup_flat_map_keys _ row_of (fun w => fst (hd (0, 0) w))).
      * by apply (distinct_in_column additions c).
      * intros a w Ha Hw. destruct (Hcell a Ha) as [[_ H1] H2].
        apply horizontal_run in Hw as (lo & hi & _ & Hword); [|done..].
        by apply word_in_row_starts in Hword as [_ ?].
      * intros a. apply longer_than_one_NoDup.
Qed.

Lemma norm_additions_positions (additions : list addition) :
  map pos_of (norm_additions_of additions) = map pos_of additions.
Proof. unfold norm_additions_of. by rewrite map_map. Qed.

Lemma spans_rows_positions (l1 l2 : list addition) :
  map pos_of l1 = map pos_of l2 -> spans_rows l1 -> spans_rows l2.
Proof.
  intros Hpos (a & a' & Ha0 & Ha0' & Hne).
  assert (pos_of a ∈ map pos_of l1) as Ha by (by apply list_elem_of_fmap_2).
  assert (pos_of a' ∈ map pos_of l1) as Ha' by (by apply list_elem_of_fmap_2).
  rewrite Hpos in Ha, Ha'.
  apply list_elem_of_fmap in Ha as (x & Hx & Hin).
  apply list_elem_of_fmap in Ha' as (x' & Hx' & Hin').
  exists x, x'. split; [done|]. split; [done|].
  unfold row_of in *. fold (pos_of a) (pos_of a') (pos_of x) (pos_of x') in *.
  congruence.
Qed.

Lemma spans_cols_positions (l1 l2 : list addition) :
  map pos_of l1 = map pos_of l2 -> spans_cols l1 -> spans_cols l2.
Proof.
  intros Hpos (a & a' & Ha0 & Ha0' & Hne).
  assert (pos_of a ∈ map pos_of l1) as Ha by (by apply list_elem_of_fmap_2).
  assert (pos_of a' ∈ map pos_of l1) as Ha' by (by apply list_elem_of_fmap_2).
  rewrite Hpos in Ha, Ha'.
  apply list_elem_of_fmap in Ha as (x & Hx & Hin).
  apply list_elem_of_fmap in Ha' as (x' & Hx' & Hin').
  exists x, x'. split; [done|]. split; [done|].
  unfold col_of in *. fold (pos_of a) (pos_of a') (pos_of x) (pos_of x') in *.
  congruence.
Qed.

(** Once the tiles of a placement inside the grid are written to a
    15 x 15 board, their cells hold tiles. *)
Lemma overlay_lays_tiles (b : board) (additions : list addition) :
  board_shape b -> Forall inside_grid additions ->
  tiles_laid (overlay b (norm_additions_of additions))
             (norm_additions_of additions).
Proof.
  intros Hb Hin.
  assert (Forall inside_grid (norm_additions_of additions)) as Hin'.
  { eapply positions_inside_grid; [apply norm_additions_positions|done]. }
  apply Forall_forall. intros a Ha.
  split; [by eapply Forall_forall in Hin'|].
  change (overlay b (norm_additions_of additions)) with (_update b additions).
  rewrite update_cell by done.
  destruct (last_letter_at additions (row_of a, col_of a)) eqn:E; [done|].
  apply last_letter_at_None in E. exfalso. apply E.
  rewrite <- norm_additions_positions.
  destruct a as [ch [r c]]. by apply (list_elem_of_fmap_2 pos_of) in Ha.
Qed.

Lemma legacy_words_agree (b : board) (additions : list addition) :
  additions <> [] ->
  board_shape b -> Forall inside_grid additions ->
  ~ spans_rows additions \/ ~ spans_cols additions ->
  distinct_positions additions ->
  let norm_additions := norm_additions_of additions in
  let temp_board := overlay b norm_additions in
  Legacy.dedup_words [] (Legacy.words_of_move temp_board norm_additions)
  = _extract_word_positions temp_board norm_additions.
Proof.
  intros nonempty Hb Hin Hline Hnd norm temp.
  assert (norm <> []) as Hne by (by destruct additions).
  assert (tiles_laid temp norm) as Hlaid by (by apply overlay_lays_tiles).
  assert (~ spans_rows norm \/ ~ spans_cols norm) as Hline'.
  { destruct Hline as [H|H]; [left|right]; intros H'; apply H.
    - eapply spans_rows_positions; [apply norm_additions_positions|done].
    - eapply spans_cols_positions; [apply norm_additions_positions|done]. }
  assert (distinct_positions norm) as Hnd'.
  { unfold distinct_positions, norm. by rewrite norm_additions_positions. }
  rewrite dedup_words_NoDup.
  - symmetry. by apply words_by_scanning.
  - by apply words_of_move_NoDup.
  - intros w _ H. by apply elem_of_nil in H.
Qed.

(** X7.  The score calculator of the first version of the game
    ([utils/game_state.py]) and the one of [utils/matrix/game_state.py]
    return the same score on a 15 x 15 board for every placement
    inside the grid that lies in one row or in one column and names no
    cell twice, with the bonus forced or not. *)
Theorem score_calculators_agree (rule : Rule) (b : board)
    (additions : list addition) (bingo : bool) :
  board_shape b -> Forall inside_grid additions ->
  ~ spans_rows additions \/ ~ spans_cols additions ->
  distinct_positions additions ->
  Legacy._score_calculator rule b additions bingo
  = score_calculator rule b additions bingo.
Proof.
  intros Hb Hin Hline Hnd.
  destruct (decide (additions = [])) as [->|Hne]; [done|].
  unfold Legacy._score_calculator, score_calculator, words_total.
  destruct additions as [|a0 rest] eqn:E; [done|]. rewrite <- E in *.
  cbv zeta. by rewrite legacy_words_agree.
Qed.

Lemma score_calculators_agree_witness :
  Legacy._score_calculator sample_rule star_board
    [("C"%char, (5, 8)); ("t"%char, (6, 8)); ("S"%char, (8, 8))] false
  = 6.
Proof.
  rewrite score_calculators_agree.
  - vm_compute. reflexivity.
  - split; [reflexivity|]. repeat constructor.
  - repeat constructor; vm_compute; congruence.
  - right. intros (a & a' & Ha & Ha' & Hne). apply Hne.
    repeat (apply elem_of_cons in Ha as [->|Ha]; [|]);
      repeat (apply elem_of_cons in Ha' as [->|Ha']; [|]);
      try done; by apply elem_of_nil in Ha || by apply elem_of_nil in Ha'.
  - unfold distinct_positions. apply (proj1 (bool_decide_eq_true _)).
    vm_compute. reflexivity.
Defined.

(** ** Where the anchor falls in a word *)

Lemma find_range_least (f : Z -> bool) (a b x : Z) :
  List.find f (range a b) = Some x
  <-> a <= x < b /\ f x = true /\ forall y, a <= y < x -> f y = false.
Proof.
  unfold range.
  remember (Z.to_nat (b - a)) as n eqn:En.
  assert (forall k : nat,
            List.find f (map (fun i => a + Z.of_nat i) (seq k n)) = Some x
            <-> a + Z.of_nat k <= x < a + Z.of_nat k + Z.of_nat n
                /\ f x = true
                /\ forall y, a + Z.of_nat k <= y < x -> f y = false) as H.
  { clear En. induction n as [|n IH]; intros k; simpl.
    - split; [done|]. lia.
    - destruct (f (a + Z.of_nat k)) eqn:E.
      + split.
        * intros [= <-]. split; [lia|]. split; [done|]. lia.
        * intros (H1 & H2 & H3).
          destruct (decide (x = a + Z.of_nat k)) as [->|Hne]; [done|].
          rewrite H3 in E by lia. done.
      + rewrite IH. split.
        * intros (H1 & H2 & H3). split; [lia|]. split; [done|].
          intros y Hy. destruct (decide (y = a + Z.of_nat k)) as [->|]; [done|].
          apply H3. lia.
        * intros (H1 & H2 & H3).
          assert (x <> a + Z.of_nat k) by congruence.
          split; [lia|]. split; [done|]. intros y Hy. apply H3. lia. }
  rewrite (H 0%nat). subst n.
  destruct (decide (a <= b)).
  - rewrite Z2Nat.id by lia. split; intros (H1 & H2 & H3); (split; [lia|]);
      (split; [done|]); intros y Hy; apply H3; lia.
  - split; intros (H1 & _); lia.
Qed.

Lemma find_range_none (f : Z -> bool) (a b : Z) :
  List.find f (range a b) = None <-> forall y, a <= y < b -> f y = false.
Proof.
  rewrite find_None_Forall, Forall_forall. unfold range. split.
  - intros H y Hy. apply H. apply list_elem_of_fmap.
    exists (Z.to_nat (y - a)). split; [lia|].
    apply list_elem_of_In, in_seq. lia.
  - intros H y (i & -> & Hi)%list_elem_of_fmap.
    apply list_elem_of_In, in_seq in Hi. apply H. lia.
Qed.

(** X8.  [_calculate_anchor_index_in_word], for a pattern whose tails
    are not negative: the call finds an index exactly when the length
    of the word lies in the window of the pattern, from the least
    left part, the anchor and the least right part up to the greatest
    ones; the index it returns is then the smallest that fits, the
    larger of the least left part and what the word leaves once the
    greatest right part and the anchor are taken.  One alignment per
    word, the leftmost anchor index, is all it proposes. *)
Theorem anchor_index_closed_form (word : str) (meta : Meta) :
  0 <= left_tail meta -> 0 <= right_tail meta ->
  OptimiserLength._calculate_anchor_index_in_word word meta
  = if fits_window meta word
    then Some (Z.max (min_left_len meta)
                     (Z.of_nat (length word) - 1 - max_right_len meta))
    else None.
Proof.
  intros Hl Hr. unfold OptimiserLength._calculate_anchor_index_in_word.
  fold (min_left_len meta) (min_right_len meta). cbv zeta.
  fold (max_left_len meta) (max_right_len meta).
  unfold fits_window.
  assert (min_left_len meta <= max_left_len meta) by (unfold max_left_len; lia).
  assert (min_right_len meta <= max_right_len meta) by (unfold max_right_len; lia).
  destruct (_ && _) eqn:E.
  - apply andb_true_iff in E as [E1 E2]. apply Z.leb_le in E1, E2.
    apply find_range_least. split; [lia|]. split.
    + apply andb_true_iff. split; apply Z.leb_le; lia.
    + intros y Hy. apply andb_false_iff.
      destruct (decide (y < Z.of_nat (length word) - 1 - max_right_len meta)).
      * right. apply Z.leb_gt. lia.
      * lia.
  - apply find_range_none. intros y Hy. apply andb_false_iff.
    apply andb_false_iff in E as [E|E]; apply Z.leb_gt in E.
    + left. apply Z.leb_gt. lia.
    + right. apply Z.leb_gt. lia.
Qed.

Lemma anchor_index_closed_form_witness :
  OptimiserLength._calculate_anchor_index_in_word
    (s "STARS")
    {| left_blocks := []; left_gaps := []; left_tail := 3;
       right_blocks := [s "TAR"]; right_gaps := [0]; right_tail := 2 |}
  = Some 0.
Proof.
  rewrite anchor_index_closed_form.
  - reflexivity.
  - simpl. lia.
  - simpl. lia.
Defined.

(** ** The placements the materializer proposes *)

Lemma lay_word_spec (b : board) (mk : Z -> Z * Z) (start i : Z)
    (w : list ascii) (acc out : list addition) :
  OptimiserLength.lay_word b mk start i w acc = Some out
  <-> fits_line b mk (start + i) w
      /\ out = acc ++ new_tiles b mk (start + i) w.
Proof.
  revert i acc. induction w as [|ch w IH]; intros i acc; simpl.
  - rewrite app_nil_r. split; [by intros [= ->]|by intros [_ ->]].
  - destruct ((start + i <? 0) || (start + i >=? 15)) eqn:E.
    + split; [done|]. intros [[H _] _].
      apply orb_true_iff in E as [E|E]; [apply Z.ltb_lt in E|apply Z.geb_le in E];
        lia.
    + apply orb_false_iff in E as [E1 E2].
      apply Z.ltb_ge in E1. rewrite Z.geb_leb in E2. apply Z.leb_gt in E2.
      destruct (mk (start + i)) as [row col] eqn:Emk. simpl.
      destruct (cell_at b row col) as [x|] eqn:Ecell.
      * destruct (char_eqb (char_upper x) ch) eqn:Ex.
        -- apply char_eqb_eq in Ex.
           rewrite IH. replace (start + (i + 1)) with (start + i + 1) by lia.
           split; [intros [H1 H2]|intros [(_ & _ & H1) H2]]; (split; [|done]);
             [split; [lia|]; by split|done].
        -- split; [done|]. intros [(_ & H & _) _]. subst.
           rewrite char_eqb_dec, bool_decide_eq_true_2 in Ex; done.
      * rewrite IH. replace (start + (i + 1)) with (start + i + 1) by lia.
        rewrite <- app_assoc. simpl.
        split; [intros [H1 H2]|intros [(_ & _ & H1) H2]]; (split; [|done]);
          [split; [lia|]; by split|done].
Qed.

Lemma new_tiles_cells (b : board) (mk : Z -> Z * Z) (at_ : Z) (w : list ascii) :
  Forall (fun a => exists k, at_ <= k < at_ + Z.of_nat (length w)
                             /\ pos_of a = mk k
                             /\ cell_at b (row_of a) (col_of a) = None)
         (new_tiles b mk at_ w).
Proof.
  revert at_. induction w as [|ch w IH]; intros at_; simpl; [constructor|].
  assert (Forall (fun a => exists k, at_ <= k < at_ + Z.pos (Pos.of_succ_nat (length w))
                                     /\ pos_of a = mk k
                                     /\ cell_at b (row_of a) (col_of a) = None)
                 (new_tiles b mk (at_ + 1) w)) as Hrest.
  { eapply Forall_impl; [apply IH|]. intros a (k & Hk & Hp & Hc).
    exists k. split; [lia|done]. }
  destruct (cell_at b (fst (mk at_)) (snd (mk at_))) eqn:E; [done|].
  constructor; [|done]. exists at_. split; [lia|]. split; [done|exact E].
Qed.

Lemma new_tiles_NoDup (b : board) (mk : Z -> Z * Z) (at_ : Z) (w : list ascii) :
  (forall k k', mk k = mk k' -> k = k') ->
  NoDup (map pos_of (new_tiles b mk at_ w)).
Proof.
  intros Hinj. revert at_. induction w as [|ch w IH]; intros at_; simpl;
    [constructor|].
  destruct (cell_at b (fst (mk at_)) (snd (mk at_))); [apply IH|].
  simpl. apply NoDup_cons. split; [|apply IH].
  intros (a & Hp & Ha)%list_elem_of_fmap.
  pose proof (new_tiles_cells b mk (at_ + 1) w) as Hc.
  eapply Forall_forall in Hc; [|exact Ha]. destruct Hc as (k & Hk & Hpk & _).
  rewrite Hpk in Hp. apply Hinj in Hp. lia.
Qed.

(** *** Paying from the rack *)

Lemma counter_get_decr (ch x : ascii) (c : Counter) :
  counter_get (counter_decr ch c) x
  = if char_eqb ch x then Nat.pred (counter_get c x) else counter_get c x.
Proof.
  induction c as [|[key n] c IH]; simpl; [by destruct (char_eqb ch x)|].
  destruct (char_eqb key ch) eqn:E1; simpl.
  - apply char_eqb_eq in E1 as ->. by destruct (char_eqb ch x).
  - destruct (char_eqb key x) eqn:E2; [|done].
    apply char_eqb_eq in E2 as ->.
    rewrite (char_eqb_sym ch x), E1. done.
Qed.

Lemma counter_total_decr (ch : ascii) (c : Counter) :
  (0 < counter_get c ch)%nat ->
  counter_total (counter_decr ch c) = Nat.pred (counter_total c).
Proof.
  unfold counter_total. induction c as [|[key n] c IH]; simpl; [lia|].
  destruct (char_eqb key ch) eqn:E; simpl.
  - intros H. lia.
  - intros H. rewrite IH by done.
    assert (0 < list_sum (map snd c))%nat; [|lia].
    clear IH. induction c as [|[key' n'] c IH]; simpl in *; [lia|].
    destruct (char_eqb key' ch); [lia|]. specialize (IH H). lia.
Qed.

Lemma counter_get_le_total (c : Counter) (x : ascii) :
  (counter_get c x <= counter_total c)%nat.
Proof.
  unfold counter_total. induction c as [|[key n] c IH]; simpl; [lia|].
  destruct (char_eqb key x); lia.
Qed.

Lemma counter_total_incr (ch : ascii) (c : Counter) :
  counter_total (counter_incr ch c) = S (counter_total c).
Proof.
  unfold counter_total. induction c as [|[key n] c IH]; simpl; [done|].
  destruct (char_eqb key ch); simpl; [done|]. rewrite IH. lia.
Qed.

Lemma counter_total_of (l : list ascii) : counter_total (Counter_of l) = length l.
Proof.
  unfold Counter_of.
  assert (forall c, counter_total (fold_left (fun c ch => counter_incr ch c) l c)
                    = (counter_total c + length l)%nat) as H.
  { induction l as [|ch l IH]; intros c; simpl; [lia|].
    rewrite IH, counter_total_incr. lia. }
  by rewrite H.
Qed.

Lemma use_rack_spec (counts : Counter) (blanks_left : nat)
    (additions acc out : list addition) :
  OptimiserLength.use_rack counts blanks_left additions acc = Some out ->
  exists norm,
    out = acc ++ norm
    /\ Forall2 (fun a n => pos_of n = pos_of a
                           /\ (letter_of n = letter_of a
                               \/ letter_of n = char_lower (letter_of a)))
               additions norm
    /\ (Forall (fun a => char_isupper (letter_of a) = true) additions ->
        (forall x, (str_count x (rack_letters_used norm) <= counter_get counts x)%nat)
        /\ (length (List.filter is_blank_tile norm) <= blanks_left)%nat)
    /\ (Forall (fun a => letter_of a <> "-"%char) additions ->
        (length norm + counter_get counts "-"
         <= counter_total counts + blanks_left)%nat).
Proof.
  revert counts blanks_left acc.
  induction additions as [|[ch pos] rest IH]; intros counts bl acc; simpl.
  - intros [= <-]. exists []. rewrite app_nil_r. split; [done|].
    split; [constructor|]. split.
    + intros _. split; [intros x; unfold str_count; simpl; lia|simpl; lia].
    + intros _. simpl. pose proof (counter_get_le_total counts "-"). lia.
  - destruct (0 <? counter_get counts ch)%nat eqn:E.
    + apply Nat.ltb_lt in E. intros H.
      apply IH in H as (norm & -> & Hpos & Hpay & Hlen).
      exists ((ch, pos) :: norm). rewrite <- app_assoc. split; [done|].
      split; [constructor; [by split; [|left]|done]|]. split.
      * intros [Hup Hrest]%Forall_cons. destruct (Hpay Hrest) as [H1 H2].
        unfold letter_of in Hup. simpl in Hup.
        assert (is_blank_tile (ch, pos) = false) as Hb.
        { unfold is_blank_tile, letter_of. simpl. revert Hup.
          destruct ch as [[] [] [] [] [] [] [] []]; vm_compute; congruence. }
        unfold rack_letters_used in *. simpl. rewrite Hb. simpl.
        split; [|done]. intros x. rewrite str_count_cons.
        specialize (H1 x). rewrite counter_get_decr in H1.
        rewrite (char_eqb_sym x ch).
        destruct (char_eqb ch x) eqn:Ex; [|simpl; lia].
        apply char_eqb_eq in Ex as ->. simpl. lia.
      * intros [Hne Hrest]%Forall_cons. specialize (Hlen Hrest).
        unfold letter_of in Hne. simpl in Hne.
        rewrite counter_get_decr, counter_total_decr in Hlen by done.
        rewrite char_eqb_dec, bool_decide_eq_false_2 in Hlen by done.
        pose proof (counter_get_le_total counts ch). simpl. lia.
    + destruct (0 <? bl)%nat eqn:Eb; [|done].
      apply Nat.ltb_lt in Eb. intros H.
      apply IH in H as (norm & -> & Hpos & Hpay & Hlen).
      exists ((char_lower ch, pos) :: norm). rewrite <- app_assoc.
      split; [done|].
      split; [constructor; [by split; [|right]|done]|]. split.
      * intros [Hup Hrest]%Forall_cons. destruct (Hpay Hrest) as [H1 H2].
        unfold letter_of in Hup. simpl in Hup.
        assert (is_blank_tile (char_lower ch, pos) = true) as Hb.
        { unfold is_blank_tile, letter_of. simpl. revert Hup.
          destruct ch as [[] [] [] [] [] [] [] []]; vm_compute; congruence. }
        unfold rack_letters_used in *. simpl. rewrite Hb. simpl.
        split; [done|lia].
      * intros [Hne Hrest]%Forall_cons. specialize (Hlen Hrest). simpl. lia.
Qed.

(** *** One word at a time *)

Lemma materialize_inv (b : board) (axis : Axis) (anchor : Z * Z)
    (words : list str) (meta : Meta) (rack : list ascii) (adds : list addition) :
  adds ∈ OptimiserLength._materialize_additions_from_words
           b axis anchor words meta rack ->
  exists word, word ∈ words /\ materialized_from b axis anchor meta rack word adds.
Proof.
  unfold OptimiserLength._materialize_additions_from_words.
  destruct anchor as [r c].
  match goal with |- context [fold_left ?f _ _] => set (step := f) end.
  assert (forall ws state,
            adds ∈ fst (fold_left step ws state) ->
            adds ∈ fst state
            \/ exists word, word ∈ ws
                 /\ materialized_from b axis (r, c) meta rack word adds) as Hfold.
  { induction ws as [|w ws IH]; intros state; simpl; [by left|].
    intros [Hin|(word & Hw & Hm)]%IH.
    - destruct state as [results seen]. unfold step in Hin.
      destruct (OptimiserLength._calculate_anchor_index_in_word (upper w) meta)
        as [idx|] eqn:Eidx; [|by left].
      destruct (match axis with
                | H => OptimiserLength.lay_word b (fun col => (r, col)) (c - idx) 0
                                                (upper w) []
                | V => OptimiserLength.lay_word b (fun row => (row, c)) (r - idx) 0
                                                (upper w) []
                end) as [[|a0 laid]|] eqn:Elay; [by left| |by left].
      destruct (OptimiserLength.use_rack _ _ (a0 :: laid) [])
        as [[|n0 norm]|] eqn:Erack; [by left| |by left].
      destruct (bool_decide _); [by left|].
      simpl in Hin. apply elem_of_app in Hin as [Hin|Hin]; [by left|].
      apply list_elem_of_singleton in Hin as ->.
      right. exists w. split; [left|].
      exists idx, (a0 :: laid). split; [done|]. split; [by destruct axis|].
      split; [done|]. split; [exact Erack|done].
    - right. exists word. split; [by right|done]. }
  intros [Hin|H]%Hfold; [|done]. by apply elem_of_nil in Hin.
Qed.

Lemma materialize_NoDup (b : board) (axis : Axis) (anchor : Z * Z)
    (words : list str) (meta : Meta) (rack : list ascii) :
  NoDup (OptimiserLength._materialize_additions_from_words
           b axis anchor words meta rack).
Proof.
  unfold OptimiserLength._materialize_additions_from_words.
  destruct anchor as [r c].
  match goal with |- context [fold_left ?f _ _] => set (step := f) end.
  assert (forall ws state,
            NoDup (fst state) /\ (forall x, x ∈ fst state -> x ∈ snd state) ->
            NoDup (fst (fold_left step ws state))) as Hfold.
  { induction ws as [|w ws IH]; intros state [Hnd Hseen]; simpl; [done|].
    apply IH. destruct state as [results seen]. unfold step.
    destruct (OptimiserLength._calculate_anchor_index_in_word (upper w) meta)
      as [idx|]; [|done].
    destruct (match axis with
              | H => _
              | V => _
              end) as [[|a0 laid]|]; [done| |done].
    destruct (OptimiserLength.use_rack _ _ (a0 :: laid) [])
      as [[|n0 norm]|]; [done| |done].
    destruct (bool_decide _) eqn:E; [done|].
    apply bool_decide_eq_false in E. simpl in *. split.
    - apply NoDup_app. split; [done|]. split; [|apply NoDup_singleton].
      intros x Hx ->%list_elem_of_singleton. by apply E, Hseen.
    - intros x [Hx|Hx]%elem_of_app; [right; by apply Hseen|].
      apply list_elem_of_singleton in Hx as ->. left. }
  apply Hfold. split; [constructor|]. intros x Hx. by apply elem_of_nil in Hx.
Qed.

Lemma fits_line_bounds (b : board) (mk : Z -> Z * Z) (at_ : Z) (w : list ascii) :
  fits_line b mk at_ w ->
  forall k, at_ <= k < at_ + Z.of_nat (length w) -> 0 <= k < 15.
Proof.
  revert at_. induction w as [|ch w IH]; intros at_; simpl; [lia|].
  intros (H1 & _ & H2) k Hk.
  destruct (decide (k = at_)) as [->|]; [done|]. apply (IH _ H2). lia.
Qed.

Lemma new_tiles_letters (P : ascii -> Prop) (b : board) (mk : Z -> Z * Z)
    (at_ : Z) (w : list ascii) :
  Forall P w -> Forall (fun a => P (letter_of a)) (new_tiles b mk at_ w).
Proof.
  revert at_. induction w as [|ch w IH]; intros at_ Hw; simpl; [constructor|].
  apply Forall_cons in Hw as [Hch Hw].
  destruct (cell_at b _ _); [by apply IH|]. constructor; [done|by apply IH].
Qed.

Lemma line_cell_inj (axis : Axis) (anchor : Z * Z) (k k' : Z) :
  line_cell axis anchor k = line_cell axis anchor k' -> k = k'.
Proof. destruct axis; simpl; congruence. Qed.

Lemma paid_positions (laid norm : list addition) :
  Forall2 (fun a n => pos_of n = pos_of a
                      /\ (letter_of n = letter_of a
                          \/ letter_of n = char_lower (letter_of a)))
          laid norm ->
  map pos_of norm = map pos_of laid.
Proof. induction 1 as [|a n laid norm [Hp _] _ IH]; simpl; congruence. Qed.

(** What a placement made of one word is like. *)
Lemma materialized_tiles (b : board) (axis : Axis) (anchor : Z * Z)
    (meta : Meta) (rack : list ascii) (word : str) (adds : list addition) :
  materialized_from b axis anchor meta rack word adds ->
  exists start,
    fits_line b (line_cell axis anchor) start (upper word)
    /\ OptimiserLength._calculate_anchor_index_in_word (upper word) meta
       = Some (line_coordinate axis anchor - start)
    /\ adds <> []
    /\ Forall2 (fun a n => pos_of n = pos_of a
                           /\ (letter_of n = letter_of a
                               \/ letter_of n = char_lower (letter_of a)))
               (new_tiles b (line_cell axis anchor) start (upper word)) adds
    /\ OptimiserLength.use_rack (Counter_of rack)
         (counter_get (Counter_of rack) "-")
         (new_tiles b (line_cell axis anchor) start (upper word)) []
       = Some adds.
Proof.
  intros (idx & laid & Hidx & Hlay & _ & Hrack & Hne).
  apply lay_word_spec in Hlay as [Hfits ->]. simpl in Hrack.
  rewrite Z.add_0_r in *.
  exists (line_coordinate axis anchor - idx).
  split; [done|]. split; [rewrite Hidx; f_equal; lia|]. split; [done|].
  apply use_rack_spec in Hrack as Hspec.
  destruct Hspec as (norm & -> & Hpos & _). simpl. by split.
Qed.

Lemma materialized_placements_fit_the_board_aux (b : board) (axis : Axis)
    (anchor : Z * Z) (words : list str) (meta : Meta) (rack : list ascii) :
  (0 <= fst anchor < 15 /\ 0 <= snd anchor < 15) ->
  forall adds,
    adds ∈ OptimiserLength._materialize_additions_from_words
             b axis anchor words meta rack ->
    adds <> []
    /\ Forall inside_grid adds
    /\ free_cells b adds
    /\ distinct_positions adds
    /\ Forall (fun a => match axis with
                        | H => row_of a = fst anchor
                        | V => col_of a = snd anchor
                        end) adds.
Proof.
  intros Hanchor.
  intros adds (word & _ & Hm)%materialize_inv.
  apply materialized_tiles in Hm as (start & Hfits & _ & Hne & Hpaid & _).
  apply paid_positions in Hpaid as Hpos.
  pose proof (new_tiles_cells b (line_cell axis anchor) start (upper word)) as Hc.
  assert (Forall (fun a => exists k, 0 <= k < 15
                             /\ pos_of a = line_cell axis anchor k
                             /\ cell_at b (row_of a) (col_of a) = None) adds)
    as Hcells.
  { apply Forall_forall. intros a Ha.
    assert (pos_of a ∈ map pos_of adds) as Hp by (by apply list_elem_of_fmap_2).
    rewrite Hpos in Hp. apply list_elem_of_fmap in Hp as (a' & Hpa & Ha').
    eapply Forall_forall in Hc; [|exact Ha']. destruct Hc as (k & Hk & Hpk & Hfree).
    exists k. split; [by apply (fits_line_bounds _ _ _ _ Hfits)|].
    split; [congruence|].
    unfold row_of, col_of in *. fold (pos_of a) (pos_of a') in *. by rewrite Hpa. }
  split; [done|]. split; [|split; [|split]].
  - eapply Forall_impl; [exact Hcells|]. intros a (k & Hk & Hp & _).
    unfold inside_grid, row_of, col_of. fold (pos_of a). rewrite Hp.
    destruct axis; simpl; lia.
  - eapply Forall_impl; [exact Hcells|]. by intros a (k & _ & _ & ?).
  - unfold distinct_positions. rewrite Hpos.
    apply new_tiles_NoDup, line_cell_inj.
  - eapply Forall_impl; [exact Hcells|]. intros a (k & _ & Hp & _).
    unfold row_of, col_of. fold (pos_of a). rewrite Hp. by destruct axis.
Qed.

(** X9.  [_materialize_additions_from_words], for an anchor inside
    the grid: the list it returns holds no placement twice, and each
    placement has at least one tile, lies inside the grid on the row
    (axis H) or the column (axis V) of the anchor, names only empty
    cells (a tile of the board is never overwritten) and names no cell
    twice. *)
Theorem materialized_placements_fit_the_board (b : board) (axis : Axis)
    (anchor : Z * Z) (words : list str) (meta : Meta) (rack : list ascii) :
  (0 <= fst anchor < 15 /\ 0 <= snd anchor < 15) ->
  NoDup (OptimiserLength._materialize_additions_from_words
           b axis anchor words meta rack)
  /\ forall adds,
       adds ∈ OptimiserLength._materialize_additions_from_words
                b axis anchor words meta rack ->
       adds <> []
       /\ Forall inside_grid adds
       /\ free_cells b adds
       /\ distinct_positions adds
       /\ Forall (fun a => match axis with
                           | H => row_of a = fst anchor
                           | V => col_of a = snd anchor
                           end) adds.
Proof.
  intros Hanchor. split; [apply materialize_NoDup|].
  by apply materialized_placements_fit_the_board_aux.
Qed.

Lemma upper_word_capitals (word : str) :
  Forall (fun ch => char_isalpha ch = true) word ->
  Forall (fun ch => char_isupper ch = true) (upper word).
Proof.
  intros H. apply Forall_map. eapply Forall_impl; [exact H|].
  intros ch Hch. simpl. by apply ascii_uppercase_spec, char_upper_capital.
Qed.

(** X10.  The rack pays for every placement the materializer returns,
    when the words are made of letters: of each letter, the tiles
    placed as that letter (in upper case) are at most as many as the
    rack holds; the tiles placed as blanks (in lower case) are at most
    as many as the blanks ['-'] of the rack; so the placement has at
    most as many tiles as the rack. *)
Theorem materialized_placements_fit_the_rack (b : board) (axis : Axis)
    (anchor : Z * Z) (words : list str) (meta : Meta) (rack : list ascii)
    (adds : list addition) :
  lexicon words ->
  adds ∈ OptimiserLength._materialize_additions_from_words
           b axis anchor words meta rack ->
  (forall x, (str_count x (rack_letters_used adds) <= str_count x rack)%nat)
  /\ (length (List.filter is_blank_tile adds) <= str_count "-" rack)%nat
  /\ (length adds <= length rack)%nat.
Proof.
  intros Hlex (word & Hword & Hm)%materialize_inv.
  apply materialized_tiles in Hm as (start & _ & _ & _ & _ & Hrack).
  eapply Forall_forall in Hlex; [|exact Hword].
  apply upper_word_capitals in Hlex.
  apply use_rack_spec in Hrack as (norm & Hout & _ & Hpay & Hlen).
  simpl in Hout. subst norm.
  destruct Hpay as [H1 H2].
  { apply (new_tiles_letters (fun ch => char_isupper ch = true)). exact Hlex. }
  rewrite counter_get_of in H2.
  split; [|split; [done|]].
  - intros x. specialize (H1 x). by rewrite counter_get_of in H1.
  - rewrite counter_total_of in Hlen. apply Nat.add_le_mono_r with (p := str_count "-" rack).
    rewrite counter_get_of in Hlen. apply Hlen.
    apply (new_tiles_letters (fun ch => ch <> "-"%char)).
    eapply Forall_impl; [exact Hlex|].
    intros ch Hch ->. vm_compute in Hch. congruence.
Qed.

(** *** Reading the word back *)

Lemma overlay_snoc (b : board) (additions : list addition) (a : addition) :
  overlay b (additions ++ [a])
  = set_cell (overlay b additions) (row_of a) (col_of a) (Some (letter_of a)).
Proof. unfold overlay. by rewrite fold_left_app. Qed.

Lemma overlay_shape (b : board) (additions : list addition) :
  board_shape b -> board_shape (overlay b additions).
Proof.
  intros Hb. induction additions as [|a rest IH] using rev_ind; [done|].
  rewrite overlay_snoc. by apply set_cell_shape.
Qed.

Lemma overlay_cell (b : board) (additions : list addition) (r c : Z) :
  board_shape b -> Forall inside_grid additions ->
  cell_at (overlay b additions) r c
  = match last_letter_at additions (r, c) with
    | Some ch => Some ch
    | None => cell_at b r c
    end.
Proof.
  intros Hb. induction additions as [|a rest IH] using rev_ind; [done|].
  intros [Hrest Ha]%Forall_app. apply Forall_cons in Ha as [Ha _].
  rewrite overlay_snoc, last_letter_at_snoc.
  rewrite cell_at_set_cell;
    [|by apply overlay_shape|by apply inside_grid_in_bounds].
  destruct a as [ch [row col]]. unfold pos_of, row_of, col_of. simpl.
  destruct (bool_decide _); [done|]. by apply IH.
Qed.

Lemma last_letter_at_elem (additions : list addition) (a : addition) :
  distinct_positions additions -> a ∈ additions ->
  last_letter_at additions (pos_of a) = Some (letter_of a).
Proof.
  unfold distinct_positions.
  induction additions as [|x rest IH] using rev_ind;
    [by intros _ ?%elem_of_nil|].
  rewrite map_app. simpl. intros Hnd Ha. rewrite last_letter_at_snoc.
  apply NoDup_app in Hnd as (Hnd & Hdis & _).
  apply elem_of_app in Ha as [Ha|Ha].
  - rewrite bool_decide_eq_false_2; [by apply IH|].
    intros Heq. apply (Hdis (pos_of a)); [by apply list_elem_of_fmap_2|].
    rewrite Heq. left.
  - apply list_elem_of_singleton in Ha as ->.
    by rewrite bool_decide_eq_true_2.
Qed.

Lemma fits_line_at (b : board) (mk : Z -> Z * Z) (at_ : Z) (w : list ascii)
    (j : nat) :
  fits_line b mk at_ w -> (j < length w)%nat ->
  match cell_at b (fst (mk (at_ + Z.of_nat j))) (snd (mk (at_ + Z.of_nat j))) with
  | None => (nth j w "000"%char, mk (at_ + Z.of_nat j)) ∈ new_tiles b mk at_ w
  | Some x => char_upper x = nth j w "000"%char
  end.
Proof.
  revert at_ j. induction w as [|ch w IH]; intros at_ j; simpl; [lia|].
  intros (_ & Hch & Hrest) Hj. destruct j as [|j].
  - rewrite Z.add_0_r. destruct (cell_at b _ _); [done|left].
  - specialize (IH (at_ + 1) j Hrest ltac:(lia)).
    replace (at_ + 1 + Z.of_nat j) with (at_ + Z.of_nat (S j)) in IH by lia.
    destruct (cell_at b (fst (mk (at_ + Z.of_nat (S j)))) _); [done|].
    destruct (cell_at b (fst (mk at_)) _); [done|by right].
Qed.

Lemma word_of_line (t : board) (mk : Z -> Z * Z) (at_ : Z) (w : list ascii) :
  (forall j, (j < length w)%nat ->
     exists y, cell_at t (fst (mk (at_ + Z.of_nat j))) (snd (mk (at_ + Z.of_nat j)))
               = Some y
               /\ char_upper y = nth j w "000"%char) ->
  upper (word_of t (map mk (range at_ (at_ + Z.of_nat (length w))))) = w.
Proof.
  revert at_. induction w as [|ch w IH]; intros at_ H.
  - unfold range. simpl length.
    by replace (Z.to_nat (at_ + Z.of_nat 0 - at_)) with 0%nat by lia.
  - assert (range at_ (at_ + Z.of_nat (length (ch :: w)))
            = at_ :: range (at_ + 1) (at_ + 1 + Z.of_nat (length w))) as ->.
    { unfold range. simpl length.
      replace (Z.to_nat (at_ + Z.of_nat (S (length w)) - at_))
        with (S (length w)) by lia.
      replace (Z.to_nat (at_ + 1 + Z.of_nat (length w) - (at_ + 1)))
        with (length w) by lia.
      simpl. f_equal; [lia|]. rewrite <- seq_shift, map_map.
      apply map_ext. intros i. lia. }
    simpl. destruct (H 0%nat ltac:(simpl; lia)) as (y & Hy & Hch).
    rewrite Z.add_0_r in Hy. rewrite Hy. simpl. f_equal; [done|].
    apply IH. intros j Hj. destruct (H (S j) ltac:(simpl; lia)) as (y' & Hy' & Hch').
    exists y'. split; [|done].
    by replace (at_ + 1 + Z.of_nat j) with (at_ + Z.of_nat (S j)) by lia.
Qed.

Lemma char_upper_lower_upper (ch : ascii) :
  char_upper (char_lower (char_upper ch)) = char_upper ch.
Proof. destruct ch as [[] [] [] [] [] [] [] []]; reflexivity. Qed.

Lemma nth_upper (word : str) (j : nat) :
  (j < length word)%nat ->
  exists ch, nth j (upper word) "000"%char = char_upper ch.
Proof.
  intros Hj. exists (nth j word "000"%char). unfold upper.
  rewrite (nth_indep _ _ (char_upper "000"%char)) by (by rewrite length_map).
  apply map_nth.
Qed.

(** X11.  Each placement the materializer returns, for an anchor
    inside the grid of a 15 x 15 board, spells one of the words: with
    its tiles laid, the cells of the anchor's line from some index on
    read, up to case, as the word; the cells lie on the board and the
    anchor falls in the word at the index
    [_calculate_anchor_index_in_word] gives. *)
Theorem materialized_placements_spell_a_word (b : board) (axis : Axis)
    (anchor : Z * Z) (words : list str) (meta : Meta) (rack : list ascii)
    (adds : list addition) :
  board_shape b ->
  (0 <= fst anchor < 15 /\ 0 <= snd anchor < 15) ->
  adds ∈ OptimiserLength._materialize_additions_from_words
           b axis anchor words meta rack ->
  exists word start,
    word ∈ words
    /\ OptimiserLength._calculate_anchor_index_in_word (upper word) meta
       = Some (line_coordinate axis anchor - start)
    /\ (word <> [] -> 0 <= start /\ start + Z.of_nat (length word) <= 15)
    /\ upper (word_of (overlay b adds)
                      (map (line_cell axis anchor)
                           (range start (start + Z.of_nat (length word)))))
       = upper word.
Proof.
  intros Hb Hanchor Hin.
  destruct (materialized_placements_fit_the_board_aux b axis anchor words meta rack
              Hanchor adds Hin) as (_ & Hgrid & Hfree & Hnd & _).
  apply materialize_inv in Hin as (word & Hword & Hm).
  apply materialized_tiles in Hm as (start & Hfits & Hidx & _ & Hpaid & _).
  exists word, start. split; [done|]. split; [done|].
  pose proof (fits_line_bounds _ _ _ _ Hfits) as Hbounds.
  rewrite length_upper in Hbounds. split.
  - intros Hne. assert (0 < length word)%nat by (destruct word; [done|simpl; lia]).
    pose proof (Hbounds start ltac:(lia)).
    pose proof (Hbounds (start + Z.of_nat (length word) - 1) ltac:(lia)). lia.
  - rewrite <- (length_upper word). apply word_of_line. intros j Hj.
    rewrite overlay_cell by done.
    pose proof (fits_line_at _ _ _ _ j Hfits Hj) as Hat.
    rewrite length_upper in Hj.
    destruct (nth_upper word j Hj) as [ch Hch].
    set (p := line_cell axis anchor (start + Z.of_nat j)) in *.
    destruct (cell_at b (fst p) (snd p)) as [x|] eqn:Ecell.
    + assert (last_letter_at adds (fst p, snd p) = None) as ->.
      { apply last_letter_at_None. intros (a & Hp & Ha)%list_elem_of_fmap.
        eapply Forall_forall in Hfree; [|exact Ha].
        unfold row_of, col_of in Hfree. fold (pos_of a) in Hfree.
        rewrite <- Hp in Hfree. simpl in Hfree. congruence. }
      by exists x.
    + apply list_elem_of_lookup in Hat as [i Hi].
      destruct (Forall2_lookup_l _ _ _ _ _ Hpaid Hi) as (n & Hn & Hpn & Hletter).
      apply list_elem_of_lookup_2 in Hn.
      assert ((fst p, snd p) = pos_of n) as -> by (by rewrite Hpn; destruct p).
      rewrite last_letter_at_elem by done.
      exists (letter_of n). split; [done|].
      unfold letter_of in *. simpl in Hletter.
      destruct Hletter as [->| ->]; rewrite Hch.
      * apply char_upper_idem.
      * apply char_upper_lower_upper.
Qed.

Lemma star_board_shape : board_shape star_board.
Proof. split; [reflexivity|]. repeat constructor. Qed.

Lemma materialized_example :
  [("S"%char, (7, 10))]
  ∈ OptimiserLength._materialize_additions_from_words
      star_board H (7, 10) [s "stars"] after_star (s "S-").
Proof. vm_compute. left. Qed.

Lemma materialized_placements_fit_the_board_witness :
  free_cells star_board [("S"%char, (7, 10))].
Proof.
  assert (0 <= fst (7, 10) < 15 /\ 0 <= snd (7, 10) < 15) as Hanchor
    by (simpl; lia).
  destruct (materialized_placements_fit_the_board
              star_board H (7, 10) [s "stars"] after_star (s "S-") Hanchor)
    as [_ Hall].
  exact (proj1 (proj2 (proj2 (Hall _ materialized_example)))).
Defined.

Lemma materialized_placements_fit_the_rack_witness :
  Nat.le (length [("S"%char, (7, 10))]) (length (s "S-")).
Proof.
  assert (lexicon [s "stars"]) as Hlex.
  { repeat constructor. }
  exact (proj2 (proj2 (materialized_placements_fit_the_rack
                         star_board H (7, 10) [s "stars"] after_star (s "S-")
                         _ Hlex materialized_example))).
Defined.

Lemma materialized_placements_spell_a_word_witness :
  exists word start,
    word ∈ [s "stars"]
    /\ OptimiserLength._calculate_anchor_index_in_word (upper word) after_star
       = Some (line_coordinate H (7, 10) - start)
    /\ (word <> [] -> 0 <= start /\ start + Z.of_nat (length word) <= 15)
    /\ upper (word_of (overlay star_board [("S"%char, (7, 10))])
                      (map (line_cell H (7, 10))
                           (range start (start + Z.of_nat (length word)))))
       = upper word.
Proof.
  apply (materialized_placements_spell_a_word
           star_board H (7, 10) [s "stars"] after_star (s "S-")).
  - apply star_board_shape.
  - simpl. lia.
  - apply materialized_example.
Defined.

(** ** The anchors *)

Lemma arange_index (i : Z) : In i (np_arange 15) <-> 0 <= i < 15.
Proof.
  split; [|apply index_in_arange].
  intros (k & <- & Hk%in_seq)%in_map_iff. simpl in Hk. lia.
Qed.

Lemma elem_of_all_cells (r c : Z) :
  (r, c) ∈ OptimiserLength.all_cells <-> 0 <= r < 15 /\ 0 <= c < 15.
Proof.
  unfold OptimiserLength.all_cells.
  rewrite list_elem_of_In, in_flat_map. split.
  - intros (r' & Hr & (c' & [= <- <-] & Hc)%in_map_iff).
    by rewrite <- !arange_index.
  - intros [Hr Hc]. exists r. split; [by apply arange_index|].
    apply in_map_iff. exists c. split; [done|by apply arange_index].
Qed.

Lemma all_cells_NoDup : NoDup OptimiserLength.all_cells.
Proof. apply (proj1 (bool_decide_eq_true _)). vm_compute. reflexivity. Qed.

Lemma cell_at_in_grid (b : board) (r c : Z) :
  cell_at b r c <> None -> 0 <= r < 15 /\ 0 <= c < 15.
Proof.
  unfold cell_at. destruct (in_bounds r c) eqn:E; [|done].
  intros _. by apply in_bounds_spec.
Qed.

Lemma empty_lines (l : list nat) : list_sum l = 0%nat -> Forall (fun n => n = 0%nat) l.
Proof.
  induction l as [|n l IH]; simpl; [constructor|].
  intros H. constructor; [lia|apply IH; lia].
Qed.

Lemma count_occupied_zero (b : board) (r c : Z) :
  count_occupied b = 0%nat -> cell_at b r c = None.
Proof.
  unfold count_occupied. intros H%empty_lines. unfold cell_at.
  destruct (in_bounds r c); [|done].
  destruct (b !! Z.to_nat r) as [line|] eqn:Hline; [|done].
  destruct (line !! Z.to_nat c) as [[x|]|] eqn:Hx; [|done|done].
  exfalso. rewrite Forall_map, Forall_forall in H.
  specialize (H line (list_elem_of_lookup_2 _ _ _ Hline)). simpl in H.
  apply length_zero_iff_nil in H.
  assert (Some x ∈ filter (fun x : cell => occupied x = true) line) as Hin.
  { apply list_elem_of_filter. split; [done|by eapply list_elem_of_lookup_2]. }
  rewrite H in Hin. by apply elem_of_nil in Hin.
Qed.

Lemma anchor_test (b : board) (r c : Z) (ch : ascii) :
  negb (occupied (cell_at b r c))
  && (occupied (cell_at b (r - 1) c) || occupied (cell_at b (r + 1) c)
      || occupied (cell_at b r (c - 1)) || occupied (cell_at b r (c + 1))) = true
  <-> cell_at b r c = None /\ touches_occupied b (ch, (r, c)).
Proof.
  rewrite andb_true_iff, negb_true_iff, !orb_true_iff, !occupied_test.
  unfold touches_occupied, orthogonal_neighbours, pos_of. simpl.
  assert (occupied (cell_at b r c) = false <-> cell_at b r c = None) as ->.
  { destruct (cell_at b r c); simpl; split; congruence. }
  split; intros [H0 H]; (split; [done|]).
  - destruct H as [[[H|H]|H]|H];
      [exists (r - 1, c)|exists (r + 1, c)|exists (r, c - 1)|exists (r, c + 1)];
      (split; [rewrite !elem_of_cons; tauto|]);
      (split; [by apply cell_at_in_grid in H|exact H]).
  - destruct H as (q & Hq & _ & Hocc).
    rewrite !elem_of_cons in Hq.
    destruct Hq as [->|[->|[->|[->|Hq]]]]; simpl in Hocc;
      [tauto..|by apply elem_of_nil in Hq].
Qed.

(** X12.  [_find_anchor_positions]: the anchors are exactly the empty
    cells of the grid where a single new tile would touch a tile of
    the board in the sense of [_touches_existing_word], so, on a board
    that is not empty, exactly the empty cells where a one-tile
    placement passes [_check_board_valid].  No cell is listed twice,
    and a board without tiles has no anchor. *)
Theorem anchors_are_connection_points (b : board) :
  NoDup (OptimiserLength._find_anchor_positions b)
  /\ (forall r c ch,
        (r, c) ∈ OptimiserLength._find_anchor_positions b
        <-> (0 <= r < 15 /\ 0 <= c < 15)
            /\ cell_at b r c = None
            /\ _touches_existing_word b [(ch, (r, c))] = true)
  /\ (forall r c ch,
        count_occupied b <> 0%nat ->
        ((r, c) ∈ OptimiserLength._find_anchor_positions b
         <-> (0 <= r < 15 /\ 0 <= c < 15)
             /\ cell_at b r c = None
             /\ _check_board_valid b [(ch, (r, c))] = Ok true))
  /\ (count_occupied b = 0%nat -> OptimiserLength._find_anchor_positions b = []).
Proof.
  assert (forall r c ch,
            (r, c) ∈ OptimiserLength._find_anchor_positions b
            <-> (0 <= r < 15 /\ 0 <= c < 15)
                /\ cell_at b r c = None
                /\ _touches_existing_word b [(ch, (r, c))] = true) as Hspec.
  { intros r c ch. unfold OptimiserLength._find_anchor_positions.
    rewrite list_elem_of_In, filter_In, <- list_elem_of_In, elem_of_all_cells.
    rewrite (anchor_test b r c ch), touches_existing_word_spec.
    split; intros (H1 & H2 & H3); (split; [done|]); (split; [done|]).
    - exists (ch, (r, c)). split; [left|done].
    - destruct H3 as (a & ->%list_elem_of_singleton & H3). done. }
  split; [|split; [done|split]].
  - unfold OptimiserLength._find_anchor_positions.
    apply NoDup_ListNoDup, List.NoDup_filter, NoDup_ListNoDup, all_cells_NoDup.
  - intros r c ch Hcount. rewrite (Hspec r c ch).
    unfold _check_board_valid. apply Nat.eqb_neq in Hcount. rewrite Hcount.
    destruct (_touches_existing_word b [(ch, (r, c))]); simpl;
      split; intros (H1 & H2 & H3); done.
  - intros Hcount. unfold OptimiserLength._find_anchor_positions.
    induction OptimiserLength.all_cells as [|[r c] l IH]; [done|]. simpl.
    rewrite (count_occupied_zero b (r - 1) c), (count_occupied_zero b (r + 1) c),
      (count_occupied_zero b r (c - 1)), (count_occupied_zero b r (c + 1)) by done.
    simpl. rewrite andb_false_r. exact IH.
Qed.

Example anchors_of_star_board :
  OptimiserLength._find_anchor_positions star_board
  = [(6, 6); (6, 7); (6, 8); (6, 9); (7, 5); (7, 10);
     (8, 6); (8, 7); (8, 8); (8, 9)].
Proof. vm_compute. reflexivity. Qed.

(** ** Scanning a side of the anchor *)

Lemma sum_Z_from (l : list Z) (x : Z) : fold_left Z.add l x = x + sum_Z l.
Proof.
  unfold sum_Z. revert x. induction l as [|y l IH]; intros x; simpl; [lia|].
  rewrite (IH (x + y)), (IH (0 + y)). lia.
Qed.

Lemma sum_Z_app (l1 l2 : list Z) : sum_Z (l1 ++ l2) = sum_Z l1 + sum_Z l2.
Proof. unfold sum_Z at 1. rewrite fold_left_app, sum_Z_from. reflexivity. Qed.

Lemma sum_Z_nonneg (l : list Z) : Forall (fun k => 0 <= k) l -> 0 <= sum_Z l.
Proof.
  induction 1 as [|x l Hx _ IH]; [done|].
  change (x :: l) with ([x] ++ l). rewrite sum_Z_app.
  unfold sum_Z at 1. simpl. lia.
Qed.

Lemma skip_gap_counts (fuel : nat) (get_cell : Z -> cell) (step j k : Z) :
  k <= fst (OptimiserLength.skip_gap fuel get_cell 15 step j k).
Proof.
  revert j k. induction fuel as [|fuel IH]; intros j k; simpl; [lia|].
  destruct (_ && _); simpl; [|lia]. specialize (IH (j + step) (k + 1)). lia.
Qed.

(** With fuel for the cells ahead, the scan of a gap stops off the
    line or on a tile. *)
Lemma skip_gap_stops (fuel : nat) (get_cell : Z -> cell) (step j k : Z) :
  step = 1 \/ step = -1 ->
  (if step =? 1 then 15 - j else j + 1) <= Z.of_nat fuel ->
  let j' := snd (OptimiserLength.skip_gap fuel get_cell 15 step j k) in
  0 <= j' < 15 -> occupied (get_cell j') = true.
Proof.
  intros Hstep. revert j k. induction fuel as [|fuel IH]; intros j k Hfuel; simpl.
  - intros Hj. destruct Hstep as [->| ->]; simpl in Hfuel; lia.
  - destruct ((0 <=? j) && (j <? 15)) eqn:Ein; simpl.
    + destruct (occupied (get_cell j)) eqn:Eocc; simpl; [done|].
      apply IH. destruct Hstep as [->| ->]; simpl in *; lia.
    + intros Hj. apply andb_false_iff in Ein as [H%Z.leb_gt|H%Z.ltb_ge]; lia.
Qed.

Lemma read_block_spec (fuel : nat) (get_cell : Z -> cell) (step j : Z)
    (blk : list ascii) :
  exists chars,
    fst (OptimiserLength.read_block fuel get_cell 15 step j blk) = blk ++ chars
    /\ Forall (fun ch => char_upper ch = ch) chars
    /\ ((0 < fuel)%nat -> 0 <= j < 15 -> occupied (get_cell j) = true ->
        chars <> []).
Proof.
  revert j blk. induction fuel as [|fuel IH]; intros j blk; simpl.
  - exists []. rewrite app_nil_r. split; [done|]. split; [constructor|lia].
  - destruct ((0 <=? j) && (j <? 15)) eqn:Ein.
    + destruct (get_cell j) as [ch|] eqn:Ecell.
      * destruct (IH (j + step) (blk ++ [char_upper ch])) as (chars & H1 & H2 & _).
        exists (char_upper ch :: chars). rewrite H1, <- app_assoc.
        split; [done|]. split; [|done].
        constructor; [apply char_upper_idem|done].
      * exists []. rewrite app_nil_r. split; [done|]. split; [constructor|].
        intros _ _ H. done.
    + exists []. rewrite app_nil_r. split; [done|]. split; [constructor|].
      intros _ Hj. apply andb_false_iff in Ein as [H%Z.leb_gt|H%Z.ltb_ge]; lia.
Qed.

Lemma block_is_upper (reverse_block : bool) (chars : list ascii) :
  chars <> [] -> Forall (fun ch => char_upper ch = ch) chars ->
  let blk := if reverse_block then rev chars else chars in
  blk <> [] /\ upper blk = blk.
Proof.
  intros Hne Hup. assert (upper chars = chars) as Hchars.
  { clear Hne. unfold upper. induction Hup as [|ch l Hch _ IH]; [done|]. simpl.
    by rewrite Hch, IH. }
  destruct reverse_block; simpl; [|done]. split.
  - intros H. apply (f_equal (@rev ascii)) in H. rewrite rev_involutive in H. done.
  - unfold upper in *. by rewrite map_rev, Hchars.
Qed.

Lemma more_blocks_step (fuel : nat) (get_cell : Z -> cell) (max_index step : Z)
    (reverse_block : bool) (rack_len j cumulative_distance : Z)
    (blocks : list str) (gaps : list Z) :
  OptimiserLength.more_blocks (S fuel) get_cell max_index step reverse_block
                              rack_len j cumulative_distance blocks gaps
  = if negb ((0 <=? j) && (j <? max_index)) then (blocks, gaps, 0)
    else
      let '(k, j) :=
        OptimiserLength.skip_gap line_length get_cell max_index step j 0 in
      if negb ((0 <=? j) && (j <? max_index)) then
        let remaining := rack_len - cumulative_distance in
        (blocks, gaps, if remaining >? 0 then Z.min k remaining else 0)
      else
        let cumulative_distance := cumulative_distance + k in
        if cumulative_distance >? rack_len then
          let remaining := rack_len - (cumulative_distance - k) in
          (blocks, gaps, if remaining >? 0 then Z.min k remaining else 0)
        else
          let '(blk, j) :=
            OptimiserLength.read_block line_length get_cell max_index step j [] in
          let blk := if reverse_block then rev blk else blk in
          OptimiserLength.more_blocks fuel get_cell max_index step reverse_block
                                      rack_len j cumulative_distance
                                      (blocks ++ [blk]) (gaps ++ [k]).
Proof. reflexivity. Qed.

Lemma more_blocks_budget (fuel : nat) (get_cell : Z -> cell) (step : Z)
    (reverse_block : bool) (rack_len j cumulative_distance : Z)
    (blocks : list str) (gaps : list Z) :
  step = 1 \/ step = -1 ->
  cumulative_distance = 1 + sum_Z gaps ->
  cumulative_distance <= rack_len ->
  within_budget rack_len (blocks, gaps, 0) ->
  within_budget rack_len
    (OptimiserLength.more_blocks fuel get_cell 15 step reverse_block rack_len j
                                 cumulative_distance blocks gaps).
Proof.
  intros Hstep. revert j cumulative_distance blocks gaps.
  induction fuel as [|fuel IH]; intros j cum blocks gaps Hcum Hle Hinv;
    [done|].
  rewrite more_blocks_step.
  destruct (negb ((0 <=? j) && (j <? 15))) eqn:Ein; [done|].
  apply negb_false_iff, andb_true_iff in Ein as [H1%Z.leb_le H2%Z.ltb_lt].
  pose proof (skip_gap_counts line_length get_cell step j 0) as Hk.
  pose proof (skip_gap_stops line_length get_cell step j 0 Hstep)
    as Hstop.
  destruct (OptimiserLength.skip_gap line_length get_cell 15 step j 0)
    as [k j'] eqn:Eskip.
  cbn [fst snd] in Hk, Hstop.
  unfold within_budget in Hinv. destruct Hinv as (I1 & I2 & I3 & I4 & I5).
  destruct (negb ((0 <=? j') && (j' <? 15))) eqn:Ein'.
  { unfold within_budget. cbv zeta. split; [done|]. split; [done|].
    destruct (rack_len - cum >? 0) eqn:E; [apply Z.gtb_lt in E|];
      (split; [lia|]); (split; [lia|done]). }
  apply negb_false_iff, andb_true_iff in Ein' as [H1'%Z.leb_le H2'%Z.ltb_lt].
  cbv zeta.
  destruct (cum + k >? rack_len) eqn:Ereach.
  { unfold within_budget. split; [done|]. split; [done|].
    replace (cum + k - k) with cum by lia.
    destruct (rack_len - cum >? 0) eqn:E; [apply Z.gtb_lt in E|];
      (split; [lia|]); (split; [lia|done]). }
  assert (cum + k <= rack_len) as Hreach.
  { destruct (Z.gtb_spec (cum + k) rack_len); [done|lia]. }
  destruct (read_block_spec line_length get_cell step j' [])
    as (chars & Hblk & Hup & Hne).
  destruct (OptimiserLength.read_block line_length get_cell 15 step j' [])
    as [blk j''] eqn:Eread.
  cbn [fst] in Hblk. rewrite app_nil_l in Hblk. subst blk.
  apply IH.
  - rewrite sum_Z_app. unfold sum_Z at 2. simpl. lia.
  - done.
  - unfold within_budget. split; [by rewrite !length_app, I1|].
    split; [apply Forall_app; split; [done|by constructor]|].
    split; [lia|]. split.
    + rewrite sum_Z_app. unfold sum_Z at 2. simpl. lia.
    + apply Forall_app. split; [done|]. constructor; [|constructor].
      apply block_is_upper; [|done].
      apply Hne; [unfold line_length; lia|lia|].
      apply Hstop; [|lia].
      unfold line_length. destruct Hstep as [->| ->]; simpl; lia.
Qed.

Lemma scan_side_budget (b : board) (anchor : Z * Z) (axis : Axis)
    (direction : Direction) (rack_len : Z) :
  1 <= rack_len ->
  (0 <= fst anchor < 15 /\ 0 <= snd anchor < 15) ->
  within_budget rack_len
    (OptimiserLength._scan_side_for_blocks b anchor axis direction rack_len).
Proof.
  intros Hrack [Hr Hc]. destruct anchor as [r c]. simpl in Hr, Hc.
  unfold OptimiserLength._scan_side_for_blocks.
  set (setup := match axis, direction with
                | H, left => (fun j => cell_at b r j, 15, c - 1, -1, true)
                | H, right => (fun j => cell_at b r j, 15, c + 1, 1, false)
                | V, left => (fun i => cell_at b i c, 15, r - 1, -1, true)
                | V, right => (fun i => cell_at b i c, 15, r + 1, 1, false)
                end).
  assert (exists get_cell start_idx step reverse_block,
            setup = (get_cell, 15, start_idx, step, reverse_block)
            /\ (step = 1 \/ step = -1)
            /\ (if step =? 1 then 15 - start_idx else start_idx + 1) <= 15)
    as (get_cell & start_idx & step & reverse_block & -> & Hstep & Hfuel).
  { unfold setup. destruct axis, direction; eexists _, _, _, _;
      (split; [reflexivity|]); simpl; (split; [tauto|lia]). }
  pose proof (skip_gap_counts line_length get_cell step start_idx 0)
    as Hk.
  pose proof (skip_gap_stops line_length get_cell step start_idx 0
                Hstep Hfuel) as Hstop.
  destruct (OptimiserLength.skip_gap line_length get_cell 15 step
                                     start_idx 0) as [k j] eqn:Eskip.
  cbn [fst snd] in Hk, Hstop.
  destruct (negb ((0 <=? j) && (j <? 15))) eqn:Ein.
  { unfold within_budget. simpl. split; [done|]. split; [constructor|].
    unfold sum_Z. simpl. split; [lia|]. split; [lia|constructor]. }
  apply negb_false_iff, andb_true_iff in Ein as [H1%Z.leb_le H2%Z.ltb_lt].
  destruct (1 + k >? rack_len) eqn:Ereach.
  { unfold within_budget. simpl. split; [done|]. split; [constructor|].
    unfold sum_Z. simpl. split; [lia|]. split; [lia|constructor]. }
  assert (1 + k <= rack_len) as Hreach.
  { destruct (Z.gtb_spec (1 + k) rack_len); [done|lia]. }
  destruct (read_block_spec line_length get_cell step j [])
    as (chars & Hblk & Hup & Hne).
  destruct (OptimiserLength.read_block line_length get_cell 15 step j [])
    as [blk j''] eqn:Eread.
  cbn [fst] in Hblk. rewrite app_nil_l in Hblk. subst blk.
  apply more_blocks_budget; [done| |done|].
  - unfold sum_Z. simpl. lia.
  - unfold within_budget. split; [done|]. split; [by constructor|].
    split; [lia|]. split; [unfold sum_Z; simpl; lia|].
    constructor; [|constructor]. apply block_is_upper; [|done].
    apply Hne; [unfold line_length; lia|lia|].
    apply Hstop. lia.
Qed.

(** X13.  [_scan_side_for_blocks] from an anchor inside the grid, for
    a rack of one tile or more: there are as many gaps as blocks; no
    gap and no tail is negative; the anchor, the gaps and the tail
    take together no more cells than the rack has tiles; every block
    is a non-empty string in upper case. *)
Theorem scan_side_keeps_the_budget (b : board) (anchor : Z * Z) (axis : Axis)
    (direction : Direction) (rack_len : Z) :
  1 <= rack_len ->
  (0 <= fst anchor < 15 /\ 0 <= snd anchor < 15) ->
  within_budget rack_len
    (OptimiserLength._scan_side_for_blocks b anchor axis direction rack_len).
Proof. apply scan_side_budget. Qed.

Lemma scan_side_keeps_the_budget_witness :
  within_budget 2 ([s "STAR"], [0], 1).
Proof.
  assert (OptimiserLength._scan_side_for_blocks star_board (7, 10) H left 2
          = ([s "STAR"], [0], 1)) as E by (vm_compute; reflexivity).
  rewrite <- E.
  apply (scan_side_keeps_the_budget star_board (7, 10) H left 2).
  - lia.
  - simpl. lia.
Defined.

(** ** The start word *)

Lemma underscores_fixed_pattern (n : nat) :
  fixed_pattern (replicate (S n) "_"%char).
Proof.
  split; [done|]. apply Forall_forall. intros ch Hch%elem_of_replicate.
  right. tauto.
Qed.

Lemma underscores_need_nothing (n : nat) (deck : str) :
  missing_count (replicate n "_"%char) deck = 0%nat.
Proof.
  unfold missing_count, shortfall, fixed_demand, fixed_letters_of.
  assert (List.filter char_isalpha (upper (replicate n "_"%char)) = []) as ->.
  { induction n as [|n IH]; [done|]. simpl. exact IH. }
  apply list_sum_zero.
Qed.

Lemma generate_underscores (rule : Rule) (deck : str) (n : nat) :
  rack_tiles deck ->
  exists ws, words_of_length rule deck (S n) = Ok ws
             /\ Forall (fun w => length w = S n) ws.
Proof.
  intros Hdeck. unfold words_of_length, SimplePatternGenerator.generate.
  rewrite verify_pattern_spec; [|apply underscores_fixed_pattern|done].
  rewrite underscores_need_nothing. simpl (_ <? 0)%nat. cbv iota.
  eexists. split; [reflexivity|].
  apply Forall_forall. intros w Hw.
  apply list_elem_of_In, filter_In in Hw as [Hw _].
  apply in_map_iff in Hw as (w' & <- & Hw').
  apply filter_In in Hw' as [_ Hlen]. apply Nat.eqb_eq in Hlen.
  rewrite length_upper, Hlen, length_upper. apply length_replicate.
Qed.

Lemma try_lengths_spec (rule : Rule) (deck : str) (m : nat) :
  rack_tiles deck ->
  exists ws,
    OptimiserLength.try_lengths rule deck m = Ok ws
    /\ ((ws = []
         /\ forall l, (1 <= l <= m)%nat -> words_of_length rule deck l = Ok [])
        \/ (exists n, (1 <= n <= m)%nat
              /\ ws <> []
              /\ words_of_length rule deck n = Ok ws
              /\ Forall (fun w => length w = n) ws
              /\ forall l, (n < l <= m)%nat -> words_of_length rule deck l = Ok [])).
Proof.
  intros Hdeck. induction m as [|m IH].
  - exists []. split; [done|]. left. split; [done|]. intros l Hl. lia.
  - destruct (generate_underscores rule deck m Hdeck) as (ws & Hgen & Hlen).
    cbn [OptimiserLength.try_lengths]. cbv zeta.
    unfold words_of_length in Hgen. rewrite Hgen.
    change (Ok ws ≫= ?f) with (f ws). cbv beta.
    destruct ws as [|w ws].
    + destruct IH as (ws' & Htry & Hcases). exists ws'. split; [done|].
      destruct Hcases as [[-> Hnone]|(n & Hn & Hne & Hw & Hl & Hnone)].
      * left. split; [done|]. intros l Hl'.
        destruct (decide (l = S m)) as [->|]; [done|]. apply Hnone. lia.
      * right. exists n. split; [lia|]. split; [done|]. split; [done|].
        split; [done|]. intros l Hl'.
        destruct (decide (l = S m)) as [->|]; [done|]. apply Hnone. lia.
    + exists (w :: ws). split; [done|]. right. exists (S m).
      split; [lia|]. split; [done|]. split; [done|]. split; [done|].
      intros l Hl'. lia.
Qed.

(** X14.  [_find_start_word] for a rack of letters and blanks: it
    never raises.  With [m] tiles taken from the rack (all of them
    when the bound given is below 1 or above the size of the rack),
    it returns the words of the greatest length from [m] down to 1
    for which the pattern matcher finds a word, all of that length,
    and the empty list when it finds none of any length. *)
Theorem find_start_word_longest_first (rule : Rule) (deck : list ascii)
    (upper_bound : Z) :
  rack_tiles deck ->
  let m := start_bound deck upper_bound in
  let deck_str := take m deck in
  exists ws,
    OptimiserLength._find_start_word rule deck upper_bound = Ok ws
    /\ ((ws = []
         /\ forall l, (1 <= l <= m)%nat -> words_of_length rule deck_str l = Ok [])
        \/ (exists n, (1 <= n <= m)%nat
              /\ ws <> []
              /\ words_of_length rule deck_str n = Ok ws
              /\ Forall (fun w => length w = n) ws
              /\ forall l, (n < l <= m)%nat ->
                           words_of_length rule deck_str l = Ok [])).
Proof.
  intros Hdeck m deck_str. unfold OptimiserLength._find_start_word.
  fold (start_bound deck upper_bound). fold m. fold deck_str.
  apply try_lengths_spec. unfold deck_str, rack_tiles in *.
  by apply Forall_take.
Qed.

Lemma find_start_word_longest_first_witness :
  exists ws,
    OptimiserLength._find_start_word sample_rule (s "TCA") 0 = Ok ws
    /\ ((ws = []
         /\ forall l, (1 <= l <= 3)%nat ->
                      words_of_length sample_rule (s "TCA") l = Ok [])
        \/ (exists n, (1 <= n <= 3)%nat
              /\ ws <> []
              /\ words_of_length sample_rule (s "TCA") n = Ok ws
              /\ Forall (fun w => length w = n) ws
              /\ forall l, (n < l <= 3)%nat ->
                           words_of_length sample_rule (s "TCA") l = Ok [])).
Proof.
  apply (find_start_word_longest_first sample_rule (s "TCA") 0).
  repeat constructor.
Defined.

Example find_start_word_example :
  OptimiserLength._find_start_word sample_rule (s "TCA") 0
  = Ok [s "CAT"; s "ACT"]
  /\ OptimiserLength._find_start_word sample_rule (s "TAC") 2
     = Ok [s "AT"; s "TA"]
  /\ OptimiserLength._find_start_word sample_rule [] 7 = Ok [].
Proof. repeat split; vm_compute; reflexivity. Qed.

(** ** The geometry check on distinct cells *)

Lemma elem_of_range (a b x : Z) : x ∈ range a b <-> a <= x < b.
Proof.
  unfold range. rewrite list_elem_of_fmap. split.
  - intros (i & -> & Hi). apply list_elem_of_In, in_seq in Hi. lia.
  - intros Hx. exists (Z.to_nat (x - a)). split; [lia|].
    apply list_elem_of_In, in_seq. lia.
Qed.

Lemma range_NoDup (a b : Z) : NoDup (range a b).
Proof.
  unfold range. apply NoDup_fmap_2; [intros i j; lia|].
  apply NoDup_ListNoDup, seq_NoDup.
Qed.

(** A list of distinct integers spans as many values as it has
    elements exactly when it is a run of consecutive integers. *)
Lemma ptp_run (l : list Z) :
  l <> [] -> NoDup l ->
  np_ptp l + 1 = Z.of_nat (length l)
  <-> exists lo, l ≡ₚ range lo (lo + Z.of_nat (length l)).
Proof.
  intros Hne Hnd.
  destruct (np_min_least l Hne) as [Hmin1 Hmin2].
  destruct (np_max_greatest l Hne) as [Hmax1 Hmax2].
  unfold np_ptp. split.
  - intros Hspan. exists (np_min l).
    apply submseteq_length_Permutation.
    + apply NoDup_submseteq; [done|]. intros x Hx. apply elem_of_range.
      specialize (Hmin2 x Hx). specialize (Hmax2 x Hx). lia.
    + rewrite range_length. lia.
  - intros [lo Hperm].
    assert (0 < length l)%nat by (destruct l; [done|simpl; lia]).
    assert (forall x, x ∈ l <-> lo <= x < lo + Z.of_nat (length l)) as Hin.
    { intros x. rewrite <- elem_of_range.
      split; intros Hx; [by rewrite <- Hperm|by rewrite Hperm]. }
    assert (lo ∈ l) as Hlo by (apply Hin; lia).
    assert (lo + Z.of_nat (length l) - 1 ∈ l) as Hhi by (apply Hin; lia).
    apply Hin in Hmin1, Hmax1. apply Hmin2 in Hlo. apply Hmax2 in Hhi. lia.
Qed.

Lemma positions_in_row (additions : list addition) (r : Z) :
  (forall a, a ∈ additions -> row_of a = r) ->
  map pos_of additions = map (fun j => (r, j)) (map col_of additions).
Proof.
  intros H. rewrite map_map. apply map_ext_in. intros a Ha%list_elem_of_In.
  specialize (H a Ha). destruct a as [? [? ?]]. unfold row_of, col_of in *.
  simpl in *. by subst.
Qed.

Lemma positions_in_column (additions : list addition) (c : Z) :
  (forall a, a ∈ additions -> col_of a = c) ->
  map pos_of additions = map (fun i => (i, c)) (map row_of additions).
Proof.
  intros H. rewrite map_map. apply map_ext_in. intros a Ha%list_elem_of_In.
  specialize (H a Ha). destruct a as [? [? ?]]. unfold row_of, col_of in *.
  simpl in *. by subst.
Qed.

Lemma coordinates_of_positions (additions : list addition) :
  map fst (map pos_of additions) = map row_of additions
  /\ map snd (map pos_of additions) = map col_of additions.
Proof. by rewrite !map_map. Qed.

(** The check on a placement that fails none of the first four
    tests. *)
Lemma verify_in_line (b : board) (additions : list addition) :
  additions <> [] -> Forall inside_grid additions -> free_cells b additions ->
  ~ spans_rows additions \/ ~ spans_cols additions ->
  let coordinates :=
    if (length (np_unique (map row_of additions)) =? 1)%nat
    then map col_of additions else map row_of additions in
  _verify_word_addition b additions
  = if np_ptp coordinates + 1 =? Z.of_nat (length additions)
    then Ok true else Raise (ValueError NotContinuous).
Proof.
  intros Hne Hin Hfree Hline. unfold _verify_word_addition.
  destruct additions as [|a0 rest] eqn:E; [done|]. rewrite <- E in *.
  assert (List.find (fun a => negb ((0 <=? row_of a) && (row_of a <? 15)
                                   && ((0 <=? col_of a) && (col_of a <? 15))))
                    additions = None) as ->.
  { apply find_None_Forall. eapply Forall_impl; [exact Hin|].
    intros x. apply inside_grid_test. }
  assert (List.find (fun a => occupied (cell_at b (row_of a) (col_of a)))
                    additions = None) as ->.
  { apply find_None_Forall. eapply Forall_impl; [exact Hfree|].
    intros x Hx. simpl in Hx. by rewrite Hx. }
  cbv zeta. rewrite rows_of_positions, cols_of_positions.
  assert ((1 <? length (np_unique (map row_of additions)))%nat
          && (1 <? length (np_unique (map col_of additions)))%nat = false) as ->.
  { apply andb_false_iff.
    destruct Hline as [H|H]; [left|right]; apply Nat.ltb_ge;
      [rewrite <- spans_rows_unique in H|rewrite <- spans_cols_unique in H]; lia. }
  destruct (length (np_unique (map row_of additions)) =? 1)%nat;
    rewrite np_ptp_sort; by destruct (_ =? _).
Qed.

Lemma run_of_one_value (l : list Z) (lo r : Z) :
  l <> [] -> (forall x, x ∈ l -> x = r) ->
  l ≡ₚ range lo (lo + Z.of_nat (length l)) -> length l = 1%nat.
Proof.
  intros Hne Hall Hperm. destruct l as [|x [|y l]]; [done|done|exfalso].
  assert (lo ∈ x :: y :: l) as H1.
  { rewrite Hperm. apply elem_of_range. simpl. lia. }
  assert (lo + 1 ∈ x :: y :: l) as H2.
  { rewrite Hperm. apply elem_of_range. simpl. lia. }
  apply Hall in H1, H2. lia.
Qed.

(** X15.  [_verify_word_addition] on a non-empty placement inside the
    grid, on empty cells, in one row or one column, that names no cell
    twice: it accepts exactly when the cells are, in some order, an
    unbroken run of consecutive cells, and raises the error for a line
    with gaps otherwise.  A placement with an old tile between its new
    tiles is therefore refused. *)
Theorem verify_accepts_unbroken_runs (b : board) (additions : list addition) :
  additions <> [] -> Forall inside_grid additions -> free_cells b additions ->
  ~ spans_rows additions \/ ~ spans_cols additions ->
  distinct_positions additions ->
  (unbroken_run additions -> _verify_word_addition b additions = Ok true)
  /\ (~ unbroken_run additions ->
      _verify_word_addition b additions = Raise (ValueError NotContinuous)).
Proof.
  intros Hne Hin Hfree Hline Hnd.
  rewrite (verify_in_line b additions Hne Hin Hfree Hline). cbv zeta.
  destruct (coordinates_of_positions additions) as [Hrows Hcols].
  assert (exists a0, a0 ∈ additions) as [a0 Ha0].
  { destruct additions as [|a0 ?]; [done|]. exists a0. left. }
  destruct (length (np_unique (map row_of additions)) =? 1)%nat eqn:Eone.
  - (* one row *)
    apply Nat.eqb_eq, np_unique_length_1 in Eone as [_ Hall].
    assert (forall a, a ∈ additions -> row_of a = row_of a0) as Hrow.
    { intros a Ha. apply Hall; by apply list_elem_of_fmap_2. }
    assert (map col_of additions <> []) as Hne' by (by destruct additions).
    pose proof (distinct_in_row additions _ Hnd Hrow) as Hnd'.
    pose proof (ptp_run (map col_of additions) Hne' Hnd') as Hrun.
    rewrite length_map in Hrun.
    assert (unbroken_run additions
            <-> exists lo, map col_of additions
                           ≡ₚ range lo (lo + Z.of_nat (length additions))) as Hiff.
    { split.
      - intros (lo & [(r & Hp)|(c & Hp)]).
        + exists lo. apply (Permutation_map snd) in Hp.
          rewrite Hcols, map_map in Hp. simpl in Hp. by rewrite map_id in Hp.
        + apply (Permutation_map fst) in Hp as Hp'.
          rewrite Hrows, map_map in Hp'. simpl in Hp'. rewrite map_id in Hp'.
          rewrite <- (length_map row_of) in Hp'.
          apply (run_of_one_value _ _ (row_of a0)) in Hp';
            [|by destruct additions|].
          2:{ intros x (a & -> & Ha)%list_elem_of_fmap. by apply Hrow. }
          rewrite length_map in Hp'. exists c.
          apply (Permutation_map snd) in Hp.
          rewrite Hcols, map_map in Hp. simpl in Hp. rewrite Hp' in *.
          rewrite Hp. unfold range.
          replace (Z.to_nat (lo + Z.of_nat 1 - lo)) with 1%nat by lia.
          replace (Z.to_nat (c + Z.of_nat 1 - c)) with 1%nat by lia.
          simpl. by rewrite Z.add_0_r.
      - intros [lo Hp]. exists lo. left. exists (row_of a0).
        rewrite (positions_in_row additions (row_of a0) Hrow).
        by apply Permutation_map. }
    rewrite Hiff, <- Hrun. split.
    + intros H. apply Z.eqb_eq in H. by rewrite H.
    + intros H. apply Z.eqb_neq in H. by rewrite H.
  - (* several rows, so one column *)
    apply one_row_or_many in Eone as Hspans; [|done].
    destruct Hline as [?|Hcolumn]; [done|].
    assert (forall a, a ∈ additions -> col_of a = col_of a0) as Hcol.
    { intros a Ha. destruct (decide (col_of a = col_of a0)) as [|Hx]; [done|].
      exfalso. apply Hcolumn. exists a, a0. eauto. }
    assert (map row_of additions <> []) as Hne' by (by destruct additions).
    pose proof (distinct_in_column additions _ Hnd Hcol) as Hnd'.
    pose proof (ptp_run (map row_of additions) Hne' Hnd') as Hrun.
    rewrite length_map in Hrun.
    assert (unbroken_run additions
            <-> exists lo, map row_of additions
                           ≡ₚ range lo (lo + Z.of_nat (length additions))) as Hiff.
    { split.
      - intros (lo & [(r & Hp)|(c & Hp)]).
        + exfalso. destruct Hspans as (a & a' & Ha & Ha' & Hdiff). apply Hdiff.
          assert (forall x, x ∈ additions -> row_of x = r) as Hr.
          { intros x Hx.
            assert (pos_of x ∈ map pos_of additions) as Hpx
              by (by apply list_elem_of_fmap_2).
            rewrite Hp in Hpx. apply list_elem_of_fmap in Hpx as (j & Hj & _).
            unfold row_of. fold (pos_of x). by rewrite Hj. }
          by rewrite (Hr a Ha), (Hr a' Ha').
        + exists lo. apply (Permutation_map fst) in Hp.
          rewrite Hrows, map_map in Hp. simpl in Hp. by rewrite map_id in Hp.
      - intros [lo Hp]. exists lo. right. exists (col_of a0).
        rewrite (positions_in_column additions (col_of a0) Hcol).
        by apply Permutation_map. }
    rewrite Hiff, <- Hrun. split.
    + intros H. apply Z.eqb_eq in H. by rewrite H.
    + intros H. apply Z.eqb_neq in H. by rewrite H.
Qed.

(** Three tiles laid around the A of STAR: the old tile lies between
    the new ones, and the placement is refused. *)
Lemma verify_accepts_unbroken_runs_witness :
  _verify_word_addition star_board
    [("C"%char, (5, 8)); ("T"%char, (6, 8)); ("S"%char, (8, 8))]
  = Raise (ValueError NotContinuous).
Proof.
  apply verify_accepts_unbroken_runs.
  - done.
  - repeat constructor; vm_compute; congruence.
  - repeat constructor.
  - right. intros (a & a' & Ha & Ha' & Hne). apply Hne.
    repeat (apply elem_of_cons in Ha as [->|Ha]; [|]);
      repeat (apply elem_of_cons in Ha' as [->|Ha']; [|]);
      try done; by apply elem_of_nil in Ha || by apply elem_of_nil in Ha'.
  - unfold distinct_positions. apply (proj1 (bool_decide_eq_true _)).
    vm_compute. reflexivity.
  - intros (lo & [(r & Hp)|(c & Hp)]).
    + apply (Permutation_map fst) in Hp. rewrite map_map in Hp. simpl in Hp.
      assert (forall x, x ∈ [5; 6; 8] -> x = r) as Hr.
      { intros x Hx. rewrite Hp, map_map in Hx.
        by apply list_elem_of_fmap in Hx as (j & -> & _). }
      assert (5 = r) by (apply Hr; repeat constructor).
      assert (6 = r) by (apply Hr; repeat constructor). lia.
    + apply (Permutation_map fst) in Hp. rewrite !map_map in Hp. simpl in Hp.
      rewrite map_id in Hp.
      assert (5 ∈ range lo (lo + Z.of_nat 3)) as H5 by (rewrite <- Hp; repeat constructor).
      assert (8 ∈ range lo (lo + Z.of_nat 3)) as H8 by (rewrite <- Hp; repeat constructor).
      apply elem_of_range in H5, H8. lia.
Defined.

(** ** Simplifying a pattern keeps its fixed patterns *)

(** *** Numbers in decimal *)

Lemma pretty_N_char_digit (x : N) :
  (x < 10)%N ->
  char_isdigit (pretty_N_char x) = true
  /\ code (pretty_N_char x) = (48 + N.to_nat x)%nat.
Proof.
  intros Hx.
  assert (x = 0 \/ x = 1 \/ x = 2 \/ x = 3 \/ x = 4 \/ x = 5 \/ x = 6
          \/ x = 7 \/ x = 8 \/ x = 9)%N as Hcases by lia.
  repeat (destruct Hcases as [->|Hcases]); try subst x;
    split; vm_compute; reflexivity.
Qed.

Lemma int_of_digits_snoc (ds : list ascii) (d : ascii) :
  int_of_digits (ds ++ [d]) = (10 * int_of_digits ds + (code d - 48))%nat.
Proof. unfold int_of_digits. by rewrite fold_left_app. Qed.

Lemma pretty_N_go_digits (x : N) (acc : string) :
  exists ds,
    s (pretty_N_go x acc) = ds ++ s acc
    /\ forallb char_isdigit ds = true
    /\ int_of_digits ds = N.to_nat x
    /\ ((0 < x)%N -> ds <> []).
Proof.
  revert acc. induction (N.lt_wf_0 x) as [x _ IH]. intros acc.
  destruct (decide (x = 0)%N) as [->|Hx].
  - rewrite pretty_N_go_0. exists []. split; [done|]. split; [done|].
    split; [done|lia].
  - rewrite pretty_N_go_step by lia.
    destruct (IH (x `div` 10)%N ltac:(apply N.div_lt; lia)
                 (String (pretty_N_char (x `mod` 10)) acc))
      as (ds & E & D & V & _).
    destruct (pretty_N_char_digit (x `mod` 10)%N) as [Hd Hc].
    { apply N.mod_lt. lia. }
    exists (ds ++ [pretty_N_char (x `mod` 10)]).
    split; [|split; [|split]].
    + rewrite E. simpl. by rewrite <- app_assoc.
    + rewrite forallb_app, D. simpl. by rewrite Hd.
    + rewrite int_of_digits_snoc, V, Hc.
      pose proof (N.div_mod' x 10) as HH.
      assert (N.to_nat x
              = (10 * N.to_nat (x `div` 10) + N.to_nat (x `mod` 10))%nat) as ->.
      { rewrite HH at 1. by rewrite N2Nat.inj_add, N2Nat.inj_mul. }
      by rewrite (Nat.add_comm 48), Nat.add_sub.
    + intros _. by destruct ds.
Qed.

(** [str(n)] is a non-empty string of digits that [int] reads back. *)
Lemma str_of_nat_digits (n : nat) :
  str_of_Z (Z.of_nat n) <> []
  /\ forallb char_isdigit (str_of_Z (Z.of_nat n)) = true
  /\ int_of_digits (str_of_Z (Z.of_nat n)) = n.
Proof.
  unfold str_of_Z. destruct n as [|n]; [by repeat split|].
  change (Z.of_nat (S n)) with (Z.pos (Pos.of_succ_nat n)).
  unfold pretty, pretty_Z, pretty_positive, pretty, pretty_N.
  destruct (decide _) as [|_]; [done|].
  destruct (pretty_N_go_digits (N.pos (Pos.of_succ_nat n)) "")
    as (ds & E & D & V & Hne).
  rewrite E. simpl. rewrite app_nil_r.
  split; [apply Hne; lia|]. split; [done|lia].
Qed.

Lemma span_digits_app (ds rest : str) :
  forallb char_isdigit ds = true ->
  match rest with ch :: _ => char_isdigit ch = false | [] => True end ->
  span_digits (ds ++ rest) = (ds, rest).
Proof.
  intros Hds Hrest. induction ds as [|d ds IH]; cbn [app span_digits].
  - destruct rest as [|ch rest]; [done|]. cbn [span_digits]. by rewrite Hrest.
  - cbn [forallb] in Hds. apply andb_true_iff in Hds as [-> Hds]. by rewrite IH.
Qed.

Lemma digits1_app (n : nat) (ch : ascii) (rest : str) :
  char_isdigit ch = false ->
  digits1 (str_of_Z (Z.of_nat n) ++ ch :: rest) = Some (n, ch :: rest).
Proof.
  intros Hch. destruct (str_of_nat_digits n) as (Hne & Hds & Hint).
  unfold digits1. rewrite span_digits_app by done.
  destruct (str_of_Z (Z.of_nat n)) eqn:E; [done|]. by rewrite Hint.
Qed.

(** The expander's regular expression reads a printed range back. *)
Lemma match_range_render (n m : nat) (rest : str) :
  match_range (render_token (TRange n m) ++ rest) = Some (n, m, rest).
Proof.
  unfold match_range, render_token. rewrite <- !app_assoc.
  change (s "(" ++ ?x) with ("("%char :: x).
  change (s "," ++ ?x) with (","%char :: x).
  change (s ")" ++ ?x) with (")"%char :: x).
  cbn [expect]. change (char_eqb "(" "(") with true. cbv iota.
  change (Some ?x ≫= ?f) with (f x). cbv beta.
  rewrite digits1_app by done.
  change (Some ?x ≫= ?f) with (f x). cbv beta iota.
  cbn [expect]. change (char_eqb "," ",") with true. cbv iota.
  change (Some ?x ≫= ?f) with (f x). cbv beta.
  rewrite digits1_app by done.
  change (Some ?x ≫= ?f) with (f x). cbv beta iota.
  cbn [expect]. change (char_eqb ")" ")") with true. reflexivity.
Qed.

Lemma digit_not_close (ch : ascii) :
  char_isdigit ch = true -> char_eqb ch ")" = false.
Proof. destruct ch as [[] [] [] [] [] [] [] []]; vm_compute; congruence. Qed.

Lemma up_to_close_app (pre rest : str) :
  forallb (fun ch => negb (char_eqb ch ")")) pre = true ->
  OptimiserLength.up_to_close (pre ++ ")"%char :: rest)
  = Some (pre ++ [")"%char], rest).
Proof.
  intros Hpre. induction pre as [|ch pre IH]; [done|]. simpl in *.
  apply andb_true_iff in Hpre as [Hch Hpre]. apply negb_true_iff in Hch.
  rewrite Hch, IH by done. reflexivity.
Qed.

(** [pattern.index(')', i)] finds the end of a printed range. *)
Lemma up_to_close_render (n m : nat) (rest : str) :
  OptimiserLength.up_to_close (render_token (TRange n m) ++ rest)
  = Some (render_token (TRange n m), rest).
Proof.
  destruct (str_of_nat_digits n) as (_ & Hn & _).
  destruct (str_of_nat_digits m) as (_ & Hm & _).
  unfold render_token.
  pose proof (up_to_close_app
                (s "(" ++ str_of_Z (Z.of_nat n) ++ s "," ++ str_of_Z (Z.of_nat m))
                rest) as H.
  rewrite <- !app_assoc in *. simpl in H. apply H.
  rewrite forallb_app. simpl. rewrite andb_true_iff. split.
  - apply forallb_forall. intros ch Hch. eapply forallb_forall in Hn; [|exact Hch].
    by rewrite digit_not_close.
  - apply forallb_forall. intros ch Hch. eapply forallb_forall in Hm; [|exact Hch].
    by rewrite digit_not_close.
Qed.

(** *** The expander reads a printed pattern back *)

Lemma tokenize_skip (pre rest : str) :
  DynamicPatternGenerator.tokenize (length pre) (pre ++ rest)
  = DynamicPatternGenerator.tokenize 0 rest.
Proof. induction pre as [|ch pre IH]; [done|]. simpl. exact IH. Qed.

Lemma render_app (ts1 ts2 : list token) :
  render (ts1 ++ ts2) = render ts1 ++ render ts2.
Proof. apply flat_map_app. Qed.

Lemma tokenize_render (tokens : list token) (rest : str) :
  plain_tokens tokens ->
  DynamicPatternGenerator.tokenize 0 (render tokens ++ rest)
  = tokens ++ DynamicPatternGenerator.tokenize 0 rest.
Proof.
  induction 1 as [|t tokens Ht _ IH]; [done|].
  change (render (t :: tokens)) with (render_token t ++ render tokens).
  rewrite <- app_assoc. destruct t as [n m|ch].
  - pose proof (match_range_render n m (render tokens ++ rest)) as Hm.
    destruct (render_token (TRange n m)) as [|c body] eqn:E; [done|].
    simpl. simpl in Hm. rewrite Hm. f_equal.
    rewrite length_app.
    replace (length body + length (render tokens ++ rest)
             - length (render tokens ++ rest))%nat with (length body) by lia.
    rewrite tokenize_skip. exact IH.
  - simpl in Ht. simpl. rewrite match_range_paren.
    + f_equal. exact IH.
    + unfold char_eqb. by apply Ascii.eqb_neq.
Qed.

(** *** Fixed patterns of sequences of tokens *)

Lemma instance_app (ts1 ts2 : list token) (p : str) :
  instance_of (ts1 ++ ts2) p
  <-> exists p1 p2, p = p1 ++ p2 /\ instance_of ts1 p1 /\ instance_of ts2 p2.
Proof.
  revert p. induction ts1 as [|t ts1 IH]; intros p; simpl.
  - split.
    + intros Hp. exists [], p. repeat split; [constructor|done].
    + intros (p1 & p2 & -> & H1 & H2). by inversion H1.
  - split.
    + inversion 1 as [|ch ? p' Hp'|n m k ? p' Hk Hp']; subst.
      * apply IH in Hp' as (p1 & p2 & -> & H1 & H2).
        exists (ch :: p1), p2. repeat split; [by constructor|done].
      * apply IH in Hp' as (p1 & p2 & -> & H1 & H2).
        exists (replicate k "_"%char ++ p1), p2.
        rewrite <- app_assoc. repeat split; [by constructor|done].
    + intros (p1 & p2 & -> & H1 & H2).
      inversion H1 as [|ch ? p' Hp'|n m k ? p' Hk Hp']; subst.
      * simpl. constructor. apply IH. eauto.
      * rewrite <- app_assoc. constructor; [done|]. apply IH. eauto.
Qed.

Lemma instance_underscores (k : nat) (p : str) :
  instance_of (replicate k (TChar "_")) p <-> p = replicate k "_"%char.
Proof.
  revert p. induction k as [|k IH]; intros p; simpl.
  - split; [by inversion 1|intros ->; constructor].
  - split.
    + inversion 1; subst. f_equal. by apply IH.
    + intros ->. constructor. by apply IH.
Qed.

Lemma instance_one_range (n m : nat) (p : str) :
  instance_of [TRange n m] p
  <-> exists k, (n <= k <= m)%nat /\ p = replicate k "_"%char.
Proof.
  split.
  - inversion 1 as [| |? ? k ? p' Hk Hp']; subst. inversion Hp'; subst.
    exists k. by rewrite app_nil_r.
  - intros (k & Hk & ->). rewrite <- (app_nil_r (replicate k _)).
    constructor; [done|constructor].
Qed.

Lemma underscore_tokens (g : list token) :
  Forall (fun t => tok_is is_underscore t = true) g ->
  g = replicate (length g) (TChar "_").
Proof.
  induction 1 as [|t g Ht _ IH]; [done|]. simpl. rewrite <- IH.
  destruct t as [|ch]; [done|]. simpl in Ht. unfold is_underscore, char_eqb in Ht.
  apply Ascii.eqb_eq in Ht. by subst.
Qed.

(** The fixed patterns of one range or run of ['_']. *)
Lemma instance_flexible_group (g : list token) (p : str) :
  range_group g \/ underscore_group g ->
  (fst (group_bounds g) <= snd (group_bounds g))%nat
  /\ (instance_of g p
      <-> exists k, (fst (group_bounds g) <= k <= snd (group_bounds g))%nat
                    /\ p = replicate k "_"%char).
Proof.
  intros [(n & m & -> & Hnm)|[Hne Hall]].
  - simpl. split; [done|]. apply instance_one_range.
  - apply underscore_tokens in Hall.
    assert (group_bounds g = (length g, length g)) as ->.
    { destruct g as [|[n m|ch] g']; [done| |done]. simpl in Hall. discriminate. }
    simpl. split; [done|]. rewrite Hall at 1. rewrite instance_underscores.
    split; [intros ->; exists (length g); split; [lia|done]|].
    intros (k & Hk & ->). f_equal. lia.
Qed.

(** The fixed patterns of a sequence of ranges and runs of ['_']. *)
Lemma instance_flexible (groups : list (list token)) (p : str) :
  Forall (fun g => range_group g \/ underscore_group g) groups ->
  (min_cells groups <= max_cells groups)%nat
  /\ (instance_of (concat groups) p
      <-> exists k, (min_cells groups <= k <= max_cells groups)%nat
                    /\ p = replicate k "_"%char).
Proof.
  intros Hall. revert p. induction Hall as [|g groups Hg _ IH]; intros p.
  - unfold min_cells, max_cells. simpl. split; [done|]. split.
    + inversion 1. by exists 0%nat.
    + intros (k & Hk & ->). assert (k = 0%nat) as -> by lia. constructor.
  - unfold min_cells, max_cells in *. simpl.
    destruct (instance_flexible_group g [] Hg) as [Hle _].
    destruct (IH []) as [Hle' _]. split; [lia|].
    rewrite instance_app. split.
    + intros (p1 & p2 & -> & H1 & H2).
      apply (instance_flexible_group g p1 Hg) in H1 as (k1 & Hk1 & ->).
      apply IH in H2 as (k2 & Hk2 & ->).
      exists (k1 + k2)%nat. split; [lia|]. by rewrite replicate_add.
    + intros (k & Hk & ->).
      set (a := fst (group_bounds g)) in *. set (b := snd (group_bounds g)) in *.
      set (k1 := Nat.max a
                   (k - list_sum (map (fun g => snd (group_bounds g)) groups))).
      exists (replicate k1 "_"%char), (replicate (k - k1) "_"%char).
      repeat split.
      * rewrite <- replicate_add. f_equal. lia.
      * apply (instance_flexible_group g _ Hg). exists k1. split; [|done].
        fold a b. lia.
      * apply IH. exists (k - k1)%nat. split; [|done]. lia.
Qed.

Lemma instance_combined (a b : nat) (p : str) :
  (a <= b)%nat ->
  instance_of (combined a b) p
  <-> exists k, (a <= k <= b)%nat /\ p = replicate k "_"%char.
Proof.
  intros Hab. unfold combined. destruct (a =? b)%nat eqn:E.
  - apply Nat.eqb_eq in E as <-. rewrite instance_underscores. split.
    + intros ->. exists a. split; [lia|done].
    + intros (k & Hk & ->). f_equal. lia.
  - apply instance_one_range.
Qed.

(** *** The tokens of the simplifier *)

Lemma span_while_app {A} (test : A -> bool) (l : list A) :
  l = fst (OptimiserLength.span_while test l)
      ++ snd (OptimiserLength.span_while test l).
Proof.
  induction l as [|x l IH]; [done|]. simpl. destruct (test x); [|done].
  destruct (OptimiserLength.span_while test l) as [run rest]. simpl in *.
  by rewrite <- IH.
Qed.

Lemma span_while_Forall {A} (test : A -> bool) (l : list A) :
  Forall (fun x => test x = true) (fst (OptimiserLength.span_while test l)).
Proof.
  induction l as [|x l IH]; [by constructor|]. simpl.
  destruct (test x) eqn:E; [|by constructor].
  destruct (OptimiserLength.span_while test l) as [run rest]. simpl in *.
  by constructor.
Qed.

Lemma span_while_map {A B} (f : A -> B) (test : B -> bool) (l : list A) :
  OptimiserLength.span_while test (map f l)
  = (map f (fst (OptimiserLength.span_while (fun x => test (f x)) l)),
     map f (snd (OptimiserLength.span_while (fun x => test (f x)) l))).
Proof.
  induction l as [|x l IH]; [done|]. simpl. destruct (test (f x)); [|done].
  rewrite IH.
  by destruct (OptimiserLength.span_while (fun x => test (f x)) l).
Qed.

Lemma span_while_ext {A} (test test' : A -> bool) (l : list A) :
  (forall x, test x = test' x) ->
  OptimiserLength.span_while test l = OptimiserLength.span_while test' l.
Proof.
  intros H. induction l as [|x l IH]; [done|]. simpl. by rewrite H, IH.
Qed.

Lemma span_while_render (test : ascii -> bool) (tokens : list token) :
  test "("%char = false ->
  OptimiserLength.span_while test (render tokens)
  = (render (fst (OptimiserLength.span_while (tok_is test) tokens)),
     render (snd (OptimiserLength.span_while (tok_is test) tokens))).
Proof.
  intros Hparen. induction tokens as [|[n m|ch] tokens IH]; [done| |].
  - change (render (TRange n m :: tokens))
      with ("("%char :: (str_of_Z (Z.of_nat n) ++ s "," ++ str_of_Z (Z.of_nat m)
                         ++ s ")") ++ render tokens).
    cbn [OptimiserLength.span_while tok_is]. by rewrite Hparen.
  - change (render (TChar ch :: tokens)) with (ch :: render tokens).
    cbn [OptimiserLength.span_while tok_is]. destruct (test ch); [|done].
    rewrite IH.
    by destruct (OptimiserLength.span_while (tok_is test) tokens).
Qed.

Lemma render_token_nonempty (t : token) : (0 < length (render_token t))%nat.
Proof. destruct t; simpl; lia. Qed.

Lemma render_nil (tokens : list token) : render tokens = [] -> tokens = [].
Proof.
  destruct tokens as [|t tokens]; [done|].
  change (render (t :: tokens)) with (render_token t ++ render tokens).
  pose proof (render_token_nonempty t). intros E.
  apply (f_equal length) in E. rewrite length_app in E. simpl in E. lia.
Qed.

Lemma render_concat (groups : list (list token)) :
  concat (map render groups) = render (concat groups).
Proof.
  induction groups as [|g groups IH]; [done|]. simpl.
  by rewrite render_app, IH.
Qed.

Lemma render_chars (g : list token) (test : ascii -> bool) :
  Forall (fun t => tok_is test t = true) g -> length (render g) = length g.
Proof.
  induction 1 as [|t g Ht _ IH]; [done|]. destruct t; [done|].
  change (render (TChar ch :: g)) with (ch :: render g). simpl. by rewrite IH.
Qed.

Lemma simplify_tokens_step (fuel : nat) (ch : ascii) (text : str) :
  OptimiserLength.simplify_tokens (S fuel) (ch :: text)
  = if char_eqb ch "(" then
      match OptimiserLength.up_to_close (ch :: text) with
      | None => Raise (ValueError SubstringNotFound)
      | Some (token, rest) =>
          tokens ← OptimiserLength.simplify_tokens fuel rest; Ok (token :: tokens)
      end
    else if char_eqb ch "_" then
      let '(run, rest) := OptimiserLength.span_while is_underscore (ch :: text) in
      tokens ← OptimiserLength.simplify_tokens fuel rest; Ok (run :: tokens)
    else
      let '(run, rest) := OptimiserLength.span_while is_block_char (ch :: text) in
      tokens ← OptimiserLength.simplify_tokens fuel rest; Ok (run :: tokens).
Proof. reflexivity. Qed.

(** A run of character tokens cut off a printed pattern. *)
Lemma cut_run (test : ascii -> bool) (ch : ascii) (tokens : list token) :
  test "("%char = false -> test ch = true ->
  plain_tokens (TChar ch :: tokens) ->
  exists g rest,
    OptimiserLength.span_while test (render (TChar ch :: tokens))
    = (render g, render rest)
    /\ TChar ch :: tokens = g ++ rest
    /\ g <> [] /\ Forall (fun t => tok_is test t = true) g
    /\ plain_tokens rest
    /\ (length (render rest) < length (render (TChar ch :: tokens)))%nat.
Proof.
  intros Hparen Hch Hplain.
  pose proof (span_while_app (tok_is test) (TChar ch :: tokens)) as Happ.
  pose proof (span_while_Forall (tok_is test) (TChar ch :: tokens)) as Hall.
  rewrite span_while_render by done.
  destruct (OptimiserLength.span_while (tok_is test) (TChar ch :: tokens))
    as [g rest] eqn:E.
  simpl in Happ, Hall. exists g, rest.
  assert (g <> []) as Hne.
  { simpl in E. rewrite Hch in E.
    destruct (OptimiserLength.span_while (tok_is test) tokens).
    by injection E as <- <-. }
  split; [done|]. split; [done|]. split; [done|]. split; [done|]. split.
  - unfold plain_tokens in *. rewrite Happ in Hplain.
    by apply Forall_app in Hplain as [_ ?].
  - rewrite Happ, render_app, length_app.
    rewrite (render_chars g test Hall). destruct g; [done|simpl; lia].
Qed.

Lemma simplify_tokens_render (fuel : nat) (tokens : list token) :
  plain_tokens tokens -> (length (render tokens) <= fuel)%nat ->
  exists groups,
    OptimiserLength.simplify_tokens fuel (render tokens) = Ok (map render groups)
    /\ concat groups = tokens
    /\ Forall group_ok groups.
Proof.
  revert tokens. induction fuel as [|fuel IH]; intros tokens Hplain Hlen.
  - assert (tokens = []) as ->.
    { apply render_nil. destruct (render tokens); [done|simpl in Hlen; lia]. }
    by exists [].
  - destruct tokens as [|[n m|ch] tokens]; [by exists []| |].
    + apply Forall_cons in Hplain as [Hnm Hplain].
      change (render (TRange n m :: tokens))
        with (render_token (TRange n m) ++ render tokens) in *.
      pose proof (up_to_close_render n m (render tokens)) as Hclose.
      pose proof (render_token_nonempty (TRange n m)) as Hpos.
      rewrite length_app in Hlen.
      destruct (IH tokens Hplain ltac:(lia)) as (groups & E & Hcat & Hok).
      exists ([TRange n m] :: groups).
      destruct (render_token (TRange n m)) as [|c body] eqn:Ebody; [done|].
      assert (c = "("%char) as -> by (by injection Ebody).
      cbn [app] in *. rewrite simplify_tokens_step.
      change (char_eqb "(" "(") with true. cbv iota.
      rewrite Hclose, E. cbn [mbind result_bind map].
      change (render [TRange n m]) with (render_token (TRange n m) ++ []).
      rewrite app_nil_r, Ebody. split; [done|]. split; [by rewrite <- Hcat|].
      constructor; [|done]. left. by exists n, m.
    + assert (ch <> "("%char) as Hch.
      { by apply Forall_cons in Hplain as [? _]. }
      assert (char_eqb ch "(" = false) as Hparen.
      { unfold char_eqb. by apply Ascii.eqb_neq. }
      assert (OptimiserLength.simplify_tokens (S fuel) (render (TChar ch :: tokens))
              = if char_eqb ch "_" then
                  let '(run, rest) :=
                    OptimiserLength.span_while is_underscore
                      (render (TChar ch :: tokens)) in
                  tokens ← OptimiserLength.simplify_tokens fuel rest;
                  Ok (run :: tokens)
                else
                  let '(run, rest) :=
                    OptimiserLength.span_while is_block_char
                      (render (TChar ch :: tokens)) in
                  tokens ← OptimiserLength.simplify_tokens fuel rest;
                  Ok (run :: tokens)) as Hstep.
      { change (render (TChar ch :: tokens)) with (ch :: render tokens).
        by rewrite simplify_tokens_step, Hparen. }
      destruct (char_eqb ch "_") eqn:Eu.
      * destruct (cut_run is_underscore ch tokens eq_refl Eu Hplain)
          as (g & rest & Hspan & Happ & Hne & Hall & Hrest & Hshort).
        destruct (IH rest Hrest ltac:(lia)) as (groups & E & Hcat & Hok).
        exists (g :: groups). rewrite Hstep, Hspan, E. cbn [mbind result_bind map].
        split; [done|]. split; [simpl; by rewrite Hcat|].
        constructor; [|done]. right. left. by split.
      * assert (is_block_char ch = true) as Hb.
        { unfold is_block_char. by rewrite Hparen, Eu. }
        destruct (cut_run is_block_char ch tokens eq_refl Hb Hplain)
          as (g & rest & Hspan & Happ & Hne & Hall & Hrest & Hshort).
        destruct (IH rest Hrest ltac:(lia)) as (groups & E & Hcat & Hok).
        exists (g :: groups). rewrite Hstep, Hspan, E. cbn [mbind result_bind map].
        split; [done|]. split; [simpl; by rewrite Hcat|].
        constructor; [|done]. right. right. by split.
Qed.

(** *** Combining ranges and runs of ['_'] *)

Lemma is_flexible_render (g : list token) :
  OptimiserLength.is_flexible (render g) = group_flex g.
Proof. by destruct g as [|[n m|ch] g]. Qed.

Lemma underscore_token (t : token) :
  tok_is is_underscore t = true -> t = TChar "_".
Proof.
  destruct t as [|ch]; [done|]. simpl. unfold is_underscore, char_eqb.
  by intros ->%Ascii.eqb_eq.
Qed.

Lemma block_token (t : token) :
  tok_is is_block_char t = true ->
  exists ch, t = TChar ch /\ char_eqb ch "(" = false /\ char_eqb ch "_" = false.
Proof.
  destruct t as [|ch]; [done|]. simpl. unfold is_block_char.
  intros [? ?]%negb_true_iff%orb_false_iff. by exists ch.
Qed.

Lemma flexible_group (g : list token) :
  group_ok g -> group_flex g = true -> range_group g \/ underscore_group g.
Proof.
  intros [?|[?|[Hne Hall]]] Hflex; [by left|by right|exfalso].
  destruct g as [|t g]; [done|]. apply Forall_cons in Hall as [Ht _].
  apply block_token in Ht as (ch & -> & H1 & H2). simpl in Hflex.
  by rewrite H1, H2 in Hflex.
Qed.

Lemma group_plain (g : list token) : group_ok g -> plain_tokens g.
Proof.
  intros [(n & m & -> & Hnm)|[[_ Hall]|[_ Hall]]].
  - by repeat constructor.
  - eapply Forall_impl; [exact Hall|]. by intros t ->%underscore_token.
  - eapply Forall_impl; [exact Hall|].
    intros t (ch & -> & H1 & _)%block_token. simpl.
    unfold char_eqb in H1. by apply Ascii.eqb_neq.
Qed.

Lemma combined_plain (a b : nat) : (a <= b)%nat -> plain_tokens (combined a b).
Proof.
  intros Hab. unfold combined. destruct (a =? b)%nat.
  - apply Forall_forall. by intros t ->%elem_of_replicate_inv.
  - by repeat constructor.
Qed.

Lemma render_underscores (k : nat) :
  render (replicate k (TChar "_")) = replicate k "_"%char.
Proof. induction k as [|k IH]; [done|]. simpl. by rewrite <- IH. Qed.

Lemma render_combined (a b : nat) :
  (if Z.of_nat a =? Z.of_nat b then underscores (Z.of_nat a)
   else s "(" ++ str_of_Z (Z.of_nat a) ++ s "," ++ str_of_Z (Z.of_nat b) ++ s ")")
  = render (combined a b).
Proof.
  unfold combined. destruct (Nat.eqb_spec a b) as [->|Hne].
  - rewrite Z.eqb_refl, render_underscores. unfold underscores.
    by rewrite Nat2Z.id.
  - assert ((Z.of_nat a =? Z.of_nat b) = false) as -> by (apply Z.eqb_neq; lia).
    change (render [TRange a b]) with (render_token (TRange a b) ++ []).
    by rewrite app_nil_r.
Qed.

(** *** Reading a printed range back *)

Lemma split_on_plain (sep : ascii) (text : str) :
  forallb (fun ch => negb (char_eqb ch sep)) text = true ->
  split_on sep text = [text].
Proof.
  induction text as [|ch text IH]; [done|]. cbn [forallb split_on].
  intros [Hch Htext]%andb_true_iff. apply negb_true_iff in Hch.
  by rewrite Hch, IH.
Qed.

Lemma split_on_app (sep : ascii) (pre rest : str) :
  forallb (fun ch => negb (char_eqb ch sep)) pre = true ->
  split_on sep (pre ++ sep :: rest) = pre :: split_on sep rest.
Proof.
  induction pre as [|ch pre IH]; cbn [forallb app split_on].
  - intros _. unfold char_eqb. by rewrite Ascii.eqb_refl.
  - intros [Hch Hpre]%andb_true_iff. apply negb_true_iff in Hch.
    by rewrite Hch, IH.
Qed.

Lemma digit_plain (ch : ascii) :
  char_isdigit ch = true ->
  char_eqb ch "," = false /\ int_space ch = false
  /\ char_eqb ch "-" = false /\ char_eqb ch "+" = false.
Proof. destruct ch as [[] [] [] [] [] [] [] []]; vm_compute; try done. Qed.

Lemma skip_space_digits (ds : str) :
  forallb char_isdigit ds = true -> skip_space ds = ds.
Proof.
  destruct ds as [|d ds]; [done|]. cbn [forallb skip_space].
  intros [Hd _]%andb_true_iff.
  destruct (digit_plain d Hd) as (_ & -> & _). done.
Qed.

Lemma int_literal_digits (ds : str) :
  forallb char_isdigit ds = true -> int_literal ds = ds.
Proof.
  intros Hds. unfold int_literal.
  rewrite (skip_space_digits ds Hds), skip_space_digits.
  - apply rev_involutive.
  - apply forallb_forall. intros d Hd%in_rev.
    by eapply forallb_forall in Hds.
Qed.

Lemma grouped_digits_all (ds : str) :
  forallb char_isdigit ds = true -> grouped_digits true ds = true.
Proof.
  induction ds as [|d ds IH]; [done|]. cbn [forallb grouped_digits].
  intros [-> Hds]%andb_true_iff. by apply IH.
Qed.

Lemma filter_digits (ds : str) :
  forallb char_isdigit ds = true -> List.filter char_isdigit ds = ds.
Proof.
  induction ds as [|d ds IH]; [done|]. cbn [forallb List.filter].
  intros [-> Hds]%andb_true_iff. by rewrite IH.
Qed.

(** [int(str(n))] is [n]. *)
Lemma int_str_of_nat (n : nat) : int_ (str_of_Z (Z.of_nat n)) = Ok (Z.of_nat n).
Proof.
  destruct (str_of_nat_digits n) as (Hne & Hds & Hint).
  unfold int_. rewrite (int_literal_digits _ Hds).
  destruct (str_of_Z (Z.of_nat n)) as [|d ds] eqn:E; [done|].
  cbn [forallb] in Hds. apply andb_true_iff in Hds as [Hd Hds].
  destruct (digit_plain d Hd) as (_ & _ & -> & ->).
  cbn [grouped_digits]. rewrite Hd, (grouped_digits_all ds Hds).
  rewrite (filter_digits (d :: ds)); [by rewrite Hint|].
  cbn [forallb]. by rewrite Hd, Hds.
Qed.

Lemma digits_no_comma (n : nat) :
  forallb (fun ch => negb (char_eqb ch ",")) (str_of_Z (Z.of_nat n)) = true.
Proof.
  destruct (str_of_nat_digits n) as (_ & Hds & _).
  apply forallb_forall. intros d Hd.
  eapply forallb_forall in Hds; [|exact Hd].
  destruct (digit_plain d Hds) as (-> & _). done.
Qed.

(** The two bounds of a printed range. *)
Lemma parse_range_render (n m : nat) :
  OptimiserLength.parse_range (render_token (TRange n m))
  = Ok (Z.of_nat n, Z.of_nat m).
Proof.
  unfold OptimiserLength.parse_range, render_token.
  change (s "(" ++ ?x) with ("("%char :: x). cbn [tl].
  change (s "," ++ ?x) with (","%char :: x).
  assert (str_of_Z (Z.of_nat n) ++ ","%char :: str_of_Z (Z.of_nat m) ++ s ")"
          = (str_of_Z (Z.of_nat n) ++ ","%char :: str_of_Z (Z.of_nat m))
              ++ [")"%char]) as -> by (by rewrite <- app_assoc).
  rewrite removelast_last.
  rewrite split_on_app by apply digits_no_comma.
  rewrite split_on_plain by apply digits_no_comma.
  unfold list_index. cbn [lookup list_lookup mbind result_bind].
  rewrite !int_str_of_nat. reflexivity.
Qed.

Lemma sum_sequence_range (body : str) (sequence : list str) (a b : Z) :
  OptimiserLength.sum_sequence (("("%char :: body) :: sequence) a b
  = match OptimiserLength.parse_range ("("%char :: body) with
    | Ok (n, m) => OptimiserLength.sum_sequence sequence (a + n) (b + m)
    | Raise e => Raise e
    end.
Proof. reflexivity. Qed.

Lemma sum_sequence_underscores (run : str) (sequence : list str) (a b : Z) :
  OptimiserLength.sum_sequence (("_"%char :: run) :: sequence) a b
  = OptimiserLength.sum_sequence sequence
      (a + Z.of_nat (S (length run))) (b + Z.of_nat (S (length run))).
Proof. reflexivity. Qed.

(** The sums over a sequence of printed ranges and runs of ['_']. *)
Lemma sum_sequence_render (groups : list (list token)) (a b : Z) :
  Forall (fun g => range_group g \/ underscore_group g) groups ->
  OptimiserLength.sum_sequence (map render groups) a b
  = Ok (a + Z.of_nat (min_cells groups), b + Z.of_nat (max_cells groups)).
Proof.
  intros Hall. revert a b.
  induction Hall as [|g groups Hg _ IH]; intros a b.
  - unfold min_cells, max_cells. simpl. by rewrite !Z.add_0_r.
  - unfold min_cells, max_cells in *. cbn [map list_sum].
    destruct Hg as [(n & m & -> & Hnm)|[Hne Hrun]].
    + change (render [TRange n m]) with (render_token (TRange n m) ++ []).
      rewrite app_nil_r.
      pose proof (parse_range_render n m) as Hm.
      destruct (render_token (TRange n m)) as [|c body] eqn:E; [done|].
      assert (c = "("%char) as -> by (by injection E).
      rewrite sum_sequence_range, Hm, IH. cbn [group_bounds fst snd].
      change (list_sum (?x :: ?l)) with (x + list_sum l)%nat.
      f_equal. f_equal; lia.
    + pose proof (render_chars g is_underscore Hrun) as Hlen.
      assert (group_bounds g = (length g, length g)) as ->.
      { destruct g as [|[n m|ch] g']; [done| |done].
        by apply Forall_cons in Hrun as [? _]. }
      destruct g as [|t g]; [done|].
      apply Forall_cons in Hrun as [->%underscore_token Hrun].
      change (render (TChar "_" :: g)) with ("_"%char :: render g) in *.
      rewrite sum_sequence_underscores, IH. simpl in Hlen.
      injection Hlen as ->. cbn [fst snd length].
      change (list_sum (?x :: ?l)) with (x + list_sum l)%nat.
      f_equal. f_equal; lia.
Qed.

Lemma combine_tokens_step (fuel : nat) (token : str) (tokens : list str) :
  OptimiserLength.combine_tokens (S fuel) (token :: tokens)
  = if OptimiserLength.is_flexible token then
      let '(more, rest) :=
        OptimiserLength.span_while OptimiserLength.is_flexible tokens in
      match more with
      | [] =>
          simplified ← OptimiserLength.combine_tokens fuel tokens;
          Ok (token :: simplified)
      | _ =>
          '(min_sum, max_sum) ← OptimiserLength.sum_sequence (token :: more) 0 0;
          let combined :=
            if min_sum =? max_sum then underscores min_sum
            else s "(" ++ str_of_Z min_sum ++ s "," ++ str_of_Z max_sum ++ s ")" in
          simplified ← OptimiserLength.combine_tokens fuel rest;
          Ok (combined :: simplified)
      end
    else
      simplified ← OptimiserLength.combine_tokens fuel tokens;
      Ok (token :: simplified).
Proof. reflexivity. Qed.

Lemma instance_cons_group (g : list token) (ts1 ts2 : list token) :
  (forall p, instance_of ts1 p <-> instance_of ts2 p) ->
  forall p, instance_of (g ++ ts1) p <-> instance_of (g ++ ts2) p.
Proof.
  intros H p. rewrite !instance_app.
  split; intros (p1 & p2 & -> & H1 & H2); exists p1, p2;
    (split; [done|]); (split; [done|]); by apply (H p2).
Qed.

Lemma letters_of_app (ts1 ts2 : list token) :
  letters_of (ts1 ++ ts2) = letters_of ts1 ++ letters_of ts2.
Proof. apply flat_map_app. Qed.

Lemma flexible_no_letters (groups : list (list token)) :
  Forall (fun g => range_group g \/ underscore_group g) groups ->
  letters_of (concat groups) = [].
Proof.
  induction 1 as [|g groups Hg _ IH]; [done|]. cbn [concat].
  rewrite letters_of_app, IH, app_nil_r.
  destruct Hg as [(n & m & -> & _)|[_ Hall]]; [done|].
  induction Hall as [|t g Ht _ IHg]; [done|].
  apply underscore_token in Ht as ->. exact IHg.
Qed.

Lemma combined_no_letters (a b : nat) : letters_of (combined a b) = [].
Proof.
  unfold combined. destruct (a =? b)%nat; [|done].
  induction a as [|a IH]; [done|exact IH].
Qed.

Lemma combine_tokens_render (fuel : nat) (groups : list (list token)) :
  Forall group_ok groups -> (length groups <= fuel)%nat ->
  exists groups',
    OptimiserLength.combine_tokens fuel (map render groups)
    = Ok (map render groups')
    /\ plain_tokens (concat groups')
    /\ (forall p, instance_of (concat groups') p <-> instance_of (concat groups) p)
    /\ letters_of (concat groups') = letters_of (concat groups)
    /\ forall Q : token -> Prop,
         (forall a b, (a <= b)%nat -> Forall Q (combined a b)) ->
         Forall Q (concat groups) -> Forall Q (concat groups').
Proof.
  revert groups. induction fuel as [|fuel IH]; intros groups Hok Hlen.
  - destruct groups; [|simpl in Hlen; lia]. exists [].
    split; [done|]. split; [constructor|]. split; [done|]. split; [done|].
    by intros Q _ _.
  - destruct groups as [|g groups].
    { exists []. split; [done|]. split; [constructor|]. split; [done|].
      split; [done|]. by intros Q _ _. }
    apply Forall_cons in Hok as [Hg Hok]. simpl in Hlen.
    cbn [map]. rewrite combine_tokens_step, is_flexible_render.
    destruct (group_flex g) eqn:Eflex.
    + rewrite span_while_map.
      rewrite (span_while_ext _ group_flex) by apply is_flexible_render.
      pose proof (span_while_app group_flex groups) as Happ.
      pose proof (span_while_Forall group_flex groups) as Hflex.
      destruct (OptimiserLength.span_while group_flex groups) as [more rest].
      cbn [fst snd] in *. subst groups.
      apply Forall_app in Hok as [Hmore Hrest]. rewrite length_app in Hlen.
      destruct more as [|g1 more].
      * cbn [map app] in *.
        destruct (IH rest Hrest ltac:(lia))
          as (rest' & E & Hplain & Hinst & Hlet & HQ).
        exists (g :: rest'). rewrite E. cbn [mbind result_bind map concat].
        split; [done|]. split; [|split; [|split]].
        -- apply Forall_app. split; [by apply group_plain|done].
        -- by apply instance_cons_group.
        -- by rewrite !letters_of_app, Hlet.
        -- intros Q HQc [HQg HQrest]%Forall_app. apply Forall_app.
           split; [done|by apply HQ].
      * assert (Forall (fun g => range_group g \/ underscore_group g)
                       (g :: g1 :: more)) as Hseq.
        { constructor; [by apply flexible_group|].
          apply Forall_forall. intros x Hx. apply flexible_group.
          - eapply Forall_forall in Hmore; [exact Hmore|done].
          - eapply Forall_forall in Hflex; [exact Hflex|done]. }
        destruct (IH rest Hrest ltac:(lia))
          as (rest' & E & Hplain & Hinst & Hlet & HQ).
        set (a := min_cells (g :: g1 :: more)).
        set (b := max_cells (g :: g1 :: more)).
        destruct (instance_flexible (g :: g1 :: more) [] Hseq) as [Hab _].
        fold a b in Hab.
        exists (combined a b :: rest').
        change (map render (g1 :: more)) with (render g1 :: map render more).
        cbv iota.
        change (render g :: render g1 :: map render more)
          with (map render (g :: g1 :: more)).
        rewrite (sum_sequence_render _ 0 0 Hseq). fold a b.
        cbn [mbind result_bind]. rewrite !Z.add_0_l, render_combined, E.
        cbn [mbind result_bind map concat].
        replace (g ++ concat ((g1 :: more) ++ rest))
          with (concat (g :: g1 :: more) ++ concat rest)
          by (rewrite concat_app; cbn [concat]; by rewrite <- !app_assoc).
        split; [done|]. split; [|split; [|split]].
        -- apply Forall_app. split; [by apply combined_plain|done].
        -- intros p. rewrite !instance_app.
           split; intros (p1 & p2 & -> & H1 & H2); exists p1, p2;
             (split; [done|]); (split; [|by apply (Hinst p2)]).
           ++ apply (instance_flexible _ _ Hseq).
              by apply instance_combined in H1.
           ++ apply instance_combined; [done|].
              by apply (instance_flexible _ _ Hseq) in H1.
        -- rewrite !letters_of_app, Hlet, combined_no_letters.
           by rewrite (flexible_no_letters _ Hseq).
        -- intros Q HQc [_ HQrest]%Forall_app. apply Forall_app.
           split; [by apply HQc|by apply HQ].
    + destruct (IH groups Hok ltac:(lia))
        as (rest' & E & Hplain & Hinst & Hlet & HQ).
      exists (g :: rest'). rewrite E. cbn [mbind result_bind map concat].
      split; [done|]. split; [|split; [|split]].
      * apply Forall_app. split; [by apply group_plain|done].
      * by apply instance_cons_group.
      * by rewrite !letters_of_app, Hlet.
      * intros Q HQc [HQg HQrest]%Forall_app. apply Forall_app.
        split; [done|by apply HQ].
Qed.

(** The simplifier on a printed pattern: it prints a pattern with the
    same fixed patterns and the same letters. *)
Lemma simplify_render (tokens : list token) :
  plain_tokens tokens ->
  exists tokens',
    OptimiserLength._simplify_pattern (render tokens) = Ok (render tokens')
    /\ plain_tokens tokens'
    /\ (forall p, instance_of tokens' p <-> instance_of tokens p)
    /\ letters_of tokens' = letters_of tokens
    /\ forall Q : token -> Prop,
         (forall a b, (a <= b)%nat -> Forall Q (combined a b)) ->
         Forall Q tokens -> Forall Q tokens'.
Proof.
  intros Hplain. unfold OptimiserLength._simplify_pattern.
  destruct (simplify_tokens_render (length (render tokens)) tokens Hplain
              ltac:(lia)) as (groups & E & Hcat & Hok).
  rewrite E. cbn [mbind result_bind].
  destruct (combine_tokens_render (length (map render groups)) groups Hok)
    as (groups' & E' & Hplain' & Hinst & Hlet & HQ).
  { by rewrite length_map. }
  rewrite E'. cbn [mbind result_bind]. exists (concat groups').
  rewrite render_concat. rewrite Hcat in *. done.
Qed.

Lemma patterns_of_render (tokens : list token) (p : str) :
  plain_tokens tokens ->
  p ∈ DynamicPatternGenerator.__list_all_patterns (render tokens)
  <-> instance_of tokens p.
Proof.
  intros Hplain. unfold DynamicPatternGenerator.__list_all_patterns.
  rewrite expand_instances.
  pose proof (tokenize_render tokens [] Hplain) as H.
  cbn [DynamicPatternGenerator.tokenize] in H. rewrite !app_nil_r in H.
  by rewrite H.
Qed.

(** X16.  [_simplify_pattern] on a pattern printed from ranges
    [(n,m)] with [n <= m], written in decimal, and characters other
    than ['(']: it does not raise, and the pattern it returns has, for
    the expander's [__list_all_patterns], exactly the fixed patterns of
    the pattern it was given.  Combining adjacent ranges and runs of
    ['_'] changes how the pattern is written and how often a fixed
    pattern is listed, never which ones. *)
Theorem simplify_pattern_keeps_instances (tokens : list token) :
  plain_tokens tokens ->
  exists simplified,
    OptimiserLength._simplify_pattern (render tokens) = Ok simplified
    /\ forall p,
         p ∈ DynamicPatternGenerator.__list_all_patterns simplified
         <-> p ∈ DynamicPatternGenerator.__list_all_patterns (render tokens).
Proof.
  intros Hplain.
  destruct (simplify_render tokens Hplain) as (tokens' & E & Hplain' & Hinst & _).
  exists (render tokens'). split; [done|]. intros p.
  by rewrite !patterns_of_render.
Qed.

Lemma simplify_pattern_keeps_instances_witness :
  exists simplified,
    OptimiserLength._simplify_pattern
      (render [TRange 0 2; TChar "_"; TRange 0 6]) = Ok simplified
    /\ forall p,
         p ∈ DynamicPatternGenerator.__list_all_patterns simplified
         <-> p ∈ DynamicPatternGenerator.__list_all_patterns
                   (render [TRange 0 2; TChar "_"; TRange 0 6]).
Proof.
  apply simplify_pattern_keeps_instances.
  repeat constructor; simpl; (lia || congruence).
Defined.

(** The examples of the docstring: the first is what the code does;
    a run of ['_'] after a block is left as it is. *)
Example simplify_pattern_examples :
  render [TRange 0 2; TChar "_"; TRange 0 6] = s "(0,2)_(0,6)"
  /\ OptimiserLength._simplify_pattern (s "(0,2)_(0,6)") = Ok (s "(1,9)")
  /\ OptimiserLength._simplify_pattern (s "(0,3)AB___(0,4)")
     = Ok (s "(0,3)AB(3,7)")
  /\ OptimiserLength._simplify_pattern (s "AB___") = Ok (s "AB___")
  /\ OptimiserLength._simplify_pattern (s "AB(0,2")
     = Raise (ValueError SubstringNotFound).
Proof. repeat split; vm_compute; reflexivity. Qed.

(** Range tokens that no pattern builder prints: [split] and [int]
    read the first two fields and skip white space around a number. *)
Example simplify_pattern_odd_ranges :
  OptimiserLength._simplify_pattern (s "(1,2,3)_") = Ok (s "(2,3)")
  /\ OptimiserLength._simplify_pattern (s "( 1,+2 )_") = Ok (s "(2,3)")
  /\ OptimiserLength._simplify_pattern (s "(1_0,12)_") = Ok (s "(11,13)")
  /\ OptimiserLength._simplify_pattern (s "(-1,0)_") = Ok (s "(0,1)")
  /\ OptimiserLength._simplify_pattern (s "(1)_")
     = Raise (IndexError "list index out of range")
  /\ OptimiserLength._simplify_pattern (s "(a,2)_")
     = Raise (ValueError (InvalidLiteral (s "a")))
  /\ OptimiserLength._simplify_pattern (s "(1__0,2)_")
     = Raise (ValueError (InvalidLiteral (s "1__0")))
  /\ OptimiserLength._simplify_pattern (s "(1,2)") = Ok (s "(1,2)").
Proof. repeat split; vm_compute; reflexivity. Qed.

(** ** The pattern built for a selection of blocks *)

Lemma render_map_chars (l : str) : render (map TChar l) = l.
Proof. induction l as [|ch l IH]; [done|]. simpl. by rewrite <- IH at 2. Qed.

Lemma render_tail (t : Z) :
  render (tail_tokens t)
  = concat (if t >? 0 then [s "(0," ++ str_of_Z t ++ s ")"] else []).
Proof.
  unfold tail_tokens. destruct (Z.gtb_spec t 0) as [Ht|Ht]; [|done].
  cbn [render flat_map render_token concat]. rewrite Z2Nat.id by lia.
  by rewrite !app_nil_r.
Qed.

Lemma concat_left_parts (l : list (str * Z)) :
  concat (flat_map (fun p => let '(blk, k) := p in
                             blk :: (if k >? 0 then [underscores k] else [])) l)
  = concat (map (fun p => fst p ++ underscores (snd p)) l).
Proof.
  induction l as [|[blk k] l IH]; [done|]. cbn [flat_map map fst snd].
  rewrite concat_app, IH. cbn [concat]. f_equal. f_equal.
  destruct (Z.gtb_spec k 0) as [Hk|Hk]; cbn [concat]; [by rewrite app_nil_r|].
  unfold underscores. by replace (Z.to_nat k) with 0%nat by lia.
Qed.

Lemma concat_right_parts (l : list (str * Z)) :
  concat (flat_map (fun p => let '(blk, k) := p in
                             (if k >? 0 then [underscores k] else []) ++ [blk]) l)
  = concat (map (fun p => underscores (snd p) ++ fst p) l).
Proof.
  induction l as [|[blk k] l IH]; [done|]. cbn [flat_map map fst snd].
  rewrite concat_app, IH. cbn [concat]. f_equal.
  destruct (Z.gtb_spec k 0) as [Hk|Hk]; cbn [app concat];
    [by rewrite app_nil_r|].
  unfold underscores. replace (Z.to_nat k) with 0%nat by lia.
  by rewrite app_nil_r.
Qed.

Lemma instance_chars (l p : str) : instance_of (map TChar l) p <-> p = l.
Proof.
  revert p. induction l as [|ch l IH]; intros p; simpl.
  - split; [by inversion 1|intros ->; constructor].
  - split.
    + inversion 1; subst. f_equal. by apply IH.
    + intros ->. constructor. by apply IH.
Qed.

Lemma instance_tail (t : Z) (p : str) :
  0 <= t ->
  instance_of (tail_tokens t) p
  <-> exists a : nat, Z.of_nat a <= t /\ p = replicate a "_"%char.
Proof.
  intros Ht. unfold tail_tokens. destruct (Z.gtb_spec t 0) as [Hpos|Hpos].
  - rewrite instance_one_range. split; intros (a & Ha & ->); exists a; (split; [lia|done]).
  - split.
    + inversion 1. exists 0%nat. split; [lia|done].
    + intros (a & Ha & ->). replace a with 0%nat by lia. constructor.
Qed.

Lemma tail_plain (t : Z) : plain_tokens (tail_tokens t).
Proof.
  unfold tail_tokens. destruct (t >? 0); repeat constructor. simpl. lia.
Qed.

Lemma chars_plain (l : str) :
  Forall (fun ch => ch <> "("%char) l -> plain_tokens (map TChar l).
Proof. intros H. apply Forall_map. eapply Forall_impl; [exact H|]. done. Qed.

Lemma underscores_no_paren (k : Z) :
  Forall (fun ch => ch <> "("%char) (underscores k).
Proof. apply Forall_forall. by intros ch ->%elem_of_replicate_inv. Qed.

Lemma no_paren_zip (blocks : list str) (gaps : list Z) (f : str * Z -> str) :
  (forall p, Forall (fun ch => ch <> "("%char) (fst p) ->
             Forall (fun ch => ch <> "("%char) (f p)) ->
  no_paren blocks ->
  Forall (fun ch => ch <> "("%char) (concat (map f (zip blocks gaps))).
Proof.
  intros Hf Hb. revert gaps. induction Hb as [|blk blocks Hblk _ IH]; intros gaps;
    [constructor|].
  destruct gaps as [|k gaps]; [constructor|]. simpl.
  apply Forall_app. split; [by apply Hf|apply IH].
Qed.

Lemma raw_tokens_plain (meta : Meta) :
  no_paren (left_blocks meta) -> no_paren (right_blocks meta) ->
  plain_tokens (raw_tokens meta).
Proof.
  intros Hl Hr. unfold raw_tokens, plain_tokens.
  rewrite !Forall_app. split; [apply tail_plain|].
  split.
  { apply chars_plain. unfold left_cells. apply no_paren_zip.
    - intros p Hp. apply Forall_app. split; [done|apply underscores_no_paren].
    - unfold no_paren. by apply Forall_rev. }
  split; [by repeat constructor|]. split; [|apply tail_plain].
  apply chars_plain. unfold right_cells. apply no_paren_zip; [|done].
  intros p Hp. apply Forall_app. split; [apply underscores_no_paren|done].
Qed.

(** The fixed patterns of the tokens printed are the layouts. *)
Lemma raw_tokens_layouts (meta : Meta) (p : str) :
  0 <= left_tail meta -> 0 <= right_tail meta ->
  instance_of (raw_tokens meta) p <-> layout_of meta p.
Proof.
  intros Hl Hr. unfold raw_tokens, layout_of.
  rewrite instance_app. setoid_rewrite instance_app.
  setoid_rewrite instance_app. setoid_rewrite instance_app.
  setoid_rewrite instance_chars. setoid_rewrite (instance_tail _ _ Hl).
  setoid_rewrite (instance_tail _ _ Hr).
  split.
  - intros (p1 & p2 & -> & (a & Ha & ->)
            & p3 & p4 & -> & -> & p5 & p6 & -> & Hanchor
            & p7 & p8 & -> & -> & c & Hc & ->).
    apply (instance_chars ["_"%char]) in Hanchor as ->.
    exists a, c. split; [done|]. split; [done|]. reflexivity.
  - intros (a & c & Ha & Hc & ->).
    exists (replicate a "_"%char). eexists. split; [reflexivity|].
    split; [by exists a|].
    exists (left_cells meta). eexists. split; [reflexivity|]. split; [done|].
    exists ["_"%char]. eexists. split; [reflexivity|].
    split; [by apply (instance_chars ["_"%char])|].
    exists (right_cells meta). eexists. split; [reflexivity|]. split; [done|].
    by exists c.
Qed.

(** The text the builder hands to the simplifier. *)
Lemma raw_pattern_render (lblocks : list str) (lgaps : list Z)
    (ltail : Z) (rblocks : list str) (rgaps : list Z)
    (rtail rack_len : Z) :
  let meta := meta_of lblocks lgaps ltail
                      rblocks rgaps rtail rack_len in
  OptimiserLength._build_pattern_from_selection
    lblocks lgaps ltail rblocks rgaps rtail rack_len
  = pattern ← OptimiserLength._simplify_pattern (render (raw_tokens meta));
    Ok (pattern, concat lblocks ++ concat rblocks, meta).
Proof.
  intros meta. unfold OptimiserLength._build_pattern_from_selection.
  cbv zeta. fold (adjusted_tail ltail rack_len lgaps rgaps).
  fold (adjusted_tail rtail rack_len lgaps rgaps).
  fold (meta_of lblocks lgaps ltail
                rblocks rgaps rtail rack_len). fold meta.
  f_equal. f_equal. unfold raw_tokens. rewrite !render_app, !render_map_chars.
  rewrite !render_tail, !concat_app, concat_left_parts, concat_right_parts.
  unfold left_cells, right_cells. simpl. by rewrite <- !app_assoc.
Qed.

Lemma adjusted_tail_bounds (tail rack_len : Z) (lgaps rgaps : list Z) :
  0 <= tail ->
  0 <= adjusted_tail tail rack_len lgaps rgaps <= tail
  /\ (1 + sum_Z lgaps + sum_Z rgaps <= rack_len ->
      1 + sum_Z lgaps + sum_Z rgaps
      + adjusted_tail tail rack_len lgaps rgaps <= rack_len).
Proof.
  intros Ht. unfold adjusted_tail. cbv zeta.
  destruct (Z.gtb_spec (rack_len - (1 + sum_Z lgaps + sum_Z rgaps)) 0);
    lia.
Qed.

Lemma build_pattern_spec (lblocks : list str) (lgaps : list Z)
    (ltail : Z) (rblocks : list str) (rgaps : list Z)
    (rtail rack_len : Z) :
  no_paren lblocks -> no_paren rblocks ->
  0 <= ltail -> 0 <= rtail ->
  let meta := meta_of lblocks lgaps ltail
                      rblocks rgaps rtail rack_len in
  exists pattern,
    OptimiserLength._build_pattern_from_selection
      lblocks lgaps ltail rblocks rgaps rtail rack_len
    = Ok (pattern, concat lblocks ++ concat rblocks, meta)
    /\ forall p,
         p ∈ DynamicPatternGenerator.__list_all_patterns pattern
         <-> layout_of meta p.
Proof.
  intros Hlb Hrb Hlt Hrt meta. rewrite raw_pattern_render. fold meta.
  assert (plain_tokens (raw_tokens meta)) as Hplain
    by (by apply raw_tokens_plain).
  destruct (simplify_render (raw_tokens meta) Hplain)
    as (tokens' & E & Hplain' & Hinst & _).
  rewrite E. cbn [mbind result_bind]. exists (render tokens').
  split; [done|]. intros p.
  rewrite patterns_of_render, Hinst by done.
  apply raw_tokens_layouts.
  - apply (adjusted_tail_bounds ltail rack_len lgaps rgaps Hlt).
  - apply (adjusted_tail_bounds rtail rack_len lgaps rgaps Hrt).
Qed.

(** X17.  [_build_pattern_from_selection] for blocks without ['('] and
    tails that are not negative: it does not raise; it returns the
    letters of the blocks and a [meta] that holds the blocks and gaps
    given and the two tails cut down to the tiles the rack has left
    after the anchor and the gaps; and the pattern it returns stands,
    for the expander, for exactly the layouts of that [meta]: up to
    [left_tail] free cells, the left blocks and gaps, the anchor cell,
    the right blocks and gaps, up to [right_tail] free cells. *)
Theorem build_pattern_layouts (lblocks : list str) (lgaps : list Z)
    (ltail : Z) (rblocks : list str) (rgaps : list Z)
    (rtail rack_len : Z) :
  no_paren lblocks -> no_paren rblocks ->
  0 <= ltail -> 0 <= rtail ->
  exists pattern meta,
    OptimiserLength._build_pattern_from_selection
      lblocks lgaps ltail rblocks rgaps rtail rack_len
    = Ok (pattern, concat lblocks ++ concat rblocks, meta)
    /\ meta = meta_of lblocks lgaps ltail
                      rblocks rgaps rtail rack_len
    /\ 0 <= left_tail meta <= ltail
    /\ 0 <= right_tail meta <= rtail
    /\ (1 + sum_Z lgaps + sum_Z rgaps <= rack_len ->
        1 + sum_Z lgaps + sum_Z rgaps
        + Z.max (left_tail meta) (right_tail meta)
        <= rack_len)
    /\ forall p,
         p ∈ DynamicPatternGenerator.__list_all_patterns pattern
         <-> layout_of meta p.
Proof.
  intros Hlb Hrb Hlt Hrt.
  destruct (build_pattern_spec lblocks lgaps ltail
              rblocks rgaps rtail rack_len Hlb Hrb Hlt Hrt)
    as (pattern & E & Hlayouts).
  exists pattern, (meta_of lblocks lgaps ltail
                           rblocks rgaps rtail rack_len).
  pose proof (adjusted_tail_bounds ltail rack_len lgaps rgaps Hlt)
    as [H1 H2].
  pose proof (adjusted_tail_bounds rtail rack_len lgaps rgaps Hrt)
    as [H3 H4].
  split; [done|]. split; [done|]. split; [done|]. split; [done|].
  split; [|done]. intros Hcost. specialize (H2 Hcost). specialize (H4 Hcost).
  cbn [left_tail right_tail meta_of] in *. lia.
Qed.

Lemma build_pattern_layouts_witness :
  exists pattern meta,
    OptimiserLength._build_pattern_from_selection
      [s "STAR"] [0] 1 [] [] 1 2
    = Ok (pattern, concat [s "STAR"] ++ concat [], meta)
    /\ meta = meta_of [s "STAR"] [0] 1 [] [] 1 2
    /\ 0 <= left_tail meta <= 1
    /\ 0 <= right_tail meta <= 1
    /\ (1 + sum_Z [0] + sum_Z [] <= 2 ->
        1 + sum_Z [0] + sum_Z [] + Z.max (left_tail meta) (right_tail meta) <= 2)
    /\ forall p,
         p ∈ DynamicPatternGenerator.__list_all_patterns pattern
         <-> layout_of meta p.
Proof.
  apply build_pattern_layouts.
  - repeat constructor; discriminate.
  - constructor.
  - lia.
  - lia.
Defined.

Example build_pattern_example :
  OptimiserLength._build_pattern_from_selection [s "STAR"] [0] 1 [] [] 1 2
  = Ok (s "(0,1)STAR(1,2)", s "STAR", meta_of [s "STAR"] [0] 1 [] [] 1 2).
Proof. vm_compute. reflexivity. Qed.

(** ** The expander on the patterns of the builder *)

Lemma scan_pattern_step (ch : ascii) (text : str) :
  DynamicPatternGenerator.scan_pattern 0 (ch :: text)
  = if char_eqb ch "(" then
      match match_range (ch :: text) with
      | None => Raise (ValueError InvalidRangeFormat)
      | Some (n, m, rest) =>
          if (m <=? n)%nat then Raise (ValueError (InvalidRange n m))
          else DynamicPatternGenerator.scan_pattern
                 (length text - length rest) text
      end
    else if char_isalpha ch then
      letters ← DynamicPatternGenerator.scan_pattern 0 text;
      Ok (char_upper ch :: letters)
    else if negb (char_eqb ch "_") then Raise (ValueError (InvalidCharacter ch))
    else DynamicPatternGenerator.scan_pattern 0 text.
Proof. reflexivity. Qed.

Lemma scan_skip (pre rest : str) :
  DynamicPatternGenerator.scan_pattern (length pre) (pre ++ rest)
  = DynamicPatternGenerator.scan_pattern 0 rest.
Proof. induction pre as [|ch pre IH]; [done|]. simpl. exact IH. Qed.

Lemma upper_digits (ds : str) : forallb char_isdigit ds = true -> upper ds = ds.
Proof.
  induction ds as [|d ds IH]; [done|]. cbn [forallb upper map].
  intros [Hd Hds]%andb_true_iff. unfold upper in IH. rewrite IH by done.
  f_equal. by apply char_upper_digit.
Qed.

Lemma upper_range (n m : nat) :
  upper (render_token (TRange n m)) = render_token (TRange n m).
Proof.
  destruct (str_of_nat_digits n) as (_ & Hn & _).
  destruct (str_of_nat_digits m) as (_ & Hm & _).
  unfold render_token, upper. rewrite !map_app.
  fold (upper (str_of_Z (Z.of_nat n))). fold (upper (str_of_Z (Z.of_nat m))).
  rewrite (upper_digits _ Hn), (upper_digits _ Hm). reflexivity.
Qed.

Lemma letter_not_paren (ch : ascii) :
  char_isalpha ch = true -> char_eqb (char_upper ch) "(" = false.
Proof. destruct ch as [[] [] [] [] [] [] [] []]; vm_compute; congruence. Qed.

(** The validating scan on a printed pattern counts its letters. *)
Lemma scan_render (tokens : list token) (rest : str) :
  Forall dpg_token tokens ->
  DynamicPatternGenerator.scan_pattern 0 (upper (render tokens) ++ rest)
  = letters ← DynamicPatternGenerator.scan_pattern 0 rest;
    Ok (map char_upper (letters_of tokens) ++ letters).
Proof.
  induction 1 as [|t tokens Ht _ IH].
  - simpl. by destruct (DynamicPatternGenerator.scan_pattern 0 rest).
  - change (render (t :: tokens)) with (render_token t ++ render tokens).
    assert (upper (render_token t ++ render tokens)
            = upper (render_token t) ++ upper (render tokens)) as ->
      by apply map_app.
    rewrite <- app_assoc. destruct t as [n m|ch].
    + rewrite upper_range.
      pose proof (match_range_render n m (upper (render tokens) ++ rest)) as Hm.
      destruct (render_token (TRange n m)) as [|c body] eqn:E; [done|].
      assert (c = "("%char) as -> by (by injection E).
      cbn [app] in *. rewrite scan_pattern_step.
      change (char_eqb "(" "(") with true. cbv iota. rewrite Hm.
      simpl in Ht. assert ((m <=? n)%nat = false) as -> by (apply Nat.leb_gt; lia).
      rewrite length_app.
      replace (length body + length (upper (render tokens) ++ rest)
               - length (upper (render tokens) ++ rest))%nat
        with (length body) by lia.
      rewrite scan_skip. exact IH.
    + cbn [render_token upper map app]. rewrite scan_pattern_step.
      destruct Ht as [Halpha| ->].
      * rewrite letter_not_paren, char_isalpha_upper, Halpha by done.
        fold (upper (render tokens)). rewrite IH.
        cbn [letters_of flat_map]. rewrite Halpha. cbn [app map].
        destruct (DynamicPatternGenerator.scan_pattern 0 rest); [|done].
        cbn [mbind result_bind]. by rewrite char_upper_idem.
      * change (char_upper "_") with "_"%char.
        change (char_eqb "_" "(") with false.
        change (char_isalpha "_") with false.
        change (char_eqb "_" "_") with true. cbv iota. cbn [negb].
        fold (upper (render tokens)). exact IH.
Qed.

Lemma counter_item (c : Counter) (x : ascii) (n : nat) :
  NoDup (map fst c) -> (x, n) ∈ c -> counter_get c x = n.
Proof.
  induction c as [|[key k] c IH]; [by intros _ ?%elem_of_nil|].
  cbn [map fst counter_get].
  intros [Hkey Hnd]%NoDup_cons [[= -> ->]|Hin]%elem_of_cons.
  - by rewrite char_eqb_dec, bool_decide_eq_true_2.
  - rewrite char_eqb_dec, bool_decide_eq_false_2; [by apply IH|].
    intros ->. apply Hkey.
    by apply (list_elem_of_fmap_2 fst) in Hin.
Qed.

(** A rack that holds every letter as often as the pattern needs it
    lacks nothing. *)
Lemma missing_letters_none (letters deck_letters : list ascii) :
  (forall x, (str_count x letters <= str_count x deck_letters)%nat) ->
  missing_letters (Counter_of letters) (Counter_of deck_letters) = 0%nat.
Proof.
  intros H. rewrite missing_letters_sum.
  assert (Forall (fun item =>
                    (snd item - counter_get (Counter_of deck_letters) (fst item)
                     = 0)%nat) (Counter_of letters)) as Hall.
  { apply Forall_forall. intros [x n] Hin. cbn [fst snd].
    pose proof (counter_item _ x n (Counter_of_NoDup letters) Hin) as E.
    rewrite counter_get_of in *. specialize (H x). lia. }
  induction Hall as [|item c Hitem _ IH]; [done|]. cbn [map list_sum].
  change (list_sum (?x :: ?l)) with (x + list_sum l)%nat. by rewrite Hitem, IH.
Qed.

Lemma dpg_verify_render (tokens : list token) (deck : str) :
  Forall dpg_token tokens ->
  forallb (fun char => char_isalpha char || char_eqb char "-") (upper deck) = true ->
  (forall x, (str_count x (map char_upper (letters_of tokens))
              <= str_count x (List.filter char_isalpha (upper deck)))%nat) ->
  DynamicPatternGenerator.__verify_pattern (render tokens) deck = Ok tt.
Proof.
  intros Htok Hdeck Hcount. unfold DynamicPatternGenerator.__verify_pattern.
  cbv zeta. pose proof (scan_render tokens [] Htok) as Hscan.
  rewrite app_nil_r in Hscan. rewrite Hscan.
  cbn [DynamicPatternGenerator.scan_pattern mbind result_bind].
  rewrite app_nil_r, Hdeck. cbn [negb].
  rewrite missing_letters_none by done.
  by destruct (str_count "-" (upper deck)).
Qed.

Lemma dpg_generate_render (tokens : list token) (deck : str)
    (word_list : list str) :
  plain_tokens tokens ->
  DynamicPatternGenerator.__verify_pattern (render tokens) deck = Ok tt ->
  (forall p, instance_of tokens p -> p <> []) ->
  exists words,
    DynamicPatternGenerator.generate (render tokens) deck word_list = Ok words
    /\ NoDup words
    /\ forall w,
         w ∈ words
         <-> exists p matches,
               instance_of tokens p
               /\ SimplePatternGenerator.generate p deck word_list = Ok matches
               /\ w ∈ matches.
Proof.
  intros Hplain Hverify Hne.
  assert (tokens_of (render tokens) = tokens) as Htok.
  { unfold tokens_of. pose proof (tokenize_render tokens [] Hplain) as H.
    cbn [DynamicPatternGenerator.tokenize] in H. by rewrite !app_nil_r in H. }
  unfold DynamicPatternGenerator.generate. rewrite Hverify.
  cbn [mbind result_bind]. cbv zeta.
  unfold DynamicPatternGenerator.__list_all_patterns.
  fold (tokens_of (render tokens)). rewrite Htok.
  destruct (union_loop_ok deck word_list
              (DynamicPatternGenerator.expand tokens) ∅) as (vw & Hfold & Hvw).
  { intros p Hp%expand_instances. apply simple_generate_ok.
    apply (simple_verify_instance (render tokens)); [done| |by apply Hne].
    by rewrite Htok. }
  rewrite Hfold. cbn [mbind result_bind].
  exists (elements vw). split; [done|]. split; [apply NoDup_elements|].
  intros w. rewrite elem_of_elements, Hvw. split.
  - intros [?%elem_of_empty|(p & ms & Hp%expand_instances & Hg & Hw)]; [done|].
    eauto.
  - intros (p & ms & Hp & Hg & Hw). right. exists p, ms.
    split; [by apply expand_instances|done].
Qed.

(** *** The letters of a built pattern *)

Lemma letters_of_chars (l : str) :
  letters_of (map TChar l) = List.filter char_isalpha l.
Proof.
  induction l as [|ch l IH]; [done|]. cbn [map letters_of flat_map List.filter].
  fold (letters_of (map TChar l)). rewrite IH. by destruct (char_isalpha ch).
Qed.

Lemma letters_of_tail (t : Z) : letters_of (tail_tokens t) = [].
Proof. unfold tail_tokens. by destruct (t >? 0). Qed.

Lemma raw_tokens_letters (meta : Meta) :
  letters_of (raw_tokens meta)
  = List.filter char_isalpha (left_cells meta)
    ++ List.filter char_isalpha (right_cells meta).
Proof.
  unfold raw_tokens. rewrite !letters_of_app, !letters_of_tail, !letters_of_chars.
  by rewrite app_nil_r.
Qed.

Lemma capital_letter (ch : ascii) :
  char_isupper ch = true ->
  char_isalpha ch = true /\ char_upper ch = ch /\ ch <> "("%char.
Proof. destruct ch as [[] [] [] [] [] [] [] []]; vm_compute; try done. Qed.

Lemma filter_capitals (l : str) :
  Forall (fun ch => char_isupper ch = true) l ->
  List.filter char_isalpha l = l /\ upper l = l.
Proof.
  induction 1 as [|ch l Hch _ [IH1 IH2]]; [done|].
  destruct (capital_letter ch Hch) as (Ha & Hu & _).
  cbn [List.filter upper map]. rewrite Ha. unfold upper in IH2.
  by rewrite IH1, IH2, Hu.
Qed.

Lemma filter_underscores (k : Z) : List.filter char_isalpha (underscores k) = [].
Proof.
  unfold underscores. induction (Z.to_nat k) as [|n IH]; [done|exact IH].
Qed.

Lemma left_cells_letters (blocks : list str) (gaps : list Z) :
  capital_blocks blocks -> length blocks = length gaps ->
  List.filter char_isalpha
    (concat (map (fun p => fst p ++ underscores (snd p)) (zip blocks gaps)))
  = concat blocks.
Proof.
  intros Hcap. revert gaps. induction Hcap as [|blk blocks Hblk _ IH];
    intros [|k gaps] Hlen; try done.
  cbn [zip zip_with map concat fst snd].
  rewrite !List.filter_app, filter_underscores, app_nil_r.
  rewrite (proj1 (filter_capitals blk Hblk)). f_equal. apply IH.
  simpl in Hlen. lia.
Qed.

Lemma right_cells_letters (blocks : list str) (gaps : list Z) :
  capital_blocks blocks -> length blocks = length gaps ->
  List.filter char_isalpha
    (concat (map (fun p => underscores (snd p) ++ fst p) (zip blocks gaps)))
  = concat blocks.
Proof.
  intros Hcap. revert gaps. induction Hcap as [|blk blocks Hblk _ IH];
    intros [|k gaps] Hlen; try done.
  cbn [zip zip_with map concat fst snd].
  rewrite !List.filter_app, filter_underscores, app_nil_l.
  rewrite (proj1 (filter_capitals blk Hblk)). f_equal. apply IH.
  simpl in Hlen. lia.
Qed.

Lemma capital_concat (blocks : list str) :
  capital_blocks blocks ->
  Forall (fun ch => char_isupper ch = true) (concat blocks).
Proof.
  induction 1 as [|blk blocks Hblk _ IH]; [constructor|].
  cbn [concat]. by apply Forall_app.
Qed.

Lemma str_count_concat_rev (x : ascii) (blocks : list str) :
  str_count x (concat (rev blocks)) = str_count x (concat blocks).
Proof.
  induction blocks as [|blk blocks IH]; [done|]. cbn [rev concat].
  rewrite concat_app, !str_count_app, IH. cbn [concat].
  rewrite app_nil_r. lia.
Qed.

Lemma capital_no_paren (blocks : list str) : capital_blocks blocks -> no_paren blocks.
Proof.
  intros H. eapply Forall_impl; [exact H|]. intros blk Hblk.
  eapply Forall_impl; [exact Hblk|]. intros ch Hch. by apply capital_letter.
Qed.

Lemma cells_dpg (l : str) :
  Forall (fun ch => char_isalpha ch = true \/ ch = "_"%char) l ->
  Forall dpg_token (map TChar l).
Proof. intros H. apply Forall_map. eapply Forall_impl; [exact H|]. done. Qed.

Lemma zip_cells (blocks : list str) (gaps : list Z) (f : str * Z -> str) :
  (forall p, Forall (fun ch => char_isupper ch = true) (fst p) ->
             Forall (fun ch => char_isalpha ch = true \/ ch = "_"%char) (f p)) ->
  capital_blocks blocks ->
  Forall (fun ch => char_isalpha ch = true \/ ch = "_"%char)
         (concat (map f (zip blocks gaps))).
Proof.
  intros Hf Hb. revert gaps. induction Hb as [|blk blocks Hblk _ IH]; intros gaps;
    [constructor|].
  destruct gaps as [|k gaps]; [constructor|]. cbn [zip zip_with map concat].
  apply Forall_app. split; [by apply Hf|apply IH].
Qed.

Lemma block_cells (blk : str) :
  Forall (fun ch => char_isupper ch = true) blk ->
  Forall (fun ch => char_isalpha ch = true \/ ch = "_"%char) blk.
Proof.
  intros H. eapply Forall_impl; [exact H|]. intros ch Hch. left.
  by apply capital_letter.
Qed.

Lemma underscore_cells (k : Z) :
  Forall (fun ch => char_isalpha ch = true \/ ch = "_"%char) (underscores k).
Proof. apply Forall_forall. intros ch ->%elem_of_replicate_inv. by right. Qed.

Lemma raw_tokens_dpg (meta : Meta) :
  capital_blocks (left_blocks meta) -> capital_blocks (right_blocks meta) ->
  Forall dpg_token (raw_tokens meta).
Proof.
  intros Hl Hr. unfold raw_tokens.
  assert (forall t, Forall dpg_token (tail_tokens t)) as Htail.
  { intros t. unfold tail_tokens. destruct (Z.gtb_spec t 0); repeat constructor.
    simpl. lia. }
  rewrite !Forall_app. split; [apply Htail|]. split.
  { apply cells_dpg. unfold left_cells. apply zip_cells.
    - intros p Hp. apply Forall_app. split; [by apply block_cells|].
      apply underscore_cells.
    - unfold capital_blocks. by apply Forall_rev. }
  split; [repeat constructor; by right|]. split; [|apply Htail].
  apply cells_dpg. unfold right_cells. apply zip_cells; [|done].
  intros p Hp. apply Forall_app. split; [apply underscore_cells|].
  by apply block_cells.
Qed.

Lemma combined_dpg (a b : nat) : (a <= b)%nat -> Forall dpg_token (combined a b).
Proof.
  intros Hab. unfold combined. destruct (Nat.eqb_spec a b) as [->|Hne].
  - apply Forall_forall. intros t ->%elem_of_replicate_inv. by right.
  - repeat constructor. simpl. lia.
Qed.

Lemma layout_nonempty (meta : Meta) (p : str) : layout_of meta p -> p <> [].
Proof.
  intros (a & c & _ & _ & ->) E. apply (f_equal length) in E.
  rewrite !length_app in E. simpl in E. lia.
Qed.

Lemma rack_check (rack fixed : str) :
  rack_tiles rack -> Forall (fun ch => char_isupper ch = true) fixed ->
  forallb (fun char => char_isalpha char || char_eqb char "-")
          (upper (upper rack ++ fixed)) = true.
Proof.
  intros Hrack Hfixed. apply forallb_forall. intros ch Hch%list_elem_of_In.
  unfold upper in Hch. rewrite map_app, map_map in Hch.
  apply elem_of_app in Hch as [Hch|Hch];
    apply list_elem_of_fmap in Hch as (c & -> & Hc).
  - eapply Forall_forall in Hrack; [|exact Hc].
    rewrite !char_isalpha_upper, !char_upper_dash.
    destruct Hrack as [->| ->]; [done|]. apply orb_true_r.
  - eapply Forall_forall in Hfixed; [|exact Hc].
    rewrite char_isalpha_upper. by destruct (capital_letter c Hfixed) as (-> & _).
Qed.

(** The builder, for blocks of capital letters with a gap each: the
    expander takes the pattern with the rack and the fixed letters. *)
Lemma build_pattern_full (lblocks : list str) (lgaps : list Z)
    (ltail : Z) (rblocks : list str) (rgaps : list Z)
    (rtail rack_len : Z) :
  capital_blocks lblocks -> capital_blocks rblocks ->
  length lblocks = length lgaps -> length rblocks = length rgaps ->
  0 <= ltail -> 0 <= rtail ->
  let meta := meta_of lblocks lgaps ltail rblocks rgaps rtail rack_len in
  let fixed := concat lblocks ++ concat rblocks in
  exists pattern,
    OptimiserLength._build_pattern_from_selection
      lblocks lgaps ltail rblocks rgaps rtail rack_len
    = Ok (pattern, fixed, meta)
    /\ (forall p,
          p ∈ DynamicPatternGenerator.__list_all_patterns pattern
          <-> layout_of meta p)
    /\ forall rack word_list,
         rack_tiles rack ->
         generates_layouts pattern (upper rack ++ fixed) meta word_list.
Proof.
  intros Hlb Hrb Hll Hrl Hlt Hrt meta fixed. rewrite raw_pattern_render.
  fold meta fixed.
  assert (plain_tokens (raw_tokens meta)) as Hplain
    by (apply raw_tokens_plain; by apply capital_no_paren).
  destruct (simplify_render (raw_tokens meta) Hplain)
    as (tokens' & E & Hplain' & Hinst & Hlet & HQ).
  rewrite E. cbn [mbind result_bind]. exists (render tokens').
  pose proof (adjusted_tail_bounds ltail rack_len lgaps rgaps Hlt) as [Hl0 _].
  pose proof (adjusted_tail_bounds rtail rack_len lgaps rgaps Hrt) as [Hr0 _].
  assert (forall p, instance_of tokens' p <-> layout_of meta p) as Hlay.
  { intros p. rewrite Hinst. apply raw_tokens_layouts; [apply Hl0|apply Hr0]. }
  split; [done|]. split.
  { intros p. by rewrite patterns_of_render. }
  intros rack word_list Hrack.
  assert (Forall (fun ch => char_isupper ch = true) fixed) as Hfixed.
  { apply Forall_app. split; by apply capital_concat. }
  assert (DynamicPatternGenerator.__verify_pattern
            (render tokens') (upper rack ++ fixed) = Ok tt) as Hverify.
  { apply dpg_verify_render.
    - apply (HQ dpg_token combined_dpg). by apply raw_tokens_dpg.
    - by apply rack_check.
    - intros x. rewrite Hlet, raw_tokens_letters.
      unfold left_cells, right_cells.
      cbn [meta meta_of left_blocks left_gaps right_blocks right_gaps].
      rewrite left_cells_letters, right_cells_letters;
        [|done|done|by apply Forall_rev|by rewrite !length_rev].
      assert (Forall (fun ch => char_isupper ch = true)
                     (concat (rev lblocks) ++ concat rblocks)) as Hcap.
      { apply Forall_app. split; apply capital_concat; [by apply Forall_rev|done]. }
      fold (upper (concat (rev lblocks) ++ concat rblocks)).
      rewrite (proj2 (filter_capitals _ Hcap)).
      assert (upper (upper rack ++ fixed) = upper (upper rack) ++ fixed) as ->.
      { unfold upper at 1. rewrite map_app. fold (upper (upper rack)).
        fold (upper fixed). by rewrite (proj2 (filter_capitals _ Hfixed)). }
      rewrite List.filter_app, (proj1 (filter_capitals _ Hfixed)).
      unfold fixed. rewrite !str_count_app, str_count_concat_rev. lia. }
  destruct (dpg_generate_render tokens' (upper rack ++ fixed) word_list
              Hplain' Hverify) as (words & Hgen & Hnd & Hwords).
  { intros p Hp%Hlay. by eapply layout_nonempty. }
  exists words. split; [done|]. split; [done|]. intros w. rewrite Hwords.
  split; intros (p & ms & Hp & Hg & Hw); exists p, ms;
    (split; [by apply Hlay|done]).
Qed.

(** ** All the patterns of an anchor *)

Lemma read_block_chars (P : ascii -> Prop) (fuel : nat) (get_cell : Z -> cell)
    (max_index step j : Z) (blk : list ascii) :
  (forall i ch, get_cell i = Some ch -> P (char_upper ch)) ->
  Forall P blk ->
  Forall P (fst (OptimiserLength.read_block fuel get_cell max_index step j blk)).
Proof.
  intros Hcell. revert j blk. induction fuel as [|fuel IH]; intros j blk Hblk;
    simpl; [done|].
  destruct (_ && _); [|done]. destruct (get_cell j) as [ch|] eqn:E; [|done].
  apply IH. apply Forall_app. split; [done|]. constructor; [|constructor].
  by apply (Hcell j).
Qed.

Lemma more_blocks_chars (P : ascii -> Prop) (fuel : nat) (get_cell : Z -> cell)
    (max_index step : Z) (reverse_block : bool)
    (rack_len j cumulative_distance : Z) (blocks : list str) (gaps : list Z) :
  (forall i ch, get_cell i = Some ch -> P (char_upper ch)) ->
  Forall (Forall P) blocks ->
  Forall (Forall P)
    (fst (fst (OptimiserLength.more_blocks fuel get_cell max_index step
                 reverse_block rack_len j cumulative_distance blocks gaps))).
Proof.
  intros Hcell. revert j cumulative_distance blocks gaps.
  induction fuel as [|fuel IH]; intros j cum blocks gaps Hblocks; [done|].
  rewrite more_blocks_step.
  destruct (negb _); [done|].
  destruct (OptimiserLength.skip_gap line_length get_cell max_index step j 0)
    as [k j'].
  destruct (negb _); [done|]. cbv zeta.
  destruct (cum + k >? rack_len); [done|].
  pose proof (read_block_chars P line_length get_cell max_index step j' []
                Hcell ltac:(constructor)) as Hblk.
  destruct (OptimiserLength.read_block line_length get_cell max_index step j' [])
    as [blk j''].
  cbn [fst] in Hblk. apply IH. apply Forall_app. split; [done|].
  constructor; [|constructor]. destruct reverse_block; [by apply Forall_rev|done].
Qed.

Lemma scan_side_chars (P : ascii -> Prop) (b : board) (anchor : Z * Z)
    (axis : Axis) (direction : Direction) (rack_len : Z) :
  (forall r c ch, cell_at b r c = Some ch -> P (char_upper ch)) ->
  Forall (Forall P)
    (fst (fst (OptimiserLength._scan_side_for_blocks
                 b anchor axis direction rack_len))).
Proof.
  intros Hcell. destruct anchor as [r c].
  unfold OptimiserLength._scan_side_for_blocks.
  set (setup := match axis, direction with
                | H, left => (fun j => cell_at b r j, 15, c - 1, -1, true)
                | H, right => (fun j => cell_at b r j, 15, c + 1, 1, false)
                | V, left => (fun i => cell_at b i c, 15, r - 1, -1, true)
                | V, right => (fun i => cell_at b i c, 15, r + 1, 1, false)
                end).
  assert (exists get_cell start_idx step reverse_block,
            setup = (get_cell, 15, start_idx, step, reverse_block)
            /\ forall i ch, get_cell i = Some ch -> P (char_upper ch))
    as (get_cell & start_idx & step & reverse_block & -> & Hget).
  { unfold setup. destruct axis, direction; eexists _, _, _, _;
      (split; [reflexivity|]); intros i ch; apply Hcell. }
  destruct (OptimiserLength.skip_gap line_length get_cell 15 step start_idx 0)
    as [k j].
  destruct (negb _); [constructor|]. cbv zeta.
  destruct (1 + k >? rack_len); [constructor|].
  pose proof (read_block_chars P line_length get_cell 15 step j []
                Hget ltac:(constructor)) as Hblk.
  destruct (OptimiserLength.read_block line_length get_cell 15 step j [])
    as [blk j''].
  cbn [fst] in Hblk. apply more_blocks_chars; [done|].
  constructor; [|constructor]. destruct reverse_block; [by apply Forall_rev|done].
Qed.

Lemma letter_upper_no_paren (ch : ascii) :
  char_isalpha ch = true -> char_upper ch <> "("%char.
Proof. destruct ch as [[] [] [] [] [] [] [] []]; vm_compute; congruence. Qed.

(** [mapM] over calls that all return. *)
Lemma mapM_ok {A B} (f : A -> result B) (P : A -> B -> Prop) (l : list A) :
  (forall x, x ∈ l -> exists y, f x = Ok y /\ P x y) ->
  exists ys, mapM f l = Ok ys /\ Forall2 P l ys.
Proof.
  induction l as [|x l IH]; intros Hall.
  - exists []. split; [done|constructor].
  - destruct (Hall x ltac:(left)) as (y & Ey & Hy).
    destruct IH as (ys & Eys & Hys).
    { intros x' Hx'. apply Hall. by right. }
    exists (y :: ys). cbn [mapM]. rewrite Ey. cbn [mbind result_bind].
    rewrite Eys. cbn [mbind result_bind]. split; [done|by constructor].
Qed.

Lemma unique_by_pattern_spec (seen : list str) (patterns : list (str * str * Meta)) :
  let out := OptimiserLength.unique_by_pattern seen patterns in
  (forall e, e ∈ out -> e ∈ patterns /\ fst (fst e) ∉ seen)
  /\ NoDup (map (fun e => fst (fst e)) out).
Proof.
  revert seen. induction patterns as [|e patterns IH]; intros seen; simpl.
  - split; [by intros e ?%elem_of_nil|constructor].
  - destruct (bool_decide_reflect (e.1.1 ∈ seen)) as [Hin|Hnot].
    + destruct (IH seen) as [H1 H2]. split; [|done].
      intros e' He'. destruct (H1 e' He'). split; [by right|done].
    + destruct (IH (e.1.1 :: seen)) as [H1 H2]. split.
      * intros e' [->|He']%elem_of_cons; [split; [by left|done]|].
        destruct (H1 e' He') as [? Hseen]. split; [by right|].
        intros ?. apply Hseen. by right.
      * simpl. apply NoDup_cons. split; [|done].
        intros (e' & Heq & He')%list_elem_of_fmap.
        destruct (H1 e' He') as [_ Hseen]. apply Hseen. rewrite <- Heq. by left.
Qed.

Lemma unique_by_pattern_nonempty (patterns : list (str * str * Meta)) :
  patterns <> [] -> OptimiserLength.unique_by_pattern [] patterns <> [].
Proof.
  destruct patterns as [|e patterns]; [done|]. intros _. simpl.
  destruct (bool_decide_reflect (e.1.1 ∈ [])) as [Hin|_]; [|done].
  by apply elem_of_nil in Hin.
Qed.

(** On a concrete board the letters can be checked cell by cell. *)
Lemma tiles_are_letters_check (b : board) :
  forallb (fun p => match cell_at b (fst p) (snd p) with
                    | Some ch => char_isalpha ch
                    | None => true
                    end) OptimiserLength.all_cells = true ->
  tiles_are_letters b.
Proof.
  intros Hall r c ch Hcell.
  assert ((r, c) ∈ OptimiserLength.all_cells) as Hin.
  { apply elem_of_all_cells, (cell_at_in_grid b). by rewrite Hcell. }
  apply list_elem_of_In in Hin.
  eapply forallb_forall in Hall; [|exact Hin]. cbn [fst snd] in Hall.
  by rewrite Hcell in Hall.
Qed.

Lemma letter_upper_capital (ch : ascii) :
  char_isalpha ch = true -> char_isupper (char_upper ch) = true.
Proof. intros H. by apply ascii_uppercase_spec, char_upper_capital. Qed.

Lemma build_all_patterns_spec (b : board) (deck : list ascii) (anchor : Z * Z)
    (axis : Axis) :
  tiles_are_letters b -> deck <> [] ->
  (0 <= fst anchor < 15 /\ 0 <= snd anchor < 15) ->
  exists patterns,
    OptimiserLength._build_all_dynamic_patterns b deck anchor axis = Ok patterns
    /\ patterns <> []
    /\ NoDup (map (fun e => fst (fst e)) patterns)
    /\ forall pattern fixed meta,
         (pattern, fixed, meta) ∈ patterns ->
         selection_of b deck anchor axis meta
         /\ fixed = concat (left_blocks meta) ++ concat (right_blocks meta)
         /\ 0 <= left_tail meta /\ 0 <= right_tail meta
         /\ 1 + sum_Z (left_gaps meta) + sum_Z (right_gaps meta)
            + Z.max (left_tail meta) (right_tail meta) <= Z.of_nat (length deck)
         /\ (forall p,
               p ∈ DynamicPatternGenerator.__list_all_patterns pattern
               <-> layout_of meta p)
         /\ forall rack word_list,
              rack_tiles rack ->
              generates_layouts pattern (upper rack ++ fixed) meta word_list.
Proof.
  intros Hletters Hdeck Hanchor.
  assert (1 <= Z.of_nat (length deck)) as Hrack by (destruct deck; [done|simpl; lia]).
  unfold OptimiserLength._build_all_dynamic_patterns, selection_of. cbv zeta.
  pose proof (scan_side_budget b anchor axis left _ Hrack Hanchor) as Hl.
  pose proof (scan_side_budget b anchor axis right _ Hrack Hanchor) as Hr.
  pose proof (scan_side_chars (fun ch => char_isupper ch = true) b anchor axis
                left (Z.of_nat (length deck))) as Hlc.
  pose proof (scan_side_chars (fun ch => char_isupper ch = true) b anchor axis
                right (Z.of_nat (length deck))) as Hrc.
  destruct (OptimiserLength._scan_side_for_blocks b anchor axis left
              (Z.of_nat (length deck))) as [[Lb Lg] Lt].
  destruct (OptimiserLength._scan_side_for_blocks b anchor axis right
              (Z.of_nat (length deck))) as [[Rb Rg] Rt].
  cbn [fst] in Hlc, Hrc.
  assert (forall r c ch, cell_at b r c = Some ch ->
            char_isupper (char_upper ch) = true) as Hcell.
  { intros r c ch Hc. apply letter_upper_capital. by apply (Hletters r c). }
  specialize (Hlc Hcell). specialize (Hrc Hcell).
  destruct Hl as (HLlen & _ & HLt & _ & _).
  destruct Hr as (HRlen & _ & HRt & _ & _).
  set (rack_len := Z.of_nat (length deck)) in *.
  set (selections :=
         List.filter
           (fun sel => negb (1 + sum_Z (take (fst sel) Lg)
                             + sum_Z (take (snd sel) Rg) >? rack_len))
           (flat_map (fun num_left => map (fun num_right => (num_left, num_right))
                                          (seq 0 (S (length Rb))))
                     (seq 0 (S (length Lb))))).
  set (build := fun sel : nat * nat =>
                  let '(num_left, num_right) := sel in
                  OptimiserLength._build_pattern_from_selection
                    (take num_left Lb) (take num_left Lg) Lt
                    (take num_right Rb) (take num_right Rg) Rt rack_len).
  set (good := fun (sel : nat * nat) (e : str * str * Meta) =>
                 let meta := meta_of (take (fst sel) Lb) (take (fst sel) Lg) Lt
                                     (take (snd sel) Rb) (take (snd sel) Rg) Rt
                                     rack_len in
                 snd e = meta
                 /\ snd (fst e) = concat (left_blocks meta) ++ concat (right_blocks meta)
                 /\ 1 + sum_Z (left_gaps meta) + sum_Z (right_gaps meta) <= rack_len
                 /\ (forall p,
                       p ∈ DynamicPatternGenerator.__list_all_patterns (fst (fst e))
                       <-> layout_of meta p)
                 /\ forall rack word_list,
                      rack_tiles rack ->
                      generates_layouts (fst (fst e)) (upper rack ++ snd (fst e))
                                        meta word_list).
  destruct (mapM_ok build good selections) as (patterns & E & Hgood).
  { intros [nl nr] Hsel. unfold selections in Hsel.
    apply list_elem_of_In, filter_In in Hsel as [_ Hcost].
    apply negb_true_iff in Hcost. cbn [fst snd] in Hcost.
    destruct (build_pattern_full (take nl Lb) (take nl Lg) Lt
                (take nr Rb) (take nr Rg) Rt rack_len)
      as (pattern & Eb & Hlay & Hgen);
      [by apply Forall_take|by apply Forall_take
      |by rewrite !length_take, HLlen|by rewrite !length_take, HRlen|done..|].
    eexists. split; [exact Eb|]. unfold good. cbn [fst snd meta_of left_blocks
      right_blocks left_gaps right_gaps].
    split; [done|]. split; [done|]. split; [|done].
    destruct (Z.gtb_spec (1 + sum_Z (take nl Lg) + sum_Z (take nr Rg)) rack_len);
      [done|lia]. }
  fold selections. fold build. rewrite E. cbn [mbind result_bind].
  exists (OptimiserLength.unique_by_pattern [] patterns).
  destruct (unique_by_pattern_spec [] patterns) as [Hsub Hnd].
  split; [done|]. split.
  { apply unique_by_pattern_nonempty. intros ->.
    apply Forall2_nil_inv_r in Hgood.
    assert ((0%nat, 0%nat) ∈ selections) as H0; [|by rewrite Hgood in H0;
      apply elem_of_nil in H0].
    unfold selections. apply list_elem_of_In, filter_In. split.
    - apply in_flat_map. exists 0%nat. split; [apply in_seq; lia|].
      apply in_map_iff. exists 0%nat. split; [done|apply in_seq; lia].
    - cbn [fst snd]. change (1 + sum_Z (take 0 Lg) + sum_Z (take 0 Rg)) with 1.
      destruct (Z.gtb_spec 1 rack_len); [lia|done]. }
  split; [done|].
  intros pattern fixed meta He. apply Hsub in He as [He _].
  apply list_elem_of_lookup in He as [i Hi].
  destruct (Forall2_lookup_r _ _ _ _ _ Hgood Hi) as ([nl nr] & _ & Hg).
  unfold good in Hg. cbn [fst snd] in Hg.
  destruct Hg as (-> & Hfixed & Hcost & Hlay & Hgen).
  pose proof (adjusted_tail_bounds Lt rack_len (take nl Lg) (take nr Rg) HLt)
    as [H1 H2].
  pose proof (adjusted_tail_bounds Rt rack_len (take nl Lg) (take nr Rg) HRt)
    as [H3 H4].
  cbn [meta_of left_blocks right_blocks left_gaps right_gaps left_tail right_tail]
    in *.
  split; [by exists nl, nr|]. split; [done|]. split; [lia|]. split; [lia|].
  split; [|done]. specialize (H2 Hcost). specialize (H4 Hcost). lia.
Qed.

(** X18.  [_build_all_dynamic_patterns] on a board whose tiles are
    letters, for a rack that is not empty and an anchor inside the
    grid: it does not raise and returns at least one pattern; no
    pattern is returned twice; every entry comes from a selection of
    the first blocks of the two scans that the rack reaches, with the
    letters of those blocks as its fixed letters, tails that are not
    negative and, with the anchor and the gaps, within the rack; and
    its pattern stands for exactly the layouts of its [meta]. *)
Theorem build_all_patterns_sound (b : board) (deck : list ascii)
    (anchor : Z * Z) (axis : Axis) :
  tiles_are_letters b -> deck <> [] ->
  (0 <= fst anchor < 15 /\ 0 <= snd anchor < 15) ->
  exists patterns,
    OptimiserLength._build_all_dynamic_patterns b deck anchor axis = Ok patterns
    /\ patterns <> []
    /\ NoDup (map (fun e => fst (fst e)) patterns)
    /\ forall pattern fixed meta,
         (pattern, fixed, meta) ∈ patterns ->
         selection_of b deck anchor axis meta
         /\ fixed = concat (left_blocks meta) ++ concat (right_blocks meta)
         /\ 0 <= left_tail meta /\ 0 <= right_tail meta
         /\ 1 + sum_Z (left_gaps meta) + sum_Z (right_gaps meta)
            + Z.max (left_tail meta) (right_tail meta) <= Z.of_nat (length deck)
         /\ forall p,
              p ∈ DynamicPatternGenerator.__list_all_patterns pattern
              <-> layout_of meta p.
Proof.
  intros Hletters Hdeck Hanchor.
  destruct (build_all_patterns_spec b deck anchor axis Hletters Hdeck Hanchor)
    as (patterns & E & Hne & Hnd & Hall).
  exists patterns. split; [done|]. split; [done|]. split; [done|].
  intros pattern fixed meta He.
  destruct (Hall pattern fixed meta He) as (H1 & H2 & H3 & H4 & H5 & H6 & _).
  done.
Qed.

Lemma build_all_patterns_sound_witness :
  exists patterns,
    OptimiserLength._build_all_dynamic_patterns star_board (s "AB") (7, 10) H
    = Ok patterns
    /\ patterns <> []
    /\ NoDup (map (fun e => fst (fst e)) patterns)
    /\ forall pattern fixed meta,
         (pattern, fixed, meta) ∈ patterns ->
         selection_of star_board (s "AB") (7, 10) H meta
         /\ fixed = concat (left_blocks meta) ++ concat (right_blocks meta)
         /\ 0 <= left_tail meta /\ 0 <= right_tail meta
         /\ 1 + sum_Z (left_gaps meta) + sum_Z (right_gaps meta)
            + Z.max (left_tail meta) (right_tail meta)
            <= Z.of_nat (length (s "AB"))
         /\ forall p,
              p ∈ DynamicPatternGenerator.__list_all_patterns pattern
              <-> layout_of meta p.
Proof.
  apply build_all_patterns_sound.
  - apply tiles_are_letters_check. vm_compute. reflexivity.
  - done.
  - simpl. lia.
Defined.

Example build_all_patterns_example :
  OptimiserLength._build_all_dynamic_patterns star_board (s "AB") (7, 10) H
  = Ok [(s "(1,3)", s "", meta_of [] [] 1 [] [] 1 2);
        (s "(0,1)STAR(1,2)", s "STAR", meta_of [s "STAR"] [0] 1 [] [] 1 2)].
Proof. vm_compute. reflexivity. Qed.

(** X21.  The patterns of [_build_all_dynamic_patterns] and the
    expander, called as [recommend_next_move] calls it, with the rack
    in upper case followed by the fixed letters of the pattern: on a
    board whose tiles are letters, for a rack of letters and blanks
    that is not empty and an anchor inside the grid,
    [DynamicPatternGenerator.generate] does not raise on any pattern
    returned, and the words it returns are, without repetition,
    exactly those that [SimplePatternGenerator.generate] finds for
    some layout of the pattern's [meta]. *)
Theorem built_patterns_generate (b : board) (deck : list ascii)
    (anchor : Z * Z) (axis : Axis) (word_list : list str) :
  tiles_are_letters b -> rack_tiles deck -> deck <> [] ->
  (0 <= fst anchor < 15 /\ 0 <= snd anchor < 15) ->
  exists patterns,
    OptimiserLength._build_all_dynamic_patterns b deck anchor axis = Ok patterns
    /\ forall pattern fixed meta,
         (pattern, fixed, meta) ∈ patterns ->
         generates_layouts pattern (upper deck ++ fixed) meta word_list.
Proof.
  intros Hletters Hrack Hdeck Hanchor.
  destruct (build_all_patterns_spec b deck anchor axis Hletters Hdeck Hanchor)
    as (patterns & E & _ & _ & Hall).
  exists patterns. split; [done|]. intros pattern fixed meta He.
  destruct (Hall pattern fixed meta He) as (_ & _ & _ & _ & _ & _ & Hgen).
  by apply Hgen.
Qed.

Lemma built_patterns_generate_witness :
  exists patterns,
    OptimiserLength._build_all_dynamic_patterns star_board (s "S") (7, 10) H
    = Ok patterns
    /\ forall pattern fixed meta,
         (pattern, fixed, meta) ∈ patterns ->
         generates_layouts pattern (upper (s "S") ++ fixed) meta
                           (map s ["star"; "stars"; "tars"]%string).
Proof.
  apply built_patterns_generate.
  - apply tiles_are_letters_check. vm_compute. reflexivity.
  - repeat constructor.
  - done.
  - simpl. lia.
Defined.

Example built_patterns_example :
  OptimiserLength._build_all_dynamic_patterns star_board (s "S") (7, 10) H
  = Ok [(s "_", s "", meta_of [] [] 0 [] [] 0 1);
        (s "STAR_", s "STAR", meta_of [s "STAR"] [0] 0 [] [] 0 1)]
  /\ DynamicPatternGenerator.generate (s "STAR_") (s "SSTAR")
       (map s ["star"; "stars"; "tars"]%string)
     = Ok [s "STARS"].
Proof. split; vm_compute; reflexivity. Qed.

(** ** The moves the longest-word optimiser recommends *)

(** *** What the dictionary check returns *)




(** *** The words of a pattern, longest first *)






(** *** The loops of the search *)

Section LongestSound.

Context (rule : Rule) (draws : nat -> nat) (b : board) (deck : list ascii).















End LongestSound.



Example longest_word_example :
  OptimiserLength.recommend_next_move star_rule first_draw 0 star_board (s "S")
  = (Ok (OptimiserLength.BestMoves [[("S"%char, (7, 10))]]), 0%nat).
Proof. vm_compute. reflexivity. Qed.

(** ** Materialized placements and the geometry check *)

(** Distinct integers span as many values as they are exactly when
    they fill the interval from the least to the greatest. *)
Lemma ptp_filled (l : list Z) :
  l <> [] -> NoDup l ->
  np_ptp l + 1 = Z.of_nat (length l)
  <-> forall j, np_min l <= j <= np_max l -> j ∈ l.
Proof.
  intros Hne Hnd.
  destruct (np_min_least l Hne) as [Hmin1 Hmin2].
  destruct (np_max_greatest l Hne) as [Hmax1 Hmax2].
  unfold np_ptp. split.
  - intros Hspan j Hj.
    assert (l ≡ₚ range (np_min l) (np_min l + Z.of_nat (length l))) as Hperm.
    { apply submseteq_length_Permutation.
      + apply NoDup_submseteq; [done|]. intros x Hx. apply elem_of_range.
        specialize (Hmin2 x Hx). specialize (Hmax2 x Hx). lia.
      + rewrite range_length. lia. }
    assert (j ∈ range (np_min l) (np_min l + Z.of_nat (length l))) as Hin
      by (apply elem_of_range; lia).
    by rewrite <- Hperm in Hin.
  - intros Hfilled.
    assert (range (np_min l) (np_max l + 1) ≡ₚ l) as Hperm.
    { apply NoDup_Permutation; [apply range_NoDup|done|].
      intros x. rewrite elem_of_range. split.
      + intros Hx. apply Hfilled. lia.
      + intros Hx. specialize (Hmin2 x Hx). specialize (Hmax2 x Hx). lia. }
    apply Permutation_length in Hperm. rewrite range_length in Hperm.
    specialize (Hmin2 _ Hmax1). lia.
Qed.

(** The cells of the new tiles of a word: the empty cells it covers. *)
Lemma new_tiles_positions (b : board) (mk : Z -> Z * Z) (at_ : Z)
    (w : list ascii) (pos : Z * Z) :
  pos ∈ map pos_of (new_tiles b mk at_ w)
  <-> exists k, at_ <= k < at_ + Z.of_nat (length w)
                /\ pos = mk k
                /\ cell_at b (fst (mk k)) (snd (mk k)) = None.
Proof.
  revert at_. induction w as [|ch w IH]; intros at_; cbn [new_tiles].
  - split; [by intros ?%elem_of_nil|]. intros (k & Hk & _). simpl in Hk. lia.
  - assert (Z.of_nat (length (ch :: w)) = 1 + Z.of_nat (length w)) as Hlen
      by (simpl length; lia).
    rewrite Hlen. destruct (cell_at b (mk at_).1 (mk at_).2) eqn:E.
    + rewrite IH. split.
      * intros (k & Hk & Hp & Hc). exists k. split; [lia|done].
      * intros (k & Hk & Hp & Hc). exists k. split; [|done].
        destruct (decide (k = at_)) as [->|]; [congruence|lia].
    + cbn [map]. rewrite elem_of_cons, IH. split.
      * intros [->|(k & Hk & Hp & Hc)].
        -- exists at_. split; [lia|done].
        -- exists k. split; [lia|done].
      * intros (k & Hk & Hp & Hc).
        destruct (decide (k = at_)) as [->|]; [by left|].
        right. exists k. split; [lia|done].
Qed.

Lemma one_value_one_tile (l : list Z) :
  NoDup l -> (forall x y, x ∈ l -> y ∈ l -> x = y) -> (length l <= 1)%nat.
Proof.
  intros Hnd Hall. destruct l as [|x [|y l]]; simpl; [lia|lia|exfalso].
  apply NoDup_cons in Hnd as [Hx _]. apply Hx.
  rewrite (Hall x y); [left|left|right; left].
Qed.

Lemma np_ptp_singleton (l : list Z) : length l = 1%nat -> np_ptp l = 0.
Proof.
  destruct l as [|x [|y l]]; try done. intros _. unfold np_ptp. simpl. lia.
Qed.

Lemma materialized_geometry (b : board) (axis : Axis) (anchor : Z * Z)
    (words : list str) (meta : Meta) (rack : list ascii) (adds : list addition) :
  (0 <= fst anchor < 15 /\ 0 <= snd anchor < 15) ->
  adds ∈ OptimiserLength._materialize_additions_from_words
           b axis anchor words meta rack ->
  (tile_between b axis anchor adds ->
   _verify_word_addition b adds = Raise (ValueError NotContinuous))
  /\ (~ tile_between b axis anchor adds ->
      _verify_word_addition b adds = Ok true).
Proof.
  intros Hanchor Hin.
  destruct (materialized_placements_fit_the_board_aux b axis anchor words meta
              rack Hanchor adds Hin) as (Hne & Hgrid & Hfree & Hnd & Hline).
  apply materialize_inv in Hin as (word & _ & Hm).
  apply materialized_tiles in Hm as (start & Hfits & _ & _ & Hpaid & _).
  apply paid_positions in Hpaid as Hpos.
  assert (forall pos,
            pos ∈ map pos_of adds
            <-> exists k, start <= k < start + Z.of_nat (length (upper word))
                          /\ pos = line_cell axis anchor k
                          /\ cell_at b (fst (line_cell axis anchor k))
                                       (snd (line_cell axis anchor k)) = None)
    as Hchar.
  { intros pos. rewrite Hpos. apply new_tiles_positions. }
  assert (~ spans_rows adds \/ ~ spans_cols adds) as Hone.
  { destruct axis; [left|right]; intros (a & a' & Ha & Ha' & Hdiff);
      apply Hdiff;
      (eapply Forall_forall in Hline as H1; [|exact Ha]);
      (eapply Forall_forall in Hline as H2; [|exact Ha']); congruence. }
  rewrite (verify_in_line b adds Hne Hgrid Hfree Hone). cbv zeta.
  set (ks := map (coordinate_of axis) adds).
  assert (forall a, a ∈ adds ->
            pos_of a = line_cell axis anchor (coordinate_of axis a)) as Hcell.
  { intros a Ha. eapply Forall_forall in Hline; [|exact Ha].
    destruct a as [ch [r c]]. unfold pos_of, row_of, col_of in *.
    destruct axis; simpl in *; by subst. }
  assert (forall j, j ∈ ks <-> line_cell axis anchor j ∈ map pos_of adds) as Hks.
  { intros j. unfold ks. rewrite !list_elem_of_fmap. split.
    - intros (a & -> & Ha). exists a. split; [by rewrite Hcell|done].
    - intros (a & Hj & Ha). exists a. split; [|done].
      rewrite (Hcell a Ha) in Hj. by apply line_cell_inj in Hj. }
  assert (NoDup ks) as Hnd_ks.
  { unfold ks. destruct axis.
    - apply (distinct_in_row adds (fst anchor) Hnd). intros a Ha.
      eapply Forall_forall in Hline; [|exact Ha]. done.
    - apply (distinct_in_column adds (snd anchor) Hnd). intros a Ha.
      eapply Forall_forall in Hline; [|exact Ha]. done. }
  assert (ks <> []) as Hks_ne by (unfold ks; by destruct adds).
  assert (length ks = length adds) as Hlen by (unfold ks; by rewrite length_map).
  assert (np_ptp (if (length (np_unique (map row_of adds)) =? 1)%nat
                  then map col_of adds else map row_of adds)
          = np_ptp ks) as ->.
  { destruct (length (np_unique (map row_of adds)) =? 1)%nat eqn:Eone.
    - destruct axis; [done|].
      apply Nat.eqb_eq, np_unique_length_1 in Eone as [_ Hall].
      pose proof (one_value_one_tile ks Hnd_ks Hall) as Hle.
      assert (length ks = 1%nat) as H1 by (destruct ks; [done|simpl in *; lia]).
      rewrite (np_ptp_singleton ks H1). apply np_ptp_singleton.
      rewrite length_map. lia.
    - destruct axis; [|done]. exfalso.
      apply Nat.eqb_neq in Eone. apply Eone, np_unique_length_1.
      split; [by destruct adds|].
      intros x y (a & -> & Ha)%list_elem_of_fmap (a' & -> & Ha')%list_elem_of_fmap.
      (eapply Forall_forall in Hline as H1; [|exact Ha]);
        (eapply Forall_forall in Hline as H2; [|exact Ha']); congruence. }
  pose proof (ptp_filled ks Hks_ne Hnd_ks) as Hfill. rewrite Hlen in Hfill.
  destruct (np_min_least ks Hks_ne) as [Hmin1 Hmin2].
  destruct (np_max_greatest ks Hks_ne) as [Hmax1 Hmax2].
  split.
  - intros (i & j & k & Hijk & Hi & Hk & Hocc).
    assert ((np_ptp ks + 1 =? Z.of_nat (length adds)) = false) as ->; [|done].
    apply Z.eqb_neq. intros Heq. apply Hocc.
    apply Hks in Hi, Hk. apply Hmin2 in Hi as Hi'. apply Hmax2 in Hk as Hk'.
    assert (j ∈ ks) as Hj by (apply (proj1 Hfill Heq); lia).
    apply Hks, Hchar in Hj as (k' & _ & Hk'' & Hfree').
    apply line_cell_inj in Hk'' as <-. done.
  - intros Hno.
    assert ((np_ptp ks + 1 =? Z.of_nat (length adds)) = true) as ->; [|done].
    apply Z.eqb_eq, Hfill. intros j Hj.
    destruct (decide (j = np_min ks)) as [->|Hjmin]; [done|].
    destruct (decide (j = np_max ks)) as [->|Hjmax]; [done|].
    apply Hks, Hchar. exists j.
    pose proof (proj1 (Hks _) Hmin1) as Hp1.
    apply Hchar in Hp1 as (k1 & Hk1 & E1 & _).
    apply line_cell_inj in E1 as <-.
    pose proof (proj1 (Hks _) Hmax1) as Hp2.
    apply Hchar in Hp2 as (k2 & Hk2 & E2 & _).
    apply line_cell_inj in E2 as <-.
    split; [lia|]. split; [done|].
    destruct (cell_at b (line_cell axis anchor j).1 (line_cell axis anchor j).2)
      eqn:Ecell; [|done].
    exfalso. apply Hno. exists (np_min ks), j, (np_max ks).
    split; [lia|]. split; [by apply Hks|]. split; [by apply Hks|].
    by rewrite Ecell.
Qed.

(** The geometry check looks at the cells alone. *)
Lemma find_by_position (P : Z * Z -> bool) (l1 l2 : list addition) :
  map pos_of l1 = map pos_of l2 ->
  option_map pos_of (List.find (fun a => P (pos_of a)) l1)
  = option_map pos_of (List.find (fun a => P (pos_of a)) l2).
Proof.
  revert l2. induction l1 as [|a l1 IH]; intros [|a' l2] Hpos; try done.
  simpl in *. injection Hpos as Ha Hpos. rewrite Ha.
  destruct (P (pos_of a')); [simpl; congruence|by apply IH].
Qed.

Lemma verify_by_positions (b : board) (l1 l2 : list addition) :
  map pos_of l1 = map pos_of l2 ->
  _verify_word_addition b l1 = _verify_word_addition b l2.
Proof.
  intros Hpos.
  assert (length l1 = length l2) as Hlen.
  { apply (f_equal length) in Hpos. by rewrite !length_map in Hpos. }
  pose proof (find_by_position
                (fun p => negb ((0 <=? fst p) && (fst p <? 15)
                                && ((0 <=? snd p) && (snd p <? 15))))
                l1 l2 Hpos) as H1.
  pose proof (find_by_position
                (fun p => occupied (cell_at b (fst p) (snd p))) l1 l2 Hpos)
    as H2.
  unfold _verify_word_addition.
  destruct l1 as [|a1 l1], l2 as [|a2 l2]; try done.
  set (l1' := a1 :: l1) in *. set (l2' := a2 :: l2) in *.
  change (fun a => negb ((0 <=? row_of a) && (row_of a <? 15)
                         && ((0 <=? col_of a) && (col_of a <? 15))))
    with (fun a => (fun p => negb ((0 <=? fst p) && (fst p <? 15)
                                   && ((0 <=? snd p) && (snd p <? 15))))
                     (pos_of a)).
  change (fun a => occupied (cell_at b (row_of a) (col_of a)))
    with (fun a => (fun p => occupied (cell_at b (fst p) (snd p))) (pos_of a)).
  destruct (List.find _ l1') as [x1|], (List.find _ l2') as [x2|];
    simpl in H1; try discriminate.
  { injection H1 as H1. unfold row_of, col_of. fold (pos_of x1) (pos_of x2).
    by rewrite H1. }
  destruct (List.find _ l1') as [y1|], (List.find _ l2') as [y2|];
    simpl in H2; try discriminate.
  { injection H2 as H2. unfold row_of, col_of. fold (pos_of y1) (pos_of y2).
    by rewrite H2. }
  cbv zeta. by rewrite Hpos, Hlen.
Qed.

(** X20.  A placement made by [_materialize_additions_from_words], for
    an anchor inside the grid, and the geometry check of [new_move]:
    [_verify_word_addition] accepts it when no tile of the board lies
    between two of its tiles; when the word runs through a tile of the
    board, the check raises the error for a line that is not
    continuous, and so does [new_move], which leaves the board as it
    was.  A word laid on both sides of a tile of the board is what the
    optimiser's patterns with blocks are for. *)
Theorem materialized_through_a_tile_is_refused (rule : Rule)
    (draws : nat -> nat) (b : board) (axis : Axis)
    (anchor : Z * Z) (words : list str) (meta : Meta) (rack : list ascii)
    (adds : list addition) :
  (0 <= fst anchor < 15 /\ 0 <= snd anchor < 15) ->
  adds ∈ OptimiserLength._materialize_additions_from_words
           b axis anchor words meta rack ->
  (tile_between b axis anchor adds ->
   _verify_word_addition b adds = Raise (ValueError NotContinuous)
   /\ forall k, new_move rule draws k b adds
                = (Raise (ValueError NotContinuous), (b, k)))
  /\ (~ tile_between b axis anchor adds ->
      _verify_word_addition b adds = Ok true).
Proof.
  intros Hanchor Hin.
  destruct (materialized_geometry b axis anchor words meta rack adds Hanchor Hin)
    as [Hrefused Hok].
  split; [|done]. intros Hbetween. specialize (Hrefused Hbetween).
  split; [done|]. intros k. unfold new_move.
  rewrite (verify_by_positions b _ adds), Hrefused; [done|].
  by rewrite map_map.
Qed.

(** TAB laid down the column of the A of STAR: T above, B below. *)
Lemma materialized_through_a_tile_is_refused_witness :
  OptimiserLength._materialize_additions_from_words
    star_board V (6, 8) [s "TAB"] (meta_of [] [] 0 [s "A"] [0] 1 2) (s "TB")
  = [[("T"%char, (6, 8)); ("B"%char, (8, 8))]]
  /\ _verify_word_addition star_board [("T"%char, (6, 8)); ("B"%char, (8, 8))]
     = Raise (ValueError NotContinuous)
  /\ forall k, new_move star_rule first_draw k star_board
                 [("T"%char, (6, 8)); ("B"%char, (8, 8))]
               = (Raise (ValueError NotContinuous), (star_board, k)).
Proof.
  assert (OptimiserLength._materialize_additions_from_words
            star_board V (6, 8) [s "TAB"] (meta_of [] [] 0 [s "A"] [0] 1 2)
            (s "TB")
          = [[("T"%char, (6, 8)); ("B"%char, (8, 8))]]) as E
    by (vm_compute; reflexivity).
  split; [exact E|].
  apply (materialized_through_a_tile_is_refused star_rule first_draw
           star_board V (6, 8) [s "TAB"]
           (meta_of [] [] 0 [s "A"] [0] 1 2) (s "TB")).
  - simpl. lia.
  - rewrite E. left.
  - exists 6, 7, 8. split; [lia|]. split; [left|]. split; [right; left|].
    vm_compute. discriminate.
Defined.

(** * The score does not depend on the order of the tiles *)

Lemma last_letter_at_Some (additions : list addition) (p : Z * Z) (ch : ascii) :
  last_letter_at additions p = Some ch ->
  exists a, a ∈ additions /\ pos_of a = p /\ letter_of a = ch.
Proof.
  unfold last_letter_at. intros H.
  destruct (List.find _ (rev additions)) as [a|] eqn:E; [|done].
  apply find_some in E as [Hin Hp]. apply bool_decide_eq_true in Hp.
  exists a. split; [|split; [done|]].
  - apply list_elem_of_In. by apply in_rev.
  - simpl in H. congruence.
Qed.

Lemma distinct_positions_perm (l l' : list addition) :
  l ≡ₚ l' -> distinct_positions l -> distinct_positions l'.
Proof.
  unfold distinct_positions. intros Hperm Hnd.
  eapply NoDup_Permutation_proper; [|exact Hnd].
  symmetry. by apply Permutation_map.
Qed.

Lemma last_letter_at_perm (l l' : list addition) (p : Z * Z) :
  distinct_positions l -> l ≡ₚ l' ->
  last_letter_at l p = last_letter_at l' p.
Proof.
  intros Hnd Hperm.
  assert (distinct_positions l') as Hnd' by (by eapply distinct_positions_perm).
  destruct (last_letter_at l p) as [ch|] eqn:E.
  - apply last_letter_at_Some in E as (a & Ha & <- & <-).
    symmetry. apply last_letter_at_elem; [done|]. by rewrite <- Hperm.
  - destruct (last_letter_at l' p) as [ch|] eqn:E'; [|done].
    apply last_letter_at_Some in E' as (a & Ha & <- & <-).
    rewrite last_letter_at_elem in E; [done|done|]. by rewrite Hperm.
Qed.

Lemma board_ext (t t' : board) :
  board_shape t -> board_shape t' ->
  (forall r c, cell_at t r c = cell_at t' r c) -> t = t'.
Proof.
  intros [Hlen Hlines] [Hlen' Hlines'] Hcells.
  apply list_eq. intros i.
  destruct (decide (i < 15)%nat) as [Hi|Hi].
  - destruct (lookup_lt_is_Some_2 t i) as [line Hline]; [lia|].
    destruct (lookup_lt_is_Some_2 t' i) as [line' Hline']; [lia|].
    rewrite Hline, Hline'. f_equal.
    assert (length line = 15%nat) as Hl
      by (eapply Forall_forall in Hlines; [exact Hlines|by eapply list_elem_of_lookup_2]).
    assert (length line' = 15%nat) as Hl'
      by (eapply Forall_forall in Hlines'; [exact Hlines'|by eapply list_elem_of_lookup_2]).
    apply list_eq. intros j.
    destruct (decide (j < 15)%nat) as [Hj|Hj].
    + destruct (lookup_lt_is_Some_2 line j) as [x Hx]; [lia|].
      destruct (lookup_lt_is_Some_2 line' j) as [x' Hx']; [lia|].
      rewrite Hx, Hx'. f_equal.
      specialize (Hcells (Z.of_nat i) (Z.of_nat j)).
      unfold cell_at in Hcells.
      assert (in_bounds (Z.of_nat i) (Z.of_nat j) = true) as Hb.
      { unfold in_bounds. repeat (apply andb_true_intro; split); lia. }
      rewrite Hb, !Nat2Z.id in Hcells. unfold board, cell in *.
      by rewrite Hline, Hline', Hx, Hx' in Hcells.
    + rewrite !lookup_ge_None_2; [done|lia|lia].
  - rewrite !lookup_ge_None_2; [done|lia|lia].
Qed.

Lemma overlay_perm (b : board) (l l' : list addition) :
  board_shape b -> Forall inside_grid l -> distinct_positions l ->
  l ≡ₚ l' -> overlay b l = overlay b l'.
Proof.
  intros Hb Hin Hnd Hperm.
  assert (Forall inside_grid l') as Hin' by (by rewrite <- Hperm).
  apply board_ext; [by apply overlay_shape|by apply overlay_shape|].
  intros r c. rewrite !overlay_cell by done.
  by rewrite (last_letter_at_perm l l').
Qed.

Lemma sum_perm (l l' : list Z) :
  l ≡ₚ l' -> foldr Z.add 0 l = foldr Z.add 0 l'.
Proof.
  induction 1 as [|x l l' _ IH|x y l|l l' l'' _ IH1 _ IH2]; simpl;
    [done|lia|lia|congruence].
Qed.

Lemma np_min_perm (l l' : list Z) : l ≡ₚ l' -> np_min l = np_min l'.
Proof.
  intros Hperm. destruct l as [|x l].
  - apply Permutation_nil_l in Hperm. by subst.
  - assert (l' <> []) as Hne'.
    { intros ->. by apply Permutation_nil_r in Hperm. }
    pose proof (np_min_least (x :: l) ltac:(done)) as H1.
    pose proof (np_min_least l' Hne') as [H2 H3].
    eapply is_least_unique; [exact H1|].
    split; [by rewrite Hperm|]. intros y Hy. apply H3. by rewrite <- Hperm.
Qed.

Lemma spans_rows_perm (l l' : list addition) :
  l ≡ₚ l' -> spans_rows l -> spans_rows l'.
Proof.
  intros Hperm (a & a' & Ha & Ha' & Hne).
  exists a, a'. by rewrite <- Hperm.
Qed.

Lemma spans_cols_perm (l l' : list addition) :
  l ≡ₚ l' -> spans_cols l -> spans_cols l'.
Proof.
  intros Hperm (a & a' & Ha & Ha' & Hne).
  exists a, a'. by rewrite <- Hperm.
Qed.

Lemma extract_perm (t : board) (l l' : list addition) :
  l <> [] -> tiles_laid t l ->
  ~ spans_rows l \/ ~ spans_cols l ->
  l ≡ₚ l' ->
  _extract_word_positions t l ≡ₚ _extract_word_positions t l'.
Proof.
  intros Hne Hlaid Hline Hperm.
  assert (l' <> []) as Hne'.
  { intros ->. by apply Permutation_nil_r in Hperm. }
  assert (tiles_laid t l') as Hlaid'.
  { unfold tiles_laid. by rewrite <- Hperm. }
  destruct (one_line_cases l Hne Hline) as [[r Hr]|[Hrows [c Hc]]].
  - rewrite (extract_one_row t l r), (extract_one_row t l' r); try done.
    + rewrite (np_min_perm (map col_of l) (map col_of l'))
        by (by apply Permutation_map).
      apply Permutation_app_head. by apply Permutation_flat_map.
    + intros a Ha. apply Hr. by rewrite Hperm.
  - rewrite (extract_one_column t l c), (extract_one_column t l' c); try done.
    + rewrite (np_min_perm (map row_of l) (map row_of l'))
        by (by apply Permutation_map).
      apply Permutation_app_head. by apply Permutation_flat_map.
    + by eapply spans_rows_perm.
    + intros a Ha. apply Hc. by rewrite Hperm.
Qed.

Lemma positions_set_perm (l l' : list addition) :
  l ≡ₚ l' ->
  (list_to_set (map pos_of l) : gset (Z * Z)) = list_to_set (map pos_of l').
Proof.
  intros Hperm. apply set_eq. intros p. rewrite !elem_of_list_to_set.
  assert (map pos_of l ≡ₚ map pos_of l') as H by (by apply Permutation_map).
  by rewrite H.
Qed.

Lemma blank_positions_perm (l l' : list addition) :
  l ≡ₚ l' -> blank_positions_of l = blank_positions_of l'.
Proof.
  intros Hperm. unfold blank_positions_of.
  apply set_eq. intros p. rewrite !elem_of_list_to_set.
  rewrite !list_elem_of_In, !in_map_iff.
  split; intros (a & Ha & Hin); exists a; (split; [done|]);
    apply filter_In in Hin as [Hin Hf]; apply filter_In; (split; [|done]);
    apply list_elem_of_In; apply list_elem_of_In in Hin;
    [by rewrite <- Hperm|by rewrite Hperm].
Qed.

Lemma words_total_perm (rule : Rule) (b : board) (l l' : list addition) :
  board_shape b -> Forall inside_grid l ->
  ~ spans_rows l \/ ~ spans_cols l ->
  distinct_positions l -> l <> [] -> l ≡ₚ l' ->
  words_total rule b l = words_total rule b l'.
Proof.
  intros Hb Hin Hline Hnd Hne Hperm. unfold words_total. cbv zeta.
  assert (norm_additions_of l ≡ₚ norm_additions_of l') as Hnorm
    by (by apply Permutation_map).
  assert (Forall inside_grid (norm_additions_of l)) as Hin'.
  { eapply positions_inside_grid; [apply norm_additions_positions|done]. }
  assert (distinct_positions (norm_additions_of l)) as Hnd'.
  { unfold distinct_positions. by rewrite norm_additions_positions. }
  rewrite <- (overlay_perm b _ _ Hb Hin' Hnd' Hnorm).
  rewrite <- (blank_positions_perm l l' Hperm).
  rewrite <- (positions_set_perm _ _ Hnorm).
  apply sum_perm, Permutation_map, extract_perm; [| |  |done].
  - by destruct l.
  - by apply overlay_lays_tiles.
  - destruct Hline as [H|H]; [left|right]; intros Hs; apply H.
    + eapply spans_rows_positions; [|exact Hs].
      apply norm_additions_positions.
    + eapply spans_cols_positions; [|exact Hs].
      apply norm_additions_positions.
Qed.

(** X22. On a 15 by 15 board, for tiles inside the grid, on one row or one
    column and at pairwise distinct positions, [score_calculator] gives the
    same score whatever the order in which the tiles are listed. *)
Theorem score_ignores_tile_order (rule : Rule) (b : board)
    (additions additions' : list addition) (bingo : bool) :
  board_shape b -> Forall inside_grid additions ->
  ~ spans_rows additions \/ ~ spans_cols additions ->
  distinct_positions additions ->
  additions ≡ₚ additions' ->
  score_calculator rule b additions bingo
  = score_calculator rule b additions' bingo.
Proof.
  intros Hb Hin Hline Hnd Hperm.
  destruct additions as [|a rest].
  - apply Permutation_nil_l in Hperm. by subst.
  - destruct additions' as [|a' rest'];
      [by apply Permutation_nil_r in Hperm|].
    unfold score_calculator.
    rewrite (words_total_perm rule b (a :: rest) (a' :: rest')) by done.
    unfold norm_additions_of. rewrite !length_map.
    by rewrite (Permutation_length Hperm).
Qed.

(** STAR extended to STAReD with a blank for the E: both orders of the two
    tiles give the same score. *)
Lemma score_ignores_tile_order_witness :
  score_calculator sample_rule star_board
    [("e"%char, (7, 10)); ("D"%char, (7, 11))] false
  = score_calculator sample_rule star_board
      [("D"%char, (7, 11)); ("e"%char, (7, 10))] false.
Proof.
  apply score_ignores_tile_order.
  - split; [reflexivity|]. repeat constructor.
  - repeat constructor; vm_compute; congruence.
  - left. intros (a & a' & Ha & Ha' & Hne). apply Hne.
    repeat (apply elem_of_cons in Ha as [->|Ha]; [|]);
      repeat (apply elem_of_cons in Ha' as [->|Ha']; [|]);
      try done; by apply elem_of_nil in Ha || by apply elem_of_nil in Ha'.
  - unfold distinct_positions. apply (proj1 (bool_decide_eq_true _)).
    vm_compute. reflexivity.
  - apply perm_swap.
Defined.

Example score_of_stared_example :
  score_calculator sample_rule star_board
    [("D"%char, (7, 11)); ("e"%char, (7, 10))] false = 8.
Proof. vm_compute. reflexivity. Qed.

(** * The words a move forms, and its score *)

(** Two maximal runs of a line that share a cell are the same run. *)
Lemma maximal_run_unique (occ : Z -> bool) (lo hi lo' hi' x : Z) :
  maximal_run occ lo hi -> maximal_run occ lo' hi' ->
  lo <= x <= hi -> lo' <= x <= hi' -> lo = lo' /\ hi = hi'.
Proof.
  intros (H0 & H1 & H2 & Hocc & Hl & Hr) (H0' & H1' & H2' & Hocc' & Hl' & Hr')
         Hx Hx'.
  split.
  - destruct (Z.lt_trichotomy lo lo') as [Hlt|[Heq|Hgt]]; [|done|].
    + destruct Hl' as [?|Hf]; [lia|]. rewrite Hocc in Hf by lia. done.
    + destruct Hl as [?|Hf]; [lia|]. rewrite Hocc' in Hf by lia. done.
  - destruct (Z.lt_trichotomy hi hi') as [Hlt|[Heq|Hgt]]; [|done|].
    + destruct Hr as [?|Hf]; [lia|]. rewrite Hocc' in Hf by lia. done.
    + destruct Hr' as [?|Hf]; [lia|]. rewrite Hocc in Hf by lia. done.
Qed.

(** Walking from a cell of a maximal run to both ends finds the run. *)
Lemma run_ends_through (occ : Z -> bool) (at_ lo hi : Z) :
  lo <= at_ <= hi -> maximal_run occ lo hi -> run_ends occ at_ = (lo, hi).
Proof.
  intros Hat Hrun.
  assert (0 <= at_ < 15) as Hgrid by (destruct Hrun as (? & ? & ? & _); lia).
  assert (occ at_ = true) as Hocc
    by (destruct Hrun as (_ & _ & _ & Hocc & _); by apply Hocc).
  destruct (run_ends_spec occ at_ Hgrid Hocc) as [Hin Hrun'].
  destruct (maximal_run_unique _ _ _ _ _ at_ Hrun' Hrun Hin Hat) as [E1 E2].
  destruct (run_ends occ at_); simpl in *; congruence.
Qed.

Lemma expand_horizontal_ends (t : board) (r c : Z) :
  Legacy.expand_horizontal t r c
  = map (fun j => (r, j))
        (range (fst (run_ends (fun j => occupied (cell_at t r j)) c))
               (snd (run_ends (fun j => occupied (cell_at t r j)) c) + 1)).
Proof. reflexivity. Qed.

Lemma expand_vertical_ends (t : board) (r c : Z) :
  Legacy.expand_vertical t r c
  = map (fun i => (i, c))
        (range (fst (run_ends (fun i => occupied (cell_at t i c)) r))
               (snd (run_ends (fun i => occupied (cell_at t i c)) r) + 1)).
Proof. reflexivity. Qed.

Lemma longer_than_one_run (mk : Z -> Z * Z) (lo hi : Z) :
  lo < hi ->
  Legacy.longer_than_one (map mk (range lo (hi + 1)))
  = [map mk (range lo (hi + 1))].
Proof.
  intros Hlt. unfold Legacy.longer_than_one.
  rewrite length_map, range_length.
  assert ((1 <? Z.to_nat (hi + 1 - lo))%nat = true) as ->; [|done].
  apply Nat.ltb_lt. lia.
Qed.

Lemma word_in_row_scan (t : board) (r lo hi c : Z) (w : list (Z * Z)) :
  lo <= c <= hi -> word_in_row t r lo hi w ->
  w ∈ Legacy.longer_than_one (Legacy.expand_horizontal t r c).
Proof.
  intros Hc (-> & Hlt & Hrun).
  rewrite expand_horizontal_ends, (run_ends_through _ c lo hi Hc Hrun).
  cbn [fst snd]. rewrite longer_than_one_run by done.
  apply list_elem_of_singleton. done.
Qed.

Lemma word_in_column_scan (t : board) (c lo hi r : Z) (w : list (Z * Z)) :
  lo <= r <= hi -> word_in_column t c lo hi w ->
  w ∈ Legacy.longer_than_one (Legacy.expand_vertical t r c).
Proof.
  intros Hr (-> & Hlt & Hrun).
  rewrite expand_vertical_ends, (run_ends_through _ r lo hi Hr Hrun).
  cbn [fst snd]. rewrite longer_than_one_run by done.
  apply list_elem_of_singleton. done.
Qed.

(** The words through the tiles of [l] on the board [t] are what
    walking from each tile along its row and along its column finds. *)
Lemma words_through_tiles (t : board) (l : list addition) (w : list (Z * Z)) :
  tiles_laid t l ->
  (exists a lo hi,
     a ∈ l
     /\ ((lo <= col_of a <= hi /\ word_in_row t (row_of a) lo hi w)
         \/ (lo <= row_of a <= hi /\ word_in_column t (col_of a) lo hi w)))
  <-> exists a,
        a ∈ l
        /\ (w ∈ Legacy.longer_than_one
                  (Legacy.expand_horizontal t (row_of a) (col_of a))
            \/ w ∈ Legacy.longer_than_one
                     (Legacy.expand_vertical t (row_of a) (col_of a))).
Proof.
  intros Hlaid. split.
  - intros (a & lo & hi & Ha & [[Hin Hw]|[Hin Hw]]); exists a; (split; [done|]).
    + left. by eapply word_in_row_scan.
    + right. by eapply word_in_column_scan.
  - intros (a & Ha & Hw).
    assert ((0 <= row_of a < 15 /\ 0 <= col_of a < 15)
            /\ occupied (cell_at t (row_of a) (col_of a)) = true)
      as [[Hr Hc] Hocc].
    { eapply Forall_forall in Hlaid; [|exact Ha].
      destruct Hlaid as [H1 H2]. split; [exact H1|by apply occupied_test]. }
    destruct Hw as [Hw|Hw].
    + apply horizontal_run in Hw as (lo & hi & Hin & Hword); [|done..].
      exists a, lo, hi. split; [done|]. by left.
    + apply vertical_run in Hw as (lo & hi & Hin & Hword); [|done..].
      exists a, lo, hi. split; [done|]. by right.
Qed.

(** With no empty cell between two tiles of a row, the runs through
    them are one run. *)
Lemma joined_in_row (t : board) (r c c' : Z) :
  0 <= c -> c <= c' -> c' < 15 ->
  (forall j, c <= j <= c' -> cell_at t r j <> None) ->
  Legacy.expand_horizontal t r c' = Legacy.expand_horizontal t r c.
Proof.
  intros H0 Hle H15 Hfull. rewrite !expand_horizontal_ends.
  set (occ := fun j => occupied (cell_at t r j)).
  assert (forall j, c <= j <= c' -> occ j = true) as Hocc.
  { intros j Hj. apply occupied_test. by apply Hfull. }
  destruct (run_ends_spec occ c) as [Hin Hrun]; [lia|apply Hocc; lia|].
  assert (c' <= snd (run_ends occ c)) as Hhi.
  { destruct (Z_le_gt_dec c' (snd (run_ends occ c))) as [?|Hgt]; [done|].
    destruct Hrun as (_ & _ & _ & _ & _ & [Hr|Hr]); [lia|].
    rewrite Hocc in Hr by lia. done. }
  assert (fst (run_ends occ c) <= c' <= snd (run_ends occ c)) as Hc' by lia.
  by rewrite (run_ends_through occ c' _ _ Hc' Hrun), <- surjective_pairing.
Qed.

Lemma joined_in_column (t : board) (c r r' : Z) :
  0 <= r -> r <= r' -> r' < 15 ->
  (forall i, r <= i <= r' -> cell_at t i c <> None) ->
  Legacy.expand_vertical t r' c = Legacy.expand_vertical t r c.
Proof.
  intros H0 Hle H15 Hfull. rewrite !expand_vertical_ends.
  set (occ := fun i => occupied (cell_at t i c)).
  assert (forall i, r <= i <= r' -> occ i = true) as Hocc.
  { intros i Hi. apply occupied_test. by apply Hfull. }
  destruct (run_ends_spec occ r) as [Hin Hrun]; [lia|apply Hocc; lia|].
  assert (r' <= snd (run_ends occ r)) as Hhi.
  { destruct (Z_le_gt_dec r' (snd (run_ends occ r))) as [?|Hgt]; [done|].
    destruct Hrun as (_ & _ & _ & _ & _ & [Hr|Hr]); [lia|].
    rewrite Hocc in Hr by lia. done. }
  assert (fst (run_ends occ r) <= r' <= snd (run_ends occ r)) as Hr' by lia.
  by rewrite (run_ends_through occ r' _ _ Hr' Hrun), <- surjective_pairing.
Qed.

(** For tiles of one line with no empty cell between them, the word
    extraction returns the words through the tiles, all of them. *)
Lemma extraction_finds_the_words (t : board) (l : list addition)
    (w : list (Z * Z)) :
  l <> [] -> tiles_laid t l ->
  ~ spans_rows l \/ ~ spans_cols l ->
  (forall a a' r c, a ∈ l -> a' ∈ l ->
     row_of a <= r <= row_of a' -> col_of a <= c <= col_of a' ->
     cell_at t r c <> None) ->
  w ∈ _extract_word_positions t l
  <-> exists a,
        a ∈ l
        /\ (w ∈ Legacy.longer_than_one
                  (Legacy.expand_horizontal t (row_of a) (col_of a))
            \/ w ∈ Legacy.longer_than_one
                     (Legacy.expand_vertical t (row_of a) (col_of a))).
Proof.
  intros nonempty Hlaid Hline Hjoined.
  assert (forall a, a ∈ l -> 0 <= row_of a < 15 /\ 0 <= col_of a < 15) as Hgrid.
  { intros a Ha. eapply Forall_forall in Hlaid; [|exact Ha]. apply Hlaid. }
  destruct (one_line_cases l nonempty Hline) as [[r Hr]|[Hrows [c Hc]]].
  - rewrite (extract_one_row t l r) by done.
    destruct (min_is_a_coordinate l col_of nonempty) as (a0 & Ha0 & Hmin & _).
    assert (forall a, a ∈ l ->
              Legacy.expand_horizontal t (row_of a) (col_of a)
              = Legacy.expand_horizontal t r (np_min (map col_of l))) as Hmain.
    { intros a Ha. rewrite (Hr a Ha), <- Hmin.
      assert (col_of a0 <= col_of a) as Hle.
      { rewrite Hmin. apply np_min_least; [by destruct l|].
        by apply list_elem_of_fmap_2. }
      destruct (Hgrid a Ha) as [_ ?]. destruct (Hgrid a0 Ha0) as [_ ?].
      apply joined_in_row; [lia..|].
      intros j Hj. apply (Hjoined a0 a); [done|done| |done].
      rewrite (Hr a0 Ha0), (Hr a Ha). lia. }
    rewrite elem_of_app. split.
    + intros [Hw|Hw].
      * exists a0. split; [done|]. left. by rewrite Hmain.
      * apply list_elem_of_In, in_flat_map in Hw as (a & Ha & Hw).
        apply list_elem_of_In in Ha, Hw. exists a. split; [done|]. by right.
    + intros (a & Ha & [Hw|Hw]).
      * left. by rewrite <- (Hmain a Ha).
      * right. apply list_elem_of_In, in_flat_map. exists a.
        split; by apply list_elem_of_In.
  - rewrite (extract_one_column t l c) by done.
    destruct (min_is_a_coordinate l row_of nonempty) as (a0 & Ha0 & Hmin & _).
    assert (forall a, a ∈ l ->
              Legacy.expand_vertical t (row_of a) (col_of a)
              = Legacy.expand_vertical t (np_min (map row_of l)) c) as Hmain.
    { intros a Ha. rewrite (Hc a Ha), <- Hmin.
      assert (row_of a0 <= row_of a) as Hle.
      { rewrite Hmin. apply np_min_least; [by destruct l|].
        by apply list_elem_of_fmap_2. }
      destruct (Hgrid a Ha) as [? _]. destruct (Hgrid a0 Ha0) as [? _].
      apply joined_in_column; [lia..|].
      intros i Hi. apply (Hjoined a0 a); [done|done|done|].
      rewrite (Hc a0 Ha0), (Hc a Ha). lia. }
    rewrite elem_of_app. split.
    + intros [Hw|Hw].
      * exists a0. split; [done|]. right. by rewrite Hmain.
      * apply list_elem_of_In, in_flat_map in Hw as (a & Ha & Hw).
        apply list_elem_of_In in Ha, Hw. exists a. split; [done|]. by left.
    + intros (a & Ha & [Hw|Hw]).
      * right. apply list_elem_of_In, in_flat_map. exists a.
        split; by apply list_elem_of_In.
      * left. by rewrite <- (Hmain a Ha).
Qed.

(** The tiles as they are laid: the same cells, letters in upper case. *)
Lemma elem_of_norm_additions (additions : list addition) (a : addition) :
  a ∈ norm_additions_of additions
  <-> exists a0, a0 ∈ additions
                 /\ a = (char_upper (letter_of a0), pos_of a0).
Proof.
  unfold norm_additions_of. rewrite list_elem_of_fmap.
  split; intros (a0 & H1 & H2); by exists a0.
Qed.

(** [word_formed], read on the tiles as they are laid. *)
Lemma word_formed_scan (b : board) (additions : list addition)
    (w : list (Z * Z)) :
  board_shape b -> Forall inside_grid additions ->
  word_formed b additions w
  <-> exists a,
        a ∈ norm_additions_of additions
        /\ (w ∈ Legacy.longer_than_one
                  (Legacy.expand_horizontal (board_after b additions)
                                            (row_of a) (col_of a))
            \/ w ∈ Legacy.longer_than_one
                     (Legacy.expand_vertical (board_after b additions)
                                             (row_of a) (col_of a))).
Proof.
  intros Hb Hin.
  rewrite <- (words_through_tiles (board_after b additions))
    by (by apply overlay_lays_tiles).
  unfold word_formed. split.
  - intros (a & lo & hi & Ha & H).
    exists (char_upper (letter_of a), pos_of a), lo, hi.
    split; [|exact H]. apply elem_of_norm_additions. by exists a.
  - intros (a & lo & hi & Ha & H).
    apply elem_of_norm_additions in Ha as (a0 & Ha0 & ->).
    by exists a0, lo, hi.
Qed.

(** The position lists the word extraction returns for a placement
    inside the grid, on one line, with no cell named twice and no empty
    cell between its tiles: the words the move forms, each one once. *)
Lemma extracted_words_formed (b : board) (additions : list addition) :
  additions <> [] ->
  board_shape b -> Forall inside_grid additions ->
  ~ spans_rows additions \/ ~ spans_cols additions ->
  distinct_positions additions -> tiles_joined b additions ->
  NoDup (_extract_word_positions (board_after b additions)
                                 (norm_additions_of additions))
  /\ forall w,
       w ∈ _extract_word_positions (board_after b additions)
                                   (norm_additions_of additions)
       <-> word_formed b additions w.
Proof.
  intros nonempty Hb Hin Hline Hnd Hjoined.
  set (norm := norm_additions_of additions).
  set (t := board_after b additions).
  assert (norm <> []) as Hne by (by destruct additions).
  assert (tiles_laid t norm) as Hlaid by (by apply overlay_lays_tiles).
  assert (~ spans_rows norm \/ ~ spans_cols norm) as Hline'.
  { destruct Hline as [H|H]; [left|right]; intros H'; apply H.
    - eapply spans_rows_positions; [apply norm_additions_positions|done].
    - eapply spans_cols_positions; [apply norm_additions_positions|done]. }
  assert (distinct_positions norm) as Hnd'.
  { unfold distinct_positions, norm. by rewrite norm_additions_positions. }
  split.
  - rewrite words_by_scanning by done. by apply words_of_move_NoDup.
  - intros w. rewrite word_formed_scan by done.
    apply extraction_finds_the_words; [done..|].
    intros a a' r c (a0 & Ha0 & ->)%elem_of_norm_additions
           (a1 & Ha1 & ->)%elem_of_norm_additions.
    apply (Hjoined a0 a1); done.
Qed.

Lemma no_word_without_tiles (b : board) (w : list (Z * Z)) :
  ~ word_formed b [] w.
Proof. intros (a & lo & hi & Ha & _). by apply elem_of_nil in Ha. Qed.

(** The calculator's total is the same over any list of the formed
    words without repetition. *)
Lemma score_over_formed_words (rule : Rule) (b : board)
    (additions : list addition) (bingo : bool) (words : list (list (Z * Z))) :
  board_shape b -> Forall inside_grid additions ->
  ~ spans_rows additions \/ ~ spans_cols additions ->
  distinct_positions additions -> tiles_joined b additions ->
  NoDup words -> (forall w, w ∈ words <-> word_formed b additions w) ->
  score_calculator rule b additions bingo
  = foldr Z.add 0 (map (wordScore rule b additions) words)
    + match additions with
      | [] => 0
      | _ => if bingo || (length additions =? 7)%nat then 50 else 0
      end.
Proof.
  intros Hb Hin Hline Hnd Hjoined Hwords Hformed.
  rewrite score_over_extracted_words. f_equal.
  destruct (decide (additions = [])) as [->|nonempty].
  - destruct words as [|w words]; [done|].
    exfalso. apply (no_word_without_tiles b w), Hformed. left.
  - destruct (extracted_words_formed b additions nonempty Hb Hin Hline Hnd Hjoined)
      as [Hnd' Hiff].
    apply sum_perm, Permutation_map, NoDup_Permutation; [done..|].
    intros w. by rewrite Hiff, Hformed.
Qed.


(** An unbroken run of cells leaves no empty cell between its tiles. *)
Lemma unbroken_run_joined (b : board) (additions : list addition) :
  board_shape b -> Forall inside_grid additions ->
  unbroken_run additions -> tiles_joined b additions.
Proof.
  intros Hb Hin (lo & Hrun) a a' r c Ha Ha' Hr Hc.
  assert (forall p, p ∈ map pos_of additions ->
            cell_at (board_after b additions) (fst p) (snd p) <> None) as Hlaid.
  { intros p (x & -> & Hx)%list_elem_of_fmap.
    pose proof (overlay_lays_tiles b additions Hb Hin) as H.
    eapply Forall_forall in H;
      [|apply elem_of_norm_additions; by exists x].
    apply H. }
  assert (pos_of a ∈ map pos_of additions) as Hp
    by (by apply list_elem_of_fmap_2).
  assert (pos_of a' ∈ map pos_of additions) as Hp'
    by (by apply list_elem_of_fmap_2).
  apply (Hlaid (r, c)).
  destruct Hrun as [(r0 & Hperm)|(c0 & Hperm)]; rewrite Hperm in Hp, Hp' |- *;
    apply list_elem_of_fmap in Hp as (j & Hj & Hjin);
    apply list_elem_of_fmap in Hp' as (j' & Hj' & Hjin');
    apply elem_of_range in Hjin, Hjin';
    unfold row_of, col_of in Hr, Hc; fold (pos_of a) in Hr, Hc;
    fold (pos_of a') in Hr, Hc; rewrite Hj, Hj' in Hr, Hc; simpl in Hr, Hc.
  - apply list_elem_of_fmap. exists c. split; [f_equal; lia|].
    apply elem_of_range. lia.
  - apply list_elem_of_fmap. exists r. split; [f_equal; lia|].
    apply elem_of_range. lia.
Qed.

(** What the geometry check accepts lies in the grid, on free cells,
    in one row or one column. *)
Lemma accepted_in_line (b : board) (additions : list addition) :
  _verify_word_addition b additions = Ok true ->
  additions <> []
  /\ Forall inside_grid additions /\ free_cells b additions
  /\ (~ spans_rows additions \/ ~ spans_cols additions).
Proof.
  intros Hok.
  destruct (verify_ok_accepts b additions true Hok) as [_ Hnot].
  destruct (verify_ok_cells b additions Hok) as [Hin Hfree].
  assert (additions <> []) as Hne by (intros ->; apply Hnot; by left).
  split; [done|]. split; [done|]. split; [done|].
  destruct (length (np_unique (map row_of additions)) =? 1)%nat eqn:Eone.
  - left. rewrite <- spans_rows_unique. apply Nat.eqb_eq in Eone. lia.
  - right. intros Hcols. apply Hnot. do 3 right. left.
    split; [by apply one_row_or_many|done].
Qed.

(** With no cell named twice, what the geometry check accepts is an
    unbroken run of cells, so its tiles are joined. *)
Lemma accepted_unbroken (b : board) (additions : list addition) :
  _verify_word_addition b additions = Ok true ->
  distinct_positions additions -> unbroken_run additions.
Proof.
  intros Hok Hnd.
  destruct (accepted_in_line b additions Hok) as (Hne & Hin & Hfree & Hline).
  rewrite (verify_in_line b additions Hne Hin Hfree Hline) in Hok.
  cbv zeta in Hok.
  assert (exists a0, a0 ∈ additions) as [a0 Ha0].
  { destruct additions as [|a0 ?]; [done|]. exists a0. left. }
  destruct (length (np_unique (map row_of additions)) =? 1)%nat eqn:Eone.
  - apply Nat.eqb_eq, np_unique_length_1 in Eone as [_ Hall].
    assert (forall a, a ∈ additions -> row_of a = row_of a0) as Hrow.
    { intros a Ha. apply Hall; by apply list_elem_of_fmap_2. }
    destruct (np_ptp (map col_of additions) + 1 =? Z.of_nat (length additions))
      eqn:Espan; [|done].
    apply Z.eqb_eq in Espan. rewrite <- (length_map col_of) in Espan.
    apply ptp_run in Espan as [lo Hperm];
      [|by destruct additions|by apply (distinct_in_row additions (row_of a0))].
    rewrite length_map in Hperm.
    exists lo. left. exists (row_of a0).
    rewrite (positions_in_row additions (row_of a0) Hrow).
    by apply Permutation_map.
  - apply one_row_or_many in Eone as Hspans; [|done].
    destruct Hline as [?|Hcolumn]; [done|].
    assert (forall a, a ∈ additions -> col_of a = col_of a0) as Hcol.
    { intros a Ha. destruct (decide (col_of a = col_of a0)) as [|Hx]; [done|].
      exfalso. apply Hcolumn. exists a, a0. eauto. }
    destruct (np_ptp (map row_of additions) + 1 =? Z.of_nat (length additions))
      eqn:Espan; [|done].
    apply Z.eqb_eq in Espan. rewrite <- (length_map row_of) in Espan.
    apply ptp_run in Espan as [lo Hperm];
      [|by destruct additions
       |by apply (distinct_in_column additions (col_of a0))].
    rewrite length_map in Hperm.
    exists lo. right. exists (col_of a0).
    rewrite (positions_in_column additions (col_of a0) Hcol).
    by apply Permutation_map.
Qed.

Lemma accepted_tiles_joined (b : board) (additions : list addition) :
  board_shape b ->
  _verify_word_addition b additions = Ok true ->
  distinct_positions additions -> tiles_joined b additions.
Proof.
  intros Hb Hok Hnd.
  destruct (accepted_in_line b additions Hok) as (_ & Hin & _).
  apply unbroken_run_joined; [done..|]. by eapply accepted_unbroken.
Qed.

(** So the formula holds for every placement the geometry check
    accepts that names no cell twice. *)
Corollary score_of_accepted_placement (rule : Rule) (b : board)
    (additions : list addition) (bingo : bool) (words : list (list (Z * Z))) :
  board_shape b ->
  _verify_word_addition b additions = Ok true ->
  distinct_positions additions ->
  NoDup words -> (forall w, w ∈ words <-> word_formed b additions w) ->
  score_calculator rule b additions bingo
  = foldr Z.add 0 (map (wordScore rule b additions) words)
    + (if bingo || (length additions =? 7)%nat then 50 else 0).
Proof.
  intros Hb Hok Hnd Hwords Hformed.
  destruct (accepted_in_line b additions Hok) as (Hne & Hin & _ & Hline).
  rewrite (score_over_formed_words rule b additions bingo words);
    [by destruct additions|done..| |done|done].
  by apply accepted_tiles_joined.
Qed.


(** Why the tiles must be joined.  With X on (7,3) and Y on (7,5),
    next to STAR, the move forms YSTAR, worth 8; the calculator looks
    at the run through the least cell only and scores 0.  The geometry
    check refuses this placement. *)
Example score_skips_a_word_across_a_gap :
  (forall w, word_formed star_board gapped_tiles w
             <-> w = [(7, 5); (7, 6); (7, 7); (7, 8); (7, 9)])
  /\ wordScore sample_rule star_board gapped_tiles
               [(7, 5); (7, 6); (7, 7); (7, 8); (7, 9)] = 8
  /\ score_calculator sample_rule star_board gapped_tiles false = 0
  /\ _verify_word_addition star_board gapped_tiles
     = Raise (ValueError NotContinuous).
Proof.
  set (additions := gapped_tiles).
  split; [|split; [vm_compute; reflexivity|split; vm_compute; reflexivity]].
  intros w. rewrite word_formed_scan;
    [|split; [reflexivity|repeat constructor]
     |repeat constructor; vm_compute; congruence].
  assert (norm_additions_of additions = additions) as -> by reflexivity.
  assert (Legacy.longer_than_one
            (Legacy.expand_horizontal (board_after star_board additions) 7 3)
          = []) as H1 by (vm_compute; reflexivity).
  assert (Legacy.longer_than_one
            (Legacy.expand_vertical (board_after star_board additions) 7 3)
          = []) as H2 by (vm_compute; reflexivity).
  assert (Legacy.longer_than_one
            (Legacy.expand_horizontal (board_after star_board additions) 7 5)
          = [[(7, 5); (7, 6); (7, 7); (7, 8); (7, 9)]]) as H3
    by (vm_compute; reflexivity).
  assert (Legacy.longer_than_one
            (Legacy.expand_vertical (board_after star_board additions) 7 5)
          = []) as H4 by (vm_compute; reflexivity).
  split.
  - intros (a & Ha & Hw).
    repeat (apply elem_of_cons in Ha as [->|Ha]);
      [| |by apply elem_of_nil in Ha];
      change (row_of _) with 7 in Hw;
      first [change (col_of _) with 3 in Hw; rewrite H1, H2 in Hw
            |change (col_of _) with 5 in Hw; rewrite H3, H4 in Hw];
      destruct Hw as [Hw|Hw];
      first [by apply elem_of_nil in Hw|by apply list_elem_of_singleton in Hw].
  - intros ->. exists ("Y"%char, (7, 5)). split; [right; left|]. left.
    change (row_of _) with 7. change (col_of _) with 5. rewrite H3. left.
Qed.


Example score_to_above_star :
  score_calculator sample_rule star_board to_above_star false = 4
  /\ map (wordScore sample_rule star_board to_above_star)
         [[(6, 8); (6, 9)]; [(6, 8); (7, 8)]; [(6, 9); (7, 9)]]
     = [1; 1; 2].
Proof. split; vm_compute; reflexivity. Qed.
